(** * dwarflint: the structural DWARF checker of elfutils

    A shallow embedding of the parts of [src/dwarflint.c] that carry the
    checker's stated properties: the diagnostic selector (message
    criteria in disjunctive normal form), the address records, the
    abbreviation tables, the relocation cursor, the location-expression
    validator, the location/range list pass and the CU pass.

    Unsigned machine integers are values of [Z] with their wrap-around
    written out ([wrap32], [wrap64]); arrays are lists indexed by [nat];
    the diagnostics a checker emits are collected as a trace of calls
    ([wr_error], [wr_warning], [wr_message]) which the [Diagnostics]
    layer turns into printed lines and into the error counter.  A
    diagnostic is identified by its coordinate and its format string,
    written without the arguments of the format and without the final
    newline. *)

From Equations Require Import Equations.
From Stdlib Require Import String ZArith List Bool Lia Sorted Arith Permutation.
#[local] Set Warnings "-register-all".
Import ListNotations.
Local Open Scope Z_scope.

(** ** Machine integers *)

Definition UINT32_MOD : Z := 2 ^ 32.
Definition UINT64_MOD : Z := 2 ^ 64.
Definition UINT64_MAX : Z := 2 ^ 64 - 1.

Definition wrap32 (z : Z) : Z := z mod UINT32_MOD.
Definition wrap64 (z : Z) : Z := z mod UINT64_MOD.

(** Conversion of an unsigned value to [int] (two's complement on the
    low 32 bits), as in [return aa->code - bb->code;]. *)
Definition to_int32 (z : Z) : Z :=
  let r := wrap32 z in if r <? 2 ^ 31 then r else r - UINT32_MOD.

(** Conversion to [int16_t], as in [int16_t skip = (uint16_t)value1;]. *)
Definition to_int16 (z : Z) : Z :=
  let r := z mod 2 ^ 16 in if r <? 2 ^ 15 then r else r - 2 ^ 16.

(** ** Where: the coordinate of a diagnostic

    [struct where] is declared in dwarflint.h; its fields are the ones
    dwarflint.c reads and writes.  An absent key is [(uint64_t)-1]. *)

Inductive section_id : Set :=
| sec_invalid | sec_info | sec_abbrev | sec_aranges | sec_pubnames
| sec_pubtypes | sec_str | sec_line | sec_loc | sec_mac | sec_ranges
| sec_locexpr | sec_rel | sec_rela
  (* the non-section targets of a relocation *)
| rel_value | rel_address | rel_exec.

Definition section_id_eq_dec (a b : section_id) : {a = b} + {a <> b}.
Proof. decide equality. Defined.

Definition section_id_eqb (a b : section_id) : bool :=
  if section_id_eq_dec a b then true else false.

(** How a call ends: it returns, or an [assert] stops the process. *)
Inductive outcome (A : Type) : Type :=
| Returned (a : A)
| Aborted (assertion : string).
Arguments Returned {A} a.
Arguments Aborted {A} assertion.

Inductive where_ : Type :=
  mk_where {
      w_section : section_id;
      w_addr1 : Z;
      w_addr2 : Z;
      w_addr3 : Z;
      w_ref : option where_;
      w_next : option where_
    }.

(** The [WHERE (SECTION, NEXT)] initialiser. *)
Definition WHERE (s : section_id) (nxt : option where_) : where_ :=
  mk_where s UINT64_MAX UINT64_MAX UINT64_MAX None nxt.

Definition where_reset_1 (wh : where_) (addr : Z) : where_ :=
  mk_where (w_section wh) addr UINT64_MAX UINT64_MAX (w_ref wh) (w_next wh).

Definition where_reset_2 (wh : where_) (addr : Z) : where_ :=
  mk_where (w_section wh) (w_addr1 wh) addr UINT64_MAX (w_ref wh) (w_next wh).

Definition where_reset_3 (wh : where_) (addr : Z) : where_ :=
  mk_where (w_section wh) (w_addr1 wh) (w_addr2 wh) addr (w_ref wh) (w_next wh).

Definition where_set_ref (wh : where_) (r : option where_) : where_ :=
  mk_where (w_section wh) (w_addr1 wh) (w_addr2 wh) (w_addr3 wh) r (w_next wh).

Definition where_set_next (wh : where_) (n : option where_) : where_ :=
  mk_where (w_section wh) (w_addr1 wh) (w_addr2 wh) (w_addr3 wh) (w_ref wh) n.

(** The links [where_fmt_chain] walks: [wh->next], [wh->next->next], ... *)
Fixpoint where_links (wh : where_) : list where_ :=
  match wh with
  | mk_where _ _ _ _ _ None => []
  | mk_where _ _ _ _ _ (Some n) => n :: where_links n
  end.

(** ** DWARF constants *)

Module Dwarf.

(** The constants of libdw/dwarf.h that dwarflint.c names.  The header
    is not among the sources; the values are the ones the DWARF 3
    standard assigns. *)

(** Modelled from the spec: tag [DW_TAG_hi_user],
    with the value DWARF assigns. *)
Definition DW_TAG_hi_user : Z := 0xffff.
(** Modelled from the spec: attribute [DW_AT_hi_user],
    with the value DWARF assigns. *)
Definition DW_AT_hi_user : Z := 0x3fff.
(** Modelled from the spec: children flag [DW_CHILDREN_no],
    with the value DWARF assigns. *)
Definition DW_CHILDREN_no : Z := 0.
(** Modelled from the spec: children flag [DW_CHILDREN_yes],
    with the value DWARF assigns. *)
Definition DW_CHILDREN_yes : Z := 1.

(** Modelled from the spec: attribute [DW_AT_sibling],
    with the value DWARF assigns. *)
Definition DW_AT_sibling : Z := 0x01.
(** Modelled from the spec: attribute [DW_AT_location],
    with the value DWARF assigns. *)
Definition DW_AT_location : Z := 0x02.
(** Modelled from the spec: attribute [DW_AT_stmt_list],
    with the value DWARF assigns. *)
Definition DW_AT_stmt_list : Z := 0x10.
(** Modelled from the spec: attribute [DW_AT_low_pc],
    with the value DWARF assigns. *)
Definition DW_AT_low_pc : Z := 0x11.
(** Modelled from the spec: attribute [DW_AT_high_pc],
    with the value DWARF assigns. *)
Definition DW_AT_high_pc : Z := 0x12.
(** Modelled from the spec: attribute [DW_AT_data_member_location],
    with the value DWARF assigns. *)
Definition DW_AT_data_member_location : Z := 0x38.
(** Modelled from the spec: attribute [DW_AT_frame_base],
    with the value DWARF assigns. *)
Definition DW_AT_frame_base : Z := 0x40.
(** Modelled from the spec: attribute [DW_AT_data_location],
    with the value DWARF assigns. *)
Definition DW_AT_data_location : Z := 0x50.
(** Modelled from the spec: attribute [DW_AT_ranges],
    with the value DWARF assigns. *)
Definition DW_AT_ranges : Z := 0x55.

(** Modelled from the spec: form [DW_FORM_addr],
    with the value DWARF assigns. *)
Definition DW_FORM_addr : Z := 0x01.
(** Modelled from the spec: form [DW_FORM_block2],
    with the value DWARF assigns. *)
Definition DW_FORM_block2 : Z := 0x03.
(** Modelled from the spec: form [DW_FORM_block4],
    with the value DWARF assigns. *)
Definition DW_FORM_block4 : Z := 0x04.
(** Modelled from the spec: form [DW_FORM_data2],
    with the value DWARF assigns. *)
Definition DW_FORM_data2 : Z := 0x05.
(** Modelled from the spec: form [DW_FORM_data4],
    with the value DWARF assigns. *)
Definition DW_FORM_data4 : Z := 0x06.
(** Modelled from the spec: form [DW_FORM_data8],
    with the value DWARF assigns. *)
Definition DW_FORM_data8 : Z := 0x07.
(** Modelled from the spec: form [DW_FORM_string],
    with the value DWARF assigns. *)
Definition DW_FORM_string : Z := 0x08.
(** Modelled from the spec: form [DW_FORM_block],
    with the value DWARF assigns. *)
Definition DW_FORM_block : Z := 0x09.
(** Modelled from the spec: form [DW_FORM_block1],
    with the value DWARF assigns. *)
Definition DW_FORM_block1 : Z := 0x0a.
(** Modelled from the spec: form [DW_FORM_data1],
    with the value DWARF assigns. *)
Definition DW_FORM_data1 : Z := 0x0b.
(** Modelled from the spec: form [DW_FORM_flag],
    with the value DWARF assigns. *)
Definition DW_FORM_flag : Z := 0x0c.
(** Modelled from the spec: form [DW_FORM_sdata],
    with the value DWARF assigns. *)
Definition DW_FORM_sdata : Z := 0x0d.
(** Modelled from the spec: form [DW_FORM_strp],
    with the value DWARF assigns. *)
Definition DW_FORM_strp : Z := 0x0e.
(** Modelled from the spec: form [DW_FORM_udata],
    with the value DWARF assigns. *)
Definition DW_FORM_udata : Z := 0x0f.
(** Modelled from the spec: form [DW_FORM_ref_addr],
    with the value DWARF assigns. *)
Definition DW_FORM_ref_addr : Z := 0x10.
(** Modelled from the spec: form [DW_FORM_ref1],
    with the value DWARF assigns. *)
Definition DW_FORM_ref1 : Z := 0x11.
(** Modelled from the spec: form [DW_FORM_ref2],
    with the value DWARF assigns. *)
Definition DW_FORM_ref2 : Z := 0x12.
(** Modelled from the spec: form [DW_FORM_ref4],
    with the value DWARF assigns. *)
Definition DW_FORM_ref4 : Z := 0x13.
(** Modelled from the spec: form [DW_FORM_ref8],
    with the value DWARF assigns. *)
Definition DW_FORM_ref8 : Z := 0x14.
(** Modelled from the spec: form [DW_FORM_ref_udata],
    with the value DWARF assigns. *)
Definition DW_FORM_ref_udata : Z := 0x15.
(** Modelled from the spec: form [DW_FORM_indirect],
    with the value DWARF assigns. *)
Definition DW_FORM_indirect : Z := 0x16.

(** Modelled from the spec: operation [DW_OP_addr],
    with the value DWARF assigns. *)
Definition DW_OP_addr : Z := 0x03.
(** Modelled from the spec: operation [DW_OP_const8u],
    with the value DWARF assigns. *)
Definition DW_OP_const8u : Z := 0x0e.
(** Modelled from the spec: operation [DW_OP_const8s],
    with the value DWARF assigns. *)
Definition DW_OP_const8s : Z := 0x0f.
(** Modelled from the spec: operation [DW_OP_constu],
    with the value DWARF assigns. *)
Definition DW_OP_constu : Z := 0x10.
(** Modelled from the spec: operation [DW_OP_consts],
    with the value DWARF assigns. *)
Definition DW_OP_consts : Z := 0x11.
(** Modelled from the spec: operation [DW_OP_plus_uconst],
    with the value DWARF assigns. *)
Definition DW_OP_plus_uconst : Z := 0x23.
(** Modelled from the spec: operation [DW_OP_bra],
    with the value DWARF assigns. *)
Definition DW_OP_bra : Z := 0x28.
(** Modelled from the spec: operation [DW_OP_skip],
    with the value DWARF assigns. *)
Definition DW_OP_skip : Z := 0x2f.
(** Modelled from the spec: operation [DW_OP_deref_size],
    with the value DWARF assigns. *)
Definition DW_OP_deref_size : Z := 0x94.
(** Modelled from the spec: operation [DW_OP_call2],
    with the value DWARF assigns. *)
Definition DW_OP_call2 : Z := 0x98.
(** Modelled from the spec: operation [DW_OP_call4],
    with the value DWARF assigns. *)
Definition DW_OP_call4 : Z := 0x99.
(** Modelled from the spec: operation [DW_OP_call_ref],
    with the value DWARF assigns. *)
Definition DW_OP_call_ref : Z := 0x9a.

(** Modelled from the spec: initial-length escape [DWARF3_LENGTH_MIN_ESCAPE_CODE],
    with the value DWARF assigns. *)
Definition DWARF3_LENGTH_MIN_ESCAPE_CODE : Z := 0xfffffff0.
(** Modelled from the spec: initial-length escape [DWARF3_LENGTH_64_BIT],
    with the value DWARF assigns. *)
Definition DWARF3_LENGTH_64_BIT : Z := 0xffffffff.

End Dwarf.
(** ** Sorting

    [qsort] is the C library's.  It is stood in for by an insertion
    sort driven by the comparator the caller hands over: on an array on
    which the comparator is a total order this is the order every sort
    produces. *)

Section Qsort.
Context {A : Type} (cmp : A -> A -> Z).

Fixpoint qsort_insert (x : A) (sorted : list A) : list A :=
  match sorted with
  | [] => [x]
  | y :: rest => if cmp x y <=? 0 then x :: y :: rest
                 else y :: qsort_insert x rest
  end.

Definition qsort (l : list A) : list A :=
  fold_right qsort_insert [] l.
End Qsort.

(** ** Diagnostics *)

Module Diagnostics.

(** [enum message_category] is a bit set. *)
Definition message_category := Z.
Definition mc_none : message_category := 0.

Record message_term : Set :=
  mk_term { positive : message_category; negative : message_category }.

(** [struct message_criteria]: the array [terms[0 .. size)]. *)
Definition message_criteria := list message_term.

(** The vocabulary of MESSAGE_CATEGORIES as dwarflint.c uses it.  The
    table itself, which gives each category its identifier [ID] (the
    category is the bit [1 << ID]), is in dwarflint.h and is taken as
    a parameter; [ID_max] is the identifier of the table's last
    entry. *)
Inductive category : Set :=
| cat_impact_1 | cat_impact_2 | cat_impact_3 | cat_impact_4
| cat_acc_bloat | cat_acc_suboptimal | cat_error
| cat_leb128 | cat_abbrevs | cat_die_rel | cat_die_other | cat_info
| cat_strings | cat_aranges | cat_elf | cat_pubtables | cat_pubtypes
| cat_loc | cat_ranges | cat_line | cat_reloc | cat_header.

Definition category_eq_dec (a b : category) : {a = b} + {a <> b}.
Proof. decide equality. Defined.

Definition category_eqb (a b : category) : bool :=
  if category_eq_dec a b then true else false.

Class MessageCategories : Type :=
  {
    ID : category -> nat;
    ID_max : nat;
    ID_inj : forall a b, ID a = ID b -> a = b;
    ID_le_max : forall a, (ID a <= ID_max)%nat
  }.

(** A numbering for worked examples: the categories in the order of
    the declaration above, and nothing after them. *)
Definition example_ID (c : category) : nat :=
  match c with
  | cat_impact_1 => 0 | cat_impact_2 => 1 | cat_impact_3 => 2
  | cat_impact_4 => 3 | cat_acc_bloat => 4 | cat_acc_suboptimal => 5
  | cat_error => 6 | cat_leb128 => 7 | cat_abbrevs => 8 | cat_die_rel => 9
  | cat_die_other => 10 | cat_info => 11 | cat_strings => 12
  | cat_aranges => 13 | cat_elf => 14 | cat_pubtables => 15
  | cat_pubtypes => 16 | cat_loc => 17 | cat_ranges => 18 | cat_line => 19
  | cat_reloc => 20 | cat_header => 21
  end.

Definition example_categories : MessageCategories.
Proof.
  refine {| ID := example_ID; ID_max := 21 |}.
  - intros a b; destruct a, b; simpl; intros E;
      first [reflexivity | discriminate E].
  - intros a; destruct a; simpl; lia.
Defined.

Definition mc `{MessageCategories} (c : category) : message_category :=
  Z.shiftl 1 (Z.of_nat (ID c)).

(** [A | B | ...] on categories. *)
Fixpoint mcs `{MessageCategories} (cs : list category) : message_category :=
  match cs with
  | [] => mc_none
  | c :: rest => Z.lor (mc c) (mcs rest)
  end.

Definition term_matches (t : message_term) (cat : message_category) : bool :=
  (Z.land (positive t) cat =? positive t) && (Z.land (negative t) cat =? 0).

Fixpoint message_accept (cri : message_criteria) (cat : message_category)
  : bool :=
  match cri with
  | [] => false
  | t :: rest => if term_matches t cat then true else message_accept rest cat
  end.

Definition message_cri_or (cri : message_criteria) (term : message_term)
  : message_criteria := cri ++ [term].

(** [message_cri_and]: every term takes the masks of [term]; a term
    that becomes contradictory is overwritten by the last one and the
    array shrinks ([cri->terms[i] = cri->terms[--cri->size]]). *)
Definition set_nth {A : Type} (i : nat) (x : A) (l : list A) : list A :=
  firstn i l ++ x :: skipn (S i) l.

Equations? message_cri_and_loop (term : message_term)
  (terms : message_criteria) (i : nat) : message_criteria
  by wf (length terms - i)%nat lt :=
  message_cri_and_loop term terms i with lt_dec i (length terms) := {
    | right _ := terms
    | left _ :=
        let t := nth i terms (mk_term mc_none mc_none) in
        let t' := mk_term (Z.lor (positive t) (positive term))
                          (Z.lor (negative t) (negative term)) in
        let terms1 := set_nth i t' terms in
        if negb (Z.land (positive t') (negative t') =? 0)
        then message_cri_and_loop term
               (firstn (length terms - 1)
                  (set_nth i (nth (length terms - 1) terms1 t') terms1)) i
        else message_cri_and_loop term terms1 (S i) }.
Proof.
  all: repeat match goal with x := _ |- _ => subst x end.
  all: unfold set_nth; rewrite ?length_firstn, ?length_app; cbn [length];
    rewrite ?length_firstn, ?length_skipn, ?length_app; cbn [length];
    rewrite ?length_firstn, ?length_skipn; lia.
Qed.

Definition message_cri_and (cri : message_criteria) (term : message_term)
  : message_criteria := message_cri_and_loop term cri 0.

(** [message_cri_neg]: the loop [for (i = 0; i < max; ++i)], where [max]
    is the identifier of the last entry of MESSAGE_CATEGORIES.  [n]
    counts the iterations left, [i] is the loop variable. *)
Fixpoint message_cri_neg_loop (term : message_term) (n : nat) (i : Z)
  (ret : message_criteria) : message_criteria :=
  match n with
  | O => ret
  | S n' =>
      let mask := Z.shiftl 1 i in
      let ret' :=
        if negb (Z.land (positive term) mask =? 0)
        then message_cri_or ret (mk_term (Z.shiftl 1 i) mc_none)
        else if negb (Z.land (negative term) mask =? 0)
             then message_cri_or ret (mk_term mc_none (Z.shiftl 1 i))
             else ret in
      message_cri_neg_loop term n' (i + 1) ret'
  end.

Definition message_cri_neg (max : nat) (term : message_term)
  : message_criteria :=
  message_cri_neg_loop term max 0 [].

(** [message_cri_mul]: for every [i], for every [j], the merged term
    unless it is contradictory. *)
Definition mul_term (t1 t2 : message_term) : option message_term :=
  let p := Z.lor (positive t1) (positive t2) in
  let n := Z.lor (negative t1) (negative t2) in
  if negb (Z.land p n =? 0) then None else Some (mk_term p n).

Fixpoint mul_row (t1 : message_term) (rhs : message_criteria)
  : message_criteria :=
  match rhs with
  | [] => []
  | t2 :: rest =>
      match mul_term t1 t2 with
      | None => mul_row t1 rest
      | Some t => t :: mul_row t1 rest
      end
  end.

Fixpoint message_cri_mul (cri rhs : message_criteria) : message_criteria :=
  match cri with
  | [] => []
  | t1 :: rest => mul_row t1 rhs ++ message_cri_mul rest rhs
  end.

(** [message_cri_and_not]: note the exchange of the two masks in the
    argument handed to [message_cri_neg]. *)
Definition message_cri_and_not (max : nat) (cri : message_criteria)
  (term : message_term) : message_criteria :=
  message_cri_mul cri
    (message_cri_neg max (mk_term (negative term) (positive term))).

(** The command-line switches [parse_opt] sets. *)
Record flags : Set :=
  mk_flags {
      tolerate_nodebug : bool;  (* -i *)
      be_quiet : bool;          (* -q *)
      be_verbose : bool;        (* -v *)
      be_strict : bool;         (* --strict *)
      be_gnu : bool;            (* --gnu *)
      be_tolerant : bool;       (* --tolerant *)
      flag_show_refs : bool;    (* --ref *)
      do_high_level : bool      (* ! --nohl *)
    }.

(** The criteria as [main] assembles them before any file is read. *)
Definition main_warning_criteria `{MessageCategories} (f : flags)
  : message_criteria :=
  let w := message_cri_or [] (mk_term mc_none mc_none) in
  let w := if tolerate_nodebug f
           then message_cri_and w (mk_term mc_none (mc cat_elf)) else w in
  let w := if be_gnu f
           then message_cri_and w (mk_term mc_none (mc cat_acc_bloat))
           else w in
  let w := if negb (be_strict f)
           then
             let w := message_cri_and w (mk_term mc_none (mc cat_strings)) in
             let w := message_cri_and_not ID_max w
                        (mk_term (mcs [cat_line; cat_header; cat_acc_bloat])
                                 mc_none) in
             message_cri_and w (mk_term mc_none (mc cat_pubtypes))
           else w in
  if be_tolerant f
  then message_cri_and
         (message_cri_and w (mk_term mc_none (mc cat_loc)))
         (mk_term mc_none (mc cat_ranges))
  else w.

Definition main_error_criteria `{MessageCategories} : message_criteria :=
  message_cri_or
    (message_cri_or [] (mk_term (mc cat_impact_4) mc_none))
    (mk_term (mc cat_error) mc_none).

(** *** Emission *)

Inductive severity : Set := sev_error | sev_warning.

(** What reaches standard output: the diagnostic line itself
    ([printf ("error: %s", where_fmt (wh, NULL)); vprintf (format, ap);])
    and the lines of [where_fmt_chain], one per link. *)
Inductive out_line : Type :=
| Diag (sev : severity) (wh : option where_) (fmt : string)
| Caused (sev : severity) (link : where_)
| Plain (text : string).

Record config : Type :=
  mk_config {
      warning_criteria : message_criteria;
      error_criteria : message_criteria;
      show_refs : bool
    }.

(** The process-wide mutable part: standard output (oldest line
    first) and [static unsigned error_count]. *)
Record state : Type :=
  mk_state { stdout : list out_line; error_count : Z }.

Definition initial_state : state := mk_state [] 0.

Definition main_config `{MessageCategories} (f : flags) : config :=
  mk_config (main_warning_criteria f) main_error_criteria (flag_show_refs f).

Definition where_fmt_chain (cfg : config) (wh : option where_)
  (sev : severity) : list out_line :=
  match wh with
  | Some w => if show_refs cfg then map (Caused sev) (where_links w) else []
  | None => []
  end.

Definition wr_verror (cfg : config) (wh : option where_) (fmt : string)
  (st : state) : state :=
  mk_state (stdout st ++ Diag sev_error wh fmt
              :: where_fmt_chain cfg wh sev_error)
           (wrap32 (error_count st + 1)).

Definition wr_vwarning (cfg : config) (wh : option where_) (fmt : string)
  (st : state) : state :=
  mk_state (stdout st ++ Diag sev_warning wh fmt
              :: where_fmt_chain cfg wh sev_warning)
           (wrap32 (error_count st + 1)).

Definition wr_error := wr_verror.
Definition wr_warning := wr_vwarning.

Definition wr_message (cfg : config) (category : message_category)
  (wh : option where_) (fmt : string) (st : state) : state :=
  if message_accept (warning_criteria cfg) category
  then if message_accept (error_criteria cfg) category
       then wr_verror cfg wh fmt st
       else wr_vwarning cfg wh fmt st
  else st.

(** The calls a checker makes, in order; checkers below return such a
    trace and [run] replays it. *)
Inductive call : Type :=
| Error (wh : option where_) (fmt : string)
| Warning (wh : option where_) (fmt : string)
| Message (category : message_category) (wh : option where_) (fmt : string)
| Printf (text : string).

Definition exec (cfg : config) (c : call) (st : state) : state :=
  match c with
  | Error wh fmt => wr_error cfg wh fmt st
  | Warning wh fmt => wr_warning cfg wh fmt st
  | Message cat wh fmt => wr_message cfg cat wh fmt st
  | Printf text => mk_state (stdout st ++ [Plain text]) (error_count st)
  end.

Definition run (cfg : config) (cs : list call) (st : state) : state :=
  fold_left (fun s c => exec cfg c s) cs st.

(** [return error_count != 0;] at the end of [main]. *)
Definition exit_code (st : state) : Z :=
  if error_count st =? 0 then 0 else 1.

(** The diagnostic lines proper among printed lines. *)
Definition is_diag (l : out_line) : bool :=
  match l with Diag _ _ _ => true | _ => false end.

Definition diag_lines (ls : list out_line) : list out_line :=
  filter is_diag ls.

Definition line_severity (l : out_line) : option severity :=
  match l with
  | Diag s _ _ => Some s
  | Caused s _ => Some s
  | Plain _ => None
  end.

End Diagnostics.

(** ** ReadCtx: the bounded byte cursor *)

Module ReadCtx.

(** Modelled from the spec: the cursor of dwarflint-readctx.c, which
    is not among the sources.  A read cursor is a triple
    [(begin, ptr, end)] of positions in the bytes of one section, here
    counted from the start of the section's buffer, together with the
    byte order of the file.  Every reader returns success or failure;
    on success the cursor has advanced past what was read. *)
Record read_ctx : Type :=
  mk_ctx {
      c_data : list Z;
      c_big_endian : bool;
      c_begin : Z;
      c_ptr : Z;
      c_end : Z
    }.

(** Modelled from the spec: the cursor moved to position [p]. *)
Definition set_ptr (ctx : read_ctx) (p : Z) : read_ctx :=
  mk_ctx (c_data ctx) (c_big_endian ctx) (c_begin ctx) p (c_end ctx).

(** Modelled from the spec: [read_ctx_init], a cursor over the whole
    section. *)
Definition read_ctx_init (big_endian : bool) (data : list Z) : read_ctx :=
  mk_ctx data big_endian 0 0 (Z.of_nat (length data)).

(** Modelled from the spec: [read_ctx_init_sub]; a sub-cursor must
    satisfy [parent.begin <= sub.begin <= sub.end <= parent.end]. *)
Definition read_ctx_init_sub (parent : read_ctx) (begin end_ : Z)
  : option read_ctx :=
  if (c_begin parent <=? begin) && (begin <=? end_) && (end_ <=? c_end parent)
  then Some (mk_ctx (c_data parent) (c_big_endian parent) begin begin end_)
  else None.

(** Modelled from the spec: "offset" means [ptr - begin]. *)
Definition read_ctx_get_offset (ctx : read_ctx) : Z := c_ptr ctx - c_begin ctx.

(** Modelled from the spec: [need (n)], are [n] more bytes there. *)
Definition read_ctx_need_data (ctx : read_ctx) (n : Z) : bool :=
  (0 <=? n) && (n <=? c_end ctx - c_ptr ctx).

(** Modelled from the spec: [eof]. *)
Definition read_ctx_eof (ctx : read_ctx) : bool :=
  negb (read_ctx_need_data ctx 1).

(** Modelled from the spec: [skip (n)]. *)
Definition read_ctx_skip (ctx : read_ctx) (n : Z) : option read_ctx :=
  if read_ctx_need_data ctx n then Some (set_ptr ctx (c_ptr ctx + n)) else None.

(** Modelled from the spec: the byte of the section at position [p]. *)
Definition byte_at (ctx : read_ctx) (p : Z) : Z :=
  nth (Z.to_nat p) (c_data ctx) 0.

(** Modelled from the spec: [read_ubyte]. *)
Definition read_ctx_read_ubyte (ctx : read_ctx) : option (Z * read_ctx) :=
  if read_ctx_need_data ctx 1
  then Some (byte_at ctx (c_ptr ctx), set_ptr ctx (c_ptr ctx + 1))
  else None.

(** Modelled from the spec: the value of [n] bytes at [p], least
    significant first. *)
Fixpoint le_value (ctx : read_ctx) (p : Z) (n : nat) : Z :=
  match n with
  | O => 0
  | S n' => byte_at ctx p + 256 * le_value ctx (p + 1) n'
  end.

(** Modelled from the spec: the value of [n] bytes at [p], most
    significant first. *)
Fixpoint be_value (ctx : read_ctx) (p : Z) (n : nat) (acc : Z) : Z :=
  match n with
  | O => acc
  | S n' => be_value ctx (p + 1) n' (256 * acc + byte_at ctx p)
  end.

(** Modelled from the spec: the fixed-width readers, corrected for
    the file's byte order. *)
Definition read_fixed (ctx : read_ctx) (n : nat) : option (Z * read_ctx) :=
  if read_ctx_need_data ctx (Z.of_nat n)
  then Some (if c_big_endian ctx
             then be_value ctx (c_ptr ctx) n 0
             else le_value ctx (c_ptr ctx) n,
             set_ptr ctx (c_ptr ctx + Z.of_nat n))
  else None.

(** Modelled from the spec: [read_2ubyte]. *)
Definition read_ctx_read_2ubyte (ctx : read_ctx) := read_fixed ctx 2.
(** Modelled from the spec: [read_4ubyte]. *)
Definition read_ctx_read_4ubyte (ctx : read_ctx) := read_fixed ctx 4.
(** Modelled from the spec: [read_8ubyte]. *)
Definition read_ctx_read_8ubyte (ctx : read_ctx) := read_fixed ctx 8.

(** Modelled from the spec: [read_offset (is_64)], 4 or 8 bytes. *)
Definition read_ctx_read_offset (ctx : read_ctx) (is_64 : bool)
  : option (Z * read_ctx) :=
  if is_64 then read_ctx_read_8ubyte ctx else read_ctx_read_4ubyte ctx.

(** Modelled from the spec: what a LEB128 reader returns, failure
    (the status is negative), or the value, the bloat flag (the status is positive) and the
    cursor after the number. *)
Definition leb_result : Type := option (Z * bool * read_ctx).

(** Modelled from the spec: [read_uleb128].  Seven payload bits per
    byte, least significant group first, the top bit of a byte says
    that another byte follows; the bloat flag is set when the last
    byte adds nothing to the magnitude.  [avail] is the number of
    bytes left before [end]. *)
Fixpoint uleb128_loop (ctx : read_ctx) (p : Z) (avail : nat)
  (shift acc : Z) : leb_result :=
  match avail with
  | O => None
  | S avail' =>
      let byte := byte_at ctx p in
      let payload := Z.land byte 127 in
      let acc' := Z.lor acc (Z.shiftl payload shift) in
      if Z.land byte 128 =? 0
      then Some (wrap64 acc', (payload =? 0) && (0 <? shift),
                 set_ptr ctx (p + 1))
      else uleb128_loop ctx (p + 1) avail' (shift + 7) acc'
  end.

(** Modelled from the spec: [read_uleb128] from the cursor's position. *)
Definition read_ctx_read_uleb128 (ctx : read_ctx) : leb_result :=
  uleb128_loop ctx (c_ptr ctx) (Z.to_nat (c_end ctx - c_ptr ctx)) 0 0.

(** Modelled from the spec: [read_sleb128].  As above, the sign being
    bit 6 of the last byte; the value is handed back as the unsigned
    64-bit pattern of the signed number.  The last byte adds nothing
    when it only repeats the sign of the byte before it. *)
Fixpoint sleb128_loop (ctx : read_ctx) (p : Z) (avail : nat)
  (shift acc prev : Z) : leb_result :=
  match avail with
  | O => None
  | S avail' =>
      let byte := byte_at ctx p in
      let payload := Z.land byte 127 in
      let acc' := Z.lor acc (Z.shiftl payload shift) in
      if Z.land byte 128 =? 0
      then
        let negative := negb (Z.land byte 64 =? 0) in
        let value := if negative then acc' - Z.shiftl 1 (shift + 7) else acc' in
        let bloat :=
          (0 <? shift)
          && (if negative
              then (payload =? 127) && negb (Z.land prev 64 =? 0)
              else (payload =? 0) && (Z.land prev 64 =? 0)) in
        Some (wrap64 value, bloat, set_ptr ctx (p + 1))
      else sleb128_loop ctx (p + 1) avail' (shift + 7) acc' byte
  end.

(** Modelled from the spec: [read_sleb128] from the cursor's position. *)
Definition read_ctx_read_sleb128 (ctx : read_ctx) : leb_result :=
  sleb128_loop ctx (c_ptr ctx) (Z.to_nat (c_end ctx - c_ptr ctx)) 0 0 0.

End ReadCtx.
(** ** Readers that report, and the padding messages *)

Module Checked.
Import Diagnostics ReadCtx.

Section WithCategories.
Context `{MessageCategories}.

Definition wr_format_leb128_message (wh : where_) : call :=
  Message (mcs [cat_leb128; cat_acc_bloat; cat_impact_3]) (Some wh)
          ": %s: value %s encoded as `%s'.".

Definition checked_read_uleb128 (ctx : read_ctx) (wh : where_)
  : option (Z * read_ctx) * list call :=
  match read_ctx_read_uleb128 ctx with
  | None => (None, [Error (Some wh) ": can't read %s."])
  | Some (v, bloat, ctx') =>
      (Some (v, ctx'), if bloat then [wr_format_leb128_message wh] else [])
  end.

Definition checked_read_sleb128 (ctx : read_ctx) (wh : where_)
  : option (Z * read_ctx) * list call :=
  match read_ctx_read_sleb128 ctx with
  | None => (None, [Error (Some wh) ": can't read %s."])
  | Some (v, bloat, ctx') =>
      (Some (v, ctx'), if bloat then [wr_format_leb128_message wh] else [])
  end.

(** [wr_message_padding_0] and [wr_message_padding_n0], through
    [wr_format_padding_message]. *)
Definition wr_message_padding_0 (category : message_category)
  (wh : where_) (start end_ : Z) : call :=
  Message (Z.lor category (mcs [cat_acc_bloat; cat_impact_1])) (Some wh)
          ": %s: unnecessary padding with zero bytes.".

Definition wr_message_padding_n0 (category : message_category)
  (wh : where_) (start end_ : Z) : call :=
  Message (Z.lor category (mcs [cat_acc_bloat; cat_impact_1])) (Some wh)
          ": %s: unreferenced non-zero bytes.".

(** [found_hole], the callback handed to [coverage_find_holes]. *)
Definition found_hole (data : list Z) (section : section_id)
  (category : message_category) (align : Z) (start length : Z) : list call :=
  let all_zeroes :=
    forallb (fun b => b =? 0)
            (firstn (Z.to_nat length) (skipn (Z.to_nat start) data)) in
  let end_ := wrap64 (start + length) in
  if all_zeroes
  then
    if negb (negb (align =? 0) && negb (align =? 1)
             && (end_ mod align =? 0) && negb (start mod 4 =? 0)
             && (length <? align))
    then [wr_message_padding_0 category (WHERE section None) start end_]
    else []
  else [wr_message_padding_n0 category (WHERE section None) start end_].

End WithCategories.

End Checked.
(** ** Address records and reference records *)

Module AddrRecord.

(** [struct addr_record]: the array [addrs[0 .. size)]. *)
Definition addr_record := list Z.

(** The loop of [addr_record_find_addr] on the pair [(a, b)]. *)
Equations? find_addr_loop (ar : addr_record) (addr : Z) (a b : nat) : nat
  by wf (b - a)%nat lt :=
  find_addr_loop ar addr a b with lt_dec a b := {
    | right _ := a
    | left _ with Z.compare (nth ((a + b) / 2) ar 0) addr := {
        | Gt := find_addr_loop ar addr a ((a + b) / 2)
        | Lt := find_addr_loop ar addr ((a + b) / 2 + 1) b
        | Eq := ((a + b) / 2)%nat } }.
Proof.
  all: change (fst (Nat.divmod (a + b) 1 0 1)) with ((a + b) / 2)%nat;
    pose proof (Nat.div_mod_eq (a + b) 2);
    pose proof (Nat.mod_upper_bound (a + b) 2 ltac:(lia)); lia.
Qed.

Definition addr_record_find_addr (ar : addr_record) (addr : Z) : nat :=
  find_addr_loop ar addr 0 (length ar).

Definition addr_record_has_addr (ar : addr_record) (addr : Z) : bool :=
  if (length ar =? 0)%nat
     || (addr <? nth 0 ar 0)
     || (addr >? nth (length ar - 1) ar 0)
  then false
  else
    let a := addr_record_find_addr ar addr in
    (a <? length ar)%nat && (nth a ar 0 =? addr).

(** [REALLOC], [memmove] of the tail by one slot, store at [a]. *)
Definition addr_record_add (ar : addr_record) (addr : Z) : addr_record :=
  let a := addr_record_find_addr ar addr in
  if (length ar <=? a)%nat || negb (nth a ar 0 =? addr)
  then firstn a ar ++ addr :: skipn a ar
  else ar.

(** [struct ref] and [struct ref_record]. *)
Record ref : Type := mk_ref { r_addr : Z; r_who : where_ }.
Definition ref_record := list ref.

Definition ref_record_add (rr : ref_record) (addr : Z) (referrer : where_)
  : ref_record := rr ++ [mk_ref addr referrer].



End AddrRecord.
(** ** Abbreviation tables *)

Module Abbrev.
Import Diagnostics ReadCtx Checked Dwarf.

(** [struct abbrev_attrib], [struct abbrev], [struct abbrev_table].
    A chain of tables is a list, the table created last at its head. *)
Record abbrev_attrib : Type :=
  mk_attrib { at_name : Z; at_form : Z; at_where : where_ }.

Record abbrev : Type :=
  mk_abbrev {
      code : Z;
      tag : Z;
      has_children : bool;
      ab_where : where_;
      used : bool;
      attribs : list abbrev_attrib
    }.

Record abbrev_table : Type :=
  mk_table { offset : Z; abbr : list abbrev }.

(** The abbreviation after [WIPE]. *)
Definition wiped_abbrev : abbrev :=
  mk_abbrev 0 0 false (mk_where sec_invalid 0 0 0 None None) false [].

(** The loop of [abbrev_table_find_abbrev] on the pair [(a, b)]; the
    result is the position of the abbreviation found. *)
Equations? find_abbrev_loop (abbr : list abbrev) (abbrev_code : Z)
  (a b : nat) : option nat by wf (b - a)%nat lt :=
  find_abbrev_loop abbr abbrev_code a b with lt_dec a b := {
    | right _ := None
    | left _ with Z.compare (code (nth ((a + b) / 2) abbr wiped_abbrev))
                            abbrev_code := {
        | Gt := find_abbrev_loop abbr abbrev_code a ((a + b) / 2)
        | Lt := find_abbrev_loop abbr abbrev_code ((a + b) / 2 + 1) b
        | Eq := Some ((a + b) / 2)%nat } }.
Proof.
  all: change (fst (Nat.divmod (a + b) 1 0 1)) with ((a + b) / 2)%nat;
    pose proof (Nat.div_mod_eq (a + b) 2);
    pose proof (Nat.mod_upper_bound (a + b) 2 ltac:(lia)); lia.
Qed.

Definition abbrev_table_find_abbrev (abbrevs : abbrev_table)
  (abbrev_code : Z) : option abbrev :=
  match find_abbrev_loop (abbr abbrevs) abbrev_code 0 (length (abbr abbrevs))
  with
  | Some i => nth_error (abbr abbrevs) i
  | None => None
  end.

Definition attrib_form_valid (form : Z) : bool :=
  (0 <? form) && (form <=? DW_FORM_indirect).

Definition check_sibling_form (form : Z) : Z :=
  if (form =? DW_FORM_indirect) || (form =? DW_FORM_ref1)
     || (form =? DW_FORM_ref2) || (form =? DW_FORM_ref4)
     || (form =? DW_FORM_ref8) || (form =? DW_FORM_ref_udata)
  then 0
  else if form =? DW_FORM_ref_addr then -1 else -2.

Definition check_abbrev_location_form (form : Z) : bool :=
  (form =? DW_FORM_indirect) || (form =? DW_FORM_data4)
  || (form =? DW_FORM_data8) || (form =? DW_FORM_block1)
  || (form =? DW_FORM_block2) || (form =? DW_FORM_block4)
  || (form =? DW_FORM_block).

Definition is_location_attrib (name : Z) : bool :=
  (name =? DW_AT_location) || (name =? DW_AT_frame_base)
  || (name =? DW_AT_data_location) || (name =? DW_AT_data_member_location).

(** The comparator handed to [qsort]: the difference of two 64-bit
    codes, returned as [int]. *)
Definition cmp_abbrs (aa bb : abbrev) : Z :=
  to_int32 (wrap64 (code aa - code bb)).

(** How a stretch of the loader ends: it goes on with a value, it
    jumps to [free_and_out], or the bound on the number of turns was
    too small. *)
Inductive step (A : Type) : Type :=
| Go (a : A)
| FreeAndOut
| OutOfFuel.
Arguments Go {A} a.
Arguments FreeAndOut {A}.
Arguments OutOfFuel {A}.

Section WithCategories.
Context `{MessageCategories}.

(** The [do ... while (!read_ctx_eof (ctx))] loop that reads abbreviation
    codes up to the first one that is not zero. *)
Record code_read : Type :=
  mk_code_read {
      cr_ctx : read_ctx;
      cr_where : where_;
      cr_abbr_off : Z;
      cr_abbr_code : Z;
      cr_section_open : bool;       (* section != NULL *)
      cr_zero_seq_off : Z
    }.

Fixpoint read_abbr_code (fuel : nat) (ctx : read_ctx) (wh : where_)
  (section_open : bool) (prev_abbr_code zero_seq_off : Z)
  : step code_read * list call :=
  match fuel with
  | O => (OutOfFuel, [])
  | S fuel' =>
      let abbr_off := read_ctx_get_offset ctx in
      let wh := where_reset_2 wh abbr_off in
      match checked_read_uleb128 ctx wh with
      | (None, out) => (FreeAndOut, out)
      | (Some (abbr_code, ctx), out) =>
          let zero_seq_off :=
            if (abbr_code =? 0) && (prev_abbr_code =? 0)
               && (zero_seq_off =? UINT64_MAX)
            then abbr_off else zero_seq_off in
          if negb (abbr_code =? 0)
          then (Go (mk_code_read ctx wh abbr_off abbr_code section_open
                                 zero_seq_off), out)
          else if negb (read_ctx_eof ctx)
               then
                 let '(r, out') :=
                   read_abbr_code fuel' ctx wh false abbr_code zero_seq_off in
                 (r, out ++ out')
               else (Go (mk_code_read ctx wh abbr_off abbr_code false
                                      zero_seq_off), out)
      end
  end.

(** The attribute loop [do ... while (!null_attrib)]. *)
Record attr_state : Type :=
  mk_attr_state {
      as_ctx : read_ctx;
      as_where : where_;
      as_cur : abbrev;
      as_first_attr_off : Z;
      as_sibling_attr : Z;
      as_low_pc : bool;
      as_high_pc : bool;
      as_ranges : bool
    }.

Definition add_attrib (cur : abbrev) (a : abbrev_attrib) : abbrev :=
  mk_abbrev (code cur) (tag cur) (has_children cur) (ab_where cur) (used cur)
            (attribs cur ++ [a]).

Fixpoint read_attribs (fuel : nat) (s : attr_state)
  : step attr_state * list call :=
  match fuel with
  | O => (OutOfFuel, [])
  | S fuel' =>
      let ctx := as_ctx s in
      let attr_off := read_ctx_get_offset ctx in
      let first_attr_off :=
        if as_first_attr_off s =? 0 then attr_off else as_first_attr_off s in
      let wh := where_reset_3 (as_where s) (wrap64 (attr_off - first_attr_off)) in
      match checked_read_uleb128 ctx wh with
      | (None, o1) => (FreeAndOut, o1)
      | (Some (attrib_name, ctx), o1) =>
          match checked_read_uleb128 ctx wh with
          | (None, o2) => (FreeAndOut, o1 ++ o2)
          | (Some (attrib_form, ctx), o2) =>
              let null_attrib := (attrib_name =? 0) && (attrib_form =? 0) in
              if negb null_attrib && (attrib_name >? DW_AT_hi_user)
              then (FreeAndOut,
                    o1 ++ o2 ++ [Error (Some wh) ": invalid name 0x%lx."])
              else if negb null_attrib && negb (attrib_form_valid attrib_form)
              then (FreeAndOut,
                    o1 ++ o2 ++ [Error (Some wh) ": invalid form 0x%lx."])
              else
                let cur := as_cur s in
                let '(sibling_attr, low_pc, high_pc, ranges, o3) :=
                  if attrib_name =? DW_AT_sibling
                  then
                    let '(sibling_attr, oa) :=
                      if negb (as_sibling_attr s =? 0)
                      then (as_sibling_attr s,
                            [Error (Some wh)
                               ": Another DW_AT_sibling attribute in one abbreviation. (First was 0x%lx.)"])
                      else (attr_off,
                            if negb (has_children cur)
                            then [Message (mcs [cat_die_rel; cat_acc_bloat;
                                                cat_impact_1]) (Some wh)
                                    ": Excessive DW_AT_sibling attribute at childless abbrev."]
                            else []) in
                    let ob :=
                      if check_sibling_form attrib_form =? -1
                      then [Message (mcs [cat_die_rel; cat_impact_2]) (Some wh)
                              ": DW_AT_sibling attribute with form DW_FORM_ref_addr."]
                      else if check_sibling_form attrib_form =? -2
                      then [Error (Some wh)
                              ": DW_AT_sibling attribute with non-reference form '%s'."]
                      else [] in
                    (sibling_attr, as_low_pc s, as_high_pc s, as_ranges s,
                     oa ++ ob)
                  else if is_location_attrib attrib_name
                  then (as_sibling_attr s, as_low_pc s, as_high_pc s,
                        as_ranges s,
                        if negb (check_abbrev_location_form attrib_form)
                        then [Error (Some wh) ": %s with invalid form '%s'."]
                        else [])
                  else if (attrib_name =? DW_AT_ranges)
                          || (attrib_name =? DW_AT_stmt_list)
                  then (as_sibling_attr s, as_low_pc s, as_high_pc s,
                        (attrib_name =? DW_AT_ranges) || as_ranges s,
                        if negb (attrib_form =? DW_FORM_data4)
                           && negb (attrib_form =? DW_FORM_data8)
                           && negb (attrib_form =? DW_FORM_indirect)
                        then [Error (Some wh) ": %s with invalid form '%s'."]
                        else [])
                  else if (attrib_name =? DW_AT_low_pc)
                          || (attrib_name =? DW_AT_high_pc)
                  then (as_sibling_attr s,
                        (attrib_name =? DW_AT_low_pc) || as_low_pc s,
                        negb (attrib_name =? DW_AT_low_pc)
                        && (attrib_name =? DW_AT_high_pc) || as_high_pc s,
                        as_ranges s,
                        if negb (attrib_form =? DW_FORM_addr)
                           && negb (attrib_form =? DW_FORM_ref_addr)
                        then [Error (Some wh) ": %s with invalid form '%s'."]
                        else [])
                  else (as_sibling_attr s, as_low_pc s, as_high_pc s,
                        as_ranges s, []) in
                let cur := add_attrib cur (mk_attrib attrib_name attrib_form wh) in
                let s' := mk_attr_state ctx wh cur first_attr_off sibling_attr
                                        low_pc high_pc ranges in
                if negb null_attrib
                then
                  let '(r, o4) := read_attribs fuel' s' in
                  (r, o1 ++ o2 ++ o3 ++ o4)
                else (Go s', o1 ++ o2 ++ o3)
          end
      end
  end.

(** What is between the lookup of the code and the attribute loop: the
    tag and the [has_children] byte. *)
Definition read_tag_children (ctx : read_ctx) (wh : where_) (cur : abbrev)
  : step (read_ctx * abbrev) * list call :=
  match checked_read_uleb128 ctx wh with
  | (None, o1) => (FreeAndOut, o1)
  | (Some (abbr_tag, ctx), o1) =>
      if abbr_tag >? DW_TAG_hi_user
      then (FreeAndOut, o1 ++ [Error (Some wh) ": invalid abbrev tag 0x%lx."])
      else
        match read_ctx_read_ubyte ctx with
        | None =>
            (FreeAndOut,
             o1 ++ [Error (Some wh) ": can't read abbrev has_children."])
        | Some (children, ctx) =>
            if negb (children =? DW_CHILDREN_no)
               && negb (children =? DW_CHILDREN_yes)
            then (FreeAndOut,
                  o1 ++ [Error (Some wh) ": invalid has_children value 0x%x."])
            else (Go (ctx,
                      mk_abbrev (code cur) abbr_tag
                                (children =? DW_CHILDREN_yes)
                                (ab_where cur) (used cur) (attribs cur)),
                  o1)
        end
  end.

(** [cur = section->abbr + section->size++]: the abbreviation joins
    the table at the head of the chain. *)
Definition store_abbrev (chain : list abbrev_table) (cur : abbrev)
  : list abbrev_table :=
  match chain with
  | [] => []
  | section :: rest => mk_table (offset section) (abbr section ++ [cur]) :: rest
  end.

(** The outer loop [while (!read_ctx_eof (ctx))], up to the sort. *)
Fixpoint load_loop (fuel : nat) (ctx : read_ctx) (wh : where_)
  (section_chain : list abbrev_table) (section_open : bool)
  (first_attr_off : Z) (out : list call)
  : step (list abbrev_table) * list call :=
  match fuel with
  | O => (OutOfFuel, out)
  | S fuel' =>
      if read_ctx_eof ctx then (Go section_chain, out)
      else
        match read_abbr_code (S (length (c_data ctx))) ctx wh section_open
                             UINT64_MAX UINT64_MAX with
        | (OutOfFuel, o1) => (OutOfFuel, out ++ o1)
        | (FreeAndOut, o1) => (FreeAndOut, out ++ o1)
        | (Go cr, o1) =>
            let ctx := cr_ctx cr in
            let wh := cr_where cr in
            let abbr_off := cr_abbr_off cr in
            let abbr_code := cr_abbr_code cr in
            let o2 :=
              if negb (cr_zero_seq_off cr =? UINT64_MAX)
              then [wr_message_padding_0 (mcs [cat_abbrevs; cat_header])
                      (WHERE (w_section wh) None) (cr_zero_seq_off cr) abbr_off]
              else [] in
            if read_ctx_eof ctx then (Go section_chain, out ++ o1 ++ o2)
            else
              let '(section_chain, wh) :=
                if negb (cr_section_open cr)
                then (mk_table abbr_off [] :: section_chain,
                      where_reset_2 (where_reset_1 wh abbr_off) abbr_off)
                else (section_chain, wh) in
              let original :=
                match section_chain with
                | section :: _ => abbrev_table_find_abbrev section abbr_code
                | [] => None
                end in
              let o3 :=
                match original with
                | Some _ =>
                    [Error (Some wh)
                       ": duplicate abbrev code %ld; already defined at %s."]
                | None => []
                end in
              let cur :=
                mk_abbrev abbr_code 0 false wh false [] in
              match read_tag_children ctx wh cur with
              | (OutOfFuel, o4) => (OutOfFuel, out ++ o1 ++ o2 ++ o3 ++ o4)
              | (FreeAndOut, o4) => (FreeAndOut, out ++ o1 ++ o2 ++ o3 ++ o4)
              | (Go (ctx, cur), o4) =>
                  match read_attribs (S (length (c_data ctx)))
                          (mk_attr_state ctx wh cur first_attr_off 0
                                         false false false) with
                  | (OutOfFuel, o5) =>
                      (OutOfFuel, out ++ o1 ++ o2 ++ o3 ++ o4 ++ o5)
                  | (FreeAndOut, o5) =>
                      (FreeAndOut, out ++ o1 ++ o2 ++ o3 ++ o4 ++ o5)
                  | (Go s, o5) =>
                      let wh := where_reset_2 (as_where s) (w_addr2 (as_where s)) in
                      let o6 :=
                        if as_high_pc s && negb (as_low_pc s)
                        then [Error (Some wh)
                                ": the abbrev has DW_AT_high_pc without also having DW_AT_low_pc."]
                        else if as_high_pc s && as_ranges s
                        then [Error (Some wh)
                                ": the abbrev has DW_AT_high_pc & DW_AT_low_pc, but also has DW_AT_ranges."]
                        else [] in
                      (* Don't actually save this abbrev if it's duplicate. *)
                      let section_chain :=
                        match original with
                        | None => store_abbrev section_chain (as_cur s)
                        | Some _ => section_chain
                        end in
                      load_loop fuel' (as_ctx s) wh section_chain true
                                (as_first_attr_off s)
                                (out ++ o1 ++ o2 ++ o3 ++ o4 ++ o5 ++ o6)
                  end
              end
        end
  end.

(** [abbrev_table_load]: the chain of tables, each sorted by
    [cmp_abbrs], or NULL (the empty chain) after [free_and_out].  The
    outer [None] says that the bound on the number of turns was too
    small. *)
Definition abbrev_table_load (ctx : read_ctx)
  : option (list abbrev_table * list call) :=
  let wh := mk_where sec_abbrev 0 UINT64_MAX UINT64_MAX None None in
  match load_loop (S (length (c_data ctx))) ctx wh [] false 0 [] with
  | (OutOfFuel, _) => None
  | (FreeAndOut, out) => Some ([], out)
  | (Go section_chain, out) =>
      Some (map (fun section =>
                   mk_table (offset section) (qsort cmp_abbrs (abbr section)))
                section_chain,
            out)
  end.

End WithCategories.

End Abbrev.
(** ** Relocations *)

Module Relocation.
Import Diagnostics.

(** [struct relocation]. *)
Record relocation : Set :=
  mk_rel {
      rel_offset : Z;
      rel_addend : Z;
      rel_symndx : Z;
      rel_type : Z;
      rel_invalid : bool
    }.

Inductive sh_type : Set := SHT_REL | SHT_RELA.

(** [struct relocation_data]: the entries [rel[0 .. size)], the kind
    of the relocation section and the cursor [index].  [rd_past_end]
    is the [offset] field of the slot that follows the last entry,
    which [where_from_reloc] reads when the cursor has just left the
    array. *)
Record relocation_data : Set :=
  mk_reloc {
      rd_rel : list relocation;
      rd_type : sh_type;
      rd_index : nat;
      rd_past_end : Z
    }.

Definition set_index (reloc : relocation_data) (i : nat) : relocation_data :=
  mk_reloc (rd_rel reloc) (rd_type reloc) i (rd_past_end reloc).

(** [reloc->rel[i].offset]. *)
Definition rel_offset_at (reloc : relocation_data) (i : nat) : Z :=
  match nth_error (rd_rel reloc) i with
  | Some r => rel_offset r
  | None => rd_past_end reloc
  end.

Definition where_from_reloc (reloc : relocation_data) (ref : option where_)
  : where_ :=
  let wh := WHERE (match rd_type reloc with
                   | SHT_REL => sec_rel
                   | SHT_RELA => sec_rela
                   end) None in
  where_set_ref (where_reset_1 wh (rel_offset_at reloc (rd_index reloc))) ref.

Inductive skip_type : Set := skip_unref | skip_mismatched | skip_ok.

Definition skip_text (st : skip_type) : string :=
  match st with
  | skip_unref => ": relocation targets unreferenced portion of the section."
  | _ => ": relocation is mismatched."
  end.

(** The loop of [relocation_next].  [rest] is [rel[index .. size)];
    the result is what is returned, the cursor left in
    [reloc->index], and the diagnostics issued. *)
Fixpoint relocation_next_loop (reloc : relocation_data)
  (rest : list relocation) (index : nat) (offset : Z)
  (wh : option where_) (st : skip_type) (out : list call)
  : option relocation * nat * list call :=
  match rest with
  | [] => (None, index, out)
  | rel :: rest' =>
      if rel_offset rel >? offset then (None, index, out)
      else
        let index' := S index in
        if rel_invalid rel
        then relocation_next_loop reloc rest' index' offset wh st out
        else if rel_offset rel <? offset
             then
               let out' :=
                 match st with
                 | skip_ok => out
                 | _ =>
                     let reloc_where :=
                       where_reset_2
                         (where_from_reloc (set_index reloc index') wh)
                         (rel_offset rel) in
                     out ++ [Error (Some reloc_where) (skip_text st)]
                 end in
               relocation_next_loop reloc rest' index' offset wh st out'
             else (Some rel, index', out)
  end.

(** [relocation_next] on a non-NULL [reloc]; [reloc->rel == NULL]
    is the empty array. *)
Definition relocation_next (reloc : relocation_data) (offset : Z)
  (wh : option where_) (st : skip_type)
  : option relocation * relocation_data * list call :=
  match rd_rel reloc with
  | [] => (None, reloc, [])
  | _ =>
      let '(r, i, out) :=
        relocation_next_loop reloc (skipn (rd_index reloc) (rd_rel reloc))
          (rd_index reloc) offset wh st [] in
      (r, set_index reloc i, out)
  end.

Definition relocation_skip (reloc : relocation_data) (offset : Z)
  (wh : option where_) (st : skip_type) : relocation_data * list call :=
  let '(_, reloc', out) := relocation_next reloc (wrap64 (offset - 1)) wh st in
  (reloc', out).

(** [struct sec], as far as the relocation cursor goes. *)
Record sec : Type :=
  mk_sec { sec_id : section_id; sec_data : list Z; sec_rel_data : relocation_data }.

Definition set_rel (s : sec) (r : relocation_data) : sec :=
  mk_sec (sec_id s) (sec_data s) r.

Definition relocation_skip_rest (s : sec) : sec * list call :=
  let '(_, reloc', out) :=
    relocation_next (sec_rel_data s) UINT64_MAX
      (Some (WHERE (sec_id s) None)) skip_mismatched in
  (set_rel s reloc', out).

(** The range test of [read_rel],
    [cur->offset + width >= sec->data->d_size]: the sum is taken in
    [uint64_t].  An entry that fails the test is marked invalid. *)
Definition outside_section (s : sec) (offset width : Z) : bool :=
  Z.of_nat (length (sec_data s)) <=? wrap64 (offset + width).

(** The comparator [read_rel] hands to [qsort]: the difference of two
    64-bit offsets, returned as [int]. *)
Definition compare (a b : relocation) : Z :=
  to_int32 (wrap64 (rel_offset a - rel_offset b)).

(** The last step of [read_rel]. *)
Definition read_rel_sort (rels : list relocation) : list relocation :=
  qsort compare rels.

End Relocation.
(** ** Coverage: interval sets *)

Module Coverage.

(** Modelled from the spec: the coverage set of dwarflint-coverage.c,
    which is not among the sources.  A set of disjoint intervals
    [start, start + length), kept sorted, neither overlapping nor
    adjacent. *)
Definition coverage := list (Z * Z).

(** Modelled from the spec: [add (s, l)] merges with neighbours when
    they touch or overlap.  [s] and [e] are the two ends of what is
    being added. *)
Fixpoint coverage_add_range (cov : coverage) (s e : Z) : coverage :=
  match cov with
  | [] => [(s, e - s)]
  | (s1, l1) :: rest =>
      if e <? s1 then (s, e - s) :: cov
      else if s1 + l1 <? s then (s1, l1) :: coverage_add_range rest s e
           else coverage_add_range rest (Z.min s s1) (Z.max e (s1 + l1))
  end.

(** Modelled from the spec: [add (start, length)]; an empty range adds
    nothing. *)
Definition coverage_add (cov : coverage) (start length : Z) : coverage :=
  if length <=? 0 then cov else coverage_add_range cov start (start + length).

(** Modelled from the spec: the query "covered": all of
    [start, start + length) lies in the set. *)
Fixpoint coverage_is_covered (cov : coverage) (start length : Z) : bool :=
  match cov with
  | [] => false
  | (s1, l1) :: rest =>
      ((s1 <=? start) && (start + length <=? s1 + l1))
      || coverage_is_covered rest start length
  end.

(** Modelled from the spec: [is_overlap (s, l)] is true iff any stored
    interval intersects [s, s + l). *)
Fixpoint coverage_is_overlap (cov : coverage) (start length : Z) : bool :=
  match cov with
  | [] => false
  | (s1, l1) :: rest =>
      ((0 <? length) && (start <? s1 + l1) && (s1 <? start + length))
      || coverage_is_overlap rest start length
  end.

(** Modelled from the spec: [find_holes (lo, hi, cb)] invokes [cb] on
    every maximal sub-interval of [lo, hi) that is not covered, in
    ascending order; here the holes are handed back as
    [(start, length)] pairs. *)
Fixpoint coverage_find_holes (cov : coverage) (lo hi : Z) : list (Z * Z) :=
  match cov with
  | [] => if lo <? hi then [(lo, hi - lo)] else []
  | (s1, l1) :: rest =>
      if hi <=? lo then []
      else if s1 <=? lo then coverage_find_holes rest (Z.max lo (s1 + l1)) hi
           else (lo, Z.min s1 hi - lo)
                  :: coverage_find_holes rest (Z.max lo (s1 + l1)) hi
  end.

End Coverage.
(** ** Compilation units *)

Module CU.
Import AddrRecord.

(** [struct cu]; a CU chain is a list, in the order of the [next]
    pointers. *)
Record cu : Type :=
  mk_cu {
      cu_offset : Z;
      cudie_offset : Z;
      cu_length : Z;
      address_size : Z;
      low_pc : Z;
      die_addrs : addr_record;
      die_refs : ref_record;
      loc_refs : ref_record;
      range_refs : ref_record;
      line_refs : ref_record;
      cu_where : where_;
      has_arange : bool;
      has_pubnames : bool;
      has_pubtypes : bool
    }.

(** [struct cu_coverage]. *)
Record cu_coverage : Type :=
  mk_cu_coverage { cov : Coverage.coverage; need_ranges : bool }.

End CU.
(** ** Location expressions *)

Module LocExpr.
Import Diagnostics ReadCtx Checked AddrRecord Relocation Dwarf.

(** [relocation_next] on a pointer that may be NULL. *)
Definition relocation_next_opt (reloc : option relocation_data) (offset : Z)
  (wh : option where_) (st : skip_type)
  : option relocation * option relocation_data * list call :=
  match reloc with
  | None => (None, None, [])
  | Some r =>
      let '(x, r', out) := relocation_next r offset wh st in
      (x, Some r', out)
  end.

Section WithCollaborators.
Context `{MessageCategories}.

(** The operand table of expr_opcodes.h, behind
    [get_location_opcode_operands]: the two operand forms of an
    opcode, or nothing for an opcode the table does not list. *)
Variable get_location_opcode_operands : Z -> option (Z * Z).

(** [relocate_one], which consults the symbol table and the
    backend: the value after relocation, the section index
    [st_shndx] of the symbol it obtained (if any) and the
    diagnostics issued, given the relocation data, the entry, the
    width, the value read, the coordinate and the expected target. *)
Variable relocate_one :
  relocation_data -> relocation -> Z -> Z -> where_ -> section_id ->
  Z * option Z * list call.

(** The content of a local that was declared and not assigned. *)
Variable uninit : Z.

Definition read_ctx_read_form (ctx : read_ctx) (addr_64 : bool) (form : Z)
  (wh : where_) : option (Z * read_ctx) * list call :=
  if form =? DW_FORM_addr then (read_ctx_read_offset ctx addr_64, [])
  else if form =? DW_FORM_udata then checked_read_uleb128 ctx wh
  else if form =? DW_FORM_sdata then checked_read_sleb128 ctx wh
  else if form =? DW_FORM_data1 then (read_ctx_read_ubyte ctx, [])
  else if form =? DW_FORM_data2 then (read_ctx_read_2ubyte ctx, [])
  else if form =? DW_FORM_data4 then (read_ctx_read_4ubyte ctx, [])
  else if form =? DW_FORM_data8 then (read_ctx_read_8ubyte ctx, [])
  else (None, []).

Definition reloc_target_loc (opcode : Z) : outcome section_id * list call :=
  if (opcode =? DW_OP_call2) || (opcode =? DW_OP_call4)
  then (Returned sec_info, [])
  else if opcode =? DW_OP_addr then (Returned rel_address, [])
  else if opcode =? DW_OP_call_ref
       then (Aborted "Can't handle call_ref!", [])
       else (Returned rel_value,
             [Printf "XXX don't know how to handle opcode=%s"]).

(** The macro [READ_FORM (OP, STR, PTR)]. *)
Inductive operand : Type :=
| OpRead (value : Z) (ctx : read_ctx) (reloc : option relocation_data)
| OpOut                        (* goto out *)
| OpAbort (assertion : string).

Definition READ_FORM (op : Z) (opcode : Z) (init_off : Z) (addr_64 : bool)
  (wh : where_) (ctx : read_ctx) (reloc : option relocation_data)
  : operand * list call :=
  if op =? 0 then (OpRead uninit ctx reloc, [])
  else
    let _off := wrap64 (read_ctx_get_offset ctx + init_off) in
    match read_ctx_read_form ctx addr_64 op wh with
    | (None, out) =>
        (OpOut,
         out ++ [Error (Some wh)
                   ": opcode '%s': can't read %s operand (form '%s')."])
    | (Some (v, ctx'), out) =>
        let '(rel, reloc', out2) :=
          relocation_next_opt reloc _off (Some wh) skip_mismatched in
        match rel, reloc' with
        | Some r, Some rd =>
            match reloc_target_loc opcode with
            | (Aborted msg, out3) => (OpAbort msg, out ++ out2 ++ out3)
            | (Returned target, out3) =>
                let '(v', _, out4) :=
                  relocate_one rd r (if addr_64 then 8 else 4) v wh target in
                (OpRead v' ctx' reloc', out ++ out2 ++ out3 ++ out4)
            end
        | _, _ => (OpRead v ctx' reloc', out ++ out2)
        end
    end.

(** The [switch (opcode)] that follows the operands. *)
Definition check_opcode (opcode opcode_off value1 : Z) (addr_64 : bool)
  (wh : where_) (ctx : read_ctx) (oprefs : ref_record)
  : ref_record * list call :=
  if (opcode =? DW_OP_bra) || (opcode =? DW_OP_skip)
  then
    let skip := to_int16 value1 in
    if skip =? 0
    then (oprefs,
          [Message (mcs [cat_loc; cat_acc_bloat; cat_impact_3]) (Some wh)
                   ": %s with skip 0."])
    else if (0 <? skip) && negb (read_ctx_need_data ctx skip)
    then (oprefs,
          [Error (Some wh) ": %s branches out of location expression."])
    else if (skip <? 0) && (wrap64 (- skip) >? read_ctx_get_offset ctx)
    then (oprefs,
          [Error (Some wh)
             ": %s branches before the beginning of location expression."])
    else (ref_record_add oprefs (wrap64 (opcode_off + skip)) wh, [])
  else if (opcode =? DW_OP_const8u) || (opcode =? DW_OP_const8s)
  then (oprefs,
        if negb addr_64
        then [Error (Some wh) ": %s on 32-bit machine."] else [])
  else (oprefs,
        if negb addr_64
           && ((opcode =? DW_OP_constu) || (opcode =? DW_OP_consts)
               || (opcode =? DW_OP_deref_size)
               || (opcode =? DW_OP_plus_uconst))
           && (value1 >? UINT32_MOD - 1)
        then [Message (mcs [cat_loc; cat_acc_bloat; cat_impact_3]) (Some wh)
                      ": %s with operand %#lx on 32-bit machine."]
        else []).

(** The loop at the label [out]: every recorded branch target has
    to be the start of an opcode. *)
Fixpoint check_oprefs (oprefs : ref_record) (opaddrs : addr_record)
  : list call :=
  match oprefs with
  | [] => []
  | r :: rest =>
      (if negb (addr_record_has_addr opaddrs (r_addr r))
       then [Error (Some (r_who r))
               ": unresolved reference to opcode at %#lx."]
       else [])
      ++ check_oprefs rest opaddrs
  end.

Record locexpr_result : Type :=
  mk_result {
      le_outcome : outcome bool;
      le_reloc : option relocation_data;
      le_out : list call
    }.

(** The [while (!read_ctx_eof (&ctx))] loop, one opcode per turn,
    up to the return.  [fuel] bounds the number of turns; [None]
    means it was used up. *)
Fixpoint locexpr_loop (fuel : nat) (init_off : Z) (addr_64 : bool)
  (wh : where_) (ctx : read_ctx) (reloc : option relocation_data)
  (oprefs : ref_record) (opaddrs : addr_record) (out : list call)
  : option locexpr_result :=
  match fuel with
  | O => None
  | S fuel' =>
      let finish reloc opaddrs oprefs out :=
        Some (mk_result (Returned true) reloc
                        (out ++ check_oprefs oprefs opaddrs)) in
      if read_ctx_eof ctx then finish reloc opaddrs oprefs out
      else
        let opcode_off := wrap64 (read_ctx_get_offset ctx + init_off) in
        let op_where :=
          where_reset_1 (WHERE sec_locexpr (Some wh)) opcode_off in
        let opaddrs := addr_record_add opaddrs opcode_off in
        match read_ctx_read_ubyte ctx with
        | None =>
            finish reloc opaddrs oprefs
                   (out ++ [Error (Some op_where) ": can't read opcode."])
        | Some (opcode, ctx) =>
            match get_location_opcode_operands opcode with
            | None =>
                finish reloc opaddrs oprefs
                       (out ++ [Error (Some op_where)
                                  ": can't decode opcode '%s'."])
            | Some (op1, op2) =>
                match READ_FORM op1 opcode init_off addr_64 op_where ctx reloc
                with
                | (OpAbort msg, o1) =>
                    Some (mk_result (Aborted msg) reloc (out ++ o1))
                | (OpOut, o1) => finish reloc opaddrs oprefs (out ++ o1)
                | (OpRead value1 ctx reloc, o1) =>
                    match READ_FORM op2 opcode init_off addr_64 op_where
                                    ctx reloc with
                    | (OpAbort msg, o2) =>
                        Some (mk_result (Aborted msg) reloc
                                        (out ++ o1 ++ o2))
                    | (OpOut, o2) =>
                        finish reloc opaddrs oprefs (out ++ o1 ++ o2)
                    | (OpRead _ ctx reloc, o2) =>
                        let '(oprefs, o3) :=
                          check_opcode opcode opcode_off value1 addr_64
                                       op_where ctx oprefs in
                        locexpr_loop fuel' init_off addr_64 wh ctx reloc
                          oprefs opaddrs (out ++ o1 ++ o2 ++ o3)
                    end
                end
            end
        end
  end.

Definition check_location_expression (parent_ctx : read_ctx)
  (init_off : Z) (reloc : option relocation_data) (length : Z)
  (wh : where_) (addr_64 : bool) : option locexpr_result :=
  match read_ctx_init_sub parent_ctx (c_ptr parent_ctx)
                          (c_ptr parent_ctx + length) with
  | None =>
      Some (mk_result (Returned false) reloc
                      [Error (Some wh) ": not enough data for %s."])
  | Some ctx =>
      locexpr_loop (S (Z.to_nat length)) init_off addr_64 wh ctx reloc
                   [] [] []
  end.

End WithCollaborators.

End LocExpr.
(** ** Location lists and range lists *)

Module LocRange.
Import Diagnostics ReadCtx Checked AddrRecord Relocation Dwarf Coverage CU
  LocExpr.

Section WithCollaborators.
Context `{MessageCategories}.
Variable get_location_opcode_operands : Z -> option (Z * Z).
Variable relocate_one :
  relocation_data -> relocation -> Z -> Z -> where_ -> section_id ->
  Z * option Z * list call.
Variable uninit : Z.

(** [check_range_relocations]: the two symbols, when both were
    obtained, have to be in one section. *)
Definition check_range_relocations (cat : category) (wh : where_)
  (begin_symbol end_symbol : option Z) : list call :=
  match begin_symbol, end_symbol with
  | Some b, Some e =>
      if negb (b =? e)
      then [Message (mcs [cat; cat_impact_2; cat_reloc]) (Some wh)
              ": %s relocated against different sections (%s and %s)."]
      else []
  | _, _ => []
  end.

(** What [check_loc_or_range_ref] works on. *)
Record ref_state : Type :=
  mk_ref_state {
      rs_ctx : read_ctx;
      rs_rel : relocation_data;             (* sec->rel *)
      rs_coverage : coverage;
      rs_cu_coverage : option coverage;     (* &cu_coverage->cov, or NULL *)
      rs_retval : bool;
      rs_overlap : bool;
      rs_base : Z;
      rs_out : list call
    }.

Record ref_result : Type :=
  mk_ref_result {
      rr_outcome : outcome bool;
      rr_rel : relocation_data;
      rr_coverage : coverage;
      rr_cu_coverage : option coverage;
      rr_out : list call
    }.

Definition ref_return (s : ref_state) (b : bool) (more : list call)
  : option ref_result :=
  Some (mk_ref_result (Returned b) (rs_rel s) (rs_coverage s)
                      (rs_cu_coverage s) (rs_out s ++ more)).

(** The macro [HAVE_OVERLAP], guarded as at each of its uses:
    [if (!overlap && coverage_is_overlap (coverage, off, len))]. *)
Definition check_overlap (wh : where_) (off len : Z) (s : ref_state)
  : ref_state :=
  if negb (rs_overlap s) && coverage_is_overlap (rs_coverage s) off len
  then mk_ref_state (rs_ctx s) (rs_rel s) (rs_coverage s) (rs_cu_coverage s)
                    false true (rs_base s)
                    (rs_out s ++ [Error (Some wh) ": range definitions overlap."])
  else s.

Definition with_ctx (s : ref_state) (ctx : read_ctx) : ref_state :=
  mk_ref_state ctx (rs_rel s) (rs_coverage s) (rs_cu_coverage s)
               (rs_retval s) (rs_overlap s) (rs_base s) (rs_out s).

Definition with_rel (s : ref_state) (rel : relocation_data) (more : list call)
  : ref_state :=
  mk_ref_state (rs_ctx s) rel (rs_coverage s) (rs_cu_coverage s)
               (rs_retval s) (rs_overlap s) (rs_base s) (rs_out s ++ more).

Definition emit (s : ref_state) (more : list call) : ref_state :=
  mk_ref_state (rs_ctx s) (rs_rel s) (rs_coverage s) (rs_cu_coverage s)
               (rs_retval s) (rs_overlap s) (rs_base s) (rs_out s ++ more).

Definition with_base (s : ref_state) (base : Z) : ref_state :=
  mk_ref_state (rs_ctx s) (rs_rel s) (rs_coverage s) (rs_cu_coverage s)
               (rs_retval s) (rs_overlap s) base (rs_out s).

Definition with_coverage (s : ref_state) (c : coverage) : ref_state :=
  mk_ref_state (rs_ctx s) (rs_rel s) c (rs_cu_coverage s)
               (rs_retval s) (rs_overlap s) (rs_base s) (rs_out s).

Definition with_cu_coverage (s : ref_state) (c : option coverage) : ref_state :=
  mk_ref_state (rs_ctx s) (rs_rel s) (rs_coverage s) c
               (rs_retval s) (rs_overlap s) (rs_base s) (rs_out s).

(** One end of an entry, as the loop reads first the beginning and
    then the ending: the overlap check on the bytes of the address, the
    address itself, and the relocation that may apply to it.  The
    result is the address, the section of the symbol it was relocated
    against and whether it was relocated; nothing when the address
    cannot be read ([what] is the error then). *)
Definition read_address (addr_64 : bool) (e_where : where_) (what : string)
  (s : ref_state) : option (Z * option Z * bool) * ref_state :=
  let width := if addr_64 then 8 else 4 in
  let off := read_ctx_get_offset (rs_ctx s) in
  let s := check_overlap e_where off width s in
  match read_ctx_read_offset (rs_ctx s) addr_64 with
  | None => (None, emit s [Error (Some e_where) what])
  | Some (addr, ctx) =>
      let s := with_ctx s ctx in
      let '(rel, reloc, o) :=
        relocation_next (rs_rel s) off (Some e_where) skip_mismatched in
      let s := with_rel s reloc o in
      match rel with
      | Some r =>
          let '(v, symbol, o) :=
            relocate_one (rs_rel s) r width addr e_where rel_value in
          (Some (v, symbol, true), emit s o)
      | None => (Some (addr, None, false), s)
      end
  end.

(** What follows the relocation of the ending: the two ends have to be
    relocated alike. *)
Definition check_both_relocated (cat : category) (e_where : where_)
  (escape begin_addr : Z) (begin_relocated end_relocated : bool)
  (begin_symbol end_symbol : option Z) : list call :=
  if end_relocated
  then
    if negb (begin_addr =? escape)
    then
      if negb begin_relocated
      then [Message (mcs [cat; cat_impact_2; cat_reloc]) (Some e_where)
              ": end of address range is relocated, but the beginning wasn't."]
      else check_range_relocations cat e_where begin_symbol end_symbol
    else []
  else
    if begin_relocated
    then [Message (mcs [cat; cat_impact_2; cat_reloc]) (Some e_where)
            ": end of address range is not relocated, but the beginning was."]
    else [].

(** A live entry: the checks on the pair of addresses, and the
    projection into the CU coverage. *)
Definition check_live_entry (cat : category) (e_where : where_)
  (begin_addr end_addr : Z) (s : ref_state) : ref_state :=
  let s :=
    if rs_base s =? UINT64_MAX
    then emit s [Error (Some e_where)
                   ": address range with no base address set: %s."]
    else s in
  if end_addr <? begin_addr
  then emit s [Message (mcs [cat; cat_error]) (Some e_where)
                 ": has negative range %s."]
  else if begin_addr =? end_addr
  then emit s [Message (mcs [cat; cat_acc_bloat; cat_impact_3])
                 (Some e_where) ": entry covers no range."]
  else if (rs_base s <? UINT64_MAX - 1) && rs_retval s
  then
    match rs_cu_coverage s with
    | Some cc =>
        with_cu_coverage s
          (Some (coverage_add cc (wrap64 (begin_addr + rs_base s))
                              (wrap64 (end_addr - begin_addr))))
    | None => s
    end
  else s.

(** The location expression that follows a live entry of .debug_loc:
    its two-byte length and the expression.  [Returned true] is to go
    on with the loop, [Returned false] is [return false]. *)
Definition check_entry_expression (addr_64 : bool) (e_where : where_)
  (s : ref_state) : option (outcome bool * ref_state) :=
  (* location expression length *)
  let s := check_overlap e_where (read_ctx_get_offset (rs_ctx s)) 2 s in
  match read_ctx_read_2ubyte (rs_ctx s) with
  | None =>
      Some (Returned false,
            emit s [Error (Some e_where)
                      ": can't read length of location expression."])
  | Some (len, ctx) =>
      let s := with_ctx s ctx in
      (* location expression itself *)
      let expr_start := read_ctx_get_offset (rs_ctx s) in
      match check_location_expression
              get_location_opcode_operands relocate_one uninit
              (rs_ctx s) expr_start (Some (rs_rel s)) len e_where addr_64 with
      | None => None
      | Some res =>
          let s :=
            match le_reloc res with
            | Some rd => with_rel s rd (le_out res)
            | None => emit s (le_out res)
            end in
          match le_outcome res with
          | Aborted msg => Some (Aborted msg, s)
          | Returned false => Some (Returned false, s)
          | Returned true =>
              let expr_end := read_ctx_get_offset (rs_ctx s) in
              let s := check_overlap e_where expr_start
                                     (expr_end - expr_start) s in
              match read_ctx_skip (rs_ctx s) len with
              | None =>
                  Some (Returned false,
                        emit s [Error (Some e_where)
                                  ": not enough data for %s."])
              | Some ctx => Some (Returned true, with_ctx s ctx)
              end
          end
      end
  end.

(** A base address selection entry. *)
Definition select_base (cat : category) (e_where : where_) (end_addr : Z)
  (s : ref_state) : ref_state :=
  if end_addr =? rs_base s
  then emit s [Message (mcs [cat; cat_acc_bloat; cat_impact_3]) (Some e_where)
                 ": base address selection doesn't change base address (%#lx)."]
  else with_base s end_addr.

(** The end of a turn: [coverage_add (coverage, where.addr1, ...)]. *)
Definition cover_entry (e_where : where_) (s : ref_state) : ref_state :=
  with_coverage s
    (coverage_add (rs_coverage s) (w_addr1 e_where)
       (read_ctx_get_offset (rs_ctx s) - w_addr1 e_where)).

Definition ref_abort (s : ref_state) (msg : string) : option ref_result :=
  Some (mk_ref_result (Aborted msg) (rs_rel s) (rs_coverage s)
                      (rs_cu_coverage s) (rs_out s)).

(** The [while (!read_ctx_eof (&ctx))] loop of [check_loc_or_range_ref],
    one entry per turn.  [fuel] bounds the number of turns, [None]
    means it was used up. *)
Fixpoint ref_loop (fuel : nat) (sec_id : section_id) (cat : category)
  (addr_64 : bool) (wh : where_) (s : ref_state) : option ref_result :=
  match fuel with
  | O => None
  | S fuel' =>
      if read_ctx_eof (rs_ctx s) then ref_return s (rs_retval s) []
      else
        let contains_locations := section_id_eqb sec_id sec_loc in
        let escape := if addr_64 then UINT64_MAX else UINT32_MOD - 1 in
        let e_where :=
          where_reset_1 (WHERE sec_id (Some wh))
                        (read_ctx_get_offset (rs_ctx s)) in
        match read_address addr_64 e_where
                ": can't read address range beginning." s with
        | (None, s) => ref_return s false []
        | (Some (begin_addr, begin_symbol, begin_relocated), s) =>
            match read_address addr_64 e_where
                    ": can't read address range ending." s with
            | (None, s) => ref_return s false []
            | (Some (end_addr, end_symbol, end_relocated), s) =>
                let s := emit s (check_both_relocated cat e_where escape
                                   begin_addr begin_relocated end_relocated
                                   begin_symbol end_symbol) in
                if (begin_addr =? 0) && (end_addr =? 0)
                   && negb begin_relocated && negb end_relocated
                then (* done *)
                  let s := cover_entry e_where s in
                  ref_return s (rs_retval s) []
                else if negb (begin_addr =? escape)
                then
                  let s := check_live_entry cat e_where begin_addr end_addr s in
                  if contains_locations
                  then
                    match check_entry_expression addr_64 e_where s with
                    | None => None
                    | Some (Aborted msg, s) => ref_abort s msg
                    | Some (Returned false, s) => ref_return s false []
                    | Some (Returned true, s) =>
                        ref_loop fuel' sec_id cat addr_64 wh
                                 (cover_entry e_where s)
                    end
                  else ref_loop fuel' sec_id cat addr_64 wh
                                (cover_entry e_where s)
                else
                  ref_loop fuel' sec_id cat addr_64 wh
                           (cover_entry e_where
                              (select_base cat e_where end_addr s))
            end
        end
  end.

(** [check_loc_or_range_ref].  [do_range_coverage] is the constant
    false, so the coverage map is always NULL and is left out. *)
Definition check_loc_or_range_ref (parent_ctx : read_ctx) (c : cu)
  (s : sec) (cov : coverage) (cu_cov : option coverage) (addr : Z)
  (addr_64 : bool) (wh : where_) (cat : category) : option ref_result :=
  if negb (section_id_eqb (sec_id s) sec_loc
           || section_id_eqb (sec_id s) sec_ranges)
  then Some (mk_ref_result
               (Aborted "sec->id == sec_loc || sec->id == sec_ranges")
               (sec_rel_data s) cov cu_cov [])
  else if negb (category_eqb cat cat_loc || category_eqb cat cat_ranges)
  then Some (mk_ref_result (Aborted "cat == mc_loc || cat == mc_ranges")
               (sec_rel_data s) cov cu_cov [])
  else if negb (Bool.eqb (section_id_eqb (sec_id s) sec_loc)
                         (category_eqb cat cat_loc))
  then Some (mk_ref_result
               (Aborted "(sec->id == sec_loc) == (cat == mc_loc)")
               (sec_rel_data s) cov cu_cov [])
  else
  let ctx := read_ctx_init (c_big_endian parent_ctx) (c_data parent_ctx) in
  match read_ctx_skip ctx addr with
  | None =>
      Some (mk_ref_result (Returned false) (sec_rel_data s) cov cu_cov
              [Error (Some wh)
                 ": invalid reference outside the section %#lx, size only %#tx."])
  | Some ctx =>
      let covered := coverage_is_covered cov addr 1 in
      ref_loop (S (length (c_data parent_ctx))) (sec_id s) cat addr_64 wh
        (mk_ref_state ctx (sec_rel_data s) cov cu_cov (negb covered) false
           (low_pc c)
           (if covered
            then [Error (Some wh)
                    ": reference to %#lx points into another location or range list."]
            else []))
  end.

(** [struct ref_cu]: a reference and the CU it comes from. *)
Record ref_cu : Type := mk_ref_cu { rc_ref : ref; rc_cu : cu }.

Definition compare_refs (a b : ref_cu) : Z :=
  if r_addr (rc_ref a) >? r_addr (rc_ref b) then 1
  else if r_addr (rc_ref a) <? r_addr (rc_ref b) then -1
  else 0.

(** All references of the chain into this section, CU after CU. *)
Definition merge_refs (sec_id : section_id) (cu_chain : list cu)
  : list ref_cu :=
  flat_map (fun c =>
              map (fun r => mk_ref_cu r c)
                  (if section_id_eqb sec_id sec_loc
                   then loc_refs c else range_refs c))
           cu_chain.

Record pass_state : Type :=
  mk_pass_state {
      ps_sec : sec;
      ps_coverage : coverage;
      ps_cu_coverage : option cu_coverage;
      ps_retval : bool;
      ps_last_off : Z;
      ps_out : list call
    }.

(** The loop [for (size_t i = 0; i < size; ++i)] over the sorted
    references; the result is the state after the loop and, when an
    assertion stopped it, that assertion. *)
Fixpoint refs_loop (refs : list ref_cu) (i : nat) (ctx : read_ctx)
  (cat : category) (s : pass_state) : option (option string * pass_state) :=
  match refs with
  | [] => Some (None, s)
  | r :: rest =>
      let off := r_addr (rc_ref r) in
      if (0 <? i)%nat && (off =? ps_last_off s)
      then refs_loop rest (S i) ctx cat s                   (* continue *)
      else
        let '(rel, o1) :=
          if (0 <? i)%nat
          then relocation_skip (sec_rel_data (ps_sec s)) off
                 (Some (WHERE (sec_id (ps_sec s)) None)) skip_unref
          else (sec_rel_data (ps_sec s), []) in
        let sec1 := set_rel (ps_sec s) rel in
        let is_ranges := section_id_eqb (sec_id sec1) sec_ranges in
        match check_loc_or_range_ref ctx (rc_cu r) sec1 (ps_coverage s)
                (if is_ranges then option_map cov (ps_cu_coverage s) else None)
                off (address_size (rc_cu r) =? 8) (r_who (rc_ref r)) cat
        with
        | None => None
        | Some res =>
            let cu_cov :=
              if is_ranges
              then match ps_cu_coverage s, rr_cu_coverage res with
                   | Some cc, Some c' => Some (mk_cu_coverage c' (need_ranges cc))
                   | other, _ => other
                   end
              else ps_cu_coverage s in
            let s' b :=
              mk_pass_state (set_rel sec1 (rr_rel res)) (rr_coverage res)
                            cu_cov (ps_retval s && b) off
                            (ps_out s ++ o1 ++ rr_out res) in
            match rr_outcome res with
            | Aborted msg => Some (Some msg, s' false)
            | Returned b => refs_loop rest (S i) ctx cat (s' b)
            end
        end
  end.

Record pass_result : Type :=
  mk_pass_result {
      pr_outcome : outcome bool;
      pr_sec : sec;
      pr_cu_coverage : option cu_coverage;
      pr_out : list call
    }.

(** [check_loc_or_range_structural]. *)
Definition check_loc_or_range_structural (big_endian : bool) (s : sec)
  (cu_chain : list cu) (cu_cov : option cu_coverage) : option pass_result :=
  if negb (section_id_eqb (sec_id s) sec_loc
           || section_id_eqb (sec_id s) sec_ranges)
  then Some (mk_pass_result
               (Aborted "sec->id == sec_loc || sec->id == sec_ranges")
               s cu_cov [])
  else
    match cu_chain with
    | [] => Some (mk_pass_result (Aborted "cu_chain != NULL") s cu_cov [])
    | first_cu :: _ =>
        let ctx := read_ctx_init big_endian (sec_data s) in
        let cat := if section_id_eqb (sec_id s) sec_loc
                   then cat_loc else cat_ranges in
        let refs := qsort compare_refs (merge_refs (sec_id s) cu_chain) in
        match refs_loop refs 0 ctx cat
                (mk_pass_state s [] cu_cov true 0 []) with
        | None => None
        | Some (Some msg, st) =>
            Some (mk_pass_result (Aborted msg) (ps_sec st) (ps_cu_coverage st)
                                 (ps_out st))
        | Some (None, st) =>
            let retval := ps_retval st in
            let '(sec1, o1) :=
              if retval then relocation_skip_rest (ps_sec st)
              else (ps_sec st, []) in
            let o2 :=
              if retval
              then flat_map
                     (fun hole =>
                        found_hole (sec_data s) (sec_id s) (mc cat)
                                   (address_size first_cu)
                                   (fst hole) (snd hole))
                     (coverage_find_holes (ps_coverage st) 0
                                          (Z.of_nat (length (sec_data s))))
              else [] in
            let cu_cov :=
              match ps_cu_coverage st with
              | Some cc => if retval then Some (mk_cu_coverage (cov cc) false)
                           else Some cc
              | None => None
              end in
            Some (mk_pass_result (Returned retval) sec1 cu_cov
                                 (ps_out st ++ o1 ++ o2))
        end
    end.

End WithCollaborators.

End LocRange.
(** ** The pass over .debug_info *)

Module Info.
Import Diagnostics ReadCtx Checked AddrRecord Abbrev Relocation Dwarf Coverage
  CU LocExpr.

Section WithCollaborators.
Context `{MessageCategories}.

Variable relocate_one :
  relocation_data -> relocation -> Z -> Z -> where_ -> section_id ->
  Z * option Z * list call.

(** What [read_die_chain] hands back: its return value (-1, 0 or 1) and
    everything it may have changed. *)
Record die_chain : Type :=
  mk_die_chain {
      dc_status : Z;
      dc_ctx : read_ctx;
      dc_cu : cu;
      dc_abbrevs : abbrev_table;
      dc_local_die_refs : ref_record;
      dc_strings_coverage : option coverage;
      dc_reloc : option relocation_data;
      dc_cu_coverage : option cu_coverage;
      dc_out : list call
    }.

(** [read_die_chain], the walk over the DIEs of one unit.  The walk is
    not unfolded here; what the pass uses of it is its result. *)
Variable read_die_chain :
  read_ctx -> cu -> abbrev_table -> option (list Z) -> bool -> bool ->
  option coverage -> option relocation_data -> option cu_coverage -> die_chain.

Definition set_address_size (c : cu) (n : Z) : cu :=
  mk_cu (cu_offset c) (cudie_offset c) (cu_length c) n (low_pc c) (die_addrs c)
        (die_refs c) (loc_refs c) (range_refs c) (line_refs c) (cu_where c)
        (has_arange c) (has_pubnames c) (has_pubtypes c).

Definition set_cudie_offset (c : cu) (n : Z) : cu :=
  mk_cu (cu_offset c) n (cu_length c) (address_size c) (low_pc c) (die_addrs c)
        (die_refs c) (loc_refs c) (range_refs c) (line_refs c) (cu_where c)
        (has_arange c) (has_pubnames c) (has_pubtypes c).

Definition set_length (c : cu) (n : Z) : cu :=
  mk_cu (cu_offset c) (cudie_offset c) n (address_size c) (low_pc c) (die_addrs c)
        (die_refs c) (loc_refs c) (range_refs c) (line_refs c) (cu_where c)
        (has_arange c) (has_pubnames c) (has_pubtypes c).

(** [supported_version (version, n, where, v1, ..., vn)]. *)
Definition supported_version (version : Z) (supported : list Z) (wh : where_)
  : bool * list call :=
  if existsb (Z.eqb version) supported then (true, [])
  else (false, [Error (Some wh) ": unsupported version %d."]).

(** [check_die_references]. *)
Fixpoint check_die_references (c : cu) (die_refs : ref_record)
  : bool * list call :=
  match die_refs with
  | [] => (true, [])
  | r :: rest =>
      let '(retval, out) := check_die_references c rest in
      if negb (addr_record_has_addr (die_addrs c) (r_addr r))
      then (false,
            Error (Some (r_who r)) ": unresolved reference to DIE 0x%lx." :: out)
      else (retval, out)
  end.

(** The chain position of the first CU whose [die_addrs] hold [addr]. *)
Fixpoint find_ref_cu (chain : list cu) (addr : Z) (j : nat) : option nat :=
  match chain with
  | [] => None
  | jt :: rest =>
      if addr_record_has_addr (die_addrs jt) addr then Some j
      else find_ref_cu rest addr (S j)
  end.

Fixpoint check_global_refs_of (chain : list cu) (i : nat) (refs : ref_record)
  : bool * list call :=
  match refs with
  | [] => (true, [])
  | r :: rest =>
      let '(retval, out) := check_global_refs_of chain i rest in
      match find_ref_cu chain (r_addr r) 0 with
      | None =>
          (false,
           Error (Some (r_who r))
                 ": unresolved (non-CU-local) reference to DIE 0x%lx." :: out)
      | Some j =>
          if (j =? i)%nat
          then (retval,
                Message (mcs [cat_impact_2; cat_acc_suboptimal; cat_die_rel])
                        (Some (r_who r))
                        ": local reference to DIE 0x%lx formed as global."
                  :: out)
          else (retval, out)
      end
  end.

Fixpoint check_global_refs_from (chain its : list cu) (i : nat)
  : bool * list call :=
  match its with
  | [] => (true, [])
  | it :: rest =>
      let '(r1, o1) := check_global_refs_of chain i (die_refs it) in
      let '(r2, o2) := check_global_refs_from chain rest (S i) in
      (r1 && r2, o1 ++ o2)
  end.

(** [check_global_die_references]. *)
Definition check_global_die_references (cu_chain : list cu)
  : bool * list call :=
  check_global_refs_from cu_chain cu_chain 0.

(** [read_size_extra]: the size, and whether the unit is 64-bit. *)
Definition read_size_extra (ctx : read_ctx) (size32 : Z) (wh : where_)
  : option (Z * bool * read_ctx) * list call :=
  if size32 =? DWARF3_LENGTH_64_BIT
  then match read_ctx_read_8ubyte ctx with
       | None => (None, [Error (Some wh) ": can't read 64bit CU length."])
       | Some (size, ctx) => (Some (size, true, ctx), [])
       end
  else if size32 >=? DWARF3_LENGTH_MIN_ESCAPE_CODE
  then (None,
        [Error (Some wh) ": unrecognized CU length escape value: %x."])
  else (Some (size32, false, ctx), []).

(** [check_zero_padding]: are all the bytes up to [end] zero.  It
    asserts that there is at least one. *)
Definition check_zero_padding (ctx : read_ctx) (category : message_category)
  (wh : where_) : outcome (bool * read_ctx) * list call :=
  if c_ptr ctx =? c_end ctx then (Aborted "ctx->ptr != ctx->end", [])
  else
    if forallb (fun b => b =? 0)
               (firstn (Z.to_nat (c_end ctx - c_ptr ctx))
                       (skipn (Z.to_nat (c_ptr ctx)) (c_data ctx)))
    then (Returned (true, set_ptr ctx (c_end ctx)),
          [wr_message_padding_0 category wh
             (c_ptr ctx - c_begin ctx) (c_end ctx - c_begin ctx)])
    else (Returned (false, ctx), []).

Definition replace_table (chain : list abbrev_table) (t : abbrev_table)
  : list abbrev_table :=
  map (fun t' => if offset t' =? offset t then t else t') chain.

Fixpoint unused_abbrevs (wh : where_) (abbr : list abbrev) : list call :=
  match abbr with
  | [] => []
  | a :: rest =>
      (if negb (used a)
       then [Message (mcs [cat_impact_3; cat_acc_bloat; cat_abbrevs]) (Some wh)
               ": abbreviation with code %lu is never used."]
       else [])
      ++ unused_abbrevs wh rest
  end.

Record cu_check : Type :=
  mk_cu_check {
      cc_retval : bool;
      cc_ctx : read_ctx;
      cc_cu : cu;
      cc_abbrev_chain : list abbrev_table;
      cc_strings_coverage : option coverage;
      cc_reloc : option relocation_data;
      cc_cu_coverage : option cu_coverage;
      cc_out : list call
    }.

(** [check_cu_structural]. *)
Definition check_cu_structural (is_rel : bool) (ctx : read_ctx) (c : cu)
  (abbrev_chain : list abbrev_table) (strings : option (list Z))
  (dwarf_64 : bool) (strings_coverage : option coverage)
  (reloc : option relocation_data) (cu_cov : option cu_coverage) : cu_check :=
  let fail ctx c reloc out :=
    mk_cu_check false ctx c abbrev_chain strings_coverage reloc cu_cov out in
  (* Version.  *)
  match read_ctx_read_2ubyte ctx with
  | None => fail ctx c reloc [Error (Some (cu_where c)) ": can't read version."]
  | Some (version, ctx) =>
      let '(ok, o1) := supported_version version [2; 3] (cu_where c) in
      if negb ok then fail ctx c reloc o1
      else
        let o2 :=
          if (version =? 2) && dwarf_64
          then [Error (Some (cu_where c))
                  ": invalid 64-bit unit in DWARF 2 format."]
          else [] in
        (* Abbrev offset.  *)
        let ctx_offset := wrap64 (read_ctx_get_offset ctx + cu_offset c) in
        match read_ctx_read_offset ctx dwarf_64 with
        | None =>
            fail ctx c reloc
                 (o1 ++ o2 ++ [Error (Some (cu_where c))
                                 ": can't read abbrev offset."])
        | Some (abbrev_offset, ctx) =>
            let '(rel, reloc, o3) :=
              relocation_next_opt reloc ctx_offset (Some (cu_where c))
                                  skip_mismatched in
            let '(abbrev_offset, o4) :=
              match rel, reloc with
              | Some r, Some rd =>
                  let '(v, _, o) :=
                    relocate_one rd r (if dwarf_64 then 8 else 4) abbrev_offset
                                 (cu_where c) sec_abbrev in
                  (v, o)
              | _, _ =>
                  (abbrev_offset,
                   if is_rel
                   then [Message (mcs [cat_impact_2; cat_info; cat_reloc])
                           (Some (cu_where c))
                           ": %s seems to lack a relocation."]
                   else [])
              end in
            (* Address size.  *)
            match read_ctx_read_ubyte ctx with
            | None =>
                fail ctx c reloc
                     (o1 ++ o2 ++ o3 ++ o4
                         ++ [Error (Some (cu_where c))
                               ": can't read address size."])
            | Some (address_size, ctx) =>
                if negb (address_size =? 4) && negb (address_size =? 8)
                then fail ctx c reloc
                          (o1 ++ o2 ++ o3 ++ o4
                              ++ [Error (Some (cu_where c))
                                    ": invalid address size: %d (only 4 or 8 allowed)."])
                else
                  let c := set_address_size c address_size in
                  match find (fun t => offset t =? abbrev_offset) abbrev_chain
                  with
                  | None =>
                      fail ctx c reloc
                           (o1 ++ o2 ++ o3 ++ o4
                               ++ [Error (Some (cu_where c))
                                     ": couldn't find abbrev section with offset 0x%lx."])
                  | Some abbrevs =>
                      let c := set_cudie_offset c
                                 (wrap64 (read_ctx_get_offset ctx + cu_offset c)) in
                      let dc :=
                        read_die_chain ctx c abbrevs strings dwarf_64
                          (address_size =? 8) strings_coverage
                          (match reloc with
                           | Some rd =>
                               if (0 <? length (rd_rel rd))%nat
                               then reloc else None
                           | None => None
                           end)
                          cu_cov in
                      let reloc' :=
                        match dc_reloc dc with
                        | Some rd => Some rd
                        | None => reloc
                        end in
                      let '(retval, o5) :=
                        if 0 <=? dc_status dc
                        then
                          let '(sound, o) :=
                            check_die_references (dc_cu dc)
                                                 (dc_local_die_refs dc) in
                          (sound,
                           unused_abbrevs (cu_where c) (abbr (dc_abbrevs dc))
                             ++ o)
                        else (false, []) in
                      mk_cu_check retval (dc_ctx dc) (dc_cu dc)
                        (replace_table abbrev_chain (dc_abbrevs dc))
                        (dc_strings_coverage dc) reloc' (dc_cu_coverage dc)
                        (o1 ++ o2 ++ o3 ++ o4 ++ dc_out dc ++ o5)
                  end
            end
        end
  end.

(** The loop at the end of [check_info_structural] that compares the
    address sizes along the chain. *)
Fixpoint check_address_sizes (chain : list cu) (address_size offset : Z)
  : list call :=
  match chain with
  | [] => []
  | it :: rest =>
      if address_size =? 0
      then check_address_sizes rest (CU.address_size it) (w_addr1 (cu_where it))
      else if negb (address_size =? CU.address_size it)
           then [Message (mc cat_info) (Some (cu_where it))
                   ": has different address size than CU 0x%lx."]
           else check_address_sizes rest address_size offset
  end.

(** What the loop over the units leaves behind. *)
Record info_state : Type :=
  mk_info_state {
      is_ctx : read_ctx;
      is_cu_chain : list cu;              (* the unit read last at the head *)
      is_success : bool;
      is_abbrev_chain : list abbrev_table;
      is_strings_coverage : option coverage;
      is_sec : sec;
      is_cu_coverage : option cu_coverage;
      is_out : list call
    }.

Record info_result : Type :=
  mk_info_result {
      ir_cu_chain : list cu;              (* NULL is the empty chain *)
      ir_abbrev_chain : list abbrev_table;
      ir_sec : sec;
      ir_cu_coverage : option cu_coverage;
      ir_out : list call
    }.

(** [check_info_structural] from the end of the loop over the units
    on. *)
Definition finish_info (strings : option (list Z)) (s : info_state)
  : info_result :=
  let '(sec1, o1) :=
    if is_success s
    then
      if negb (c_ptr (is_ctx s) =? c_end (is_ctx s))
      then (is_sec s,
            [Message (mcs [cat_die_other; cat_impact_4])
                     (Some (WHERE sec_info None))
                     ": CU lengths don't exactly match Elf_Data contents."])
      else relocation_skip_rest (is_sec s)
    else (is_sec s, []) in
  let o2 := check_address_sizes (is_cu_chain s) 0 0 in
  let '(references_sound, o3) := check_global_die_references (is_cu_chain s) in
  let o4 :=
    match is_strings_coverage s, strings with
    | Some sc, Some data =>
        if is_success s
        then flat_map (fun hole =>
                         found_hole data sec_str (mc cat_strings) 0
                                    (fst hole) (snd hole))
                      (coverage_find_holes sc 0 (Z.of_nat (length data)))
        else []
    | _, _ => []
    end in
  let cu_chain :=
    if negb (is_success s) || negb references_sound then []
    else rev (is_cu_chain s) in
  mk_info_result cu_chain (is_abbrev_chain s) sec1 (is_cu_coverage s)
                 (is_out s ++ o1 ++ o2 ++ o3 ++ o4).

Definition new_cu (wh : where_) : cu :=
  mk_cu (w_addr1 wh) 0 0 0 UINT64_MAX [] [] [] [] [] wh false false false.

Definition set_head (chain : list cu) (c : cu) : list cu :=
  match chain with
  | [] => []
  | _ :: rest => c :: rest
  end.

Definition stop (s : info_state) (ctx : read_ctx) (success : bool)
  (more : list call) : option (outcome info_state) :=
  Some (Returned
          (mk_info_state ctx (is_cu_chain s) success (is_abbrev_chain s)
             (is_strings_coverage s) (is_sec s) (is_cu_coverage s)
             (is_out s ++ more))).

(** The loop [while (!read_ctx_eof (&ctx))] of [check_info_structural],
    one unit per turn.  [fuel] bounds the number of turns, [None] means
    it was used up. *)
Fixpoint info_loop (fuel : nat) (is_rel : bool) (strings : option (list Z))
  (s : info_state) : option (outcome info_state) :=
  match fuel with
  | O => None
  | S fuel' =>
      let ctx := is_ctx s in
      if read_ctx_eof ctx then Some (Returned s)
      else
        let cu_begin := c_ptr ctx in
        let wh := where_reset_1 (WHERE sec_info None) (read_ctx_get_offset ctx) in
        let cur := new_cu wh in
        let s := mk_info_state ctx (cur :: is_cu_chain s) (is_success s)
                   (is_abbrev_chain s) (is_strings_coverage s) (is_sec s)
                   (is_cu_coverage s) (is_out s) in
        let header := mcs [cat_info; cat_header] in
        (* zero padding instead of a unit? *)
        let padding1 :=
          if negb (read_ctx_need_data ctx 4)
          then check_zero_padding ctx header wh
          else (Returned (false, ctx), []) in
        match padding1 with
        | (Aborted msg, _) => Some (Aborted msg)
        | (Returned (true, ctx), o) => stop s ctx (is_success s) o
        | (Returned (false, _), _) =>
            (* CU length.  *)
            match read_ctx_read_4ubyte ctx with
            | None => stop s ctx false [Error (Some wh) ": can't read CU length."]
            | Some (size32, ctx) =>
                let padding2 :=
                  if size32 =? 0 then check_zero_padding ctx header wh
                  else (Returned (false, ctx), []) in
                match padding2 with
                | (Aborted msg, _) => Some (Aborted msg)
                | (Returned (true, ctx), o) => stop s ctx (is_success s) o
                | (Returned (false, _), _) =>
                    match read_size_extra ctx size32 wh with
                    | (None, o) => stop s ctx false o
                    | (Some (size, dwarf_64, ctx), o0) =>
                        if negb (read_ctx_need_data ctx size)
                        then stop s (set_ptr ctx (c_end ctx)) false
                               (o0 ++ [Error (Some wh)
                                         ": section doesn't have enough data to read CU of size %lx."])
                        else
                          let cu_end := c_ptr ctx + size in
                          let cur := set_length cur (cu_end - cu_begin) in
                          let s := mk_info_state ctx
                                     (set_head (is_cu_chain s) cur)
                                     (is_success s) (is_abbrev_chain s)
                                     (is_strings_coverage s) (is_sec s)
                                     (is_cu_coverage s) (is_out s ++ o0) in
                          let cu_header_size :=
                            2 + (if dwarf_64 then 8 else 4) + 1 in
                          if size <? cu_header_size
                          then stop s ctx false
                                 [Error (Some wh)
                                    ": claimed length of %lx doesn't even cover CU header."]
                          else
                            match read_ctx_init_sub ctx cu_begin cu_end with
                            | None =>
                                stop s ctx false
                                  [Error (Some wh) ": not enough data for %s."]
                            | Some cu_ctx =>
                                let cu_ctx := set_ptr cu_ctx (c_ptr ctx) in
                                let reloc :=
                                  if (0 <? length
                                             (rd_rel (sec_rel_data (is_sec s))))%nat
                                  then Some (sec_rel_data (is_sec s)) else None in
                                let cc :=
                                  check_cu_structural is_rel cu_ctx cur
                                    (is_abbrev_chain s) strings dwarf_64
                                    (is_strings_coverage s) reloc
                                    (is_cu_coverage s) in
                                let sec1 :=
                                  match cc_reloc cc with
                                  | Some rd => set_rel (is_sec s) rd
                                  | None => is_sec s
                                  end in
                                let s := mk_info_state ctx
                                           (set_head (is_cu_chain s) (cc_cu cc))
                                           (is_success s) (cc_abbrev_chain cc)
                                           (cc_strings_coverage cc) sec1
                                           (cc_cu_coverage cc)
                                           (is_out s ++ cc_out cc) in
                                if negb (cc_retval cc) then stop s ctx false []
                                else
                                  let cu_ctx := cc_ctx cc in
                                  let padding3 :=
                                    if negb (c_ptr cu_ctx =? c_end cu_ctx)
                                    then
                                      match check_zero_padding cu_ctx
                                              (mc cat_info) wh with
                                      | (Aborted msg, o) => (Aborted msg, o)
                                      | (Returned (true, _), o) =>
                                          (Returned tt, o)
                                      | (Returned (false, _), o) =>
                                          (Returned tt,
                                           o ++ [wr_message_padding_n0
                                                   (mc cat_info) wh
                                                   (read_ctx_get_offset ctx)
                                                   (read_ctx_get_offset ctx
                                                    + size)])
                                      end
                                    else (Returned tt, []) in
                                  match padding3 with
                                  | (Aborted msg, _) => Some (Aborted msg)
                                  | (Returned _, o) =>
                                      match read_ctx_skip ctx size with
                                      | None =>
                                          stop s ctx false
                                            (o ++ [Error (Some wh)
                                                     ": not enough data for %s."])
                                      | Some ctx =>
                                          info_loop fuel' is_rel strings
                                            (mk_info_state ctx (is_cu_chain s)
                                               (is_success s)
                                               (is_abbrev_chain s)
                                               (is_strings_coverage s)
                                               (is_sec s) (is_cu_coverage s)
                                               (is_out s ++ o))
                                      end
                                  end
                            end
                    end
                end
            end
        end
  end.

(** [check_info_structural]: the chain of units in the order of the
    section, or NULL. *)
Definition check_info_structural (cfg : config) (big_endian is_rel : bool)
  (s : sec) (abbrev_chain : list abbrev_table) (strings : option (list Z))
  (cu_cov : option cu_coverage) : option (outcome info_result) :=
  let ctx := read_ctx_init big_endian (sec_data s) in
  let strings_coverage :=
    match strings with
    | Some _ =>
        if message_accept (warning_criteria cfg) (mc cat_strings)
        then Some [] else None
    | None => None
    end in
  match info_loop (S (length (sec_data s))) is_rel strings
          (mk_info_state ctx [] true abbrev_chain strings_coverage s cu_cov [])
  with
  | None => None
  | Some (Aborted msg) => Some (Aborted msg)
  | Some (Returned st) => Some (Returned (finish_info strings st))
  end.

End WithCollaborators.

End Info.
(** ** Inputs of the worked examples *)

Module Examples.
Import Diagnostics ReadCtx Checked AddrRecord Abbrev Relocation Dwarf Coverage
  CU LocExpr LocRange Info.

(** An operand table with the entries the examples use. *)
Definition example_opcode_operands (opcode : Z) : option (Z * Z) :=
  if opcode =? DW_OP_addr then Some (DW_FORM_addr, 0)
  else if opcode =? DW_OP_bra then Some (DW_FORM_data2, 0)
  else if opcode =? DW_OP_skip then Some (DW_FORM_data2, 0)
  else if opcode =? DW_OP_constu then Some (DW_FORM_udata, 0)
  else if opcode =? DW_OP_const8u then Some (DW_FORM_data8, 0)
  else if opcode =? DW_OP_call_ref then Some (DW_FORM_addr, 0)
  else if opcode =? 0x96 (* DW_OP_nop *) then Some (0, 0)
  else None.

(** A [relocate_one] for a file that is not ET_REL: the value stays. *)
Definition example_relocate_one (reloc : relocation_data) (rel : relocation)
  (width value : Z) (wh : where_) (target : section_id)
  : Z * option Z * list call :=
  (value, None, []).

(** Two DIEs of the CU at offset 0, at 0x0b and at 0x14. *)
Definition die_0b : where_ :=
  where_reset_2 (where_reset_1 (WHERE sec_info None) 0) 0x0b.
Definition die_14 : where_ :=
  where_reset_2 (where_reset_1 (WHERE sec_info None) 0) 0x14.

(** A CU with 4-byte addresses whose DIEs hold the given references
    into .debug_ranges. *)
Definition example_cu (range_refs : ref_record) : cu :=
  mk_cu 0 0x0b 0x28 4 0 [0x0b; 0x14] [] [] range_refs []
        (where_reset_1 (WHERE sec_info None) 0) false false false.

(** A .debug_ranges section without relocations. *)
Definition example_ranges (data : list Z) : sec :=
  mk_sec sec_ranges data (mk_reloc [] SHT_RELA 0 0).

(** The bytes of an abbreviation with the given code: tag
    DW_TAG_base_type, no children, one attribute DW_AT_name of form
    DW_FORM_string, and the terminating pair of zeros. *)
Definition abbrev_bytes (code : Z) : list Z := [code; 0x24; 0; 0x03; 0x08; 0; 0].

(** Two units as the loop over the units leaves them, at offsets 0 and
    0x20 of .debug_info, with address sizes 4 and 8. *)
Definition example_cu_4 : cu :=
  mk_cu 0 0x0b 0x20 4 UINT64_MAX [0x0b] [] [] [] []
        (where_reset_1 (WHERE sec_info None) 0) false false false.
Definition example_cu_8 : cu :=
  mk_cu 0x20 0x2b 0x20 8 UINT64_MAX [0x2b] [] [] [] []
        (where_reset_1 (WHERE sec_info None) 0x20) false false false.

(** The switches when dwarflint is run without options. *)
Definition no_flags : flags :=
  mk_flags false false false false false false false true.

(** A stand-in for the DIE walk: it consumes the unit and finds no
    DIE. *)
Definition example_read_die_chain (ctx : read_ctx) (c : cu)
  (abbrevs : abbrev_table) (strings : option (list Z))
  (dwarf_64 addr_64 : bool) (strings_coverage : option coverage)
  (reloc : option relocation_data) (cu_cov : option cu_coverage)
  : die_chain :=
  mk_die_chain 0 (set_ptr ctx (c_end ctx)) c abbrevs [] strings_coverage
               reloc cu_cov [].

End Examples.
(** ** Reading criteria as formulas *)

Module CriteriaSpec.
Import Diagnostics.

(** The term with the masks of both: what [t->positive |= ...;
    t->negative |= ...] leaves in [t]. *)
Definition merge (t u : message_term) : message_term :=
  mk_term (Z.lor (positive t) (positive u)) (Z.lor (negative t) (negative u)).

(** A term that holds no category both plain and negated. *)
Definition consistent (t : message_term) : Prop :=
  Z.land (positive t) (negative t) = 0.

(** What the loop of [message_cri_and] has done when it is at [i]:
    the terms before [i] are final, the terms from [i] on still lack
    the masks of [term]. *)
Definition and_pending (term : message_term) (terms : message_criteria)
  (i : nat) (cat : Z) : Prop :=
  let d := mk_term mc_none mc_none in
  (exists k, (k < i)%nat /\ (k < length terms)%nat
             /\ term_matches (nth k terms d) cat = true)
  \/ (exists k, (i <= k < length terms)%nat
                /\ term_matches (nth k terms d) cat = true
                /\ term_matches term cat = true).

(** The literal [message_cri_neg] makes of bit [k], read on [cat]. *)
Definition neg_literal (term : message_term) (cat : Z) (k : Z) : bool :=
  if Z.testbit (positive term) k then Z.testbit cat k
  else Z.testbit (negative term) k && negb (Z.testbit cat k).

(** Is the bit of category [c] set in [cat]. *)
Definition has `{MessageCategories} (c : category) (cat : Z) : bool :=
  Z.testbit cat (Z.of_nat (ID c)).

End CriteriaSpec.

(** ** More inputs of worked examples *)

Module Samples.
Import Diagnostics.

(** A numbering like [example_categories] whose table goes on after
    [header], up to the identifier 31. *)
Definition wide_categories : MessageCategories.
Proof.
  refine {| ID := example_ID; ID_max := 31 |}.
  - apply (@ID_inj example_categories).
  - intros a; destruct a; simpl; lia.
Defined.

End Samples.
(** ** Orders on arrays *)

Module SortSpec.
Import Relocation.

Section ByKey.
Context {A : Type} (cmp : A -> A -> Z) (key : A -> Z).

(** The order of the keys. *)
Definition by_key (x y : A) : Prop := key x <= key y.

(** The comparator orders the elements of [l] by their keys. *)
Definition agrees (l : list A) : Prop :=
  forall x y, In x l -> In y l -> (cmp x y <= 0 <-> key x <= key y).

End ByKey.

(** Entries whose offsets ascend strictly. *)
Definition strictly_sorted (rels : list relocation) : Prop :=
  StronglySorted (fun a b => rel_offset a < rel_offset b) rels.

End SortSpec.
(** ** Properties of references, cursors and tables *)

Module InfoSpec.
Import Diagnostics ReadCtx AddrRecord CU.

(** Is the call an error. *)
Definition is_error (c : call) : bool :=
  match c with Error _ _ => true | _ => false end.

(** The target of the reference is the offset of a DIE of some unit
    of the chain. *)
Definition resolves (chain : list cu) (r : ref) : Prop :=
  exists c, In c chain /\ In (r_addr r) (die_addrs c).

(** The bytes of the cursor from [ptr] to [end] are all zero. *)
Definition zero_to_end (ctx : read_ctx) : Prop :=
  forall p, c_ptr ctx <= p < c_end ctx -> byte_at ctx p = 0.

(** A read that took at least [n] bytes off the same bytes. *)
Definition took (n : Z) (ctx ctx' : read_ctx) : Prop :=
  c_data ctx' = c_data ctx /\ c_end ctx' = c_end ctx
  /\ c_ptr ctx + n <= c_ptr ctx' <= c_end ctx.

(** The bytes left in the cursor. *)
Definition left_ (ctx : read_ctx) : Z := Z.max 0 (c_end ctx - c_ptr ctx).

(** The cursor is one over the whole of its bytes. *)
Definition whole (ctx : read_ctx) : Prop :=
  0 <= c_ptr ctx /\ c_end ctx = Z.of_nat (length (c_data ctx)).

End InfoSpec.

Module AbbrevSpec.
Import Diagnostics Dwarf Abbrev.

(** An attribute that is not the closing pair of zeros is sound when
    its name and its form are in range. *)
Definition sound_attrib (a : abbrev_attrib) : Prop :=
  ~ (at_name a = 0 /\ at_form a = 0)
  /\ at_name a <= DW_AT_hi_user
  /\ attrib_form_valid (at_form a) = true.

(** The closing pair of zeros. *)
Definition null_attrib (a : abbrev_attrib) : Prop :=
  at_name a = 0 /\ at_form a = 0.

(** The attributes of a loaded abbreviation: sound ones, and the
    closing pair of zeros last. *)
Definition closed_attribs (l : list abbrev_attrib) : Prop :=
  exists body last, l = body ++ [last]
                    /\ Forall sound_attrib body /\ null_attrib last.

(** A loaded abbreviation. *)
Definition sound_abbrev (a : abbrev) : Prop :=
  code a <> 0 /\ tag a <= DW_TAG_hi_user /\ closed_attribs (attribs a).

Definition sound_chain (chain : list abbrev_table) : Prop :=
  Forall (fun t => Forall sound_abbrev (abbr t)) chain.

End AbbrevSpec.
(** ** The pass over .debug_pubnames and .debug_pubtypes *)

Module Pub.
Import Diagnostics ReadCtx Checked AddrRecord Relocation Dwarf CU Info.

(** [cu_find_cu]: the first unit of the chain at the offset. *)
Fixpoint cu_find_cu (cu_chain : list cu) (offset : Z) : option cu :=
  match cu_chain with
  | [] => None
  | it :: rest =>
      if cu_offset it =? offset then Some it else cu_find_cu rest offset
  end.

(** [bool *has = sec->id == sec_pubnames ? &cu->has_pubnames
    : &cu->has_pubtypes], read and set. *)
Definition get_has (id : section_id) (c : cu) : bool :=
  if section_id_eqb id sec_pubnames then has_pubnames c else has_pubtypes c.

Definition set_has (id : section_id) (c : cu) : cu :=
  if section_id_eqb id sec_pubnames
  then mk_cu (cu_offset c) (cudie_offset c) (cu_length c) (address_size c)
             (low_pc c) (die_addrs c) (die_refs c) (loc_refs c) (range_refs c)
             (line_refs c) (cu_where c) (has_arange c) true (has_pubtypes c)
  else mk_cu (cu_offset c) (cudie_offset c) (cu_length c) (address_size c)
             (low_pc c) (die_addrs c) (die_refs c) (loc_refs c) (range_refs c)
             (line_refs c) (cu_where c) (has_arange c) (has_pubnames c) true.

(** [*has = true] in the chain, on the unit [cu_find_cu] returns. *)
Fixpoint mark_cu (id : section_id) (cu_chain : list cu) (offset : Z)
  : list cu :=
  match cu_chain with
  | [] => []
  | it :: rest =>
      if cu_offset it =? offset then set_has id it :: rest
      else it :: mark_cu id rest offset
  end.

(** The loop [do ... while (c)] over the bytes of a symbol name: the
    cursor after the closing zero, or nothing when the bytes run
    out.  [avail] bounds the number of bytes read. *)
Fixpoint read_name (avail : nat) (ctx : read_ctx) : option read_ctx :=
  match avail with
  | O => None
  | S avail' =>
      match read_ctx_read_ubyte ctx with
      | None => None
      | Some (c, ctx') => if c =? 0 then Some ctx' else read_name avail' ctx'
      end
  end.

Section WithCollaborators.
Context `{MessageCategories}.
Variable relocate_one :
  relocation_data -> relocation -> Z -> Z -> where_ -> section_id ->
  Z * option Z * list call.

(** How the records of a set end: the loop is left in order (the
    cursor is handed back), or by [goto next] after an error. *)
Record records_end : Type :=
  mk_records_end {
      re_ctx : option read_ctx;
      re_where : where_;
      re_out : list call
    }.

(** The loop [while (!read_ctx_eof (&sub_ctx))] over the records of
    one set.  [ctx_begin] is [ctx.begin] of the cursor over the
    section.  [fuel] bounds the number of turns, [None] means it was
    used up. *)
Fixpoint records_loop (fuel : nat) (dwarf_64 : bool) (c : option cu)
  (ctx_begin : Z) (wh : where_) (sub_ctx : read_ctx) : option records_end :=
  match fuel with
  | O => None
  | S fuel' =>
      if read_ctx_eof sub_ctx then Some (mk_records_end (Some sub_ctx) wh [])
      else
        let ctx_offset := c_ptr sub_ctx - ctx_begin in
        let wh := where_reset_2 wh ctx_offset in
        match read_ctx_read_offset sub_ctx dwarf_64 with
        | None =>
            Some (mk_records_end None wh
                    [Error (Some wh) ": can't read offset field."])
        | Some (offset, sub_ctx) =>
            if offset =? 0 then Some (mk_records_end (Some sub_ctx) wh [])
            else
              let unresolved :=
                match c with
                | Some cu =>
                    negb (addr_record_has_addr (die_addrs cu)
                            (wrap64 (offset + cu_offset cu)))
                | None => false
                end in
              if unresolved
              then Some (mk_records_end None wh
                           [Error (Some wh)
                              ": unresolved reference to DIE 0x%lx."])
              else
                match read_name
                        (Z.to_nat (c_end sub_ctx - c_ptr sub_ctx)) sub_ctx
                with
                | None =>
                    Some (mk_records_end None wh
                            [Error (Some wh) ": can't read symbol name."])
                | Some sub_ctx =>
                    records_loop fuel' dwarf_64 c ctx_begin wh sub_ctx
                end
        end
  end.

(** What one set leaves: whether [retval] stays as it is, the
    coordinate, the relocation cursor of the section, the chain, the
    diagnostics; or the assertion that stopped the process. *)
Record set_result : Type :=
  mk_set_result {
      sr_ok : bool;
      sr_where : where_;
      sr_rel : relocation_data;
      sr_chain : list cu;
      sr_out : list call
    }.

(** One set of [check_pub_structural], from the version up to the
    label [next]. *)
Definition check_set (is_rel : bool) (id : section_id) (dwarf_64 : bool)
  (size ctx_begin : Z) (wh : where_) (rel : relocation_data)
  (cu_chain : list cu) (sub_ctx : read_ctx)
  : option (outcome set_result) :=
  let next ok wh rel chain out :=
    Some (Returned (mk_set_result ok wh rel chain out)) in
  (* Version.  *)
  match read_ctx_read_2ubyte sub_ctx with
  | None => next false wh rel cu_chain
              [Error (Some wh) ": can't read set version."]
  | Some (version, sub_ctx) =>
      let '(ok, o1) := supported_version version [2] wh in
      if negb ok then next false wh rel cu_chain o1
      else
        (* CU offset.  *)
        let ctx_offset := c_ptr sub_ctx - ctx_begin in
        match read_ctx_read_offset sub_ctx dwarf_64 with
        | None => next false wh rel cu_chain
                    (o1 ++ [Error (Some wh) ": can't read debug info offset."])
        | Some (cu_offset, sub_ctx) =>
            let '(r, rel, o2) :=
              relocation_next rel ctx_offset (Some wh) skip_mismatched in
            let '(cu_offset, o3) :=
              match r with
              | Some r =>
                  let '(v, _, o) :=
                    relocate_one rel r (if dwarf_64 then 8 else 4) cu_offset
                                 wh sec_info in
                  (v, o)
              | None =>
                  (cu_offset,
                   if is_rel
                   then [Message (mcs [cat_impact_2; cat_pubtables; cat_reloc;
                                       cat_header]) (Some wh)
                           ": %s seems to lack a relocation."]
                   else [])
              end in
            let cu :=
              match cu_chain with
              | [] => None
              | _ => cu_find_cu cu_chain cu_offset
              end in
            let o4 :=
              match cu_chain, cu with
              | _ :: _, None =>
                  [Error (Some wh) ": unresolved reference to CU 0x%lx."]
              | _, _ => []
              end in
            let '(wh, cu_chain', o5) :=
              match cu with
              | Some c =>
                  let wh := where_set_ref wh (Some (cu_where c)) in
                  if get_has id c
                  then (wh, cu_chain,
                        [Message (mcs [cat_impact_2; cat_pubtables;
                                       cat_header]) (Some wh)
                           ": there has already been section for this CU."])
                  else (wh, mark_cu id cu_chain cu_offset, [])
              | None => (wh, cu_chain, [])
              end in
            let out := o1 ++ o2 ++ o3 ++ o4 ++ o5 in
            (* Covered length.  *)
            match read_ctx_read_offset sub_ctx dwarf_64 with
            | None => next false wh rel cu_chain'
                        (out ++ [Error (Some wh) ": can't read covered length."])
            | Some (cu_len, sub_ctx) =>
                let differs :=
                  match cu with
                  | Some c => negb (cu_len =? cu_length c)
                  | None => false
                  end in
                if differs
                then next false wh rel cu_chain'
                       (out ++ [Error (Some wh)
                                  ": the table covers length %ld but CU has length %ld."])
                else
                  (* Records... *)
                  match records_loop
                          (S (Z.to_nat (c_end sub_ctx - c_ptr sub_ctx)))
                          dwarf_64 cu ctx_begin wh sub_ctx with
                  | None => None
                  | Some re =>
                      let wh := re_where re in
                      let out := out ++ re_out re in
                      match re_ctx re with
                      | None => next false wh rel cu_chain' out
                      | Some sub_ctx =>
                          if negb (c_ptr sub_ctx =? c_end sub_ctx)
                          then
                            match check_zero_padding sub_ctx (mc cat_pubtables)
                                    (WHERE id None) with
                            | (Aborted msg, _) => Some (Aborted msg)
                            | (Returned (true, _), o) =>
                                next true wh rel cu_chain' (out ++ o)
                            | (Returned (false, sub_ctx), o) =>
                                next false wh rel cu_chain'
                                  (out ++ o
                                   ++ [wr_message_padding_n0
                                         (Z.lor (mc cat_pubtables)
                                                (mc cat_error))
                                         (WHERE id None)
                                         (read_ctx_get_offset sub_ctx)
                                         (read_ctx_get_offset sub_ctx + size)])
                            end
                          else next true wh rel cu_chain' out
                      end
                  end
            end
        end
  end.

(** What [check_pub_structural] leaves behind. *)
Record pub_result : Type :=
  mk_pub_result {
      pb_retval : bool;
      pb_sec : sec;
      pb_chain : list cu;
      pb_out : list call
    }.

(** The loop [while (!read_ctx_eof (&ctx))] over the sets, and what
    follows it.  [fuel] bounds the number of turns, [None] means it was
    used up. *)
Fixpoint pub_loop (fuel : nat) (is_rel : bool) (ctx : read_ctx) (s : sec)
  (cu_chain : list cu) (retval : bool) (out : list call)
  : option (outcome pub_result) :=
  match fuel with
  | O => None
  | S fuel' =>
      if read_ctx_eof ctx
      then
        let '(s', o) := if retval then relocation_skip_rest s else (s, []) in
        Some (Returned (mk_pub_result retval s' cu_chain (out ++ o)))
      else
        let wh := where_reset_1 (WHERE (sec_id s) None)
                                (read_ctx_get_offset ctx) in
        let set_begin := c_ptr ctx in
        let stop s chain more :=
          Some (Returned (mk_pub_result false s chain (out ++ more))) in
        (* Size.  *)
        match read_ctx_read_4ubyte ctx with
        | None => stop s cu_chain [Error (Some wh) ": can't read table length."]
        | Some (size32, ctx) =>
            match read_size_extra ctx size32 wh with
            | (None, o) => stop s cu_chain o
            | (Some (size, dwarf_64, ctx), o0) =>
                let set_end := c_ptr ctx + size in
                match read_ctx_init_sub ctx set_begin set_end with
                | None =>
                    stop s cu_chain
                         (o0 ++ [Error (Some wh) ": not enough data for %s."])
                | Some sub_ctx =>
                    let sub_ctx := set_ptr sub_ctx (c_ptr ctx) in
                    match check_set is_rel (sec_id s) dwarf_64 size
                            (c_begin ctx) wh (sec_rel_data s) cu_chain sub_ctx
                    with
                    | None => None
                    | Some (Aborted msg) => Some (Aborted msg)
                    | Some (Returned sr) =>
                        let s := set_rel s (sr_rel sr) in
                        match read_ctx_skip ctx size with
                        | None =>
                            stop s (sr_chain sr)
                                 (o0 ++ sr_out sr
                                  ++ [Error (Some (sr_where sr))
                                        ": not enough data for %s."])
                        | Some ctx =>
                            pub_loop fuel' is_rel ctx s (sr_chain sr)
                                     (retval && sr_ok sr)
                                     (out ++ o0 ++ sr_out sr)
                        end
                    end
                end
            end
        end
  end.

(** [check_pub_structural]. *)
Definition check_pub_structural (big_endian is_rel : bool) (s : sec)
  (cu_chain : list cu) : option (outcome pub_result) :=
  pub_loop (S (length (sec_data s))) is_rel
           (read_ctx_init big_endian (sec_data s)) s cu_chain true [].

End WithCollaborators.

End Pub.

Module PubSpec.
Import CU Pub.

(** The unit is as it was, but for the mark of the section. *)
Definition marked (id : section_id) (c c' : cu) : Prop :=
  c' = c \/ c' = set_has id c.

End PubSpec.
(** ** Reading a relocation section *)

Module ReadRel.
Import Diagnostics ReadCtx Relocation.

(** The values of [Elf_Type] that dwarflint.c names; [ELF_T_other]
    stands for the rest of them. *)
Inductive Elf_Type : Set :=
| ELF_T_BYTE | ELF_T_HALF | ELF_T_WORD | ELF_T_SWORD | ELF_T_XWORD
| ELF_T_SXWORD | ELF_T_other.

(** [GElf_Rela] and [GElf_Rel]. *)
Record GElf_Rela : Set :=
  mk_rela { r_offset : Z; r_info : Z; r_addend : Z }.
Record GElf_Rel : Set := mk_grel { rl_offset : Z; rl_info : Z }.


(** The entry [cur] after [WIPE]. *)
Definition wiped_relocation : relocation := mk_rel 0 0 0 0 false.

(** The label [skip]: [cur->invalid = true]. *)
Definition skip (cur : relocation) : relocation :=
  mk_rel (rel_offset cur) (rel_addend cur) (rel_symndx cur) (rel_type cur)
         true.

Definition set_addend (cur : relocation) (addend : Z) : relocation :=
  mk_rel (rel_offset cur) addend (rel_symndx cur) (rel_type cur)
         (rel_invalid cur).

Section WithCollaborators.
Context `{MessageCategories}.

(** The backend: [ebl_reloc_simple_type (file->ebl, type)]. *)
Variable ebl_reloc_simple_type : Z -> Elf_Type.
(** libelf on the data of the relocation section:
    [gelf_getrela (reldata, ndx, dst)] and
    [gelf_getrel (reldata, ndx, dst)]. *)
Variable gelf_getrela : Z -> option GElf_Rela.
Variable gelf_getrel : Z -> option GElf_Rel.
(** The macros [GELF_R_TYPE] and [GELF_R_SYM] of gelf.h. *)
Variable GELF_R_TYPE : Z -> Z.
Variable GELF_R_SYM : Z -> Z.
(** What [width] bytes hold that are read at an offset where the
    buffer of the section has none. *)
Variable stray : Z -> Z -> Z.

(** [get_rel_or_rela]. *)
Definition get_rel_or_rela (ndx : Z) (type : sh_type) : option GElf_Rela :=
  match type with
  | SHT_RELA => gelf_getrela ndx
  | SHT_REL =>
      match gelf_getrel ndx with
      | None => None
      | Some rel_mem => Some (mk_rela (rl_offset rel_mem) (rl_info rel_mem) 0)
      end
  end.

(** [dwarflint_read_4ubyte_unaligned] and
    [dwarflint_read_8ubyte_unaligned] on
    [sec->data->d_buf + cur->offset]. *)
Definition read_unaligned (big_endian : bool) (s : sec) (offset width : Z)
  : Z :=
  if (0 <=? offset) && (offset + width <=? Z.of_nat (length (sec_data s)))
  then
    let ctx := read_ctx_init big_endian (sec_data s) in
    if big_endian then be_value ctx offset (Z.to_nat width) 0
    else le_value ctx offset (Z.to_nat width)
  else stray offset width.

(** One turn of the loop of [read_rel]: the entry that is appended
    and the diagnostics. *)
Definition read_entry (big_endian : bool) (s : sec) (i : Z)
  : relocation * list call :=
  let type := rd_type (sec_rel_data s) in
  let is_rela := match type with SHT_RELA => true | SHT_REL => false end in
  let parent := WHERE (sec_id s) None in
  let wh :=
    where_reset_1
      (where_set_ref (WHERE (if is_rela then sec_rela else sec_rel) None)
                     (Some parent))
      i in
  match get_rel_or_rela i type with
  | None =>
      (skip wiped_relocation, [Error (Some wh) ": couldn't read relocation."])
  | Some rela =>
      let cur_type := GELF_R_TYPE (r_info rela) in
      if cur_type =? 0 (* No relocation.  *)
      then (skip wiped_relocation,
            [Message (mcs [cat_impact_3; cat_reloc; cat_acc_bloat]) (Some wh)
                     ": NONE relocation is superfluous."])
      else
        let cur :=
          mk_rel (r_offset rela) 0 (GELF_R_SYM (r_info rela)) cur_type false in
        let wh := where_reset_2 wh (rel_offset cur) in
        let ranged (width : Z) : relocation * list call :=
          if outside_section s (rel_offset cur) width
          then (skip cur,
                [Error (Some wh)
                   ": relocation doesn't fall into relocated section."])
          else
            let value := read_unaligned big_endian s (rel_offset cur) width in
            if is_rela
            then (set_addend cur (r_addend rela),
                  if negb (value =? 0)
                  then [Message (mcs [cat_impact_2; cat_reloc]) (Some wh)
                          ": SHR_RELA relocates a place with non-zero value (addend=%#lx, value=%#lx)."]
                  else [])
            else (set_addend cur value, []) in
        match ebl_reloc_simple_type cur_type with
        | ELF_T_WORD | ELF_T_SWORD => ranged 4
        | ELF_T_XWORD | ELF_T_SXWORD => ranged 8
        | ELF_T_BYTE | ELF_T_HALF =>
            (skip cur,
             [Error (Some wh) ": 8 or 16-bit relocation type %s."])
        | ELF_T_other =>
            (skip cur, [Error (Some wh) ": invalid relocation %d (%s)."])
        end
  end.



End WithCollaborators.

End ReadRel.

Module ReadRelSpec.
Import Diagnostics Relocation ReadRel.



(** The width of a relocation type that [read_rel] lets pass. *)
Definition width_of (type : Elf_Type) : option Z :=
  match type with
  | ELF_T_WORD | ELF_T_SWORD => Some 4
  | ELF_T_XWORD | ELF_T_SXWORD => Some 8
  | _ => None
  end.

(** A section of eight bytes with relocations of kind REL, and a
    relocation section with one record, for the last four bytes. *)
Definition sample_sec : sec :=
  mk_sec sec_info [1; 2; 3; 4; 5; 6; 7; 8] (mk_reloc [] SHT_REL 0 0).

Definition sample_getrel (ndx : Z) : option GElf_Rel :=
  if ndx =? 0 then Some (mk_grel 4 1) else None.

End ReadRelSpec.
(** ** The walk over the DIEs of a unit *)

Module DieChain.
Import Diagnostics ReadCtx Checked AddrRecord Abbrev Relocation Dwarf Coverage
  CU LocExpr.

(** Modelled from the spec: tag [DW_TAG_compile_unit],
    with the value DWARF assigns. *)
Definition DW_TAG_compile_unit : Z := 0x11.
(** Modelled from the spec: tag [DW_TAG_partial_unit],
    with the value DWARF assigns. *)
Definition DW_TAG_partial_unit : Z := 0x3c.
(** Modelled from the spec: attribute [DW_AT_string_length],
    with the value DWARF assigns. *)
Definition DW_AT_string_length : Z := 0x19.
(** Modelled from the spec: attribute [DW_AT_const_value],
    with the value DWARF assigns. *)
Definition DW_AT_const_value : Z := 0x1c.
(** Modelled from the spec: attribute [DW_AT_return_addr],
    with the value DWARF assigns. *)
Definition DW_AT_return_addr : Z := 0x2a.
(** Modelled from the spec: attribute [DW_AT_mac_info],
    with the value DWARF assigns. *)
Definition DW_AT_mac_info : Z := 0x43.
(** Modelled from the spec: attribute [DW_AT_segment],
    with the value DWARF assigns. *)
Definition DW_AT_segment : Z := 0x46.
(** Modelled from the spec: attribute [DW_AT_static_link],
    with the value DWARF assigns. *)
Definition DW_AT_static_link : Z := 0x48.
(** Modelled from the spec: attribute [DW_AT_use_location],
    with the value DWARF assigns. *)
Definition DW_AT_use_location : Z := 0x4a.
(** Modelled from the spec: attribute [DW_AT_vtable_elem_location],
    with the value DWARF assigns. *)
Definition DW_AT_vtable_elem_location : Z := 0x4d.
(** Modelled from the spec: attribute [DW_AT_entry_pc],
    with the value DWARF assigns. *)
Definition DW_AT_entry_pc : Z := 0x52.

(** Modelled from the spec: the end of the NUL-terminated string that
    starts at [p], looking at [avail] bytes at most: the position
    after the NUL. *)
Fixpoint str_end (ctx : read_ctx) (p : Z) (avail : nat) : option Z :=
  match avail with
  | O => None
  | S avail' =>
      if byte_at ctx p =? 0 then Some (p + 1) else str_end ctx (p + 1) avail'
  end.

(** Modelled from the spec: [read_str], a NUL-terminated slice; it
    fails, and leaves the cursor where it was, when the bytes up to
    [end] hold no NUL. *)
Definition read_ctx_read_str (ctx : read_ctx) : option read_ctx :=
  match str_end ctx (c_ptr ctx) (Z.to_nat (c_end ctx - c_ptr ctx)) with
  | Some p => Some (set_ptr ctx p)
  | None => None
  end.

(** Modelled from the spec: [read_ctx_read_var], the fixed-width
    reader for a width that is known at run time only. *)
Definition read_ctx_read_var (ctx : read_ctx) (width : Z)
  : option (Z * read_ctx) :=
  if width =? 1 then read_ctx_read_ubyte ctx
  else if width =? 2 then read_ctx_read_2ubyte ctx
  else if width =? 4 then read_ctx_read_4ubyte ctx
  else if width =? 8 then read_ctx_read_8ubyte ctx
  else None.

(** [strlen] on the bytes that start at [strp]; nothing when they hold
    no NUL. *)
Fixpoint strlen (bytes : list Z) : option Z :=
  match bytes with
  | [] => None
  | b :: rest =>
      if b =? 0 then Some 0
      else match strlen rest with
           | Some n => Some (n + 1)
           | None => None
           end
  end.

(** [reloc_target]: what a relocated attribute has to point into. *)
Definition reloc_target (form : Z) (it : abbrev_attrib)
  : outcome section_id * list call :=
  let name := at_name it in
  let unknown :=
    (Returned rel_value,
     [Printf "XXX don't know how to handle form=%s, at=%s"]) in
  if form =? DW_FORM_strp then (Returned sec_str, [])
  else if form =? DW_FORM_addr
  then
    if (name =? DW_AT_low_pc) || (name =? DW_AT_high_pc)
       || (name =? DW_AT_entry_pc)
    then (Returned rel_exec, [])
    else if name =? DW_AT_const_value then (Returned rel_address, [])
         else unknown
  else if form =? DW_FORM_ref_addr then (Returned sec_info, [])
  else if (form =? DW_FORM_data1) || (form =? DW_FORM_data2)
  then (Returned sec_invalid, [])
  else if (form =? DW_FORM_data4) || (form =? DW_FORM_data8)
  then
    if name =? DW_AT_stmt_list then (Returned sec_line, [])
    else if (name =? DW_AT_location) || (name =? DW_AT_string_length)
            || (name =? DW_AT_return_addr)
            || (name =? DW_AT_data_member_location)
            || (name =? DW_AT_frame_base) || (name =? DW_AT_segment)
            || (name =? DW_AT_static_link) || (name =? DW_AT_use_location)
            || (name =? DW_AT_vtable_elem_location)
    then (Returned sec_loc, [])
    else if name =? DW_AT_mac_info then (Returned sec_mac, [])
    else if name =? DW_AT_ranges then (Returned sec_ranges, [])
    else unknown
  else if (form =? DW_FORM_string) || (form =? DW_FORM_ref1)
          || (form =? DW_FORM_ref2) || (form =? DW_FORM_ref4)
  then (Returned sec_invalid, [])
  else if (form =? DW_FORM_sdata) || (form =? DW_FORM_udata)
          || (form =? DW_FORM_flag) || (form =? DW_FORM_ref_udata)
  then (Aborted "Can't be relocated!", [])
  else if (form =? DW_FORM_block1) || (form =? DW_FORM_block2)
          || (form =? DW_FORM_block4) || (form =? DW_FORM_block)
  then (Aborted "Should be handled specially!", [])
  else unknown.

(** How a stretch of the walk ends: it goes on with a value, an
    [assert] stops the process, the code steps outside of what C
    defines (it reads past the end of an array, or divides by zero),
    or the bound on the number of turns was too small. *)
Inductive walk (A : Type) : Type :=
| Ret (a : A)
| Assert (assertion : string)
| Undefined (what : string)
| NoFuel.
Arguments Ret {A} a.
Arguments Assert {A} assertion.
Arguments Undefined {A} what.
Arguments NoFuel {A}.

(** Everything the walk reaches through its pointers: the cursor,
    the unit, the abbreviation table, the record of the unit's local
    references (or NULL), the coverage of .debug_str (or NULL), the
    relocations of .debug_info (or NULL), the coverage of the units,
    and the diagnostics issued so far. *)
Record walk_state : Type :=
  mk_walk {
      ws_ctx : read_ctx;
      ws_cu : cu;
      ws_abbrevs : abbrev_table;
      ws_local_die_refs : option ref_record;
      ws_strings_coverage : option coverage;
      ws_reloc : option relocation_data;
      ws_cu_coverage : cu_coverage;
      ws_out : list call
    }.

Definition set_ctx (s : walk_state) (ctx : read_ctx) : walk_state :=
  mk_walk ctx (ws_cu s) (ws_abbrevs s) (ws_local_die_refs s)
          (ws_strings_coverage s) (ws_reloc s) (ws_cu_coverage s) (ws_out s).

Definition set_cu (s : walk_state) (c : cu) : walk_state :=
  mk_walk (ws_ctx s) c (ws_abbrevs s) (ws_local_die_refs s)
          (ws_strings_coverage s) (ws_reloc s) (ws_cu_coverage s) (ws_out s).

Definition set_abbrevs (s : walk_state) (t : abbrev_table) : walk_state :=
  mk_walk (ws_ctx s) (ws_cu s) t (ws_local_die_refs s)
          (ws_strings_coverage s) (ws_reloc s) (ws_cu_coverage s) (ws_out s).

Definition set_local_die_refs (s : walk_state) (r : option ref_record)
  : walk_state :=
  mk_walk (ws_ctx s) (ws_cu s) (ws_abbrevs s) r
          (ws_strings_coverage s) (ws_reloc s) (ws_cu_coverage s) (ws_out s).

Definition set_strings_coverage (s : walk_state) (c : option coverage)
  : walk_state :=
  mk_walk (ws_ctx s) (ws_cu s) (ws_abbrevs s) (ws_local_die_refs s)
          c (ws_reloc s) (ws_cu_coverage s) (ws_out s).

Definition set_reloc (s : walk_state) (r : option relocation_data)
  : walk_state :=
  mk_walk (ws_ctx s) (ws_cu s) (ws_abbrevs s) (ws_local_die_refs s)
          (ws_strings_coverage s) r (ws_cu_coverage s) (ws_out s).

Definition set_cu_coverage (s : walk_state) (c : cu_coverage) : walk_state :=
  mk_walk (ws_ctx s) (ws_cu s) (ws_abbrevs s) (ws_local_die_refs s)
          (ws_strings_coverage s) (ws_reloc s) c (ws_out s).

Definition emit (s : walk_state) (more : list call) : walk_state :=
  mk_walk (ws_ctx s) (ws_cu s) (ws_abbrevs s) (ws_local_die_refs s)
          (ws_strings_coverage s) (ws_reloc s) (ws_cu_coverage s)
          (ws_out s ++ more).

Definition set_die_addrs (c : cu) (a : addr_record) : cu :=
  mk_cu (cu_offset c) (cudie_offset c) (cu_length c) (address_size c)
        (low_pc c) a (die_refs c) (loc_refs c) (range_refs c) (line_refs c)
        (cu_where c) (has_arange c) (has_pubnames c) (has_pubtypes c).

Definition set_die_refs (c : cu) (r : ref_record) : cu :=
  mk_cu (cu_offset c) (cudie_offset c) (cu_length c) (address_size c)
        (low_pc c) (die_addrs c) r (loc_refs c) (range_refs c) (line_refs c)
        (cu_where c) (has_arange c) (has_pubnames c) (has_pubtypes c).

Definition set_loc_refs (c : cu) (r : ref_record) : cu :=
  mk_cu (cu_offset c) (cudie_offset c) (cu_length c) (address_size c)
        (low_pc c) (die_addrs c) (die_refs c) r (range_refs c) (line_refs c)
        (cu_where c) (has_arange c) (has_pubnames c) (has_pubtypes c).

Definition set_range_refs (c : cu) (r : ref_record) : cu :=
  mk_cu (cu_offset c) (cudie_offset c) (cu_length c) (address_size c)
        (low_pc c) (die_addrs c) (die_refs c) (loc_refs c) r (line_refs c)
        (cu_where c) (has_arange c) (has_pubnames c) (has_pubtypes c).

Definition set_line_refs (c : cu) (r : ref_record) : cu :=
  mk_cu (cu_offset c) (cudie_offset c) (cu_length c) (address_size c)
        (low_pc c) (die_addrs c) (die_refs c) (loc_refs c) (range_refs c) r
        (cu_where c) (has_arange c) (has_pubnames c) (has_pubtypes c).

Definition set_low_pc (c : cu) (addr : Z) : cu :=
  mk_cu (cu_offset c) (cudie_offset c) (cu_length c) (address_size c)
        addr (die_addrs c) (die_refs c) (loc_refs c) (range_refs c)
        (line_refs c) (cu_where c) (has_arange c) (has_pubnames c)
        (has_pubtypes c).

(** [abbrev->used = true] on the abbreviation at position [i]. *)
Definition set_used (a : abbrev) : abbrev :=
  mk_abbrev (code a) (tag a) (has_children a) (ab_where a) true (attribs a).

Fixpoint mark_used_at (abbr : list abbrev) (i : nat) : list abbrev :=
  match abbr, i with
  | [], _ => []
  | a :: rest, O => set_used a :: rest
  | a :: rest, S i' => a :: mark_used_at rest i'
  end.

Definition mark_used (t : abbrev_table) (i : nat) : abbrev_table :=
  mk_table (offset t) (mark_used_at (abbr t) i).

(** The locals of one turn of the loop over the DIEs that the loop
    over the attributes writes.  A symbol is the pointer
    [low_pc_symbol] or [high_pc_symbol]: NULL, or the section index
    [st_shndx] of the symbol it points to. *)
Record die_locals : Type :=
  mk_locals {
      dl_sibling_addr : Z;
      dl_low_pc : Z;
      dl_high_pc : Z;
      dl_low_pc_relocated : bool;
      dl_high_pc_relocated : bool;
      dl_low_pc_symbol : option Z;
      dl_high_pc_symbol : option Z
    }.

Definition set_sibling_addr (l : die_locals) (v : Z) : die_locals :=
  mk_locals v (dl_low_pc l) (dl_high_pc l) (dl_low_pc_relocated l)
            (dl_high_pc_relocated l) (dl_low_pc_symbol l)
            (dl_high_pc_symbol l).

(** The writes through [addrp], [relocatedp] and [symbolp] when they
    point at the locals of DW_AT_low_pc. *)
Definition set_low (l : die_locals) (addr : Z) (relocated : bool)
  (symbol : option Z) : die_locals :=
  mk_locals (dl_sibling_addr l) addr (dl_high_pc l)
            (dl_low_pc_relocated l || relocated) (dl_high_pc_relocated l)
            symbol (dl_high_pc_symbol l).

(** The same for DW_AT_high_pc. *)
Definition set_high (l : die_locals) (addr : Z) (relocated : bool)
  (symbol : option Z) : die_locals :=
  mk_locals (dl_sibling_addr l) (dl_low_pc l) addr
            (dl_low_pc_relocated l) (dl_high_pc_relocated l || relocated)
            (dl_low_pc_symbol l) symbol.

(** How the body of the loop over the attributes ends: the loop goes
    on, or the walk returns -1. *)
Inductive attr_end : Type :=
| Next (s : walk_state) (l : die_locals)
| Minus1 (s : walk_state).

Inductive check_what_t : Set :=
| check_nothing | check_locptr | check_lineptr | check_rangeptr.

Section WithCollaborators.
Context `{MessageCategories}.
Variable get_location_opcode_operands : Z -> option (Z * Z).
Variable relocate_one :
  relocation_data -> relocation -> Z -> Z -> where_ -> section_id ->
  Z * option Z * list call.
Variable uninit : Z.

Definition mc_check (what : check_what_t) : message_category :=
  match what with
  | check_nothing => mc_none
  | check_locptr => mc cat_loc
  | check_lineptr => mc cat_line
  | check_rangeptr => mc cat_ranges
  end.

(** The nested function [record_ref]. *)
Definition record_ref (wh : where_) (addr : Z) (local : bool)
  (s : walk_state) : walk walk_state :=
  if local
  then
    if negb (c_end (ws_ctx s) >? c_begin (ws_ctx s))
    then Assert "ctx->end > ctx->begin"
    else if addr >? c_end (ws_ctx s) - c_begin (ws_ctx s)
    then Ret (emit s [Error (Some wh)
                        ": invalid reference outside the CU: 0x%lx."])
    else
      let addr := wrap64 (addr + cu_offset (ws_cu s)) in
      match ws_local_die_refs s with
      | Some record =>
          Ret (set_local_die_refs s (Some (ref_record_add record addr wh)))
      | None => Ret s
      end
  else
    Ret (set_cu s (set_die_refs (ws_cu s)
                     (ref_record_add (die_refs (ws_cu s)) addr wh))).

(** The nested function [do_check_ptr]. *)
Definition do_check_ptr (wh : where_) (what : check_what_t) (value : Z)
  (s : walk_state) : walk walk_state :=
  let c := ws_cu s in
  match what with
  | check_nothing => Assert "what != check_nothing"
  | check_rangeptr =>
      if address_size c =? 0 then Undefined "value % cu->address_size"
      else
        let s :=
          emit s (if negb (value mod address_size c =? 0)
                  then [Message (mcs [cat_ranges; cat_impact_2]) (Some wh)
                          ": rangeptr value %#lx not aligned to CU address size."]
                  else []) in
        let s := set_cu_coverage s
                   (mk_cu_coverage (cov (ws_cu_coverage s)) true) in
        Ret (set_cu s (set_range_refs c
                         (ref_record_add (range_refs c) value wh)))
  | check_lineptr =>
      Ret (set_cu s (set_line_refs c (ref_record_add (line_refs c) value wh)))
  | check_locptr =>
      Ret (set_cu s (set_loc_refs c (ref_record_add (loc_refs c) value wh)))
  end.

(** The label [cant_read]. *)
Definition cant_read (wh : where_) (s : walk_state) : walk attr_end :=
  Ret (Minus1 (emit s [Error (Some wh) ": can't read attribute value."])).

(** [uint8_t form = it->form]. *)
Definition form_of (it : abbrev_attrib) : Z := at_form it mod 256.

(** The form of an attribute: the one of the abbreviation, or, when
    that one is DW_FORM_indirect, the one read from the DIE.  Nothing
    stands for [return -1]. *)
Definition read_indirect_form (wh : where_) (it : abbrev_attrib)
  (s : walk_state) : option Z * walk_state :=
  if form_of it =? DW_FORM_indirect
  then
    match checked_read_uleb128 (ws_ctx s) wh with
    | (None, o) => (None, emit s o)
    | (Some (value, ctx), o) =>
        let s := emit (set_ctx s ctx) o in
        if negb (attrib_form_valid value)
        then (None, emit s [Error (Some wh) ": invalid indirect form 0x%lx."])
        else
          (Some value,
           if at_name it =? DW_AT_sibling
           then
             if check_sibling_form value =? -1
             then emit s [Message (mcs [cat_die_rel; cat_impact_2]) (Some wh)
                            ": DW_AT_sibling attribute with (indirect) form DW_FORM_ref_addr."]
             else if check_sibling_form value =? -2
             then emit s [Error (Some wh)
                            ": DW_AT_sibling attribute with non-reference (indirect) form '%s'."]
             else s
           else s)
    end
  else (Some (form_of it), s).

(** The two switches that choose [check_ptr]. *)
Definition select_check_ptr (wh : where_) (dwarf_64 indirect : bool)
  (name form : Z) : check_what_t * list call :=
  if is_location_attrib name
  then
    if form =? DW_FORM_data8
    then (check_locptr,
          if negb dwarf_64
          then [Error (Some wh)
                  ": location attribute with form '%s' in 32-bit CU."]
          else [])
    else if form =? DW_FORM_data4 then (check_locptr, [])
    else if (form =? DW_FORM_block1) || (form =? DW_FORM_block2)
            || (form =? DW_FORM_block4) || (form =? DW_FORM_block)
    then (check_nothing, [])
    else (check_nothing,
          if indirect
          then [Error (Some wh)
                  ": location attribute with invalid (indirect) form '%s'."]
          else [])
  else if (name =? DW_AT_ranges) || (name =? DW_AT_stmt_list)
  then
    let what :=
      if name =? DW_AT_ranges then check_rangeptr else check_lineptr in
    if form =? DW_FORM_data8
    then (what,
          if negb dwarf_64
          then [Error (Some wh) ": %s with form DW_FORM_data8 in 32-bit CU."]
          else [])
    else if form =? DW_FORM_data4 then (what, [])
    else (check_nothing,
          if indirect
          then [Error (Some wh) ": %s with invalid (indirect) form '%s'."]
          else [])
  else (check_nothing, []).

(** What follows the reading of a value in most cases:
    [if (it->name == DW_AT_sibling) sibling_addr = value;
     else if (form == DW_FORM_ref...) record_ref (value, &where, true);]. *)
Definition sibling_or_ref (wh : where_) (name : Z) (is_ref : bool)
  (value : Z) (s : walk_state) (l : die_locals) : walk attr_end :=
  if name =? DW_AT_sibling then Ret (Next s (set_sibling_addr l value))
  else if is_ref
  then match record_ref wh value true s with
       | Ret s => Ret (Next s l)
       | Assert msg => Assert msg
       | Undefined what => Undefined what
       | NoFuel => NoFuel
       end
  else Ret (Next s l).

(** [case DW_FORM_strp]. *)
Definition attr_strp (is_rel dwarf_64 : bool) (strings : option (list Z))
  (wh : where_) (ctx_offset : Z) (s : walk_state) (l : die_locals)
  : walk attr_end :=
  match read_ctx_read_offset (ws_ctx s) dwarf_64 with
  | None => cant_read wh s
  | Some (addr, ctx) =>
      let s := set_ctx s ctx in
      let '(rel, reloc, o) :=
        relocation_next_opt (ws_reloc s) ctx_offset (Some wh)
                            skip_mismatched in
      let s := emit (set_reloc s reloc) o in
      let '(addr, o) :=
        match rel, reloc with
        | Some r, Some rd =>
            let '(v, _, o) :=
              relocate_one rd r (if dwarf_64 then 8 else 4) addr wh sec_str in
            (v, o)
        | _, _ =>
            (addr,
             if is_rel
             then [Message (mcs [cat_impact_2; cat_die_other; cat_reloc;
                                 cat_strings])
                           (Some wh) ": %s seems to lack a relocation."]
             else [])
        end in
      let s := emit s o in
      match strings with
      | None =>
          Ret (Next (emit s [Error (Some wh)
                               ": strp attribute, but no .debug_str section."])
                    l)
      | Some data =>
          if addr >=? Z.of_nat (length data)
          then Ret (Next (emit s [Error (Some wh)
                                    ": Invalid offset outside .debug_str: 0x%lx."])
                         l)
          else
            match ws_strings_coverage s with
            | None => Ret (Next s l)
            | Some sc =>
                match strlen (skipn (Z.to_nat addr) data) with
                | None => Undefined "strlen (strp)"
                | Some n =>
                    Ret (Next (set_strings_coverage s
                                 (Some (coverage_add sc addr (n + 1))))
                              l)
                end
            end
      end
  end.

(** [case DW_FORM_addr: case DW_FORM_ref_addr:]. *)
Definition attr_addr (is_rel addr_64 : bool) (abbrev : abbrev)
  (it : abbrev_attrib) (form : Z) (wh : where_) (ctx_offset : Z)
  (s : walk_state) (l : die_locals) : walk attr_end :=
  match read_ctx_read_offset (ws_ctx s) addr_64 with
  | None => cant_read wh s
  | Some (addr, ctx) =>
      let s := set_ctx s ctx in
      let name := at_name it in
      let '(rel, reloc, o) :=
        relocation_next_opt (ws_reloc s) ctx_offset (Some wh)
                            skip_mismatched in
      let s := emit (set_reloc s reloc) o in
      let relocated : walk (Z * bool * option Z * walk_state) :=
        match rel, reloc with
        | Some r, Some rd =>
            match reloc_target form it with
            | (Aborted msg, _) => Assert msg
            | (Returned target, o1) =>
                let '(v, symbol, o2) :=
                  relocate_one rd r (if addr_64 then 8 else 4) addr wh
                               target in
                Ret (v, true, symbol, emit s (o1 ++ o2))
            end
        | _, _ =>
            Ret (addr, false, None,
                 emit s (if is_rel && negb (addr =? 0)
                         then [Message (mcs [cat_impact_2; cat_die_rel;
                                             cat_reloc])
                                       (Some wh)
                                       ": %s seems to lack a relocation."]
                         else []))
        end in
      match relocated with
      | Assert msg => Assert msg
      | Undefined what => Undefined what
      | NoFuel => NoFuel
      | Ret (addr, was_relocated, symbol, s) =>
          let l :=
            if name =? DW_AT_low_pc then set_low l addr was_relocated symbol
            else if name =? DW_AT_high_pc
                 then set_high l addr was_relocated symbol
                 else l in
          let recorded :=
            if form =? DW_FORM_ref_addr then record_ref wh addr false s
            else Ret s in
          match recorded with
          | Assert msg => Assert msg
          | Undefined what => Undefined what
          | NoFuel => NoFuel
          | Ret s =>
              if (tag abbrev =? DW_TAG_compile_unit)
                 || (tag abbrev =? DW_TAG_partial_unit)
              then
                let s :=
                  if name =? DW_AT_low_pc
                  then set_cu s (set_low_pc (ws_cu s) addr) else s in
                let s :=
                  if negb (dl_low_pc l =? UINT64_MAX)
                     && negb (dl_high_pc l =? UINT64_MAX)
                  then set_cu_coverage s
                         (mk_cu_coverage
                            (coverage_add (cov (ws_cu_coverage s))
                               (dl_low_pc l)
                               (wrap64 (dl_high_pc l - dl_low_pc l)))
                            (need_ranges (ws_cu_coverage s)))
                  else s in
                Ret (Next s l)
              else Ret (Next s l)
          end
      end
  end.

(** [case DW_FORM_udata: case DW_FORM_ref_udata:]. *)
Definition attr_udata (name form : Z) (wh : where_) (s : walk_state)
  (l : die_locals) : walk attr_end :=
  match checked_read_uleb128 (ws_ctx s) wh with
  | (None, o) => Ret (Minus1 (emit s o))
  | (Some (value, ctx), o) =>
      sibling_or_ref wh name (form =? DW_FORM_ref_udata) value
                     (emit (set_ctx s ctx) o) l
  end.

(** [case DW_FORM_flag: case DW_FORM_data1: case DW_FORM_ref1:]. *)
Definition attr_data1 (name form : Z) (wh : where_) (s : walk_state)
  (l : die_locals) : walk attr_end :=
  match read_ctx_read_ubyte (ws_ctx s) with
  | None => cant_read wh s
  | Some (value, ctx) =>
      sibling_or_ref wh name (form =? DW_FORM_ref1) value (set_ctx s ctx) l
  end.

(** [case DW_FORM_data2: case DW_FORM_ref2:]. *)
Definition attr_data2 (name form : Z) (wh : where_) (s : walk_state)
  (l : die_locals) : walk attr_end :=
  match read_ctx_read_2ubyte (ws_ctx s) with
  | None => cant_read wh s
  | Some (value, ctx) =>
      sibling_or_ref wh name (form =? DW_FORM_ref2) value (set_ctx s ctx) l
  end.

(** [case DW_FORM_data4: case DW_FORM_ref4:] with [width] 4, and
    [case DW_FORM_data8: case DW_FORM_ref8:] with [width] 8; [data] is
    the form of the first label and [ref] the one of the second. *)
Definition attr_data48 (is_rel : bool) (width data ref : Z)
  (it : abbrev_attrib) (form : Z) (check_ptr : check_what_t) (wh : where_)
  (ctx_offset : Z) (s : walk_state) (l : die_locals) : walk attr_end :=
  match (if width =? 4 then read_ctx_read_4ubyte (ws_ctx s)
         else read_ctx_read_8ubyte (ws_ctx s)) with
  | None => cant_read wh s
  | Some (value, ctx) =>
      let s := set_ctx s ctx in
      let name := at_name it in
      let no_check :=
        match check_ptr with check_nothing => true | _ => false end in
      let relocated : walk (Z * walk_state) :=
        if form =? data
        then
          let '(rel, reloc, o) :=
            relocation_next_opt (ws_reloc s) ctx_offset (Some wh)
                                skip_mismatched in
          let s := emit (set_reloc s reloc) o in
          match rel, reloc with
          | Some r, Some rd =>
              match reloc_target form it with
              | (Aborted msg, _) => Assert msg
              | (Returned target, o1) =>
                  let '(v, _, o2) := relocate_one rd r width value wh target in
                  Ret (v, emit s (o1 ++ o2))
              end
          | _, _ =>
              Ret (value,
                   emit s (if is_rel && negb no_check
                           then [Message (Z.lor (mcs [cat_impact_2;
                                                      cat_die_other;
                                                      cat_reloc])
                                                (mc_check check_ptr))
                                         (Some wh)
                                         ": %s seems to lack a relocation."]
                           else []))
          end
        else Ret (value, s) in
      match relocated with
      | Assert msg => Assert msg
      | Undefined what => Undefined what
      | NoFuel => NoFuel
      | Ret (value, s) =>
          if name =? DW_AT_sibling then Ret (Next s (set_sibling_addr l value))
          else if negb no_check
          then match do_check_ptr wh check_ptr value s with
               | Ret s => Ret (Next s l)
               | Assert msg => Assert msg
               | Undefined what => Undefined what
               | NoFuel => NoFuel
               end
          else sibling_or_ref wh name (form =? ref) value s l
      end
  end.

(** [case DW_FORM_sdata]. *)
Definition attr_sdata (wh : where_) (s : walk_state) (l : die_locals)
  : walk attr_end :=
  match checked_read_sleb128 (ws_ctx s) wh with
  | (None, o) => Ret (Minus1 (emit s o))
  | (Some (_, ctx), o) => Ret (Next (emit (set_ctx s ctx) o) l)
  end.

(** The four labels that meet at [process_DW_FORM_block]; [width] is 0
    for DW_FORM_block. *)
Definition attr_block (addr_64 : bool) (width name : Z) (wh : where_)
  (s : walk_state) (l : die_locals) : walk attr_end :=
  let length_read : option Z * walk_state :=
    if width =? 0
    then match checked_read_uleb128 (ws_ctx s) wh with
         | (None, o) => (None, emit s o)
         | (Some (length, ctx), o) => (Some length, emit (set_ctx s ctx) o)
         end
    else match read_ctx_read_var (ws_ctx s) width with
         | None =>
             (None, emit s [Error (Some wh) ": can't read attribute value."])
         | Some (length, ctx) => (Some length, set_ctx s ctx)
         end in
  match length_read with
  | (None, s) => Ret (Minus1 s)
  | (Some length, s) =>
      let checked : walk (bool * walk_state) :=
        if is_location_attrib name
        then
          let expr_start :=
            wrap64 (cu_offset (ws_cu s) + read_ctx_get_offset (ws_ctx s)) in
          match check_location_expression get_location_opcode_operands
                  relocate_one uninit (ws_ctx s) expr_start (ws_reloc s)
                  length wh addr_64 with
          | None => NoFuel
          | Some res =>
              match le_outcome res with
              | Aborted msg => Assert msg
              | Returned b =>
                  Ret (b, emit (set_reloc s (le_reloc res)) (le_out res))
              end
          end
        else
          match ws_reloc s with
          | Some rd =>
              let '(rd, o) :=
                relocation_skip rd
                  (wrap64 (read_ctx_get_offset (ws_ctx s) + length))
                  (Some wh) skip_mismatched in
              Ret (true, emit (set_reloc s (Some rd)) o)
          | None => Ret (true, s)
          end in
      match checked with
      | Assert msg => Assert msg
      | Undefined what => Undefined what
      | NoFuel => NoFuel
      | Ret (false, s) => Ret (Minus1 s)
      | Ret (true, s) =>
          match read_ctx_skip (ws_ctx s) length with
          | None => cant_read wh s
          | Some ctx => Ret (Next (set_ctx s ctx) l)
          end
      end
  end.

(** The body of the loop over the attributes, for the attribute
    [it]. *)
Definition read_attrib (is_rel dwarf_64 addr_64 : bool)
  (strings : option (list Z)) (abbrev : abbrev) (die_where : where_)
  (it : abbrev_attrib) (s : walk_state) (l : die_locals) : walk attr_end :=
  let wh := where_set_ref die_where (Some (at_where it)) in
  let name := at_name it in
  let indirect := form_of it =? DW_FORM_indirect in
  match read_indirect_form wh it s with
  | (None, s) => Ret (Minus1 s)
  | (Some form, s) =>
      let '(check_ptr, o) := select_check_ptr wh dwarf_64 indirect name form in
      let s := emit s o in
      let ctx_offset :=
        wrap64 (read_ctx_get_offset (ws_ctx s) + cu_offset (ws_cu s)) in
      if form =? DW_FORM_strp
      then attr_strp is_rel dwarf_64 strings wh ctx_offset s l
      else if form =? DW_FORM_string
      then match read_ctx_read_str (ws_ctx s) with
           | None => cant_read wh s
           | Some ctx => Ret (Next (set_ctx s ctx) l)
           end
      else if (form =? DW_FORM_addr) || (form =? DW_FORM_ref_addr)
      then attr_addr is_rel addr_64 abbrev it form wh ctx_offset s l
      else if (form =? DW_FORM_udata) || (form =? DW_FORM_ref_udata)
      then attr_udata name form wh s l
      else if (form =? DW_FORM_flag) || (form =? DW_FORM_data1)
              || (form =? DW_FORM_ref1)
      then attr_data1 name form wh s l
      else if (form =? DW_FORM_data2) || (form =? DW_FORM_ref2)
      then attr_data2 name form wh s l
      else if (form =? DW_FORM_data4) || (form =? DW_FORM_ref4)
      then attr_data48 is_rel 4 DW_FORM_data4 DW_FORM_ref4 it form check_ptr
                       wh ctx_offset s l
      else if (form =? DW_FORM_data8) || (form =? DW_FORM_ref8)
      then attr_data48 is_rel 8 DW_FORM_data8 DW_FORM_ref8 it form check_ptr
                       wh ctx_offset s l
      else if form =? DW_FORM_sdata then attr_sdata wh s l
      else if form =? DW_FORM_block then attr_block addr_64 0 name wh s l
      else if form =? DW_FORM_block1 then attr_block addr_64 1 name wh s l
      else if form =? DW_FORM_block2 then attr_block addr_64 2 name wh s l
      else if form =? DW_FORM_block4 then attr_block addr_64 4 name wh s l
      else if form =? DW_FORM_indirect
      then Ret (Minus1 (emit s [Error (Some wh)
                                  ": indirect form is again indirect."]))
      else Ret (Next (emit s [Error (Some wh)
                                ": internal error: unhandled form 0x%x."])
                     l)
  end.

(** The loop [for (it = abbrev->attribs; it->name != 0; ++it)].  The
    array has to hold an attribute with the name 0; a list without
    one stands for an array that is read past its end. *)
Fixpoint attribs_loop (is_rel dwarf_64 addr_64 : bool)
  (strings : option (list Z)) (abbrev : abbrev) (die_where : where_)
  (its : list abbrev_attrib) (s : walk_state) (l : die_locals)
  : walk attr_end :=
  match its with
  | [] => Undefined "it->name"
  | it :: rest =>
      if at_name it =? 0 then Ret (Next s l)
      else
        match read_attrib is_rel dwarf_64 addr_64 strings abbrev die_where
                          it s l with
        | Ret (Next s l) =>
            attribs_loop is_rel dwarf_64 addr_64 strings abbrev die_where
                         rest s l
        | other => other
        end
  end.

(** What follows the loop over the attributes: the two ends of the
    range of the DIE have to be relocated alike. *)
Definition check_pc_relocations (wh : where_) (l : die_locals) : list call :=
  if negb (dl_high_pc l =? UINT64_MAX) && negb (dl_low_pc l =? UINT64_MAX)
  then
    if negb (Bool.eqb (dl_high_pc_relocated l) (dl_low_pc_relocated l))
    then [Message (mcs [cat_die_other; cat_impact_2; cat_reloc]) (Some wh)
            ": only one of DW_AT_low_pc and DW_AT_high_pc is relocated."]
    else LocRange.check_range_relocations cat_die_other wh
           (dl_low_pc_symbol l) (dl_high_pc_symbol l)
  else [].

(** What follows the loop over the DIEs. *)
Definition chain_end (s : walk_state) (got_die : bool) (sibling_addr : Z)
  (wh : where_) : walk (Z * walk_state) :=
  Ret (if got_die then 1 else 0,
       emit s (if negb (sibling_addr =? 0)
               then [Error (Some wh)
                       ": this DIE should have had its sibling at 0x%lx, but the DIE chain ended."]
               else [])).

(** The loop [while (!read_ctx_eof (ctx))] of [read_die_chain], one
    DIE per turn, with the locals that live across the turns:
    [got_die], [sibling_addr], [prev_abbrev] and [where].  [fuel]
    bounds the depth of the turns and of the calls for the children
    taken together. *)
Fixpoint die_loop (fuel : nat) (is_rel dwarf_64 addr_64 : bool)
  (strings : option (list Z)) (s : walk_state) (got_die : bool)
  (sibling_addr : Z) (prev_abbrev : option abbrev) (wh : where_)
  : walk (Z * walk_state) :=
  match fuel with
  | O => NoFuel
  | S fuel' =>
      if read_ctx_eof (ws_ctx s) then chain_end s got_die sibling_addr wh
      else
        let die_off := read_ctx_get_offset (ws_ctx s) in
        (* Shift reported DIE offset by CU offset.  *)
        let wh := where_reset_2 (cu_where (ws_cu s))
                                (wrap64 (die_off + cu_offset (ws_cu s))) in
        match checked_read_uleb128 (ws_ctx s) wh with
        | (None, o) => Ret (-1, emit s o)
        | (Some (abbr_code, ctx), o) =>
            let s := emit (set_ctx s ctx) o in
            (* Check sibling value advertised last time through the loop.  *)
            let '(sibling_addr, o) :=
              if negb (sibling_addr =? 0)
              then (0,
                    if abbr_code =? 0
                    then [Error (Some wh)
                            ": is the last sibling in chain, but has a DW_AT_sibling attribute."]
                    else if negb (sibling_addr =? die_off)
                    then [Error (Some wh)
                            ": This DIE should have had its sibling at 0x%lx, but it's at 0x%lx instead."]
                    else [])
              else (sibling_addr,
                    match prev_abbrev with
                    | Some prev =>
                        if has_children prev
                        then [Message (mcs [cat_die_rel; cat_acc_suboptimal;
                                            cat_impact_4])
                                      (Some wh)
                                      ": This DIE had children, but no DW_AT_sibling attribute."]
                        else []
                    | None => []
                    end) in
            let s := emit s o in
            (* The section ended.  *)
            if abbr_code =? 0 then chain_end s got_die sibling_addr wh
            else if read_ctx_eof (ws_ctx s)
            then chain_end
                   (emit s [Error (Some wh)
                              ": DIE chain not terminated with DIE with zero abbrev code."])
                   got_die sibling_addr wh
            else
              (* Find the abbrev matching the code.  *)
              match find_abbrev_loop (abbr (ws_abbrevs s)) abbr_code 0
                      (length (abbr (ws_abbrevs s))) with
              | None =>
                  Ret (-1,
                       emit s [Error (Some wh)
                                 ": abbrev section at 0x%lx doesn't contain code %lu."])
              | Some i =>
                  let abbrev := nth i (abbr (ws_abbrevs s)) wiped_abbrev in
                  let s := set_abbrevs s (mark_used (ws_abbrevs s) i) in
                  let s :=
                    set_cu s
                      (set_die_addrs (ws_cu s)
                         (addr_record_add (die_addrs (ws_cu s))
                            (wrap64 (cu_offset (ws_cu s) + die_off)))) in
                  (* Attribute values.  *)
                  match attribs_loop is_rel dwarf_64 addr_64 strings abbrev wh
                          (attribs abbrev) s
                          (mk_locals sibling_addr UINT64_MAX UINT64_MAX
                                     false false (Some uninit) (Some uninit))
                  with
                  | Assert msg => Assert msg
                  | Undefined what => Undefined what
                  | NoFuel => NoFuel
                  | Ret (Minus1 s) => Ret (-1, s)
                  | Ret (Next s l) =>
                      let wh := where_set_ref wh None in
                      let s := emit s (check_pc_relocations wh l) in
                      let wh := where_set_ref wh (Some (ab_where abbrev)) in
                      if has_children abbrev
                      then
                        match die_loop fuel' is_rel dwarf_64 addr_64 strings s
                                false 0 None (WHERE sec_info None) with
                        | Ret (st, s) =>
                            if st =? -1 then Ret (-1, s)
                            else
                              die_loop fuel' is_rel dwarf_64 addr_64 strings
                                (emit s
                                   (if st =? 0
                                    then [Message (mcs [cat_impact_3;
                                                        cat_acc_suboptimal;
                                                        cat_die_rel])
                                                  (Some wh)
                                                  ": abbrev has_children, but the chain was empty."]
                                    else []))
                                true (dl_sibling_addr l) prev_abbrev wh
                        | other => other
                        end
                      else
                        die_loop fuel' is_rel dwarf_64 addr_64 strings s true
                                 (dl_sibling_addr l) prev_abbrev wh
                  end
              end
        end
  end.

(** [read_die_chain]'s result: -1, 0 or 1, and what it leaves behind.
    The bound on the turns is the number of bytes of the cursor: a
    turn that goes on has read one byte at least. *)
Definition read_die_chain (is_rel : bool) (ctx : read_ctx) (c : cu)
  (abbrevs : abbrev_table) (strings : option (list Z))
  (dwarf_64 addr_64 : bool) (local_die_refs : option ref_record)
  (strings_coverage : option coverage) (reloc : option relocation_data)
  (cu_cov : cu_coverage) : walk (Z * walk_state) :=
  die_loop (S (Z.to_nat (c_end ctx - c_ptr ctx))) is_rel dwarf_64 addr_64
           strings
           (mk_walk ctx c abbrevs local_die_refs strings_coverage reloc
                    cu_cov [])
           false 0 None (WHERE sec_info None).

End WithCollaborators.

End DieChain.
(** ** Properties of the walk over the DIEs *)

Module DieChainSpec.
Import Diagnostics ReadCtx AddrRecord Abbrev Relocation CU DieChain InfoSpec.

(** The message about a DIE with children and no sibling attribute. *)
Definition no_sibling_text : string :=
  ": This DIE had children, but no DW_AT_sibling attribute.".

Definition is_no_sibling (c : call) : bool :=
  match c with
  | Message _ _ fmt => String.eqb fmt no_sibling_text
  | _ => false
  end.

(** The cursor went forward over the same bytes, and stayed inside
    them if it was inside. *)
Definition forward (ctx ctx' : read_ctx) : Prop :=
  c_data ctx' = c_data ctx /\ c_begin ctx' = c_begin ctx
  /\ c_end ctx' = c_end ctx
  /\ c_ptr ctx <= c_ptr ctx'
  /\ (c_ptr ctx <= c_end ctx -> c_ptr ctx' <= c_end ctx).

(** A successful read of [n] bytes at least. *)
Definition moves (n : Z) (ctx ctx' : read_ctx) : Prop :=
  c_data ctx' = c_data ctx /\ c_begin ctx' = c_begin ctx
  /\ c_end ctx' = c_end ctx
  /\ c_ptr ctx + n <= c_ptr ctx' <= c_end ctx.

(** The header of the unit is the same. *)
Definition same_unit (c c' : cu) : Prop :=
  cu_offset c' = cu_offset c /\ cudie_offset c' = cudie_offset c
  /\ cu_length c' = cu_length c /\ address_size c' = address_size c
  /\ cu_where c' = cu_where c /\ has_arange c' = has_arange c
  /\ has_pubnames c' = has_pubnames c /\ has_pubtypes c' = has_pubtypes c.

(** The offsets of the DIEs: none is lost, and they stay in strictly
    ascending order. *)
Definition die_addrs_grow (c c' : cu) : Prop :=
  incl (die_addrs c) (die_addrs c')
  /\ (StronglySorted Z.lt (die_addrs c) -> StronglySorted Z.lt (die_addrs c')).

(** The tables differ in the marks [used] at most. *)
Definition same_abbrevs (t t' : abbrev_table) : Prop :=
  offset t' = offset t /\ map set_used (abbr t') = map set_used (abbr t).

(** The array of attributes holds the closing attribute. *)
Definition terminated (a : abbrev) : Prop :=
  exists it, In it (attribs a) /\ at_name it = 0.

(** The bytes of a section are bytes. *)
Definition bytes (data : list Z) : Prop :=
  Forall (fun b => 0 <= b < 256) data.

(** The target of a local reference lies in the unit: it is the
    offset of the unit plus an offset into the bytes of the cursor. *)
Definition in_unit (ctx : read_ctx) (c : cu) (r : ref) : Prop :=
  exists a, (bytes (c_data ctx) -> 0 <= a)
            /\ a <= c_end ctx - c_begin ctx
            /\ r_addr r = wrap64 (a + cu_offset c).

Definition local_refs_grow (ctx : read_ctx) (c : cu)
  (r r' : option ref_record) : Prop :=
  match r, r' with
  | Some rr, Some rr' =>
      exists more, rr' = rr ++ more /\ Forall (in_unit ctx c) more
  | None, None => True
  | _, _ => False
  end.

(** The section .debug_str ends with a NUL. *)
Definition nul_terminated (data : list Z) : Prop :=
  exists front, data = front ++ [0].

Definition strings_terminated (strings : option (list Z)) : Prop :=
  match strings with
  | Some data => nul_terminated data
  | None => True
  end.

Section WithCollaborators.
Variable relocate_one :
  relocation_data -> relocation -> Z -> Z -> where_ -> section_id ->
  Z * option Z * list call.

(** [relocate_one] never issues the message. *)
Definition quiet_relocate_one : Prop :=
  forall rd r width value wh target,
    forallb (fun c => negb (is_no_sibling c))
            (snd (relocate_one rd r width value wh target)) = true.

(** A diagnostic is accounted for when it is not the message, or
    when [relocate_one] issued it. *)
Definition accounted (c : call) : Prop :=
  is_no_sibling c = false
  \/ exists rd r width value wh target,
      In c (snd (relocate_one rd r width value wh target)).

(** What a stretch of the walk does to the state. *)
Definition ext (s s' : walk_state) : Prop :=
  forward (ws_ctx s) (ws_ctx s')
  /\ same_unit (ws_cu s) (ws_cu s')
  /\ die_addrs_grow (ws_cu s) (ws_cu s')
  /\ same_abbrevs (ws_abbrevs s) (ws_abbrevs s')
  /\ local_refs_grow (ws_ctx s) (ws_cu s)
                     (ws_local_die_refs s) (ws_local_die_refs s')
  /\ exists o, ws_out s' = ws_out s ++ o /\ Forall accounted o.

(** The stretch issued an error. *)
Definition errs (s s' : walk_state) : Prop :=
  exists o, ws_out s' = ws_out s ++ o /\ existsb is_error o = true.

(** The assertion of [reloc_target_loc]. *)
Definition call_ref_text : string := "Can't handle call_ref!".

(** What the body of the loop over the attributes does, from the
    state [s] on: it goes on, it returns -1 after an error, it stops
    at an assertion, or it steps outside of what C defines; [X] is a
    further cause of the latter. *)
Definition attr_spec (strings : option (list Z)) (X : Prop) (s : walk_state)
  (res : walk attr_end) : Prop :=
  match res with
  | Ret (Next s' _) => ext s s'
  | Ret (Minus1 s') => ext s s' /\ errs s s'
  | Assert msg =>
      msg = call_ref_text \/ ~ c_begin (ws_ctx s) < c_end (ws_ctx s)
  | Undefined _ =>
      address_size (ws_cu s) = 0 \/ ~ strings_terminated strings \/ X
  | NoFuel => False
  end.

(** The same for the walk. *)
Definition chain_spec (strings : option (list Z)) (s : walk_state)
  (res : walk (Z * walk_state)) : Prop :=
  match res with
  | Ret (st, s') =>
      (st = -1 \/ st = 0 \/ st = 1) /\ ext s s' /\ (st = -1 -> errs s s')
  | Assert msg =>
      msg = call_ref_text \/ ~ c_begin (ws_ctx s) <= c_ptr (ws_ctx s)
  | Undefined _ =>
      address_size (ws_cu s) = 0 \/ ~ strings_terminated strings
      \/ ~ Forall terminated (abbr (ws_abbrevs s))
  | NoFuel => False
  end.

End WithCollaborators.


End DieChainSpec.

(** A unit of fourteen bytes, walked with two abbreviations: the
    first DIE has children and no sibling attribute, its child refers
    to itself, and the DIE that follows the first refers to offset
    0x40. *)
Module DieSamples.
Import Diagnostics ReadCtx AddrRecord Abbrev Relocation CU DieChain.

Definition sample_abbrevs : abbrev_table :=
  mk_table 0
    [mk_abbrev 1 DW_TAG_compile_unit true (WHERE sec_abbrev None) false
       [mk_attrib 0x03 Dwarf.DW_FORM_string (WHERE sec_abbrev None);
        mk_attrib 0 0 (WHERE sec_abbrev None)];
     mk_abbrev 2 0x24 false (WHERE sec_abbrev None) false
       [mk_attrib 0x49 Dwarf.DW_FORM_ref4 (WHERE sec_abbrev None);
        mk_attrib 0 0 (WHERE sec_abbrev None)]].

Definition sample_dies : list Z :=
  [1; 0x61; 0; 2; 3; 0; 0; 0; 0; 2; 0x40; 0; 0; 0].

Definition sample_ctx : read_ctx := read_ctx_init false sample_dies.

Definition sample_cu : cu :=
  mk_cu 0 0 14 4 UINT64_MAX [] [] [] [] []
        (where_reset_1 (WHERE sec_info None) 0) false false false.

End DieSamples.
(** ** The pass over .debug_aranges *)

Module Aranges.
Import Diagnostics ReadCtx Checked AddrRecord Relocation Dwarf Coverage CU
  Info Pub DieChain.

(** [cu->has_arange = true] in the chain, on the unit [cu_find_cu]
    returns. *)
Definition set_has_arange (c : cu) : cu :=
  mk_cu (cu_offset c) (cudie_offset c) (cu_length c) (address_size c)
        (low_pc c) (die_addrs c) (die_refs c) (loc_refs c) (range_refs c)
        (line_refs c) (cu_where c) true (has_pubnames c) (has_pubtypes c).

Fixpoint mark_arange (cu_chain : list cu) (offset : Z) : list cu :=
  match cu_chain with
  | [] => []
  | it :: rest =>
      if cu_offset it =? offset then set_has_arange it :: rest
      else it :: mark_arange rest offset
  end.

(** What the checks of one table work on: the cursor over the table,
    [retval], the coordinate, the relocations of the section, the
    chain of units, the coverage of the tables (or NULL), and the
    diagnostics of the table. *)
Record table_state : Type :=
  mk_table_state {
      ts_ctx : read_ctx;
      ts_retval : bool;
      ts_where : where_;
      ts_rel : relocation_data;
      ts_chain : list cu;
      ts_coverage : option coverage;
      ts_out : list call
    }.

Definition with_ctx (s : table_state) (ctx : read_ctx) : table_state :=
  mk_table_state ctx (ts_retval s) (ts_where s) (ts_rel s) (ts_chain s)
                 (ts_coverage s) (ts_out s).

Definition with_where (s : table_state) (wh : where_) : table_state :=
  mk_table_state (ts_ctx s) (ts_retval s) wh (ts_rel s) (ts_chain s)
                 (ts_coverage s) (ts_out s).

Definition with_rel (s : table_state) (rel : relocation_data) : table_state :=
  mk_table_state (ts_ctx s) (ts_retval s) (ts_where s) rel (ts_chain s)
                 (ts_coverage s) (ts_out s).

Definition with_chain (s : table_state) (chain : list cu) : table_state :=
  mk_table_state (ts_ctx s) (ts_retval s) (ts_where s) (ts_rel s) chain
                 (ts_coverage s) (ts_out s).

Definition with_coverage (s : table_state) (c : option coverage)
  : table_state :=
  mk_table_state (ts_ctx s) (ts_retval s) (ts_where s) (ts_rel s)
                 (ts_chain s) c (ts_out s).

Definition emit (s : table_state) (more : list call) : table_state :=
  mk_table_state (ts_ctx s) (ts_retval s) (ts_where s) (ts_rel s)
                 (ts_chain s) (ts_coverage s) (ts_out s ++ more).

(** [retval = false]. *)
Definition fail (s : table_state) (more : list call) : table_state :=
  mk_table_state (ts_ctx s) false (ts_where s) (ts_rel s) (ts_chain s)
                 (ts_coverage s) (ts_out s ++ more).

Section WithCollaborators.
Context `{MessageCategories}.
Variable relocate_one :
  relocation_data -> relocation -> Z -> Z -> where_ -> section_id ->
  Z * option Z * list call.
(** [compare_coverage (file, coverage, aranges_coverage, sec_aranges,
    "aranges")], which walks the sections of the file. *)
Variable compare_coverage : coverage -> coverage -> list call.

(** The nested function [aranges_coverage_add]. *)
Definition aranges_coverage_add (f : flags) (wh : where_)
  (aranges_coverage : coverage) (begin length : Z) : coverage * list call :=
  (coverage_add aranges_coverage begin length,
   if coverage_is_overlap aranges_coverage begin length
      && negb (be_gnu f) && negb (be_tolerant f)
   then [Message (mcs [cat_aranges; cat_impact_2; cat_error]) (Some wh)
           ": the range %s overlaps with another one."]
   else []).

(** The loop [for (uint64_t i = off; i < noff; ++i)] over the padding
    of the header, [todo] bytes of it: the state at the end of the
    loop, or at [goto next]. *)
Fixpoint padding_loop (todo : nat) (s : table_state)
  : table_state * bool :=
  match todo with
  | O => (s, true)
  | S todo' =>
      match read_ctx_read_ubyte (ts_ctx s) with
      | None =>
          (fail s [Error (Some (ts_where s))
                     ": section ends after the header, but before the first entry."],
           false)
      | Some (c, ctx) =>
          let s := with_ctx s ctx in
          padding_loop todo'
            (if negb (c =? 0)
             then emit s [Message (mcs [cat_impact_2; cat_aranges;
                                        cat_header])
                                  (Some (ts_where s))
                                  ": non-zero byte at 0x%lx in padding before the first entry."]
             else s)
      end
  end.

(** The loop [while (!read_ctx_eof (&sub_ctx))] over the tuples: the
    state where the loop is left in order, or at [goto next].  [fuel]
    bounds the number of turns, [None] means it was used up. *)
Fixpoint tuples_loop (fuel : nat) (f : flags) (is_rel : bool)
  (address_size ctx_begin : Z) (s : table_state)
  : option (table_state * bool) :=
  match fuel with
  | O => None
  | S fuel' =>
      if read_ctx_eof (ts_ctx s) then Some (s, true)
      else
        let s := with_where s (where_reset_2 (ts_where s)
                                 (read_ctx_get_offset (ts_ctx s))) in
        let wh := ts_where s in
        (* Record address.  *)
        let ctx_offset := c_ptr (ts_ctx s) - ctx_begin in
        match read_ctx_read_var (ts_ctx s) address_size with
        | None =>
            Some (fail s [Error (Some wh) ": can't read address field."],
                  false)
        | Some (address, ctx) =>
            let s := with_ctx s ctx in
            let '(rel, reloc, o) :=
              relocation_next (ts_rel s) ctx_offset (Some wh)
                              skip_mismatched in
            let s := emit (with_rel s reloc) o in
            let '(address, address_relocated, o) :=
              match rel with
              | Some r =>
                  let '(v, _, o) :=
                    relocate_one reloc r address_size address wh
                                 rel_address in
                  (v, true, o)
              | None =>
                  (address, false,
                   if is_rel && negb (address =? 0)
                   then [Message (mcs [cat_impact_2; cat_aranges; cat_reloc])
                                 (Some wh)
                                 ": %s seems to lack a relocation."]
                   else [])
              end in
            let s := emit s o in
            (* Record length.  *)
            match read_ctx_read_var (ts_ctx s) address_size with
            | None =>
                Some (fail s [Error (Some wh) ": can't read length field."],
                      false)
            | Some (length, ctx) =>
                let s := with_ctx s ctx in
                if (address =? 0) && (length =? 0) && negb address_relocated
                then Some (s, true)
                else
                  let s :=
                    if length =? 0
                    then emit s [Error (Some wh)
                                   ": zero-length address range."]
                    else
                      (* Skip coverage analysis if we have errors.  *)
                      match ts_retval s, ts_coverage s with
                      | true, Some cov =>
                          let '(cov, o) :=
                            aranges_coverage_add f wh cov address length in
                          emit (with_coverage s (Some cov)) o
                      | _, _ => s
                      end in
                  tuples_loop fuel' f is_rel address_size ctx_begin s
            end
        end
  end.

(** The unit a table refers to: from [struct cu *cu = NULL] to the
    mark [cu->has_arange].  (The hint [wf_cudie] that is stored in
    [where_cudie.formatting] only changes how [where_fmt] prints the
    coordinate; the coordinates here do not carry it.) *)
Definition refer_unit (cu_offset : Z) (s : table_state)
  : option cu * table_state :=
  let wh := ts_where s in
  let cu :=
    match ts_chain s with
    | [] => None
    | _ => cu_find_cu (ts_chain s) cu_offset
    end in
  let s :=
    match ts_chain s, cu with
    | _ :: _, None =>
        emit s [Error (Some wh) ": unresolved reference to CU 0x%lx."]
    | _, _ => s
    end in
  match cu with
  | Some c =>
      let where_cudie :=
        where_reset_1 (WHERE sec_info None) (cudie_offset c) in
      let s := with_where s (where_set_ref wh (Some where_cudie)) in
      (cu,
       if has_arange c
       then emit s [Message (mcs [cat_impact_2; cat_aranges; cat_header])
                            (Some (ts_where s))
                            ": there has already been arange section for this CU."]
       else with_chain s (mark_arange (ts_chain s) cu_offset))
  | None => (cu, s)
  end.

(** The tuples of a table: from [const uint8_t tuple_size] up to the
    label [next]. *)
Definition check_tuples (f : flags) (is_rel : bool)
  (size ctx_begin address_size : Z) (s : table_state) : walk table_state :=
  let tuple_size := (2 * address_size) mod 256 in
  let off := read_ctx_get_offset (ts_ctx s) in
  if tuple_size =? 0 then Undefined "off % tuple_size"
  else
    let padded :=
      if negb (off mod tuple_size =? 0)
      then
        let noff := wrap64 ((off / tuple_size + 1) * tuple_size) in
        padding_loop (Z.to_nat (noff - off)) s
      else (s, true) in
    match padded with
    | (s, false) => Ret s
    | (s, true) =>
        if negb (read_ctx_get_offset (ts_ctx s) mod tuple_size =? 0)
        then Assert "(read_ctx_get_offset (&sub_ctx) % tuple_size) == 0"
        else
          match tuples_loop
                  (S (Z.to_nat (c_end (ts_ctx s) - c_ptr (ts_ctx s))))
                  f is_rel address_size ctx_begin s with
          | None => NoFuel
          | Some (s, false) => Ret s
          | Some (s, true) =>
              let sub_ctx := ts_ctx s in
              if negb (c_ptr sub_ctx =? c_end sub_ctx)
              then
                match check_zero_padding sub_ctx (mc cat_aranges)
                        (WHERE (w_section (ts_where s)) None) with
                | (Aborted msg, _) => Assert msg
                | (Returned (true, ctx), o) => Ret (emit (with_ctx s ctx) o)
                | (Returned (false, ctx), o) =>
                    Ret (fail (emit (with_ctx s ctx) o)
                           [wr_message_padding_n0
                              (Z.lor (mc cat_aranges) (mc cat_error))
                              (WHERE (w_section (ts_where s)) None)
                              (read_ctx_get_offset ctx)
                              (read_ctx_get_offset ctx + size)])
                end
              else Ret s
          end
    end.

(** One table of [check_aranges_structural], from the version up to
    the label [next]. *)
Definition check_table (f : flags) (is_rel dwarf_64 : bool)
  (size ctx_begin : Z) (s : table_state) : walk table_state :=
  let wh := ts_where s in
  (* Version.  *)
  match read_ctx_read_2ubyte (ts_ctx s) with
  | None => Ret (fail s [Error (Some wh) ": can't read version."])
  | Some (version, ctx) =>
      let s := with_ctx s ctx in
      let '(ok, o) := supported_version version [2] wh in
      if negb ok then Ret (fail s o)
      else
        let s := emit s o in
        (* CU offset.  *)
        let ctx_offset := c_ptr (ts_ctx s) - ctx_begin in
        match read_ctx_read_offset (ts_ctx s) dwarf_64 with
        | None =>
            Ret (fail s [Error (Some wh) ": can't read debug info offset."])
        | Some (cu_offset, ctx) =>
            let s := with_ctx s ctx in
            let '(rel, reloc, o) :=
              relocation_next (ts_rel s) ctx_offset (Some wh)
                              skip_mismatched in
            let s := emit (with_rel s reloc) o in
            let '(cu_offset, o) :=
              match rel with
              | Some r =>
                  let '(v, _, o) :=
                    relocate_one reloc r (if dwarf_64 then 8 else 4)
                                 cu_offset wh sec_info in
                  (v, o)
              | None =>
                  (cu_offset,
                   if is_rel
                   then [Message (mcs [cat_impact_2; cat_aranges; cat_reloc;
                                       cat_header]) (Some wh)
                           ": %s seems to lack a relocation."]
                   else [])
              end in
            let s := emit s o in
            let '(cu, s) := refer_unit cu_offset s in
            let wh := ts_where s in
            (* Address size.  *)
            match read_ctx_read_ubyte (ts_ctx s) with
            | None => Ret (fail s [Error (Some wh) ": can't read address size."])
            | Some (address_size, ctx) =>
                let s := with_ctx s ctx in
                let checked : table_state * bool :=
                  match cu with
                  | Some c =>
                      if negb (address_size =? CU.address_size c)
                      then (fail s [Error (Some wh)
                                      ": address size %d doesn't match referred CU."],
                            true)
                      else (s, true)
                  | None =>
                      (* Try to parse it anyway, unless the address size
                         is wacky.  *)
                      if negb (address_size =? 4) && negb (address_size =? 8)
                      then (fail s [Error (Some wh)
                                      ": invalid address size: %d."],
                            false)
                      else (s, true)
                  end in
                match checked with
                | (s, false) => Ret s
                | (s, true) =>
                    (* Segment size.  *)
                    match read_ctx_read_ubyte (ts_ctx s) with
                    | None =>
                        Ret (fail s [Error (Some wh)
                                       ": can't read unit segment size."])
                    | Some (segment_size, ctx) =>
                        let s := with_ctx s ctx in
                        if negb (segment_size =? 0)
                        then Ret (fail s [Warning (Some wh)
                                            ": dwarflint can't handle segment_size != 0."])
                        else check_tuples f is_rel size ctx_begin
                                          address_size s
                    end
                end
            end
        end
  end.

(** What [check_aranges_structural] leaves behind. *)
Record aranges_result : Type :=
  mk_aranges_result {
      ar_retval : bool;
      ar_sec : sec;
      ar_chain : list cu;
      ar_out : list call
    }.

(** The loop [while (!read_ctx_eof (&ctx))] over the tables, and what
    follows it.  [fuel] bounds the number of turns. *)
Fixpoint aranges_loop (fuel : nat) (f : flags) (is_rel : bool)
  (coverage : option coverage) (ctx : read_ctx) (s : sec)
  (cu_chain : list cu) (retval : bool)
  (aranges_coverage : option Coverage.coverage) (out : list call)
  : walk aranges_result :=
  match fuel with
  | O => NoFuel
  | S fuel' =>
      if read_ctx_eof ctx
      then
        Ret (mk_aranges_result retval s cu_chain
               (out ++ match coverage, aranges_coverage with
                       | Some cov, Some other => compare_coverage cov other
                       | _, _ => []
                       end))
      else
        let wh := where_reset_1 (WHERE sec_aranges None)
                                (read_ctx_get_offset ctx) in
        let atab_begin := c_ptr ctx in
        let stop s chain more :=
          Ret (mk_aranges_result false s chain (out ++ more)) in
        (* Size.  *)
        match read_ctx_read_4ubyte ctx with
        | None => stop s cu_chain [Error (Some wh) ": can't read table length."]
        | Some (size32, ctx) =>
            match read_size_extra ctx size32 wh with
            | (None, o) => stop s cu_chain o
            | (Some (size, dwarf_64, ctx), o0) =>
                let atab_end := c_ptr ctx + size in
                match read_ctx_init_sub ctx atab_begin atab_end with
                | None =>
                    stop s cu_chain
                         (o0 ++ [Error (Some wh) ": not enough data for %s."])
                | Some sub_ctx =>
                    let sub_ctx := set_ptr sub_ctx (c_ptr ctx) in
                    match check_table f is_rel dwarf_64 size (c_begin ctx)
                            (mk_table_state sub_ctx retval wh (sec_rel_data s)
                                            cu_chain aranges_coverage [])
                    with
                    | Assert msg => Assert msg
                    | Undefined what => Undefined what
                    | NoFuel => NoFuel
                    | Ret ts =>
                        let s := set_rel s (ts_rel ts) in
                        match read_ctx_skip ctx size with
                        | None =>
                            (* A "can't happen" error.  *)
                            stop s (ts_chain ts)
                                 (o0 ++ ts_out ts
                                  ++ [Error (Some (ts_where ts))
                                        ": not enough data for %s."])
                        | Some ctx =>
                            aranges_loop fuel' f is_rel coverage ctx s
                                         (ts_chain ts) (ts_retval ts)
                                         (ts_coverage ts)
                                         (out ++ o0 ++ ts_out ts)
                        end
                    end
                end
            end
        end
  end.

(** [check_aranges_structural].  A turn of the loop over the tables
    that goes on has read the four bytes of a length at least. *)
Definition check_aranges_structural (f : flags) (big_endian is_rel : bool)
  (s : sec) (cu_chain : list cu) (coverage : option coverage)
  : walk aranges_result :=
  aranges_loop (S (length (sec_data s))) f is_rel coverage
               (read_ctx_init big_endian (sec_data s)) s cu_chain true
               (match coverage with Some _ => Some [] | None => None end) [].

End WithCollaborators.

End Aranges.

Module ArangesSpec.
Import Diagnostics ReadCtx Relocation CU DieChainSpec Aranges.



(** A table of .debug_aranges for the unit at offset 0, with the
    address size 0: length 8, version 2, offset 0, address size 0,
    segment size 0, and two bytes more. *)
Definition zero_address_size_table : list Z :=
  [8; 0; 0; 0; 2; 0; 0; 0; 0; 0; 0; 0].

(** A table with the address size 4: length 20, version 2, offset 0,
    address size 4, segment size 0, four bytes of padding and the
    closing pair of zeros. *)
Definition closed_table : list Z :=
  [20; 0; 0; 0; 2; 0; 0; 0; 0; 0; 4; 0; 0; 0; 0; 0;
   0; 0; 0; 0; 0; 0; 0; 0].

(** A unit at offset 0 with addresses of four bytes. *)
Definition unit_at_0 : cu :=
  mk_cu 0 11 32 4 UINT64_MAX [] [] [] [] []
        (where_reset_1 (WHERE sec_info None) 0) false false false.

Definition no_flags : flags :=
  mk_flags false false false false false false false false.

Definition aranges_sec (data : list Z) : sec :=
  mk_sec sec_aranges data (mk_reloc [] SHT_REL 0 0).

End ArangesSpec.
(** ** Alignment *)

Module Alignment.

(** [address_aligned]. *)
Definition address_aligned (addr align : Z) : bool :=
  (align <? 2) || (addr mod align =? 0).

(** [necessary_alignment]: the sum [start + length] is taken in
    [uint64_t]. *)
Definition necessary_alignment (start length align : Z) : bool :=
  address_aligned (wrap64 (start + length)) align && (length <? align).

End Alignment.
(** * Properties *)

Module DiagnosticsFacts.
Import Diagnostics.

(** The spec's reading of a term: [positive ⊆ cat] and
    [negative ∩ cat = ∅], bit by bit. *)
Definition bits_subset (p c : Z) : Prop :=
  forall i, 0 <= i -> Z.testbit p i = true -> Z.testbit c i = true.

Definition bits_disjoint (n c : Z) : Prop :=
  forall i, 0 <= i -> ~ (Z.testbit n i = true /\ Z.testbit c i = true).

Lemma land_eq_subset (p c : Z) : Z.land p c = p <-> bits_subset p c.
Proof.
  unfold bits_subset; split.
  - intros H i Hi Hp. rewrite <- H in Hp.
    rewrite Z.land_spec in Hp. now apply andb_true_iff in Hp.
  - intros H. apply Z.bits_inj'. intros i Hi.
    rewrite Z.land_spec. destruct (Z.testbit p i) eqn:E; [|reflexivity].
    now rewrite (H i Hi E).
Qed.

Lemma land_zero_disjoint (n c : Z) : Z.land n c = 0 <-> bits_disjoint n c.
Proof.
  unfold bits_disjoint; split.
  - intros H i Hi [Hn Hc].
    assert (E : Z.testbit (Z.land n c) i = true)
      by (rewrite Z.land_spec, Hn, Hc; reflexivity).
    rewrite H, Z.bits_0 in E. discriminate.
  - intros H. apply Z.bits_inj'. intros i Hi.
    rewrite Z.land_spec, Z.bits_0.
    destruct (Z.testbit n i) eqn:En, (Z.testbit c i) eqn:Ec; try reflexivity.
    exfalso. apply (H i Hi). now split.
Qed.

Lemma term_matches_iff (t : message_term) (cat : Z) :
  term_matches t cat = true
  <-> bits_subset (positive t) cat /\ bits_disjoint (negative t) cat.
Proof.
  unfold term_matches.
  rewrite andb_true_iff, !Z.eqb_eq, land_eq_subset, land_zero_disjoint.
  reflexivity.
Qed.

Lemma message_accept_iff (cri : message_criteria) (cat : Z) :
  message_accept cri cat = true
  <-> exists t, In t cri /\ bits_subset (positive t) cat
                /\ bits_disjoint (negative t) cat.
Proof.
  induction cri as [|t rest IH]; simpl.
  - split; [discriminate | intros (t & [] & _)].
  - destruct (term_matches t cat) eqn:E.
    + split; [intros _ | reflexivity].
      exists t. split; [now left | now apply term_matches_iff].
    + rewrite IH. split.
      * intros (u & Hin & Hu). exists u. split; [now right | exact Hu].
      * intros (u & [-> | Hin] & Hu).
        -- apply term_matches_iff in Hu. congruence.
        -- now exists u.
Qed.

Lemma diag_lines_chain (cfg : config) (wh : option where_) (sev : severity) :
  diag_lines (where_fmt_chain cfg wh sev) = [].
Proof.
  unfold where_fmt_chain. destruct wh as [w|]; [|reflexivity].
  destruct (show_refs cfg); [|reflexivity].
  induction (where_links w); simpl; auto.
Qed.

Lemma chain_severity (cfg : config) (wh : option where_) (sev : severity) :
  forall l, In l (where_fmt_chain cfg wh sev) -> line_severity l = Some sev.
Proof.
  unfold where_fmt_chain. destruct wh as [w|]; [|intros ? []].
  destruct (show_refs cfg); [|intros ? []].
  intros l Hin. apply in_map_iff in Hin. destruct Hin as (x & <- & _).
  reflexivity.
Qed.

(** C1.  [message (cat, where, fmt)] appends to standard output either
    nothing or exactly one diagnostic line (followed only by the
    "caused by this reference" lines of the where's chain, none of
    which is a diagnostic line of its own); it appends nothing iff the
    warning criterion rejects [cat]; every appended line has severity
    error iff the error criterion accepts [cat], and warning
    otherwise; and a criterion accepts [cat] iff one of its terms has
    [positive ⊆ cat] and [negative ∩ cat = ∅]. *)
Theorem wr_message_one_line (cfg : config) (cat : message_category)
  (wh : option where_) (fmt : string) (st : state) :
  exists new,
    stdout (wr_message cfg cat wh fmt st) = stdout st ++ new
    /\ (diag_lines new = []
        \/ exists sev, diag_lines new = [Diag sev wh fmt])
    /\ (new = [] <-> message_accept (warning_criteria cfg) cat = false)
    /\ (forall l, In l new ->
          (line_severity l = Some sev_error
           <-> message_accept (error_criteria cfg) cat = true)
          /\ (line_severity l = Some sev_warning
              <-> message_accept (error_criteria cfg) cat = false))
    /\ (forall cri : message_criteria,
          message_accept cri cat = true
          <-> exists t, In t cri /\ bits_subset (positive t) cat
                        /\ bits_disjoint (negative t) cat).
Proof.
  assert (Hsev : forall sev l,
             In l (Diag sev wh fmt :: where_fmt_chain cfg wh sev) ->
             line_severity l = Some sev).
  { intros sev l [<- | H]; [reflexivity | now apply chain_severity in H]. }
  unfold wr_message.
  destruct (message_accept (warning_criteria cfg) cat) eqn:Ew.
  - destruct (message_accept (error_criteria cfg) cat) eqn:Ee.
    + exists (Diag sev_error wh fmt :: where_fmt_chain cfg wh sev_error).
      simpl. rewrite diag_lines_chain.
      split; [reflexivity|]. split; [right; eexists; reflexivity|].
      split; [split; discriminate|].
      split; [|intros cri; apply message_accept_iff].
      intros l Hl. rewrite (Hsev _ _ Hl).
      split; split; auto; discriminate.
    + exists (Diag sev_warning wh fmt :: where_fmt_chain cfg wh sev_warning).
      simpl. rewrite diag_lines_chain.
      split; [reflexivity|]. split; [right; eexists; reflexivity|].
      split; [split; discriminate|].
      split; [|intros cri; apply message_accept_iff].
      intros l Hl. rewrite (Hsev _ _ Hl).
      split; split; auto; discriminate.
  - exists []. rewrite app_nil_r.
    split; [reflexivity|]. split; [now left|].
    split; [split; reflexivity|].
    split; [intros l []|intros cri; apply message_accept_iff].
Qed.

(** *** Negation of a term *)

Lemma shiftl_1_land_ne (i j : Z) :
  0 <= i -> 0 <= j -> i <> j -> Z.land (Z.shiftl 1 i) (Z.shiftl 1 j) = 0.
Proof.
  intros Hi Hj Hne. rewrite !Z.shiftl_1_l.
  apply Z.bits_inj'. intros k Hk.
  rewrite Z.land_spec, Z.bits_0, !Z.pow2_bits_eqb by assumption.
  destruct (Z.eqb_spec i k), (Z.eqb_spec j k); try reflexivity. lia.
Qed.

Lemma neg_loop_skips (term : message_term) (n : nat) :
  forall (i : Z) (ret : message_criteria),
    (forall k, i <= k < i + Z.of_nat n ->
               Z.land (positive term) (Z.shiftl 1 k) = 0
               /\ Z.land (negative term) (Z.shiftl 1 k) = 0) ->
    message_cri_neg_loop term n i ret = ret.
Proof.
  induction n as [|n IH]; intros i ret H; [reflexivity|].
  cbn [message_cri_neg_loop].
  destruct (H i ltac:(lia)) as [-> ->]. simpl.
  apply IH. intros k Hk. apply H. lia.
Qed.

(** C5.  The code at a term whose only literal is the
    highest-numbered category [max]: [message_cri_neg] returns the
    empty criterion, which rejects every category, although the term
    does not match the category [mc_none] and its negation therefore
    has to accept it.  The loop bound [i < max] leaves the last
    category out. *)
Theorem message_cri_neg_misses_last (max : nat) :
  let t := mk_term (Z.shiftl 1 (Z.of_nat max)) mc_none in
  message_cri_neg max t = []
  /\ term_matches t mc_none = false
  /\ (forall cat, message_accept (message_cri_neg max t) cat = false).
Proof.
  assert (E : message_cri_neg max
                (mk_term (Z.shiftl 1 (Z.of_nat max)) mc_none) = []).
  { unfold message_cri_neg. apply neg_loop_skips. simpl. intros k Hk. split.
    - apply shiftl_1_land_ne; lia.
    - reflexivity. }
  simpl. rewrite E. repeat split.
  unfold term_matches, mc_none. simpl.
  rewrite Z.land_0_r, Z.shiftl_1_l.
  destruct (Z.eqb_spec 0 (2 ^ Z.of_nat max)) as [H|H]; [|reflexivity].
  pose proof (Z.pow_pos_nonneg 2 (Z.of_nat max)). lia.
Qed.

(** The polarity of the literals [message_cri_neg] produces: a bit of
    [positive] yields a positive literal and a bit of [negative] a
    negated one; it is [message_cri_and_not] that exchanges the masks
    beforehand. *)
Lemma message_cri_neg_polarity (max : nat) :
  message_cri_neg (S max) (mk_term 1 mc_none) = [mk_term 1 mc_none]
  /\ message_cri_neg (S max) (mk_term mc_none 1) = [mk_term mc_none 1].
Proof.
  assert (L : forall k, 1 <= k -> Z.land 1 (Z.shiftl 1 k) = 0).
  { intros k Hk. apply (shiftl_1_land_ne 0 k); lia. }
  unfold message_cri_neg. cbn [message_cri_neg_loop positive negative].
  change (Z.shiftl 1 0) with 1. change (Z.land 1 1) with 1.
  change (Z.land mc_none 1) with 0. change (0 + 1) with 1.
  cbn [Z.eqb negb message_cri_or app].
  split; apply neg_loop_skips; cbn [positive negative]; intros k Hk;
    (split; [try (apply L; lia); reflexivity
            | try (apply L; lia); reflexivity]).
Qed.

(** *** The error counter and the exit code *)

Lemma diag_lines_app (a b : list out_line) :
  diag_lines (a ++ b) = diag_lines a ++ diag_lines b.
Proof. apply filter_app. Qed.

Lemma wrap32_succ (n : Z) : wrap32 (wrap32 n + 1) = wrap32 (n + 1).
Proof. unfold wrap32. apply Z.add_mod_idemp_l. discriminate. Qed.

Definition counted (st : state) : Prop :=
  error_count st = wrap32 (Z.of_nat (length (diag_lines (stdout st)))).

Lemma counted_emit (cfg : config) (sev : severity) (wh : option where_)
  (fmt : string) (st : state) :
  counted st ->
  counted (mk_state (stdout st ++ Diag sev wh fmt :: where_fmt_chain cfg wh sev)
                    (wrap32 (error_count st + 1))).
Proof.
  unfold counted. simpl. intros ->.
  rewrite diag_lines_app. simpl. rewrite diag_lines_chain, length_app. simpl.
  rewrite wrap32_succ. f_equal. lia.
Qed.

Lemma counted_exec (cfg : config) (c : call) (st : state) :
  counted st -> counted (exec cfg c st).
Proof.
  intros H. destruct c as [wh fmt | wh fmt | cat wh fmt | text]; simpl.
  - now apply counted_emit.
  - now apply counted_emit.
  - unfold wr_message.
    destruct (message_accept _ cat); [|exact H].
    destruct (message_accept _ cat); now apply counted_emit.
  - unfold counted in *. simpl. rewrite diag_lines_app. simpl.
    now rewrite app_nil_r.
Qed.

Lemma counted_run (cfg : config) (cs : list call) :
  forall st, counted st -> counted (run cfg cs st).
Proof.
  unfold run. induction cs as [|c cs IH]; intros st H; simpl; [exact H|].
  apply IH. now apply counted_exec.
Qed.

(** What the counter holds.  [warning] always prints one line of
    severity warning and increments the counter, a 32-bit unsigned;
    after any sequence of diagnostic calls the counter is the number
    of diagnostic lines printed modulo 2^32, so the exit code is 1 iff
    that number is not a multiple of 2^32. *)
Lemma exit_code_counts_diagnostics (cfg : config) (cs : list call) :
  let st := run cfg cs initial_state in
  let printed := Z.of_nat (length (diag_lines (stdout st))) in
  (forall wh fmt st0,
      stdout (wr_warning cfg wh fmt st0)
      = stdout st0 ++ Diag sev_warning wh fmt
          :: where_fmt_chain cfg wh sev_warning
      /\ error_count (wr_warning cfg wh fmt st0)
         = wrap32 (error_count st0 + 1))
  /\ error_count st = printed mod 2 ^ 32
  /\ (exit_code st = 1 <-> printed mod 2 ^ 32 <> 0)
  /\ (exit_code st = 0 <-> printed mod 2 ^ 32 = 0).
Proof.
  cbv zeta. split; [intros; split; reflexivity|].
  pose proof (counted_run cfg cs initial_state eq_refl) as H.
  unfold counted, wrap32, UINT32_MOD in H.
  split; [exact H|]. unfold exit_code. rewrite H.
  destruct (Z.eqb_spec (Z.of_nat (length (diag_lines
              (stdout (run cfg cs initial_state)))) mod 2 ^ 32) 0) as [E|E].
  - split; split; intros; try congruence; try discriminate.
  - split; split; intros; try congruence; try discriminate.
Qed.

Lemma iter_warning_count (cfg : config) (wh : option where_) (fmt : string)
  (st : state) (n : N) :
  error_count (N.iter (N.succ n) (wr_warning cfg wh fmt) st)
  = wrap32 (error_count st + Z.of_N (N.succ n)).
Proof.
  induction n as [|n IH] using N.peano_ind.
  - reflexivity.
  - rewrite N.iter_succ. unfold wr_warning at 1, wr_vwarning at 1.
    cbn [error_count]. rewrite IH, wrap32_succ. f_equal. lia.
Qed.

Lemma iter_warning_lines (cfg : config) (wh : option where_) (fmt : string)
  (st : state) (n : N) :
  Z.of_nat (length (diag_lines (stdout (N.iter n (wr_warning cfg wh fmt) st))))
  = Z.of_nat (length (diag_lines (stdout st))) + Z.of_N n.
Proof.
  induction n as [|n IH] using N.peano_ind.
  - simpl. lia.
  - rewrite N.iter_succ. unfold wr_warning at 1, wr_vwarning at 1.
    cbn [stdout]. rewrite diag_lines_app. cbn [diag_lines filter is_diag].
    fold (diag_lines (where_fmt_chain cfg wh sev_warning)).
    rewrite diag_lines_chain, length_app. cbn [length].
    rewrite Nat2Z.inj_add, IH. lia.
Qed.

(** C8.  The code at 2^32 calls of [warning]: each call prints one
    line of severity warning and adds one to the counter, which is a
    32-bit unsigned; after the 2^32 lines the counter is back at 0 and
    the exit code is 0, although diagnostics were printed. *)
Theorem exit_code_zero_after_wrap :
  let cfg := mk_config [mk_term mc_none mc_none] [] false in
  let st := N.iter 4294967296 (wr_warning cfg None "warning") initial_state in
  (forall st0,
      stdout (wr_warning cfg None "warning" st0)
      = stdout st0 ++ [Diag sev_warning None "warning"]
      /\ error_count (wr_warning cfg None "warning" st0)
         = wrap32 (error_count st0 + 1))
  /\ Z.of_nat (length (diag_lines (stdout st))) = 2 ^ 32
  /\ error_count st = 0
  /\ exit_code st = 0.
Proof.
  cbv zeta. split; [intros st0; split; reflexivity|].
  split; [rewrite iter_warning_lines; reflexivity|].
  change 4294967296%N with (N.succ 4294967295).
  unfold exit_code. rewrite iter_warning_count. split; reflexivity.
Qed.
End DiagnosticsFacts.

(** ** Criteria as formulas *)

Module CriteriaFacts.
Import Diagnostics DiagnosticsFacts CriteriaSpec.

Lemma message_accept_existsb (cri : message_criteria) (cat : Z) :
  message_accept cri cat = existsb (fun t => term_matches t cat) cri.
Proof.
  induction cri as [|t rest IH]; [reflexivity|]. simpl. rewrite IH.
  now destruct (term_matches t cat).
Qed.

Lemma message_accept_app (a b : message_criteria) (cat : Z) :
  message_accept (a ++ b) cat = message_accept a cat || message_accept b cat.
Proof. rewrite !message_accept_existsb. apply existsb_app. Qed.

Lemma message_accept_nth (cri : message_criteria) (cat : Z) (d : message_term) :
  message_accept cri cat = true
  <-> exists k, (k < length cri)%nat /\ term_matches (nth k cri d) cat = true.
Proof.
  rewrite message_accept_existsb, existsb_exists. split.
  - intros (t & Hin & Ht). destruct (In_nth _ _ d Hin) as (k & Hk & E).
    exists k. now rewrite E.
  - intros (k & Hk & Ht). exists (nth k cri d). split; [now apply nth_In|exact Ht].
Qed.

Lemma term_matches_merge (t u : message_term) (cat : Z) :
  term_matches (merge t u) cat = term_matches t cat && term_matches u cat.
Proof.
  apply eq_true_iff_eq. rewrite andb_true_iff, !term_matches_iff. simpl.
  unfold bits_subset, bits_disjoint. split.
  - intros [Hs Hd]. repeat split; intros i Hi.
    + intros Hp. apply (Hs i Hi). rewrite Z.lor_spec, Hp. reflexivity.
    + intros [Hn Hc]. apply (Hd i Hi). rewrite Z.lor_spec, Hn. now split.
    + intros Hp. apply (Hs i Hi). rewrite Z.lor_spec, Hp. apply orb_true_r.
    + intros [Hn Hc]. apply (Hd i Hi). rewrite Z.lor_spec, Hn.
      split; [apply orb_true_r | exact Hc].
  - intros [[Hs1 Hd1] [Hs2 Hd2]]. split; intros i Hi.
    + rewrite Z.lor_spec. intros Hp. apply orb_true_iff in Hp.
      destruct Hp; [now apply Hs1 | now apply Hs2].
    + rewrite Z.lor_spec. intros [Hn Hc]. apply orb_true_iff in Hn.
      destruct Hn as [Hn|Hn]; [apply (Hd1 i Hi) | apply (Hd2 i Hi)]; now split.
Qed.

Lemma contradictory_never_matches (t : message_term) (cat : Z) :
  Z.land (positive t) (negative t) <> 0 -> term_matches t cat = false.
Proof.
  intros Hne. destruct (term_matches t cat) eqn:E; [|reflexivity].
  apply term_matches_iff in E. destruct E as [Hs Hd]. exfalso. apply Hne.
  apply land_zero_disjoint. intros i Hi [Hp Hn].
  apply (Hd i Hi). split; [exact Hn | now apply Hs].
Qed.

Lemma nth_set_nth {A : Type} (l : list A) (i k : nat) (x d : A) :
  (i < length l)%nat ->
  nth k (set_nth i x l) d = if (k =? i)%nat then x else nth k l d.
Proof.
  intros Hi. unfold set_nth.
  destruct (Nat.eqb_spec k i) as [->|Hne].
  - rewrite app_nth2; rewrite length_firstn; [|lia].
    replace (i - Nat.min i (length l))%nat with 0%nat by lia. reflexivity.
  - destruct (Nat.lt_ge_cases k i) as [Hlt|Hge].
    + rewrite app_nth1 by (rewrite length_firstn; lia).
      rewrite <- (firstn_skipn i l) at 2.
      rewrite app_nth1 by (rewrite length_firstn; lia). reflexivity.
    + rewrite app_nth2 by (rewrite length_firstn; lia).
      rewrite length_firstn.
      replace (k - Nat.min i (length l))%nat with (S (k - S i)) by lia.
      cbn [nth]. rewrite <- (firstn_skipn (S i) l) at 2.
      rewrite app_nth2 by (rewrite length_firstn; lia).
      rewrite length_firstn. f_equal. lia.
Qed.

Lemma length_set_nth {A : Type} (l : list A) (i : nat) (x : A) :
  (i < length l)%nat -> length (set_nth i x l) = length l.
Proof.
  intros Hi. unfold set_nth. rewrite length_app, length_firstn. cbn [length].
  rewrite length_skipn. lia.
Qed.

Lemma nth_firstn_lt {A : Type} (l : list A) (n k : nat) (d : A) :
  (k < n)%nat -> nth k (firstn n l) d = nth k l d.
Proof.
  intros Hk. rewrite <- (firstn_skipn n l) at 2.
  destruct (Nat.lt_ge_cases k (length (firstn n l))) as [H|H].
  - now rewrite app_nth1.
  - rewrite (nth_overflow (firstn n l)) by lia.
    rewrite length_firstn in H. rewrite firstn_skipn.
    rewrite nth_overflow; [reflexivity | lia].
Qed.

Lemma message_cri_and_loop_accept (term : message_term)
  (terms : message_criteria) (i : nat) (cat : Z) :
  message_accept (message_cri_and_loop term terms i) cat = true
  <-> and_pending term terms i cat.
Proof.
  apply (message_cri_and_loop_elim
           (fun term terms i res =>
              message_accept res cat = true <-> and_pending term terms i cat)).
  - clear. intros term terms i Hlt IH1 IH2 _. cbv zeta in *.
    set (d := mk_term mc_none mc_none) in *.
    set (t := nth i terms d) in *.
    fold (merge t term) in *. set (t' := merge t term) in *.
    set (terms1 := set_nth i t' terms) in *.
    set (n := length terms) in *.
    assert (Ht' : term_matches t' cat
                  = term_matches t cat && term_matches term cat)
      by apply term_matches_merge.
    assert (L1 : length terms1 = n) by (apply length_set_nth; exact Hlt).
    assert (N1 : forall k, nth k terms1 d
                           = if (k =? i)%nat then t' else nth k terms d)
      by (intros k; apply nth_set_nth; exact Hlt).
    destruct (negb (Z.land (positive t') (negative t') =? 0)) eqn:Ec.
    + (* the term is dropped *)
      apply negb_true_iff, Z.eqb_neq in Ec.
      pose proof (contradictory_never_matches t' cat Ec) as Hno.
      rewrite Ht' in Hno.
      set (last1 := nth (n - 1) terms1 t') in *.
      set (terms2 := firstn (n - 1) (set_nth i last1 terms1)) in *.
      assert (L2 : length terms2 = (n - 1)%nat).
      { unfold terms2. rewrite length_firstn, length_set_nth; lia. }
      assert (N2 : forall k, (k < n - 1)%nat ->
                             nth k terms2 d
                             = if (k =? i)%nat then nth (n - 1) terms d
                               else nth k terms d).
      { intros k Hk. unfold terms2. rewrite nth_firstn_lt by exact Hk.
        rewrite nth_set_nth by lia. rewrite N1.
        destruct (Nat.eqb_spec k i) as [->|Hne]; [|reflexivity].
        unfold last1. rewrite (nth_indep terms1 t' d) by lia. rewrite N1.
        destruct (Nat.eqb_spec (n - 1) i); [lia | reflexivity]. }
      rewrite IH1. unfold and_pending. fold d. rewrite L2. fold n. split.
      * intros [(k & Hk & Hk2 & Hm) | (k & Hk & Hm & Hterm)].
        -- left. exists k. rewrite N2 in Hm by lia.
           destruct (Nat.eqb_spec k i); [lia|]. repeat split; auto; lia.
        -- right. rewrite N2 in Hm by lia.
           destruct (Nat.eqb_spec k i) as [->|Hne].
           ++ exists (n - 1)%nat. repeat split; auto; lia.
           ++ exists k. repeat split; auto; lia.
      * intros [(k & Hk & Hk2 & Hm) | (k & Hk & Hm & Hterm)].
        -- left. exists k. rewrite N2 by lia.
           destruct (Nat.eqb_spec k i); [lia|]. repeat split; auto; lia.
        -- right. destruct (Nat.eq_dec k i) as [->|Hne].
           ++ fold t in Hm. rewrite Hm, Hterm in Hno. discriminate.
           ++ destruct (Nat.eq_dec k (n - 1)) as [->|Hne2].
              ** exists i. rewrite N2 by lia. rewrite Nat.eqb_refl.
                 repeat split; auto; lia.
              ** exists k. rewrite N2 by lia.
                 destruct (Nat.eqb_spec k i); [lia|]. repeat split; auto; lia.
    + rewrite IH2. unfold and_pending. fold d. rewrite L1. fold n. split.
      * intros [(k & Hk & Hk2 & Hm) | (k & Hk & Hm & Hterm)].
        -- rewrite N1 in Hm. destruct (Nat.eqb_spec k i) as [->|Hne].
           ++ rewrite Ht' in Hm. apply andb_true_iff in Hm. destruct Hm.
              right. exists i. repeat split; auto; lia.
           ++ left. exists k. repeat split; auto; lia.
        -- rewrite N1 in Hm. destruct (Nat.eqb_spec k i); [lia|].
           right. exists k. repeat split; auto; lia.
      * intros [(k & Hk & Hk2 & Hm) | (k & Hk & Hm & Hterm)].
        -- left. exists k. rewrite N1. destruct (Nat.eqb_spec k i); [lia|].
           repeat split; auto; lia.
        -- destruct (Nat.eq_dec k i) as [->|Hne].
           ++ left. exists i. rewrite N1, Nat.eqb_refl, Ht'. fold t in Hm.
              rewrite Hm, Hterm. repeat split; auto; lia.
           ++ right. exists k. rewrite N1.
              destruct (Nat.eqb_spec k i); [lia|]. repeat split; auto; lia.
  - clear. intros term terms i Hge _. unfold and_pending.
    rewrite (message_accept_nth terms cat (mk_term mc_none mc_none)). split.
    + intros (k & Hk & Hm). left. exists k. repeat split; auto; lia.
    + intros [(k & Hk & Hk2 & Hm) | (k & Hk & _)]; [|lia]. now exists k.
Qed.

Lemma message_cri_and_accept (cri : message_criteria) (term : message_term)
  (cat : Z) :
  message_accept (message_cri_and cri term) cat
  = message_accept cri cat && term_matches term cat.
Proof.
  apply eq_true_iff_eq. unfold message_cri_and.
  rewrite message_cri_and_loop_accept, andb_true_iff.
  rewrite (message_accept_nth cri cat (mk_term mc_none mc_none)).
  unfold and_pending. split.
  - intros [(k & Hk & _) | (k & Hk & Hm & Hterm)]; [lia|].
    split; [exists k; split; [lia | exact Hm] | exact Hterm].
  - intros [(k & Hk & Hm) Hterm]. right. exists k. repeat split; auto; lia.
Qed.

(** *** Products and negations *)

Lemma mul_term_matches (t1 t2 : message_term) (cat : Z) :
  match mul_term t1 t2 with
  | None => term_matches t1 cat && term_matches t2 cat = false
  | Some t => term_matches t cat = term_matches t1 cat && term_matches t2 cat
  end.
Proof.
  unfold mul_term. cbv zeta.
  change (mk_term (Z.lor (positive t1) (positive t2))
                  (Z.lor (negative t1) (negative t2))) with (merge t1 t2).
  change (Z.lor (positive t1) (positive t2)) with (positive (merge t1 t2)).
  change (Z.lor (negative t1) (negative t2)) with (negative (merge t1 t2)).
  destruct (negb (Z.land (positive (merge t1 t2)) (negative (merge t1 t2)) =? 0))
    eqn:Ec.
  - apply negb_true_iff, Z.eqb_neq in Ec.
    rewrite <- term_matches_merge. now apply contradictory_never_matches.
  - apply term_matches_merge.
Qed.

Lemma mul_row_accept (t1 : message_term) (rhs : message_criteria) (cat : Z) :
  message_accept (mul_row t1 rhs) cat
  = term_matches t1 cat && message_accept rhs cat.
Proof.
  induction rhs as [|t2 rest IH]; simpl; [now rewrite andb_false_r|].
  pose proof (mul_term_matches t1 t2 cat) as Hm.
  destruct (mul_term t1 t2) as [t|].
  - simpl. rewrite Hm, IH.
    destruct (term_matches t1 cat), (term_matches t2 cat); reflexivity.
  - rewrite IH.
    destruct (term_matches t1 cat), (term_matches t2 cat);
      simpl in *; congruence.
Qed.

Lemma message_cri_mul_accept (cri rhs : message_criteria) (cat : Z) :
  message_accept (message_cri_mul cri rhs) cat
  = message_accept cri cat && message_accept rhs cat.
Proof.
  induction cri as [|t1 rest IH]; [reflexivity|]. simpl.
  rewrite message_accept_app, mul_row_accept, IH.
  destruct (term_matches t1 cat), (message_accept rest cat),
    (message_accept rhs cat); reflexivity.
Qed.

Lemma land_shiftl_1_testbit (a k : Z) :
  0 <= k -> (Z.land a (Z.shiftl 1 k) =? 0) = negb (Z.testbit a k).
Proof.
  intros Hk. rewrite Z.shiftl_1_l. apply eq_true_iff_eq.
  rewrite Z.eqb_eq, negb_true_iff. split.
  - intros H. assert (E : Z.testbit (Z.land a (2 ^ k)) k = false)
      by (rewrite H; apply Z.bits_0).
    rewrite Z.land_spec, Z.pow2_bits_true in E by exact Hk.
    now rewrite andb_true_r in E.
  - intros H. apply Z.bits_inj'. intros i Hi.
    rewrite Z.land_spec, Z.bits_0, Z.pow2_bits_eqb by exact Hk.
    destruct (Z.eqb_spec k i) as [->|]; [now rewrite H | apply andb_false_r].
Qed.

Lemma shiftl_1_literal (k cat : Z) :
  0 <= k ->
  term_matches (mk_term (Z.shiftl 1 k) mc_none) cat = Z.testbit cat k
  /\ term_matches (mk_term mc_none (Z.shiftl 1 k)) cat
     = negb (Z.testbit cat k).
Proof.
  intros Hk. unfold term_matches, mc_none. cbn [positive negative].
  rewrite !Z.land_0_l. change (0 =? 0) with true.
  rewrite andb_true_r, andb_true_l.
  rewrite (Z.land_comm (Z.shiftl 1 k) cat), land_shiftl_1_testbit by exact Hk.
  split; [|reflexivity].
  apply eq_true_iff_eq. rewrite Z.eqb_eq. rewrite Z.shiftl_1_l. split.
  - intros H. assert (E : Z.testbit (Z.land cat (2 ^ k)) k = true)
      by (rewrite H; now apply Z.pow2_bits_true).
    rewrite Z.land_spec in E. now apply andb_true_iff in E.
  - intros H. apply Z.bits_inj'. intros i Hi.
    rewrite Z.land_spec, Z.pow2_bits_eqb by exact Hk.
    destruct (Z.eqb_spec k i) as [->|]; [now rewrite H | apply andb_false_r].
Qed.

Lemma message_cri_neg_loop_accept (term : message_term) (cat : Z) (n : nat) :
  forall (i : Z) (ret : message_criteria),
    0 <= i ->
    message_accept (message_cri_neg_loop term n i ret) cat
    = message_accept ret cat
      || existsb (neg_literal term cat)
                 (map (fun k => i + Z.of_nat k) (seq 0 n)).
Proof.
  induction n as [|n IH]; intros i ret Hi.
  - simpl. now rewrite orb_false_r.
  - cbn [message_cri_neg_loop]. rewrite IH by lia.
    cbn [seq map existsb]. rewrite <- seq_shift, map_map.
    replace (i + Z.of_nat 0) with i by lia.
    rewrite (map_ext (fun k => i + 1 + Z.of_nat k)
                     (fun k => i + Z.of_nat (S k))) by (intros; lia).
    rewrite orb_assoc. f_equal.
    unfold neg_literal, message_cri_or.
    rewrite !land_shiftl_1_testbit, !negb_involutive by exact Hi.
    destruct (shiftl_1_literal i cat Hi) as [E1 E2].
    destruct (Z.testbit (positive term) i).
    + rewrite message_accept_app. simpl. rewrite E1.
      now destruct (Z.testbit cat i).
    + destruct (Z.testbit (negative term) i).
      * rewrite message_accept_app. simpl. rewrite E2.
        now destruct (Z.testbit cat i).
      * simpl. now rewrite orb_false_r.
Qed.

Lemma testbit_below (a : Z) (max : nat) (i : Z) :
  0 <= a < 2 ^ Z.of_nat max -> Z.testbit a i = true -> 0 <= i < Z.of_nat max.
Proof.
  intros [H0 Hlt] Hb. destruct (Z.ltb_spec i 0) as [Hneg|Hpos].
  - rewrite Z.testbit_neg_r in Hb by exact Hneg. discriminate.
  - split; [exact Hpos|]. destruct (Z.ltb_spec i (Z.of_nat max)); [assumption|].
    destruct (Z.eq_dec a 0) as [->|Hne].
    + rewrite Z.bits_0 in Hb. discriminate.
    + rewrite Z.bits_above_log2 in Hb; [discriminate | lia |].
      assert (Z.log2 a < Z.of_nat max) by (apply Z.log2_lt_pow2; lia). lia.
Qed.

Lemma message_cri_neg_accept (max : nat) (t : message_term) (cat : Z) :
  0 <= positive t < 2 ^ Z.of_nat max ->
  0 <= negative t < 2 ^ Z.of_nat max ->
  Z.land (positive t) (negative t) = 0 ->
  message_accept
    (message_cri_neg max (mk_term (negative t) (positive t))) cat
  = negb (term_matches t cat).
Proof.
  intros Hp Hn Hdis. unfold message_cri_neg.
  rewrite message_cri_neg_loop_accept by lia. cbn [message_accept orb].
  apply land_zero_disjoint in Hdis.
  destruct (existsb _ _) eqn:E.
  - apply existsb_exists in E. destruct E as (k & Hin & Hlit).
    apply in_map_iff in Hin. destruct Hin as (j & Ej & Hj).
    assert (Hk : 0 <= k) by lia. clear j Ej Hj.
    symmetry. apply negb_true_iff.
    destruct (term_matches t cat) eqn:Em; [|reflexivity].
    apply term_matches_iff in Em. destruct Em as [Hs Hd].
    unfold neg_literal in Hlit. cbn [positive negative] in Hlit.
    destruct (Z.testbit (negative t) k) eqn:En.
    + exfalso. apply (Hd k Hk). now split.
    + apply andb_true_iff in Hlit. destruct Hlit as [Hpb Hc].
      rewrite (Hs k Hk Hpb) in Hc. discriminate.
  - symmetry. apply negb_false_iff. apply term_matches_iff.
    assert (Hall : forall k, 0 <= k < Z.of_nat max ->
                             neg_literal (mk_term (negative t) (positive t))
                                         cat k = false).
    { intros k Hk. destruct (neg_literal _ cat k) eqn:El; [|reflexivity].
      assert (Hex : existsb (neg_literal (mk_term (negative t) (positive t)) cat)
                      (map (fun k => 0 + Z.of_nat k) (seq 0 max)) = true).
      { apply existsb_exists. exists k. split; [|exact El].
        apply in_map_iff. exists (Z.to_nat k). split; [lia|].
        apply in_seq. lia. }
      congruence. }
    split.
    + intros i Hi Hpb. pose proof (testbit_below _ _ _ Hp Hpb) as Hr.
      specialize (Hall i Hr). unfold neg_literal in Hall.
      cbn [positive negative] in Hall.
      destruct (Z.testbit (negative t) i) eqn:En.
      * exfalso. apply (Hdis i Hi). now split.
      * rewrite Hpb in Hall. simpl in Hall. now apply negb_false_iff in Hall.
    + intros i Hi [Hnb Hc]. pose proof (testbit_below _ _ _ Hn Hnb) as Hr.
      specialize (Hall i Hr). unfold neg_literal in Hall.
      cbn [positive negative] in Hall. rewrite Hnb in Hall. congruence.
Qed.

(** *** The criteria [main] assembles *)

Section MainCriteria.
Context `{MessageCategories}.

Lemma lacks_matches (c : category) (cat : Z) :
  term_matches (mk_term mc_none (mc c)) cat = negb (has c cat).
Proof. apply shiftl_1_literal. lia. Qed.

Lemma mcs_matches (cs : list category) (cat : Z) :
  term_matches (mk_term (mcs cs) mc_none) cat
  = forallb (fun c => has c cat) cs.
Proof.
  induction cs as [|c rest IH]; [reflexivity|].
  cbn [mcs forallb].
  change (mk_term (Z.lor (mc c) (mcs rest)) mc_none)
    with (merge (mk_term (mc c) mc_none) (mk_term (mcs rest) mc_none)).
  rewrite term_matches_merge, IH. f_equal.
  apply shiftl_1_literal. lia.
Qed.

Lemma lor_below (a b : Z) (n : nat) :
  0 <= a < 2 ^ Z.of_nat n -> 0 <= b < 2 ^ Z.of_nat n ->
  0 <= Z.lor a b < 2 ^ Z.of_nat n.
Proof.
  intros Ha Hb.
  assert (H0 : 0 <= Z.lor a b) by (apply Z.lor_nonneg; lia).
  split; [exact H0|].
  destruct (Z.eq_dec (Z.lor a b) 0) as [->|Hne]; [lia|].
  apply Z.log2_lt_pow2; [lia|]. rewrite Z.log2_lor by lia.
  destruct (Z.eq_dec a 0) as [->|Ha0], (Z.eq_dec b 0) as [->|Hb0].
  - now rewrite Z.lor_0_l in Hne.
  - rewrite Z.max_r by (change (Z.log2 0) with 0; apply Z.log2_nonneg).
    apply Z.log2_lt_pow2; lia.
  - rewrite Z.max_l by (change (Z.log2 0) with 0; apply Z.log2_nonneg).
    apply Z.log2_lt_pow2; lia.
  - apply Z.max_lub_lt; apply Z.log2_lt_pow2; lia.
Qed.

Lemma mcs_below (cs : list category) (n : nat) :
  Forall (fun c => (ID c < n)%nat) cs -> 0 <= mcs cs < 2 ^ Z.of_nat n.
Proof.
  induction 1 as [|c rest Hc _ IH]; cbn [mcs].
  - unfold mc_none. split; [lia | apply Z.pow_pos_nonneg; lia].
  - apply lor_below; [|exact IH]. unfold mc. rewrite Z.shiftl_1_l.
    split; [apply Z.pow_nonneg; lia | apply Z.pow_lt_mono_r; lia].
Qed.

(** X4.  What [main] lets through.  With the switches [f], and the
    categories line, header and acc_bloat below the last one of the
    table, a category survives the warning criterion iff it has no
    elf bit under -i, no acc_bloat bit under --gnu, without --strict
    neither a strings nor a pubtypes bit nor the three bits line,
    header and acc_bloat together, and under --tolerant neither a loc
    nor a ranges bit. *)
Theorem main_warning_criteria_accepts (f : flags) (cat : Z) :
  (ID cat_line < ID_max)%nat -> (ID cat_header < ID_max)%nat ->
  (ID cat_acc_bloat < ID_max)%nat ->
  message_accept (main_warning_criteria f) cat
  = (negb (tolerate_nodebug f) || negb (has cat_elf cat))
    && (negb (be_gnu f) || negb (has cat_acc_bloat cat))
    && (be_strict f
        || negb (has cat_strings cat)
           && negb (has cat_line cat && has cat_header cat
                    && has cat_acc_bloat cat)
           && negb (has cat_pubtypes cat))
    && (negb (be_tolerant f)
        || negb (has cat_loc cat) && negb (has cat_ranges cat)).
Proof.
  intros Hl Hh Hb. unfold main_warning_criteria. cbv zeta.
  assert (E0 : forall cri t,
             message_accept (message_cri_and cri t) cat
             = message_accept cri cat && term_matches t cat)
    by (intros; apply message_cri_and_accept).
  assert (E1 : message_accept
                 (message_cri_or [] (mk_term mc_none mc_none)) cat = true)
    by reflexivity.
  assert (E2 : forall cri,
             message_accept
               (message_cri_and_not ID_max cri
                  (mk_term (mcs [cat_line; cat_header; cat_acc_bloat]) mc_none))
               cat
             = message_accept cri cat
               && negb (has cat_line cat && has cat_header cat
                        && has cat_acc_bloat cat)).
  { intros cri. unfold message_cri_and_not.
    rewrite message_cri_mul_accept, message_cri_neg_accept.
    - rewrite mcs_matches. cbn [forallb]. now rewrite andb_true_r, andb_assoc.
    - cbn [positive]. apply mcs_below. repeat constructor; assumption.
    - cbn [negative]. unfold mc_none. split; [lia | apply Z.pow_pos_nonneg; lia].
    - cbn [positive negative]. apply Z.land_0_r. }
  destruct (tolerate_nodebug f), (be_gnu f), (be_strict f), (be_tolerant f);
    cbn [negb orb andb];
    rewrite ?E0, ?E2, ?E0, ?E1, ?lacks_matches;
    cbn [andb orb]; rewrite ?andb_true_r; try reflexivity;
    rewrite <- ?andb_assoc; reflexivity.
Qed.

Lemma main_error_criteria_accept (cat : Z) :
  message_accept main_error_criteria cat
  = has cat_impact_4 cat || has cat_error cat.
Proof.
  unfold main_error_criteria, message_cri_or. cbn [app message_accept].
  destruct (shiftl_1_literal (Z.of_nat (ID cat_impact_4)) cat ltac:(lia))
    as [E4 _].
  destruct (shiftl_1_literal (Z.of_nat (ID cat_error)) cat ltac:(lia))
    as [Ee _].
  fold (mc cat_impact_4) in E4. fold (mc cat_error) in Ee.
  rewrite E4, Ee. unfold has.
  destruct (Z.testbit cat (Z.of_nat (ID cat_impact_4))),
    (Z.testbit cat (Z.of_nat (ID cat_error))); reflexivity.
Qed.

(** X5.  Under the criteria of [main], a message that survives is
    printed as an error iff its category holds impact_4 or error, and
    as a warning otherwise; one that does not survive leaves the
    output and the counter as they were. *)
Theorem wr_message_escalation (f : flags) (cat : Z) (wh : option where_)
  (fmt : string) (st : state) :
  wr_message (main_config f) cat wh fmt st
  = if message_accept (main_warning_criteria f) cat
    then if has cat_impact_4 cat || has cat_error cat
         then wr_error (main_config f) wh fmt st
         else wr_warning (main_config f) wh fmt st
    else st.
Proof.
  unfold wr_message, main_config. cbn [warning_criteria error_criteria].
  now rewrite main_error_criteria_accept.
Qed.

End MainCriteria.

Lemma message_cri_and_loop_consistent (term : message_term)
  (terms : message_criteria) (i : nat) :
  (forall k, (k < i)%nat -> (k < length terms)%nat ->
             consistent (nth k terms (mk_term mc_none mc_none))) ->
  Forall consistent (message_cri_and_loop term terms i).
Proof.
  apply (message_cri_and_loop_elim
           (fun term terms i res =>
              (forall k, (k < i)%nat -> (k < length terms)%nat ->
                         consistent (nth k terms (mk_term mc_none mc_none))) ->
              Forall consistent res)).
  - clear. intros term terms i Hlt IH1 IH2 _ Hdone. cbv zeta in *.
    set (d := mk_term mc_none mc_none) in *.
    set (t := nth i terms d) in *.
    fold (merge t term) in *. set (t' := merge t term) in *.
    set (terms1 := set_nth i t' terms) in *.
    set (n := length terms) in *.
    assert (L1 : length terms1 = n) by (apply length_set_nth; exact Hlt).
    assert (N1 : forall k, nth k terms1 d
                           = if (k =? i)%nat then t' else nth k terms d)
      by (intros k; apply nth_set_nth; exact Hlt).
    destruct (negb (Z.land (positive t') (negative t') =? 0)) eqn:Ec.
    + apply IH1. intros k Hk Hk2.
      rewrite length_firstn, length_set_nth in Hk2 by lia.
      rewrite nth_firstn_lt by lia. rewrite nth_set_nth by lia.
      destruct (Nat.eqb_spec k i); [lia|]. rewrite N1.
      destruct (Nat.eqb_spec k i); [lia|]. apply Hdone; lia.
    + apply negb_false_iff, Z.eqb_eq in Ec.
      apply IH2. intros k Hk Hk2. rewrite N1.
      destruct (Nat.eqb_spec k i); [exact Ec|]. apply Hdone; lia.
  - clear. intros term terms i Hge _ Hdone.
    apply Forall_forall. intros t Hin.
    destruct (In_nth _ _ (mk_term mc_none mc_none) Hin) as (k & Hk & <-).
    apply Hdone; lia.
Qed.

Lemma mul_row_consistent (t1 : message_term) (rhs : message_criteria) :
  Forall consistent (mul_row t1 rhs).
Proof.
  induction rhs as [|t2 rest IH]; simpl; [constructor|].
  unfold mul_term. cbv zeta.
  destruct (Z.eqb_spec (Z.land (Z.lor (positive t1) (positive t2))
                               (Z.lor (negative t1) (negative t2))) 0)
    as [E|E]; simpl; [constructor; [exact E | exact IH] | exact IH].
Qed.

(** X1.  [message_cri_and] makes the criterion the conjunction of what
    it was and the term: afterwards a category is accepted iff it was
    accepted before and the term matches it, and no term that is left
    holds a category both plain and negated.  [message_cri_or] makes
    it the disjunction. *)
Theorem message_cri_and_conjoins (cri : message_criteria)
  (term : message_term) (cat : Z) :
  Z.land (positive term) (negative term) = 0 ->
  message_accept (message_cri_and cri term) cat
  = message_accept cri cat && term_matches term cat
  /\ Forall consistent (message_cri_and cri term)
  /\ message_accept (message_cri_or cri term) cat
     = message_accept cri cat || term_matches term cat.
Proof.
  intros _. split; [apply message_cri_and_accept|]. split.
  - apply message_cri_and_loop_consistent. intros k Hk. lia.
  - unfold message_cri_or. rewrite message_accept_app. simpl.
    now destruct (term_matches term cat).
Qed.

Lemma message_cri_and_conjoins_witness :
  let cri := [mk_term 1 0; mk_term 4 2; mk_term 0 8] in
  let term := mk_term 2 0 in
  message_accept (message_cri_and cri term) 3
  = message_accept cri 3 && term_matches term 3
  /\ Forall consistent (message_cri_and cri term)
  /\ message_accept (message_cri_or cri term) 3
     = message_accept cri 3 || term_matches term 3.
Proof. apply message_cri_and_conjoins. reflexivity. Defined.

(** X2.  [message_cri_mul] makes the product of two criteria: a
    category is accepted by the product iff both criteria accept it,
    and the terms that would hold a category both plain and negated
    are left out. *)
Theorem message_cri_mul_conjoins (cri rhs : message_criteria) (cat : Z) :
  message_accept (message_cri_mul cri rhs) cat
  = message_accept cri cat && message_accept rhs cat
  /\ Forall consistent (message_cri_mul cri rhs)
  /\ (length (message_cri_mul cri rhs) <= length cri * length rhs)%nat.
Proof.
  split; [apply message_cri_mul_accept|]. split.
  - induction cri as [|t1 rest IH]; simpl; [constructor|].
    apply Forall_app. split; [apply mul_row_consistent | exact IH].
  - induction cri as [|t1 rest IH]; simpl; [lia|].
    rewrite length_app.
    assert (L : (length (mul_row t1 rhs) <= length rhs)%nat).
    { clear. induction rhs as [|t2 r IH]; simpl; [lia|].
      destruct (mul_term t1 t2); simpl; lia. }
    lia.
Qed.

(** X3.  [message_cri_and_not] rejects what the term matches: for a
    term all of whose categories lie below the last one of the table,
    a category is accepted afterwards iff it was accepted before and
    the term does not match it. *)
Theorem message_cri_and_not_rejects (max : nat) (cri : message_criteria)
  (t : message_term) (cat : Z) :
  0 <= positive t < 2 ^ Z.of_nat max ->
  0 <= negative t < 2 ^ Z.of_nat max ->
  Z.land (positive t) (negative t) = 0 ->
  message_accept (message_cri_and_not max cri t) cat
  = message_accept cri cat && negb (term_matches t cat).
Proof.
  intros Hp Hn Hdis. unfold message_cri_and_not.
  rewrite message_cri_mul_accept.
  rewrite (message_cri_neg_accept max t cat Hp Hn Hdis).
  reflexivity.
Qed.

Lemma message_cri_and_not_rejects_witness :
  let cri := [mk_term 0 0] in
  let t := mk_term 5 2 in
  message_accept (message_cri_and_not 3 cri t) 13
  = message_accept cri 13 && negb (term_matches t 13).
Proof.
  apply message_cri_and_not_rejects; [split | split |]; 
    (reflexivity || discriminate).
Defined.

Lemma main_warning_criteria_accepts_witness :
  let H := Samples.wide_categories in
  let cat := mcs [cat_impact_4; cat_elf; cat_pubtypes] in
  message_accept (main_warning_criteria Examples.no_flags) cat = false
  /\ message_accept
       (main_warning_criteria
          (mk_flags false false false true false false false true)) cat
     = true.
Proof.
  cbv zeta. split.
  - rewrite (@main_warning_criteria_accepts Samples.wide_categories);
      [reflexivity | simpl; lia ..].
  - rewrite (@main_warning_criteria_accepts Samples.wide_categories);
      [reflexivity | simpl; lia ..].
Defined.

End CriteriaFacts.

Module AddrRecordFacts.
Import AddrRecord.

(** Ascending and duplicate-free, by index. *)
Definition ascending (ar : addr_record) : Prop :=
  forall i j, (i < j < length ar)%nat -> nth i ar 0 < nth j ar 0.

Lemma ascending_cons_inv (x : Z) (l : addr_record) :
  ascending (x :: l) -> ascending l /\ Forall (Z.lt x) l.
Proof.
  intros H. split.
  - intros i j Hij. apply (H (S i) (S j)). simpl. lia.
  - apply Forall_forall. intros y Hy.
    destruct (In_nth l y 0 Hy) as (k & Hk & <-).
    apply (H O (S k)). simpl. lia.
Qed.

Lemma ascending_StronglySorted (ar : addr_record) :
  ascending ar <-> StronglySorted Z.lt ar.
Proof.
  split.
  - induction ar as [|x l IH]; intros H; [constructor|].
    apply ascending_cons_inv in H. destruct H as [Hl Hx].
    constructor; auto.
  - induction 1 as [|x l Hs IH Hx]; intros i j Hij; simpl in Hij; [lia|].
    destruct j as [|j]; [lia|]. destruct i as [|i]; simpl.
    + rewrite Forall_forall in Hx. apply Hx. apply nth_In. lia.
    + apply IH. lia.
Qed.


(** What the binary search returns on an ascending array: the lower
    bound of [addr]. *)
Definition lower_bound (ar : addr_record) (addr : Z) (r : nat) : Prop :=
  (r <= length ar)%nat
  /\ (forall k, (k < r)%nat -> nth k ar 0 < addr)
  /\ (forall k, (r < k < length ar)%nat -> addr < nth k ar 0)
  /\ ((r < length ar)%nat -> addr <= nth r ar 0).

Lemma half_between (a b : nat) :
  (a < b)%nat -> (a <= (a + b) / 2 < b)%nat.
Proof.
  intros H. pose proof (Nat.div_mod_eq (a + b) 2).
  pose proof (Nat.mod_upper_bound (a + b) 2 ltac:(lia)). lia.
Qed.

Lemma find_addr_loop_spec (ar : addr_record) (addr : Z) (a b : nat) :
  ascending ar ->
  (a <= b <= length ar)%nat ->
  (forall k, (k < a)%nat -> nth k ar 0 < addr) ->
  (forall k, (b <= k < length ar)%nat -> addr < nth k ar 0) ->
  lower_bound ar addr (find_addr_loop ar addr a b).
Proof.
  apply (find_addr_loop_elim
           (fun ar addr a b r =>
              ascending ar ->
              (a <= b <= length ar)%nat ->
              (forall k, (k < a)%nat -> nth k ar 0 < addr) ->
              (forall k, (b <= k < length ar)%nat -> addr < nth k ar 0) ->
              lower_bound ar addr r)); clear ar addr a b.
  - intros ar addr a b Hnlt _ Hasc Hab Hlo Hhi.
    assert (a = b) by lia. subst b.
    repeat split; try lia; auto.
    + intros k Hk. apply Hhi. lia.
    + intros Hk. apply Z.lt_le_incl, Hhi. lia.
  - intros ar addr a b Hlt Hcmp _ Hasc Hab Hlo Hhi.
    apply Z.compare_eq in Hcmp. pose proof (half_between a b Hlt) as Hm.
    repeat split; try lia.
    + intros k Hk. rewrite <- Hcmp. apply Hasc. lia.
    + intros k Hk. rewrite <- Hcmp. apply Hasc. lia.
  - intros ar addr a b Hlt IH Hcmp _ Hasc Hab Hlo Hhi.
    rewrite Z.compare_lt_iff in Hcmp. pose proof (half_between a b Hlt) as Hm.
    apply IH; auto; try lia.
    intros k Hk. destruct (Nat.eq_dec k ((a + b) / 2)) as [->|Hne]; [exact Hcmp|].
    apply Z.lt_trans with (nth ((a + b) / 2) ar 0); [|exact Hcmp].
    apply Hasc. lia.
  - intros ar addr a b Hlt IH Hcmp _ Hasc Hab Hlo Hhi.
    rewrite Z.compare_gt_iff in Hcmp. pose proof (half_between a b Hlt) as Hm.
    apply IH; auto; try lia.
    intros k Hk. destruct (Nat.eq_dec k ((a + b) / 2)) as [->|Hne]; [exact Hcmp|].
    apply Z.lt_trans with (nth ((a + b) / 2) ar 0); [exact Hcmp|].
    apply Hasc. lia.
Qed.

Lemma find_addr_spec (ar : addr_record) (addr : Z) :
  ascending ar -> lower_bound ar addr (addr_record_find_addr ar addr).
Proof.
  intros H. apply find_addr_loop_spec; auto; intros; lia.
Qed.

Lemma has_addr_iff (ar : addr_record) (addr : Z) :
  ascending ar -> (addr_record_has_addr ar addr = true <-> In addr ar).
Proof.
  intros Hasc. pose proof (find_addr_spec ar addr Hasc) as (Hr & Hlo & Hhi & Hat).
  unfold addr_record_has_addr. split.
  - destruct (_ || _ || _); [discriminate|].
    rewrite andb_true_iff, Nat.ltb_lt, Z.eqb_eq. intros [Hlt <-].
    now apply nth_In.
  - intros Hin. destruct (In_nth ar addr 0 Hin) as (k & Hk & Hnth).
    set (r := addr_record_find_addr ar addr) in *.
    assert (k = r) as <-.
    { destruct (lt_eq_lt_dec k r) as [[Hc|Hc]|Hc]; auto.
      - specialize (Hlo k Hc). lia.
      - specialize (Hhi k ltac:(lia)). lia. }
    assert (E : (length ar =? 0)%nat || (addr <? nth 0 ar 0)
                || (addr >? nth (length ar - 1) ar 0) = false).
    { rewrite !orb_false_iff. repeat split.
      - apply Nat.eqb_neq. lia.
      - apply Z.ltb_ge. destruct k as [|k]; [lia|].
        rewrite <- Hnth. apply Z.lt_le_incl, Hasc. lia.
      - rewrite Z.gtb_ltb. apply Z.ltb_ge.
        destruct (Nat.eq_dec k (length ar - 1)) as [->|Hne]; [lia|].
        rewrite <- Hnth. apply Z.lt_le_incl, Hasc. lia. }
    rewrite E, andb_true_iff, Nat.ltb_lt, Z.eqb_eq. auto.
Qed.

Lemma nth_insert (ar : addr_record) (x : Z) (r k : nat) :
  (r <= length ar)%nat ->
  nth k (firstn r ar ++ x :: skipn r ar) 0
  = if (k <? r)%nat then nth k ar 0
    else if (k =? r)%nat then x else nth (k - 1) ar 0.
Proof.
  intros Hr.
  assert (Hl : length (firstn r ar) = r) by (rewrite length_firstn; lia).
  destruct (Nat.ltb_spec k r).
  - rewrite app_nth1 by lia. rewrite <- (firstn_skipn r ar) at 2.
    rewrite app_nth1 by lia. reflexivity.
  - rewrite app_nth2 by lia. rewrite Hl.
    destruct (Nat.eqb_spec k r) as [->|Hne].
    + rewrite Nat.sub_diag. reflexivity.
    + replace (k - r)%nat with (S (k - 1 - r)) by lia. simpl.
      rewrite <- (firstn_skipn r ar) at 2.
      rewrite app_nth2 by lia. rewrite Hl. reflexivity.
Qed.

Lemma length_insert (ar : addr_record) (x : Z) (r : nat) :
  length (firstn r ar ++ x :: skipn r ar) = S (length ar).
Proof.
  pose proof (f_equal (@length Z) (firstn_skipn r ar)) as H.
  rewrite length_app in H. rewrite length_app. simpl. lia.
Qed.

Lemma in_insert (ar : addr_record) (x y : Z) (r : nat) :
  In y (firstn r ar ++ x :: skipn r ar) <-> y = x \/ In y ar.
Proof.
  rewrite in_app_iff. simpl. rewrite <- (firstn_skipn r ar) at 3.
  rewrite in_app_iff. intuition congruence.
Qed.

Lemma add_spec (ar : addr_record) (addr : Z) :
  ascending ar ->
  ascending (addr_record_add ar addr)
  /\ (forall y, In y (addr_record_add ar addr) <-> y = addr \/ In y ar).
Proof.
  intros Hasc. pose proof (find_addr_spec ar addr Hasc) as (Hr & Hlo & Hhi & Hat).
  unfold addr_record_add. set (r := addr_record_find_addr ar addr) in *.
  destruct ((length ar <=? r)%nat || negb (nth r ar 0 =? addr)) eqn:E.
  - split; [|intros y; apply in_insert].
    assert (Hhi' : forall k, (r <= k < length ar)%nat -> addr < nth k ar 0).
    { intros k Hk. destruct (Nat.eq_dec k r) as [->|Hne]; [|apply Hhi; lia].
      apply orb_true_iff in E. destruct E as [E|E].
      - apply Nat.leb_le in E. lia.
      - apply negb_true_iff, Z.eqb_neq in E. specialize (Hat ltac:(lia)). lia. }
    intros i j Hij. rewrite length_insert in Hij.
    rewrite !nth_insert by exact Hr.
    destruct (Nat.ltb_spec i r), (Nat.ltb_spec j r); try lia.
    + apply Hasc. lia.
    + destruct (Nat.eqb_spec j r).
      * now apply Hlo.
      * apply Z.lt_trans with addr; [now apply Hlo | apply Hhi'; lia].
    + destruct (Nat.eqb_spec i r), (Nat.eqb_spec j r); try lia.
      * apply Hhi'. lia.
      * apply Hasc. lia.
  - split; [exact Hasc|].
    apply orb_false_iff in E. destruct E as [E1 E2].
    apply Nat.leb_gt in E1. apply negb_false_iff, Z.eqb_eq in E2.
    intros y. split; [now right|].
    intros [-> | H]; [|exact H]. rewrite <- E2. now apply nth_In.
Qed.



End AddrRecordFacts.

Module AbbrevFacts.
Import Diagnostics ReadCtx Checked Dwarf Abbrev.

(** C6.  The code at a table whose abbreviations come in the order
    2, 1, 2 in the file.  When the second abbreviation with code 2 is
    read the table holds the codes 2, 1 in that order, and the binary
    search of [abbrev_table_find_abbrev], run on this array that is
    sorted only after the whole section is read, does not find code 2:
    no error is issued, the abbreviation is stored, and the table ends
    up with the codes 1, 2, 2. *)
Theorem abbrev_table_load_keeps_duplicate :
  let bytes := Examples.abbrev_bytes 2 ++ Examples.abbrev_bytes 1
               ++ Examples.abbrev_bytes 2 ++ [0] in
  let wh := mk_where sec_abbrev 0 0 UINT64_MAX None None in
  abbrev_table_find_abbrev
    (mk_table 0 [mk_abbrev 2 0x24 false wh false [];
                 mk_abbrev 1 0x24 false wh false []]) 2 = None
  /\ option_map
       (fun r => (map (fun t => (offset t, map code (abbr t))) (fst r), snd r))
       (abbrev_table_load (H := example_categories) (read_ctx_init false bytes))
     = Some ([(0, [1; 2; 2])], []).
Proof. cbv zeta. split; reflexivity. Qed.

(** In the order 1, 2, 2 the same abbreviations give the error and the
    table 1, 2. *)
Lemma abbrev_table_load_sorted_input :
  let bytes := Examples.abbrev_bytes 1 ++ Examples.abbrev_bytes 2
               ++ Examples.abbrev_bytes 2 ++ [0] in
  option_map
    (fun r => (map (fun t => (offset t, map code (abbr t))) (fst r), snd r))
    (abbrev_table_load (H := example_categories) (read_ctx_init false bytes))
  = Some ([(0, [1; 2])],
          [Error (Some (mk_where sec_abbrev 0 14 UINT64_MAX None None))
                 ": duplicate abbrev code %ld; already defined at %s."]).
Proof. reflexivity. Qed.

End AbbrevFacts.

Module RelocationFacts.
Import Diagnostics Relocation.

(** The entries are sorted by offset. *)
Definition offset_le (a b : relocation) : Prop := rel_offset a <= rel_offset b.
Definition sorted_by_offset (rels : list relocation) : Prop :=
  StronglySorted offset_le rels.

(** A valid entry that lies before [o]: the ones a diagnostic is due
    for. *)
Definition lies_before (o : Z) (e : relocation) : bool :=
  negb (rel_invalid e) && (rel_offset e <? o).

Definition is_skip_error (st : skip_type) (c : call) : Prop :=
  exists wh, c = Error (Some wh) (skip_text st).


Lemma next_loop_spec (reloc : relocation_data) (o : Z) (wh : option where_)
  (st : skip_type) (rest : list relocation) :
  forall (index : nat) (out0 : list call),
  exists (n : nat) (new : list call),
    snd (fst (relocation_next_loop reloc rest index o wh st out0))
    = (index + n)%nat
    /\ snd (relocation_next_loop reloc rest index o wh st out0) = out0 ++ new
    /\ (n <= length rest)%nat
    /\ Forall (fun e => rel_offset e <= o) (firstn n rest)
    /\ match fst (fst (relocation_next_loop reloc rest index o wh st out0)) with
       | None => match skipn n rest with
                 | [] => True
                 | e :: _ => o < rel_offset e
                 end
       | Some e => (0 < n)%nat /\ nth_error rest (n - 1) = Some e
                   /\ rel_invalid e = false /\ rel_offset e = o
       end
    /\ (st = skip_ok -> new = [])
    /\ (st <> skip_ok ->
        length new = length (filter (lies_before o) (firstn n rest)))
    /\ Forall (is_skip_error st) new.
Proof.
  induction rest as [|rel rest IH]; intros index out0.
  - exists O, []. simpl. rewrite app_nil_r, Nat.add_0_r.
    repeat split; auto.
  - cbn [relocation_next_loop].
    destruct (rel_offset rel >? o) eqn:Egt.
    + rewrite Z.gtb_ltb in Egt. apply Z.ltb_lt in Egt.
      exists O, []. simpl. rewrite app_nil_r, Nat.add_0_r.
      repeat split; auto; lia.
    + rewrite Z.gtb_ltb in Egt. apply Z.ltb_ge in Egt.
      destruct (rel_invalid rel) eqn:Einv.
      * destruct (IH (S index) out0)
          as (n & new & Hj & Hout & Hn & Hall & Hr & Hok & Hcnt & Herr).
        exists (S n), new. rewrite Hj, Hout.
        split; [lia|]. split; [reflexivity|]. split; [simpl; lia|].
        split; [simpl; constructor; assumption|].
        split.
        { destruct (fst (fst _)) as [e|]; [|exact Hr].
          destruct Hr as (Hpos & Hnth & Hr). split; [lia|].
          split; [|exact Hr].
          replace (S n - 1)%nat with (S (n - 1)) by lia. exact Hnth. }
        split; [exact Hok|]. split; [|exact Herr].
        intros Hst. rewrite (Hcnt Hst). cbn [firstn filter].
        replace (lies_before o rel) with false
          by (unfold lies_before; now rewrite Einv).
        reflexivity.
      * destruct (rel_offset rel <? o) eqn:Elt.
        -- set (out1 := match st with
                        | skip_ok => out0
                        | _ => out0 ++ _
                        end).
           destruct (IH (S index) out1)
             as (n & new & Hj & Hout & Hn & Hall & Hr & Hok & Hcnt & Herr).
           exists (S n).
           exists (match st with
                   | skip_ok => new
                   | _ => Error (Some (where_reset_2
                            (where_from_reloc (set_index reloc (S index)) wh)
                            (rel_offset rel))) (skip_text st) :: new
                   end).
           rewrite Hj, Hout.
           split; [lia|].
           split; [subst out1; destruct st; rewrite <- ?app_assoc; reflexivity|].
           split; [simpl; lia|].
           split; [simpl; constructor; assumption|].
           split.
           { destruct (fst (fst _)) as [e|]; [|exact Hr].
             destruct Hr as (Hpos & Hnth & Hr). split; [lia|].
             split; [|exact Hr].
             replace (S n - 1)%nat with (S (n - 1)) by lia. exact Hnth. }
           split; [intros ->; now apply Hok|].
           split.
           ++ intros Hst. cbn [firstn filter].
              replace (lies_before o rel) with true
                by (unfold lies_before; now rewrite Einv, Elt).
              destruct st; try congruence; cbn [length]; now rewrite Hcnt.
           ++ destruct st; try exact Herr;
                (constructor; [eexists; reflexivity | exact Herr]).
        -- exists 1%nat, []. simpl. rewrite app_nil_r.
           apply Z.ltb_ge in Elt.
           split; [lia|]. split; [reflexivity|]. split; [lia|].
           split; [repeat constructor; exact Egt|].
           split; [repeat split; auto; lia|].
           split; [reflexivity|]. split; [|constructor].
           intros _. cbn [firstn filter].
           replace (lies_before o rel) with false; [reflexivity|].
           unfold lies_before. rewrite Einv. simpl. symmetry.
           now apply Z.ltb_ge.
Qed.

Lemma relocation_next_keeps_rel (reloc : relocation_data) (o : Z)
  (wh : option where_) (st : skip_type) :
  rd_rel (snd (fst (relocation_next reloc o wh st))) = rd_rel reloc.
Proof.
  unfold relocation_next. destruct (rd_rel reloc) eqn:E; [exact E|].
  destruct (relocation_next_loop _ _ _ _ _ _ _) as [[x i] out]. exact E.
Qed.

Lemma relocation_next_empty (reloc : relocation_data) (o : Z)
  (wh : option where_) (st : skip_type) :
  rd_rel reloc = [] -> relocation_next reloc o wh st = (None, reloc, []).
Proof. unfold relocation_next. now intros ->. Qed.

Lemma StronglySorted_skipn {A : Type} (R : A -> A -> Prop) (n : nat) :
  forall l, StronglySorted R l -> StronglySorted R (skipn n l).
Proof.
  induction n as [|n IH]; intros l H; [exact H|].
  destruct l as [|x l]; [exact H|]. simpl. apply IH.
  now inversion H.
Qed.

(** [relocation_next] in terms of positions in the array: what lies
    between the old and the new cursor, what is returned, and what is
    reported.  Nothing is assumed about the order of the entries. *)
Lemma relocation_next_positions (reloc : relocation_data) (o : Z)
  (wh : option where_) (st : skip_type) :
  let res := relocation_next reloc o wh st in
  let r := fst (fst res) in
  let reloc' := snd (fst res) in
  let out := snd res in
  let rels := rd_rel reloc in
  let i := rd_index reloc in
  let j := rd_index reloc' in
  rd_rel reloc' = rels
  /\ (i <= j)%nat
  /\ (forall k e, (i <= k < j)%nat -> nth_error rels k = Some e ->
                  rel_offset e <= o)
  /\ match r with
     | None => forall e, nth_error rels j = Some e -> o < rel_offset e
     | Some e => (i < j)%nat /\ nth_error rels (j - 1) = Some e
                 /\ rel_invalid e = false /\ rel_offset e = o
     end
  /\ (st = skip_ok -> out = [])
  /\ (st <> skip_ok ->
      length out
      = length (filter (lies_before o) (firstn (j - i) (skipn i rels))))
  /\ Forall (is_skip_error st) out.
Proof.
  cbv zeta. unfold relocation_next.
  destruct (rd_rel reloc) as [|e0 l0] eqn:Erel.
  - simpl. rewrite Erel, Nat.sub_diag. simpl.
    repeat split; auto; try lia.
    intros e He. destruct (rd_index reloc); discriminate.
  - set (rels := e0 :: l0) in *. set (i := rd_index reloc).
    destruct (next_loop_spec reloc o wh st (skipn i rels) i [])
      as (n & new & Hj & Hout & Hn & Hall & Hr & Hok & Hcnt & Herr).
    destruct (relocation_next_loop reloc (skipn i rels) i o wh st [])
      as [[r j] out]. simpl in Hj, Hout, Hr |- *. subst j out.
    replace (i + n - i)%nat with n by lia.
    split; [exact Erel|]. split; [lia|].
    split.
    { intros k e Hk Hnth. rewrite Forall_forall in Hall. apply Hall.
      apply nth_error_In with (n := (k - i)%nat).
      rewrite nth_error_firstn.
      destruct (Nat.ltb_spec (k - i) n); [|lia].
      rewrite nth_error_skipn. now replace (i + (k - i))%nat with k by lia. }
    split; [|auto].
    destruct r as [e|].
    + destruct Hr as (Hpos & Hnth & Hinv & Hoff).
      rewrite nth_error_skipn in Hnth.
      replace (i + (n - 1))%nat with (i + n - 1)%nat in Hnth by lia.
      repeat split; auto; lia.
    + intros e Hnth.
      assert (Hin : nth_error (skipn n (skipn i rels)) 0 = Some e).
      { rewrite !nth_error_skipn.
        now replace (i + (n + 0))%nat with (i + n)%nat by lia. }
      destruct (skipn n (skipn i rels)) as [|e1 tl]; [discriminate|].
      injection Hin as <-. exact Hr.
Qed.

Lemma sorted_nth_error (rels : list relocation) :
  sorted_by_offset rels ->
  forall a b x y, (a < b)%nat ->
    nth_error rels a = Some x -> nth_error rels b = Some y ->
    rel_offset x <= rel_offset y.
Proof.
  induction 1 as [|e l Hs IH Hfa]; intros a b x y Hab Ha Hb.
  - destruct a; discriminate.
  - destruct b as [|b]; [lia|]. simpl in Hb. destruct a as [|a]; simpl in Ha.
    + injection Ha as <-. rewrite Forall_forall in Hfa.
      apply (Hfa y). now apply nth_error_In in Hb.
    + apply (IH a b); auto. lia.
Qed.




(** *** Draining the cursor *)

Lemma filter_nil_iff {A : Type} (f : A -> bool) (l : list A) :
  (forall x, In x l -> f x = false) -> filter f l = [].
Proof.
  induction l as [|x l IH]; intros H; [reflexivity|]. simpl.
  rewrite (H x (or_introl eq_refl)). apply IH. intros y Hy. apply H. now right.
Qed.

(** On entries sorted by offset (as unsigned 64-bit values) a second
    [relocation_skip_rest] is silent. *)
Lemma skip_rest_twice_sorted (s : sec) :
  sorted_by_offset (rd_rel (sec_rel_data s)) ->
  Forall (fun e => rel_offset e <= UINT64_MAX) (rd_rel (sec_rel_data s)) ->
  snd (relocation_skip_rest (fst (relocation_skip_rest s))) = [].
Proof.
  intros Hsorted Hmax. unfold relocation_skip_rest.
  pose proof (relocation_next_positions (sec_rel_data s) UINT64_MAX
                (Some (WHERE (sec_id s) None)) skip_mismatched) as H1.
  cbv zeta in H1.
  destruct (relocation_next (sec_rel_data s) UINT64_MAX _ skip_mismatched)
    as [[r reloc1] out1]. simpl in H1.
  destruct H1 as (Hrel & Hij & Hle & Hr & _). simpl.
  pose proof (relocation_next_positions reloc1 UINT64_MAX
                (Some (WHERE (sec_id s) None)) skip_mismatched) as H2.
  cbv zeta in H2.
  destruct (relocation_next reloc1 UINT64_MAX _ skip_mismatched)
    as [[r2 reloc2] out2]. simpl in H2 |- *.
  destruct H2 as (_ & _ & _ & _ & _ & Hlen & _).
  specialize (Hlen ltac:(discriminate)).
  rewrite filter_nil_iff in Hlen; [now destruct out2|].
  intros e He. apply In_nth_error in He. destruct He as [k Hk].
  rewrite nth_error_firstn in Hk.
  destruct (Nat.ltb_spec k (rd_index reloc2 - rd_index reloc1)); [|discriminate].
  rewrite nth_error_skipn, Hrel in Hk.
  unfold lies_before. apply andb_false_iff. right. apply Z.ltb_ge.
  destruct r as [e1|].
  - destruct Hr as (Hpos & Hnth & _ & Hoff). rewrite <- Hoff.
    apply (sorted_nth_error _ Hsorted (rd_index reloc1 - 1)
             (rd_index reloc1 + k)); auto. lia.
  - destruct (nth_error (rd_rel (sec_rel_data s)) (rd_index reloc1))
      as [e1|] eqn:E1.
    + specialize (Hr e1 eq_refl). rewrite Forall_forall in Hmax.
      apply nth_error_In in E1. specialize (Hmax e1 E1). lia.
    + apply nth_error_None in E1.
      assert (Hlt : (rd_index reloc1 + k < length (rd_rel (sec_rel_data s)))%nat)
        by (apply nth_error_Some; congruence).
      lia.
Qed.

(** C9.  The code at two valid entries of width 4 with offsets 5 and
    2^64 - 1 in a section of 16 bytes: the range test of [read_rel]
    lets both through (the sum [offset + width] wraps); its comparator
    orders the entry at 2^64 - 1 first (the difference of the offsets
    is cut to [int]); the first [relocation_skip_rest] returns at that
    entry, whose offset equals the bound it drains to, and stops there
    without a diagnostic; the second call then passes the entry at 5
    and reports it as mismatched. *)
Theorem skip_rest_twice_reports :
  let e5 := mk_rel 5 0 0 1 false in
  let emax := mk_rel UINT64_MAX 0 0 1 false in
  let s0 := mk_sec sec_info (repeat 0 16)
              (mk_reloc (read_rel_sort [e5; emax]) SHT_RELA 0 0) in
  let s1 := fst (relocation_skip_rest s0) in
  outside_section s0 (rel_offset e5) 4 = false
  /\ outside_section s0 (rel_offset emax) 4 = false
  /\ compare emax e5 < 0 /\ 0 < compare e5 emax
  /\ rd_rel (sec_rel_data s0) = [emax; e5]
  /\ read_rel_sort [emax; e5] = [emax; e5]
  /\ snd (relocation_skip_rest s0) = []
  /\ rd_index (sec_rel_data s1) = 1%nat
  /\ snd (relocation_skip_rest s1)
     = [Error (Some (mk_where sec_rela 0 5 UINT64_MAX
                       (Some (WHERE sec_info None)) None))
              ": relocation is mismatched."].
Proof.
  cbv zeta. repeat split; reflexivity.
Qed.

End RelocationFacts.

Module ReadCtxFacts.
Import ReadCtx.

(** A successful read leaves [end] alone and never moves [ptr]
    backwards. *)
Definition advances (ctx ctx' : read_ctx) : Prop :=
  c_end ctx' = c_end ctx /\ c_ptr ctx <= c_ptr ctx'.

Lemma advances_refl (ctx : read_ctx) : advances ctx ctx.
Proof. split; [reflexivity | lia]. Qed.

Lemma advances_trans (a b c : read_ctx) :
  advances a b -> advances b c -> advances a c.
Proof. unfold advances. intros [? ?] [? ?]. split; [congruence | lia]. Qed.

Lemma read_ubyte_advances (ctx ctx' : read_ctx) (v : Z) :
  read_ctx_read_ubyte ctx = Some (v, ctx') ->
  c_end ctx' = c_end ctx /\ c_ptr ctx' = c_ptr ctx + 1.
Proof.
  unfold read_ctx_read_ubyte. destruct (read_ctx_need_data ctx 1); [|discriminate].
  intros [= _ <-]. split; reflexivity.
Qed.

Lemma read_fixed_advances (ctx ctx' : read_ctx) (n : nat) (v : Z) :
  read_fixed ctx n = Some (v, ctx') -> advances ctx ctx'.
Proof.
  unfold read_fixed.
  destruct (read_ctx_need_data ctx (Z.of_nat n)); [|discriminate].
  intros [= _ <-]. split; simpl; [reflexivity | lia].
Qed.

Lemma read_offset_advances (ctx ctx' : read_ctx) (is_64 : bool) (v : Z) :
  read_ctx_read_offset ctx is_64 = Some (v, ctx') -> advances ctx ctx'.
Proof.
  unfold read_ctx_read_offset, read_ctx_read_8ubyte, read_ctx_read_4ubyte.
  destruct is_64; apply read_fixed_advances.
Qed.

Lemma uleb128_loop_advances (ctx : read_ctx) (avail : nat) :
  forall p shift acc v b ctx',
    uleb128_loop ctx p avail shift acc = Some (v, b, ctx') ->
    c_end ctx' = c_end ctx /\ p <= c_ptr ctx'.
Proof.
  induction avail as [|avail IH]; intros p shift acc v b ctx'; simpl;
    [discriminate|].
  destruct (Z.land (byte_at ctx p) 128 =? 0).
  - intros [= _ _ <-]. split; simpl; [reflexivity | lia].
  - intros Hl. apply IH in Hl. destruct Hl. split; [assumption | lia].
Qed.

Lemma sleb128_loop_advances (ctx : read_ctx) (avail : nat) :
  forall p shift acc prev v b ctx',
    sleb128_loop ctx p avail shift acc prev = Some (v, b, ctx') ->
    c_end ctx' = c_end ctx /\ p <= c_ptr ctx'.
Proof.
  induction avail as [|avail IH]; intros p shift acc prev v b ctx'; simpl;
    [discriminate|].
  destruct (Z.land (byte_at ctx p) 128 =? 0).
  - intros [= _ _ <-]. split; simpl; [reflexivity | lia].
  - intros Hl. apply IH in Hl. destruct Hl. split; [assumption | lia].
Qed.

Lemma init_sub_some (parent : read_ctx) (b e : Z) (ctx : read_ctx) :
  read_ctx_init_sub parent b e = Some ctx ->
  c_begin parent <= b /\ b <= e /\ e <= c_end parent
  /\ c_begin ctx = b /\ c_ptr ctx = b /\ c_end ctx = e.
Proof.
  unfold read_ctx_init_sub.
  destruct (Z.leb_spec (c_begin parent) b), (Z.leb_spec b e),
    (Z.leb_spec e (c_end parent)); simpl; try discriminate.
  intros [= <-]. simpl. repeat split; assumption.
Qed.


End ReadCtxFacts.

Module LocExprFacts.
Import Diagnostics ReadCtx Checked AddrRecord Relocation Dwarf LocExpr ReadCtxFacts.

Section WithCollaborators.
Context `{MessageCategories}.
Variable table : Z -> option (Z * Z).
Variable relocate_one :
  relocation_data -> relocation -> Z -> Z -> where_ -> section_id ->
  Z * option Z * list call.
Variable uninit : Z.

Lemma checked_read_uleb128_advances ctx wh v ctx' out :
  checked_read_uleb128 ctx wh = (Some (v, ctx'), out) -> advances ctx ctx'.
Proof.
  unfold checked_read_uleb128, read_ctx_read_uleb128.
  destruct (uleb128_loop _ _ _ _ _) as [[[v0 b] c]|] eqn:E; [|discriminate].
  intros [= _ <- _]. apply uleb128_loop_advances in E. exact E.
Qed.

Lemma checked_read_sleb128_advances ctx wh v ctx' out :
  checked_read_sleb128 ctx wh = (Some (v, ctx'), out) -> advances ctx ctx'.
Proof.
  unfold checked_read_sleb128, read_ctx_read_sleb128.
  destruct (sleb128_loop _ _ _ _ _ _) as [[[v0 b] c]|] eqn:E; [|discriminate].
  intros [= _ <- _]. apply sleb128_loop_advances in E. exact E.
Qed.

Lemma read_form_advances ctx addr_64 form wh v ctx' out :
  read_ctx_read_form ctx addr_64 form wh = (Some (v, ctx'), out) ->
  advances ctx ctx'.
Proof.
  unfold read_ctx_read_form.
  repeat match goal with
         | |- context [if ?c then _ else _] => destruct c
         end.
  - intros [= E _]. now apply read_offset_advances in E.
  - apply checked_read_uleb128_advances.
  - apply checked_read_sleb128_advances.
  - intros [= E _]. apply read_ubyte_advances in E. destruct E as [? E].
    split; [assumption | lia].
  - intros [= E _]. now apply read_fixed_advances in E.
  - intros [= E _]. now apply read_fixed_advances in E.
  - intros [= E _]. now apply read_fixed_advances in E.
  - discriminate.
Qed.

(** No assertion can fail when there is no relocation data, when the
    relocation array is empty, or when the operand table does not list
    [DW_OP_call_ref]. *)
Definition no_relocations (reloc : option relocation_data) : Prop :=
  match reloc with
  | None => True
  | Some rd => rd_rel rd = []
  end.

Definition cannot_abort (reloc : option relocation_data) : Prop :=
  no_relocations reloc \/ table DW_OP_call_ref = None.

Lemma READ_FORM_spec op opcode init_off addr_64 wh ctx reloc :
  table opcode <> None ->
  match READ_FORM relocate_one uninit op opcode init_off addr_64 wh ctx reloc
  with
  | (OpRead _ ctx' reloc', _) =>
      advances ctx ctx' /\ (cannot_abort reloc -> cannot_abort reloc')
  | (OpOut, _) => True
  | (OpAbort msg, _) =>
      msg = "Can't handle call_ref!"%string /\ ~ cannot_abort reloc
  end.
Proof.
  intros Hop. unfold READ_FORM.
  destruct (op =? 0); [split; [apply advances_refl | auto]|].
  destruct (read_ctx_read_form ctx addr_64 op wh) as [[[v ctx']|] out] eqn:E;
    [|exact I].
  apply read_form_advances in E.
  unfold relocation_next_opt. destruct reloc as [rd|].
  - pose proof (RelocationFacts.relocation_next_keeps_rel rd
                  (wrap64 (read_ctx_get_offset ctx + init_off)) (Some wh)
                  skip_mismatched) as Hkeep.
    pose proof (RelocationFacts.relocation_next_empty rd
                  (wrap64 (read_ctx_get_offset ctx + init_off)) (Some wh)
                  skip_mismatched) as Hempty.
    destruct (relocation_next rd _ _ _) as [[rel rd'] out2].
    simpl in Hkeep.
    assert (Hpres : cannot_abort (Some rd) -> cannot_abort (Some rd')).
    { intros [Hc|Hc]; [left; simpl in *; congruence | now right]. }
    destruct rel as [r|]; [|split; [exact E | exact Hpres]].
    assert (Hne : rd_rel rd <> []).
    { intros Hnil. specialize (Hempty Hnil). discriminate. }
    unfold reloc_target_loc.
    destruct ((opcode =? DW_OP_call2) || (opcode =? DW_OP_call4)).
    { destruct (relocate_one _ _ _ _ _ _) as [[? ?] ?].
      split; [exact E | exact Hpres]. }
    destruct (opcode =? DW_OP_addr).
    { destruct (relocate_one _ _ _ _ _ _) as [[? ?] ?].
      split; [exact E | exact Hpres]. }
    destruct (Z.eqb_spec opcode DW_OP_call_ref) as [->|Hne'].
    { split; [reflexivity|]. intros [Hc|Hc]; [now apply Hne | contradiction]. }
    destruct (relocate_one _ _ _ _ _ _) as [[? ?] ?].
    split; [exact E | exact Hpres].
  - split; [exact E|]. intros _. now left.
Qed.

Lemma locexpr_loop_returns (fuel : nat) :
  forall init_off addr_64 wh ctx reloc oprefs opaddrs out,
    (Z.to_nat (c_end ctx - c_ptr ctx) < fuel)%nat ->
    exists res,
      locexpr_loop table relocate_one uninit fuel init_off addr_64 wh ctx
                   reloc oprefs opaddrs out = Some res
      /\ (le_outcome res = Returned true
          \/ le_outcome res = Aborted "Can't handle call_ref!")
      /\ (cannot_abort reloc -> le_outcome res = Returned true).
Proof.
  induction fuel as [|fuel IH];
    intros init_off addr_64 wh ctx reloc oprefs opaddrs out Hfuel; [lia|].
  cbn [locexpr_loop].
  destruct (read_ctx_eof ctx) eqn:Eeof.
  { eexists; split; [reflexivity|]; simpl; auto. }
  assert (Hleft : 1 <= c_end ctx - c_ptr ctx).
  { unfold read_ctx_eof, read_ctx_need_data in Eeof.
    apply negb_false_iff, andb_true_iff in Eeof.
    destruct Eeof as [_ Eeof]. now apply Z.leb_le in Eeof. }
  destruct (read_ctx_read_ubyte ctx) as [[opcode ctx1]|] eqn:Eb;
    [|eexists; split; [reflexivity|]; simpl; auto].
  apply read_ubyte_advances in Eb. destruct Eb as [He1 Hp1].
  destruct (table opcode) as [[op1 op2]|] eqn:Et;
    [|eexists; split; [reflexivity|]; simpl; auto].
  assert (Hop : table opcode <> None) by congruence.
  pose proof (READ_FORM_spec op1 opcode init_off addr_64
                (where_reset_1 (WHERE sec_locexpr (Some wh))
                   (wrap64 (read_ctx_get_offset ctx + init_off)))
                ctx1 reloc Hop) as H1.
  destruct (READ_FORM _ _ op1 _ _ _ _ ctx1 reloc) as [[v1 ctx2 reloc2| |msg] o1].
  - destruct H1 as [Ha1 Hc1].
    pose proof (READ_FORM_spec op2 opcode init_off addr_64
                  (where_reset_1 (WHERE sec_locexpr (Some wh))
                     (wrap64 (read_ctx_get_offset ctx + init_off)))
                  ctx2 reloc2 Hop) as H2.
    destruct (READ_FORM _ _ op2 _ _ _ _ ctx2 reloc2)
      as [[v2 ctx3 reloc3| |msg] o2].
    + destruct H2 as [Ha2 Hc2].
      destruct (check_opcode _ _ _ _ _ _ _) as [oprefs' o3].
      destruct Ha1 as [He2 Hp2], Ha2 as [He3 Hp3].
      destruct (IH init_off addr_64 wh ctx3 reloc3 oprefs'
                  (addr_record_add opaddrs
                     (wrap64 (read_ctx_get_offset ctx + init_off)))
                  (out ++ o1 ++ o2 ++ o3)) as (res & Hres & Hor & Hok).
      { rewrite He3, He2, He1. lia. }
      exists res. split; [exact Hres|]. split; [exact Hor|]. auto.
    + eexists; split; [reflexivity|]; simpl; auto.
    + destruct H2 as [-> Hn]. eexists; split; [reflexivity|]; simpl.
      split; [now right|]. intros Hc. exfalso. apply Hn. auto.
  - eexists; split; [reflexivity|]; simpl; auto.
  - destruct H1 as [-> Hn]. eexists; split; [reflexivity|]; simpl.
    split; [now right|]. intros Hc. contradiction.
Qed.

Lemma check_location_expression_total (parent_ctx : read_ctx)
  (init_off : Z) (reloc : option relocation_data) (length : Z)
  (wh : where_) (addr_64 : bool) :
  exists res,
    check_location_expression table relocate_one uninit parent_ctx init_off
                              reloc length wh addr_64 = Some res.
Proof.
  unfold check_location_expression.
  destruct (read_ctx_init_sub parent_ctx (c_ptr parent_ctx)
              (c_ptr parent_ctx + length)) as [ctx|] eqn:Esub.
  - apply init_sub_some in Esub.
    destruct Esub as (_ & _ & _ & _ & Hp & He).
    destruct (locexpr_loop_returns (S (Z.to_nat length)) init_off addr_64
                wh ctx reloc [] [] []) as (res & Hres & _).
    { rewrite Hp, He. replace (c_ptr parent_ctx + length - c_ptr parent_ctx)
        with length by lia. lia. }
    now exists res.
  - eexists. reflexivity.
Qed.


End WithCollaborators.


End LocExprFacts.

Module LocRangeFacts.
Import Diagnostics ReadCtx Checked AddrRecord Relocation Dwarf Coverage CU
  LocExpr LocRange ReadCtxFacts.

Section WithCollaborators.
Context `{MessageCategories}.
Variable table : Z -> option (Z * Z).
Variable relocate_one :
  relocation_data -> relocation -> Z -> Z -> where_ -> section_id ->
  Z * option Z * list call.
Variable uninit : Z.

(** From one state of [check_loc_or_range_ref] to a later one: the
    cursor only moves forward, a return value that is false stays
    false, and the output only grows. *)
Definition grows (s s' : ref_state) : Prop :=
  advances (rs_ctx s) (rs_ctx s')
  /\ (rs_retval s = false -> rs_retval s' = false)
  /\ exists more, rs_out s' = rs_out s ++ more.

Lemma grows_refl (s : ref_state) : grows s s.
Proof.
  split; [apply advances_refl|]. split; [auto|]. exists []. now rewrite app_nil_r.
Qed.

Lemma grows_trans (a b c : ref_state) : grows a b -> grows b c -> grows a c.
Proof.
  intros (Ha & Hr & m & Hm) (Ha' & Hr' & m' & Hm').
  split; [eapply advances_trans; eassumption|]. split; [auto|].
  exists (m ++ m'). now rewrite Hm', Hm, app_assoc.
Qed.

Lemma grows_emit (s : ref_state) (more : list call) : grows s (emit s more).
Proof.
  split; [apply advances_refl|]. split; [auto|]. now exists more.
Qed.

Lemma grows_with_rel (s : ref_state) rel (more : list call) :
  grows s (with_rel s rel more).
Proof.
  split; [apply advances_refl|]. split; [auto|]. now exists more.
Qed.

Lemma grows_with_ctx (s : ref_state) (ctx : read_ctx) :
  advances (rs_ctx s) ctx -> grows s (with_ctx s ctx).
Proof.
  intros Ha. split; [exact Ha|]. split; [auto|]. exists [].
  simpl. now rewrite app_nil_r.
Qed.

Lemma grows_check_overlap (wh : where_) (off len : Z) (s : ref_state) :
  grows s (check_overlap wh off len s).
Proof.
  unfold check_overlap. destruct (_ && _); [|apply grows_refl].
  split; [apply advances_refl|]. split; [auto|]. eexists. reflexivity.
Qed.

Lemma grows_check_live_entry cat wh b e (s : ref_state) :
  grows s (check_live_entry cat wh b e s).
Proof.
  unfold check_live_entry.
  set (s1 := if rs_base s =? UINT64_MAX then _ else s).
  assert (H1 : grows s s1)
    by (subst s1; destruct (_ =? _); [apply grows_emit | apply grows_refl]).
  eapply grows_trans; [exact H1|].
  destruct (e <? b); [apply grows_emit|].
  destruct (b =? e); [apply grows_emit|].
  destruct (_ && _); [|apply grows_refl].
  destruct (rs_cu_coverage s1); [|apply grows_refl].
  split; [apply advances_refl|]. split; [auto|]. exists [].
  simpl. now rewrite app_nil_r.
Qed.

Lemma grows_select_base cat wh e (s : ref_state) :
  grows s (select_base cat wh e s).
Proof.
  unfold select_base. destruct (_ =? _); [apply grows_emit|].
  split; [apply advances_refl|]. split; [auto|]. exists [].
  simpl. now rewrite app_nil_r.
Qed.

Lemma grows_cover_entry wh (s : ref_state) : grows s (cover_entry wh s).
Proof.
  split; [apply advances_refl|]. split; [auto|]. exists [].
  simpl. now rewrite app_nil_r.
Qed.

Lemma read_fixed_exact (ctx ctx' : read_ctx) (n : nat) (v : Z) :
  read_fixed ctx n = Some (v, ctx') ->
  c_end ctx' = c_end ctx /\ c_ptr ctx' = c_ptr ctx + Z.of_nat n.
Proof.
  unfold read_fixed.
  destruct (read_ctx_need_data ctx (Z.of_nat n)); [|discriminate].
  intros [= _ <-]. split; reflexivity.
Qed.

Lemma read_address_spec addr_64 wh what (s : ref_state) :
  match read_address relocate_one addr_64 wh what s with
  | (Some _, s') => grows s s' /\ c_ptr (rs_ctx s) < c_ptr (rs_ctx s')
  | (None, s') => grows s s'
  end.
Proof.
  unfold read_address.
  set (s1 := check_overlap wh _ _ s).
  assert (H1 : grows s s1) by apply grows_check_overlap.
  assert (Hp : c_ptr (rs_ctx s1) = c_ptr (rs_ctx s)).
  { subst s1. unfold check_overlap. now destruct (_ && _). }
  destruct (read_ctx_read_offset (rs_ctx s1) addr_64) as [[addr ctx]|] eqn:E.
  - assert (Hadv : c_end ctx = c_end (rs_ctx s1)
                   /\ c_ptr (rs_ctx s1) < c_ptr ctx).
    { unfold read_ctx_read_offset, read_ctx_read_8ubyte, read_ctx_read_4ubyte
        in E. destruct addr_64; apply read_fixed_exact in E;
        destruct E as [He Hq]; split; auto; lia. }
    destruct Hadv as [He Hq].
    assert (H2 : grows s1 (with_ctx s1 ctx))
      by (apply grows_with_ctx; split; [exact He | lia]).
    destruct (relocation_next (rs_rel (with_ctx s1 ctx)) _ _ _)
      as [[rel reloc] o].
    assert (H3 : grows s (with_rel (with_ctx s1 ctx) reloc o)).
    { eapply grows_trans; [exact H1|]. eapply grows_trans; [exact H2|].
      apply grows_with_rel. }
    destruct rel as [r|].
    + destruct (relocate_one _ _ _ _ _ _) as [[v symbol] o'].
      split; [|simpl; lia].
      eapply grows_trans; [exact H3 | apply grows_emit].
    + split; [exact H3 | simpl; lia].
  - eapply grows_trans; [exact H1 | apply grows_emit].
Qed.

Lemma check_entry_expression_spec addr_64 wh (s : ref_state) :
  exists o s',
    check_entry_expression table relocate_one uninit addr_64 wh s
    = Some (o, s')
    /\ grows s s'.
Proof.
  unfold check_entry_expression.
  set (s1 := check_overlap wh _ 2 s).
  assert (H1 : grows s s1) by apply grows_check_overlap.
  destruct (read_ctx_read_2ubyte (rs_ctx s1)) as [[len ctx]|] eqn:E.
  - apply read_fixed_advances in E.
    assert (H2 : grows s (with_ctx s1 ctx))
      by (eapply grows_trans; [exact H1 | now apply grows_with_ctx]).
    destruct (LocExprFacts.check_location_expression_total table relocate_one
                uninit (rs_ctx (with_ctx s1 ctx))
                (read_ctx_get_offset (rs_ctx (with_ctx s1 ctx)))
                (Some (rs_rel (with_ctx s1 ctx))) len wh addr_64)
      as [res Hres].
    rewrite Hres.
    set (s2 := match le_reloc res with
               | Some rd => with_rel (with_ctx s1 ctx) rd (le_out res)
               | None => emit (with_ctx s1 ctx) (le_out res)
               end).
    assert (H3 : grows s s2).
    { eapply grows_trans; [exact H2|]. subst s2.
      destruct (le_reloc res); [apply grows_with_rel | apply grows_emit]. }
    destruct (le_outcome res) as [[|]|msg].
    + set (s3 := check_overlap wh _ _ s2).
      assert (H4 : grows s s3)
        by (eapply grows_trans; [exact H3 | apply grows_check_overlap]).
      destruct (read_ctx_skip (rs_ctx s3) len) as [ctx'|] eqn:Es.
      * do 2 eexists. split; [reflexivity|].
        eapply grows_trans; [exact H4|]. apply grows_with_ctx.
        unfold read_ctx_skip in Es.
        destruct (read_ctx_need_data (rs_ctx s3) len) eqn:En; [|discriminate].
        injection Es as <-. unfold read_ctx_need_data in En.
        apply andb_true_iff in En. destruct En as [En _].
        apply Z.leb_le in En. split; simpl; [reflexivity | lia].
      * do 2 eexists. split; [reflexivity|].
        eapply grows_trans; [exact H4 | apply grows_emit].
    + do 2 eexists. split; [reflexivity | exact H3].
    + do 2 eexists. split; [reflexivity | exact H3].
  - do 2 eexists. split; [reflexivity|].
    eapply grows_trans; [exact H1 | apply grows_emit].
Qed.

(** What the caller of the loop gets, against the state the loop
    started from. *)
Definition ends (s : ref_state) (res : ref_result) : Prop :=
  (rs_retval s = false -> rr_outcome res <> Returned true)
  /\ exists more, rr_out res = rs_out s ++ more.

Lemma ends_return (s0 s : ref_state) (b : bool) :
  grows s0 s -> (b = true -> rs_retval s = true) ->
  exists res, ref_return s b [] = Some res /\ ends s0 res.
Proof.
  intros (_ & Hr & m & Hm) Hb. eexists. split; [reflexivity|]. split; simpl.
  - intros H0 [= ->]. specialize (Hr H0). specialize (Hb eq_refl). congruence.
  - exists m. now rewrite app_nil_r.
Qed.

Lemma ref_loop_ends (fuel : nat) :
  forall sec_id cat addr_64 wh s0 s,
    grows s0 s ->
    (Z.to_nat (c_end (rs_ctx s) - c_ptr (rs_ctx s)) < fuel)%nat ->
    exists res,
      ref_loop table relocate_one uninit fuel sec_id cat addr_64 wh s = Some res
      /\ ends s0 res.
Proof.
  induction fuel as [|fuel IH]; intros sec_id cat addr_64 wh s0 s Hg Hfuel; [lia|].
  cbn [ref_loop].
  destruct (read_ctx_eof (rs_ctx s)) eqn:Eeof.
  { apply ends_return; auto. }
  assert (Hleft : 1 <= c_end (rs_ctx s) - c_ptr (rs_ctx s)).
  { unfold read_ctx_eof, read_ctx_need_data in Eeof.
    apply negb_false_iff, andb_true_iff in Eeof.
    destruct Eeof as [_ Eeof]. now apply Z.leb_le in Eeof. }
  set (e_where := where_reset_1 (WHERE sec_id (Some wh)) _).
  pose proof (read_address_spec addr_64 e_where
                ": can't read address range beginning." s) as Hb.
  destruct (read_address relocate_one addr_64 e_where _ s)
    as [[[[begin_addr begin_symbol] begin_relocated]|] s1].
  2:{ apply ends_return; [eapply grows_trans; eassumption | discriminate]. }
  destruct Hb as [Hg1 Hp1].
  pose proof (read_address_spec addr_64 e_where
                ": can't read address range ending." s1) as He.
  destruct (read_address relocate_one addr_64 e_where _ s1)
    as [[[[end_addr end_symbol] end_relocated]|] s2].
  2:{ apply ends_return; [|discriminate].
      eapply grows_trans; [eassumption|]. eapply grows_trans; eassumption. }
  destruct He as [Hg2 Hp2].
  set (s3 := emit s2 _).
  assert (Hg3 : grows s s3).
  { eapply grows_trans; [exact Hg1|]. eapply grows_trans; [exact Hg2|].
    apply grows_emit. }
  assert (Hp3 : c_ptr (rs_ctx s) < c_ptr (rs_ctx s3)) by (simpl; lia).
  assert (Hnext : forall s4, grows s3 s4 ->
            exists res,
              ref_loop table relocate_one uninit fuel sec_id cat addr_64 wh
                       (cover_entry e_where s4) = Some res
              /\ ends s0 res).
  { intros s4 Hg4. apply IH.
    - eapply grows_trans; [exact Hg|]. eapply grows_trans; [exact Hg3|].
      eapply grows_trans; [exact Hg4 | apply grows_cover_entry].
    - destruct Hg4 as ([He4 Hp4] & _). destruct Hg3 as ([He3 _] & _).
      simpl. rewrite He4, He3. lia. }
  destruct (_ && _ && _ && _).
  { apply ends_return; [|auto].
    eapply grows_trans; [exact Hg|]. eapply grows_trans; [exact Hg3|].
    apply grows_cover_entry. }
  destruct (negb (begin_addr =? _)).
  - pose proof (grows_check_live_entry cat e_where begin_addr end_addr s3) as Hl.
    destruct (section_id_eqb sec_id sec_loc).
    + destruct (check_entry_expression_spec addr_64 e_where
                  (check_live_entry cat e_where begin_addr end_addr s3))
        as (o & s5 & Hx & Hg5).
      rewrite Hx.
      assert (Hg05 : grows s0 s5).
      { eapply grows_trans; [exact Hg|]. eapply grows_trans; [exact Hg3|].
        eapply grows_trans; eassumption. }
      destruct o as [[|]|msg].
      * apply Hnext. eapply grows_trans; eassumption.
      * apply ends_return; [exact Hg05 | discriminate].
      * eexists. split; [reflexivity|]. destruct Hg05 as (_ & _ & m & Hm).
        split; simpl; [discriminate | now exists m].
    + now apply Hnext.
  - apply Hnext. apply grows_select_base.
Qed.

Lemma refs_loop_index (refs : list ref_cu) :
  forall i j ctx cat s,
    (0 < i)%nat -> (0 < j)%nat ->
    refs_loop table relocate_one uninit refs i ctx cat s
    = refs_loop table relocate_one uninit refs j ctx cat s.
Proof.
  induction refs as [|r rest IH]; intros i j ctx cat s Hi Hj; [reflexivity|].
  cbn [refs_loop].
  replace (0 <? i)%nat with true by (symmetry; now apply Nat.ltb_lt).
  replace (0 <? j)%nat with true by (symmetry; now apply Nat.ltb_lt).
  destruct (true && _); [apply IH; lia|].
  destruct (relocation_skip _ _ _ _) as [rel o1].
  destruct (check_loc_or_range_ref _ _ _ _ _ _ _ _ _ _ _ _) as [res|];
    [|reflexivity].
  destruct (rr_outcome res); [apply IH; lia | reflexivity].
Qed.

(** C4, as the code has it.  In the pass over the sorted references a
    reference whose target equals the target of the reference before
    it is skipped: it is not checked and nothing is reported for it.
    A reference that is checked and whose target is a byte the
    coverage set already contains is reported first of all with
    "reference points into another location or range list", and the
    check of that reference does not return true. *)
Theorem same_target_checked_once :
  (forall r1 r2 rest i ctx cat s,
      r_addr (rc_ref r1) = r_addr (rc_ref r2) ->
      refs_loop table relocate_one uninit (r1 :: r2 :: rest) i ctx cat s
      = refs_loop table relocate_one uninit (r1 :: rest) i ctx cat s)
  /\ (forall parent_ctx c s cov cu_cov addr addr_64 wh cat,
        (sec_id s = sec_loc /\ cat = cat_loc
         \/ sec_id s = sec_ranges /\ cat = cat_ranges) ->
        0 <= addr <= Z.of_nat (length (c_data parent_ctx)) ->
        coverage_is_covered cov addr 1 = true ->
        exists res more,
          check_loc_or_range_ref table relocate_one uninit parent_ctx c s cov
                                 cu_cov addr addr_64 wh cat = Some res
          /\ rr_outcome res <> Returned true
          /\ rr_out res
             = Error (Some wh)
                 ": reference to %#lx points into another location or range list."
                 :: more).
Proof.
  split.
  - intros r1 r2 rest i ctx cat s Heq. cbn [refs_loop].
    destruct ((0 <? i)%nat && (r_addr (rc_ref r1) =? ps_last_off s)) eqn:E1.
    + apply andb_true_iff in E1. destruct E1 as [_ E1].
      rewrite <- Heq, E1. simpl. apply refs_loop_index; lia.
    + destruct (if (0 <? i)%nat then _ else _) as [rel o1].
      destruct (check_loc_or_range_ref _ _ _ _ _ _ _ _ _ _ _ _) as [res|];
        [|reflexivity].
      destruct (rr_outcome res) as [b|msg]; [|reflexivity].
      cbn [refs_loop ps_last_off]. rewrite <- Heq, Z.eqb_refl. simpl.
      apply refs_loop_index; lia.
  - intros parent_ctx c s cov cu_cov addr addr_64 wh cat Hsec Haddr Hcov.
    unfold check_loc_or_range_ref.
    assert (Hok : negb (section_id_eqb (sec_id s) sec_loc
                        || section_id_eqb (sec_id s) sec_ranges) = false
                  /\ negb (category_eqb cat cat_loc
                           || category_eqb cat cat_ranges) = false
                  /\ negb (Bool.eqb (section_id_eqb (sec_id s) sec_loc)
                                    (category_eqb cat cat_loc)) = false).
    { destruct Hsec as [[-> ->] | [-> ->]]; repeat split; reflexivity. }
    destruct Hok as (-> & -> & ->).
    unfold read_ctx_skip, read_ctx_need_data, read_ctx_init. cbn [c_ptr c_end].
    replace ((0 <=? addr) && (addr <=? Z.of_nat (length (c_data parent_ctx)) - 0))
      with true.
    2:{ symmetry. apply andb_true_iff. split; apply Z.leb_le; lia. }
    rewrite Hcov. cbn [negb].
    match goal with
    | |- context [ref_loop _ _ _ ?f ?i ?ct ?a ?w ?st] =>
        destruct (ref_loop_ends f i ct a w st st (grows_refl st))
          as (res & Hres & Hnot & more & Hout)
    end.
    { simpl. lia. }
    exists res, more. split; [exact Hres|]. split; [now apply Hnot|].
    exact Hout.
Qed.

End WithCollaborators.

(** C4 fails as stated: the DIEs at 0x0b and 0x14 both refer to the
    range list at offset 0, and the pass over .debug_ranges reports
    nothing. *)
Lemma same_listhead_no_overlap_error :
  check_loc_or_range_structural
    (H := example_categories) Examples.example_opcode_operands
    Examples.example_relocate_one 0 false
    (Examples.example_ranges (repeat 0 8))
    [Examples.example_cu [mk_ref 0 Examples.die_0b; mk_ref 0 Examples.die_14]]
    None
  = Some (mk_pass_result (Returned true)
            (Examples.example_ranges (repeat 0 8)) None []).
Proof. reflexivity. Qed.

End LocRangeFacts.

Module InfoFacts.
Import Diagnostics ReadCtx Checked AddrRecord Abbrev Relocation Dwarf Coverage
  CU LocExpr Info DiagnosticsFacts.

(** The text of the diagnostic for differing address sizes. *)
Definition differs_text : string :=
  ": has different address size than CU 0x%lx.".

Section WithCollaborators.
Context `{MessageCategories}.
Variable relocate_one :
  relocation_data -> relocation -> Z -> Z -> where_ -> section_id ->
  Z * option Z * list call.
Variable read_die_chain :
  read_ctx -> cu -> abbrev_table -> option (list Z) -> bool -> bool ->
  option coverage -> option relocation_data -> option cu_coverage -> die_chain.

Lemma mc_land_ne (a b : category) : a <> b -> Z.land (mc a) (mc b) = 0.
Proof.
  intros Hne. unfold mc. apply shiftl_1_land_ne; try lia.
  intros E. apply Hne, ID_inj. lia.
Qed.

Lemma mc_nonzero (a : category) : mc a <> 0.
Proof.
  unfold mc. rewrite Z.shiftl_1_l.
  pose proof (Z.pow_pos_nonneg 2 (Z.of_nat (ID a))). lia.
Qed.

(** The error criterion of [main] does not accept the category of the
    address-size diagnostic. *)
Lemma info_not_escalated : message_accept main_error_criteria (mc cat_info) = false.
Proof.
  unfold main_error_criteria, message_cri_or. simpl.
  unfold term_matches. simpl.
  rewrite !mc_land_ne by discriminate.
  destruct (Z.eqb_spec 0 (mc cat_impact_4)) as [E|_];
    [symmetry in E; now apply mc_nonzero in E|].
  destruct (Z.eqb_spec 0 (mc cat_error)) as [E|_];
    [symmetry in E; now apply mc_nonzero in E|].
  reflexivity.
Qed.

Definition valid_address_size (c : cu) : Prop :=
  address_size c = 4 \/ address_size c = 8.

Lemma check_address_sizes_from (chain : list cu) :
  forall a off, a <> 0 ->
    (Forall (fun c => address_size c = a) chain
     /\ check_address_sizes chain a off = [])
    \/ (~ Forall (fun c => address_size c = a) chain
        /\ exists wh,
            check_address_sizes chain a off
            = [Message (mc cat_info) (Some wh) differs_text]).
Proof.
  induction chain as [|it rest IH]; intros a off Ha; simpl.
  - left. split; [constructor | reflexivity].
  - destruct (Z.eqb_spec a 0) as [E|_]; [contradiction|].
    destruct (Z.eqb_spec a (address_size it)) as [E|E]; simpl.
    + destruct (IH a off Ha) as [[Hall Hnil] | [Hnot Hmsg]].
      * left. split; [constructor; auto | exact Hnil].
      * right. split; [|exact Hmsg]. intros Hall. apply Hnot.
        now inversion Hall.
    + right. split.
      * intros Hall. inversion Hall; subst. congruence.
      * eexists. reflexivity.
Qed.

Lemma check_address_sizes_spec (chain : list cu) :
  Forall valid_address_size chain ->
  ((forall c1 c2, In c1 chain -> In c2 chain ->
                  address_size c1 = address_size c2)
   /\ check_address_sizes chain 0 0 = [])
  \/ ((exists c1 c2, In c1 chain /\ In c2 chain
                     /\ address_size c1 <> address_size c2)
      /\ exists wh,
          check_address_sizes chain 0 0
          = [Message (mc cat_info) (Some wh) differs_text]).
Proof.
  intros Hvalid. destruct chain as [|it rest]; simpl.
  - left. split; [intros ? ? [] | reflexivity].
  - inversion Hvalid as [|? ? Hit Hrest]; subst.
    assert (Ha : address_size it <> 0) by (destruct Hit; lia).
    destruct (check_address_sizes_from rest (address_size it)
                (w_addr1 (cu_where it)) Ha) as [[Hall Hnil] | [Hnot Hmsg]].
    + left. split; [|exact Hnil]. rewrite Forall_forall in Hall.
      intros c1 c2 [<- | H1] [<- | H2]; auto.
      * symmetry. auto.
      * rewrite (Hall c1 H1), (Hall c2 H2). reflexivity.
    + right. split; [|exact Hmsg].
      apply Exists_Forall_neg in Hnot.
      * apply Exists_exists in Hnot. destruct Hnot as (c & Hc & Hne).
        exists it, c. repeat split; [now left | now right | congruence].
      * intros c. destruct (Z.eq_dec (address_size c) (address_size it));
          [now left | now right].
Qed.

(** C7, as the code has it.  Along a chain of units with valid address
    sizes, differing sizes are reported by exactly one diagnostic, a
    message of category [info]; under the criteria of [main] such a
    message, when printed, has severity warning and never error; the
    mismatch has no part in whether the chain is handed back, which
    depends on the success of the loop over the units and on the
    soundness of the references only; and an address size other than 4
    or 8 makes [check_cu_structural] fail. *)
Theorem address_size_mismatch_is_a_message :
  (forall chain,
      Forall valid_address_size chain ->
      ((forall c1 c2, In c1 chain -> In c2 chain ->
                      address_size c1 = address_size c2)
       /\ check_address_sizes chain 0 0 = [])
      \/ ((exists c1 c2, In c1 chain /\ In c2 chain
                         /\ address_size c1 <> address_size c2)
          /\ exists wh,
              check_address_sizes chain 0 0
              = [Message (mc cat_info) (Some wh) differs_text]))
  /\ (forall f wh fmt st,
        exists new,
          stdout (wr_message (main_config f) (mc cat_info) wh fmt st)
          = stdout st ++ new
          /\ Forall (fun l => line_severity l = Some sev_warning) new)
  /\ (forall strings s,
        ir_cu_chain (finish_info strings s)
        = if is_success s && fst (check_global_die_references (is_cu_chain s))
          then rev (is_cu_chain s) else [])
  /\ (forall is_rel ctx c abbrev_chain strings dwarf_64 sc reloc cu_cov
             version ctx1 abbrev_offset ctx2 size ctx3,
        read_ctx_read_2ubyte ctx = Some (version, ctx1) ->
        version = 2 \/ version = 3 ->
        read_ctx_read_offset ctx1 dwarf_64 = Some (abbrev_offset, ctx2) ->
        read_ctx_read_ubyte ctx2 = Some (size, ctx3) ->
        size <> 4 -> size <> 8 ->
        cc_retval (check_cu_structural relocate_one read_die_chain is_rel ctx c
                     abbrev_chain strings dwarf_64 sc reloc cu_cov) = false).
Proof.
  split; [exact check_address_sizes_spec|]. split; [|split].
  - intros f wh fmt st. unfold wr_message.
    destruct (message_accept (warning_criteria (main_config f)) (mc cat_info)).
    + cbn [main_config error_criteria]. rewrite info_not_escalated.
      eexists. split; [reflexivity|]. constructor; [reflexivity|].
      apply Forall_forall. intros l Hl. now apply chain_severity in Hl.
    + exists []. split; [now rewrite app_nil_r | constructor].
  - intros strings s. unfold finish_info.
    destruct (if is_success s then _ else _) as [sec1 o1].
    destruct (check_global_die_references (is_cu_chain s)) as [sound o3].
    cbn [ir_cu_chain fst].
    destruct (is_success s), sound; reflexivity.
  - intros is_rel ctx c abbrev_chain strings dwarf_64 sc reloc cu_cov
           version ctx1 abbrev_offset ctx2 size ctx3 Hv Hver Ho Hs H4 H8.
    unfold check_cu_structural. rewrite Hv.
    assert (Hsup : supported_version version [2; 3] (cu_where c) = (true, [])).
    { unfold supported_version. destruct Hver as [-> | ->]; reflexivity. }
    rewrite Hsup. cbn [negb]. rewrite Ho.
    destruct (relocation_next_opt reloc _ _ _) as [[rel reloc'] o3].
    destruct (match rel with Some _ => _ | None => _ end) as [ao o4].
    rewrite Hs.
    destruct (Z.eqb_spec size 4); [contradiction|].
    destruct (Z.eqb_spec size 8); [contradiction|].
    reflexivity.
Qed.

End WithCollaborators.

(** C7 fails as stated: for two units with address sizes 4 and 8 the
    diagnostic is printed with severity warning, not error (and the
    chain is handed back). *)
Lemma address_size_mismatch_prints_warning :
  let chain := [Examples.example_cu_8; Examples.example_cu_4] in
  let ctx := read_ctx_init false (repeat 0 0x40) in
  let s := mk_info_state (set_ptr ctx (c_end ctx)) chain true [] None
             (mk_sec sec_info (repeat 0 0x40) (mk_reloc [] SHT_RELA 0 0))
             None [] in
  let res := finish_info (H := example_categories) None s in
  ir_cu_chain res = [Examples.example_cu_4; Examples.example_cu_8]
  /\ stdout (run (main_config (H := example_categories) Examples.no_flags)
                 (ir_out res) initial_state)
     = [Diag sev_warning (Some (where_reset_1 (WHERE sec_info None) 0))
             differs_text].
Proof. cbv zeta. split; reflexivity. Qed.

End InfoFacts.

(** ** Looking abbreviations up *)

Module AbbrevLookupFacts.
Import Diagnostics ReadCtx Checked Dwarf Abbrev.

Lemma sorted_codes_nth (l : list abbrev) :
  StronglySorted (fun a b => code a < code b) l ->
  forall i j, (i < j < length l)%nat ->
              code (nth i l wiped_abbrev) < code (nth j l wiped_abbrev).
Proof.
  induction 1 as [|x l Hs IH Hx]; intros i j Hij; simpl in Hij; [lia|].
  destruct j as [|j]; [lia|]. destruct i as [|i]; simpl.
  - rewrite Forall_forall in Hx. apply Hx. apply nth_In. lia.
  - apply IH. lia.
Qed.

Lemma find_abbrev_loop_spec (abbr : list abbrev) (c : Z) (a b : nat) :
  (forall i j, (i < j < length abbr)%nat ->
               code (nth i abbr wiped_abbrev) < code (nth j abbr wiped_abbrev)) ->
  (a <= b <= length abbr)%nat ->
  (forall k, (k < a)%nat -> code (nth k abbr wiped_abbrev) < c) ->
  (forall k, (b <= k < length abbr)%nat -> c < code (nth k abbr wiped_abbrev)) ->
  match find_abbrev_loop abbr c a b with
  | Some i => (i < length abbr)%nat /\ code (nth i abbr wiped_abbrev) = c
  | None => forall k, (k < length abbr)%nat ->
                      code (nth k abbr wiped_abbrev) <> c
  end.
Proof.
  apply (find_abbrev_loop_elim
           (fun abbr c a b r =>
              (forall i j, (i < j < length abbr)%nat ->
                           code (nth i abbr wiped_abbrev)
                           < code (nth j abbr wiped_abbrev)) ->
              (a <= b <= length abbr)%nat ->
              (forall k, (k < a)%nat -> code (nth k abbr wiped_abbrev) < c) ->
              (forall k, (b <= k < length abbr)%nat ->
                         c < code (nth k abbr wiped_abbrev)) ->
              match r with
              | Some i => (i < length abbr)%nat
                          /\ code (nth i abbr wiped_abbrev) = c
              | None => forall k, (k < length abbr)%nat ->
                                  code (nth k abbr wiped_abbrev) <> c
              end)); clear abbr c a b.
  - intros abbr c a b Hnlt _ Hasc Hab Hlo Hhi k Hk.
    destruct (Nat.lt_ge_cases k a) as [H|H].
    + specialize (Hlo k H). lia.
    + specialize (Hhi k ltac:(lia)). lia.
  - intros abbr c a b Hlt Hcmp _ Hasc Hab Hlo Hhi.
    apply Z.compare_eq in Hcmp.
    pose proof (AddrRecordFacts.half_between a b Hlt). split; [lia | exact Hcmp].
  - intros abbr c a b Hlt IH Hcmp _ Hasc Hab Hlo Hhi.
    rewrite Z.compare_lt_iff in Hcmp.
    pose proof (AddrRecordFacts.half_between a b Hlt) as Hm.
    apply IH; auto; try lia.
    intros k Hk. destruct (Nat.eq_dec k ((a + b) / 2)) as [->|Hne];
      [exact Hcmp|].
    destruct (Nat.lt_ge_cases k a) as [H|H]; [now apply Hlo|].
    specialize (Hasc k ((a + b) / 2)%nat ltac:(lia)). lia.
  - intros abbr c a b Hlt IH Hcmp _ Hasc Hab Hlo Hhi.
    rewrite Z.compare_gt_iff in Hcmp.
    pose proof (AddrRecordFacts.half_between a b Hlt) as Hm.
    apply IH; auto; try lia.
    intros k Hk. destruct (Nat.eq_dec k ((a + b) / 2)) as [->|Hne];
      [exact Hcmp|].
    destruct (Nat.lt_ge_cases k b) as [H|H]; [|apply Hhi; lia].
    specialize (Hasc ((a + b) / 2)%nat k ltac:(lia)). lia.
Qed.

(** X6.  On a table whose codes ascend strictly,
    [abbrev_table_find_abbrev] finds the abbreviation with the code
    asked for when the table has one, and returns NULL exactly when it
    has none. *)
Theorem abbrev_table_find_abbrev_sorted (abbrevs : abbrev_table) (c : Z) :
  StronglySorted (fun a b => code a < code b) (abbr abbrevs) ->
  match abbrev_table_find_abbrev abbrevs c with
  | Some ab => In ab (abbr abbrevs) /\ code ab = c
  | None => forall ab, In ab (abbr abbrevs) -> code ab <> c
  end.
Proof.
  intros Hs. unfold abbrev_table_find_abbrev.
  pose proof (find_abbrev_loop_spec (abbr abbrevs) c 0 (length (abbr abbrevs))
                (sorted_codes_nth _ Hs) ltac:(lia)
                ltac:(intros; lia) ltac:(intros; lia)) as H.
  destruct (find_abbrev_loop (abbr abbrevs) c 0 (length (abbr abbrevs)))
    as [i|].
  - destruct H as [Hi Hc].
    rewrite (nth_error_nth' _ wiped_abbrev Hi).
    split; [now apply nth_In | exact Hc].
  - intros ab Hin. destruct (In_nth _ _ wiped_abbrev Hin) as (k & Hk & <-).
    now apply H.
Qed.

(** A table with the codes 1, 2 and 5, asked for the code 2. *)
Lemma abbrev_table_find_abbrev_sorted_witness :
  let wh := WHERE sec_abbrev None in
  let t := mk_table 0 [mk_abbrev 1 0x24 false wh false [];
                       mk_abbrev 2 0x24 false wh false [];
                       mk_abbrev 5 0x24 false wh false []] in
  StronglySorted (fun a b => code a < code b) (abbr t)
  /\ match abbrev_table_find_abbrev t 2 with
     | Some ab => In ab (abbr t) /\ code ab = 2
     | None => forall ab, In ab (abbr t) -> code ab <> 2
     end.
Proof.
  cbv zeta.
  assert (Hs : StronglySorted (fun a b => code a < code b)
                 (abbr (mk_table 0
                    [mk_abbrev 1 0x24 false (WHERE sec_abbrev None) false [];
                     mk_abbrev 2 0x24 false (WHERE sec_abbrev None) false [];
                     mk_abbrev 5 0x24 false (WHERE sec_abbrev None) false []])))
    by (repeat constructor; simpl; lia).
  split; [exact Hs | exact (abbrev_table_find_abbrev_sorted _ 2 Hs)].
Defined.

End AbbrevLookupFacts.

(** ** Skipping relocations *)

Module RelocationSkipFacts.
Import Diagnostics Relocation RelocationFacts SortSpec.

(** The entries [relocation_next] passes without returning them are
    invalid or lie before the offset asked for. *)
Lemma next_loop_passed (reloc : relocation_data) (o : Z) (wh : option where_)
  (st : skip_type) (rest : list relocation) :
  forall (index : nat) (out0 : list call) (k : nat) (e : relocation),
    let res := relocation_next_loop reloc rest index o wh st out0 in
    (index + k + match fst (fst res) with Some _ => 1 | None => 0 end < snd (fst res))%nat ->
    nth_error rest k = Some e ->
    rel_invalid e = true \/ rel_offset e < o.
Proof.
  induction rest as [|rel rest IH]; intros index out0 k e; cbv zeta.
  - intros _ Hk. destruct k; discriminate.
  - cbn [relocation_next_loop].
    destruct (rel_offset rel >? o) eqn:Egt; [simpl; lia|].
    destruct (rel_invalid rel) eqn:Einv.
    + intros Hlt Hk. destruct k as [|k].
      * injection Hk as <-. now left.
      * apply (IH (S index) out0 k e); [|exact Hk].
        cbv zeta. lia.
    + destruct (rel_offset rel <? o) eqn:Elt.
      * intros Hlt Hk. destruct k as [|k].
        -- injection Hk as <-. right. now apply Z.ltb_lt.
        -- match type of Hlt with
           | context [relocation_next_loop reloc rest (S index) o wh st ?out] =>
               apply (IH (S index) out k e); [cbv zeta; lia | exact Hk]
           end.
      * simpl. lia.
Qed.

Lemma relocation_next_passed (reloc : relocation_data) (o : Z)
  (wh : option where_) (st : skip_type) (k : nat) (e : relocation) :
  let res := relocation_next reloc o wh st in
  (rd_index reloc <= k)%nat ->
  (k + match fst (fst res) with Some _ => 1 | None => 0 end < rd_index (snd (fst res)))%nat ->
  nth_error (rd_rel reloc) k = Some e ->
  rel_invalid e = true \/ rel_offset e < o.
Proof.
  cbv zeta. unfold relocation_next.
  destruct (rd_rel reloc) as [|e0 l0] eqn:Erel.
  - simpl. lia.
  - set (rels := e0 :: l0) in *. intros Hik Hlt Hk.
    pose proof (next_loop_passed reloc o wh st (skipn (rd_index reloc) rels)
                  (rd_index reloc) [] (k - rd_index reloc) e) as H.
    cbv zeta in H.
    destruct (relocation_next_loop reloc (skipn (rd_index reloc) rels)
                (rd_index reloc) o wh st []) as [[r j] out].
    simpl in *. apply H; [lia|].
    rewrite nth_error_skipn.
    now replace (rd_index reloc + (k - rd_index reloc))%nat with k by lia.
Qed.

Lemma strictly_sorted_sorted (rels : list relocation) :
  strictly_sorted rels -> sorted_by_offset rels.
Proof.
  induction 1 as [|x l Hs IH Hx]; constructor; auto.
  eapply Forall_impl; [|exact Hx]. unfold offset_le. simpl. intros; lia.
Qed.

Lemma strictly_sorted_nth_error (rels : list relocation) :
  strictly_sorted rels ->
  forall a b x y, (a < b)%nat ->
    nth_error rels a = Some x -> nth_error rels b = Some y ->
    rel_offset x < rel_offset y.
Proof.
  induction 1 as [|e l Hs IH Hfa]; intros a b x y Hab Ha Hb.
  - destruct a; discriminate.
  - destruct b as [|b]; [lia|]. simpl in Hb. destruct a as [|a]; simpl in Ha.
    + injection Ha as <-. rewrite Forall_forall in Hfa.
      apply (Hfa y). now apply nth_error_In in Hb.
    + apply (IH a b); auto. lia.
Qed.

(** X7.  [relocation_skip] and then [relocation_next] at the same
    offset.  On entries whose offsets ascend strictly, and for an
    offset that is not 0, the skip passes entries before the offset
    only and leaves the cursor on the first entry at or after it; the
    [relocation_next] that follows then issues no diagnostic whatever
    its skip type, and returns the valid entry at that offset when
    there is one. *)
Theorem relocation_skip_then_next (reloc : relocation_data) (o : Z)
  (wh wh2 : option where_) (st st2 : skip_type) :
  strictly_sorted (rd_rel reloc) ->
  0 < o <= UINT64_MAX ->
  let skipped := fst (relocation_skip reloc o wh st) in
  let nx := relocation_next skipped o wh2 st2 in
  let rels := rd_rel reloc in
  rd_rel skipped = rels
  /\ (rd_index reloc <= rd_index skipped)%nat
  /\ (forall k e, (rd_index reloc <= k < rd_index skipped)%nat ->
                  nth_error rels k = Some e -> rel_offset e < o)
  /\ (forall k e, (rd_index skipped <= k)%nat ->
                  nth_error rels k = Some e -> o <= rel_offset e)
  /\ snd nx = []
  /\ match fst (fst nx) with
     | Some e => In e rels /\ rel_invalid e = false /\ rel_offset e = o
     | None => forall k e, (rd_index reloc <= k)%nat ->
                           nth_error rels k = Some e ->
                           rel_offset e = o -> rel_invalid e = true
     end.
Proof.
  intros Hstrict Ho. cbv zeta.
  pose proof (strictly_sorted_sorted _ Hstrict) as Hsorted.
  unfold relocation_skip.
  assert (Ew : wrap64 (o - 1) = o - 1).
  { unfold wrap64, UINT64_MOD. unfold UINT64_MAX in Ho.
    apply Z.mod_small. lia. }
  rewrite Ew.
  pose proof (relocation_next_positions reloc (o - 1) wh st) as H1.
  cbv zeta in H1.
  destruct (relocation_next reloc (o - 1) wh st) as [[r1 reloc1] out1].
  cbn [fst snd] in *.
  destruct H1 as (Hrel & Hij & Hle & Hr & _).
  assert (Hafter : forall k e, (rd_index reloc1 <= k)%nat ->
                     nth_error (rd_rel reloc) k = Some e -> o <= rel_offset e).
  { intros k e Hk Hnth. destruct r1 as [e1|].
    - destruct Hr as (Hpos & Hn1 & _ & Hoff).
      pose proof (strictly_sorted_nth_error _ Hstrict (rd_index reloc1 - 1) k
                    e1 e ltac:(lia) Hn1 Hnth). lia.
    - destruct (Nat.eq_dec k (rd_index reloc1)) as [->|Hne].
      + specialize (Hr e Hnth). lia.
      + destruct (nth_error (rd_rel reloc) (rd_index reloc1)) as [e1|] eqn:E1.
        * specialize (Hr e1 eq_refl).
          pose proof (strictly_sorted_nth_error _ Hstrict (rd_index reloc1) k
                        e1 e ltac:(lia) E1 Hnth). lia.
        * apply nth_error_None in E1.
          assert ((k < length (rd_rel reloc))%nat)
            by (apply nth_error_Some; congruence).
          lia. }
  split; [exact Hrel|]. split; [exact Hij|].
  split; [intros k e Hk Hnth; specialize (Hle k e Hk Hnth); lia|].
  split; [exact Hafter|].
  pose proof (relocation_next_positions reloc1 o wh2 st2) as H2.
  pose proof (relocation_next_passed reloc1 o wh2 st2) as Hp.
  cbv zeta in H2, Hp.
  destruct (relocation_next reloc1 o wh2 st2) as [[r2 reloc2] out2].
  cbn [fst snd] in *. rewrite Hrel in *.
  destruct H2 as (Hrel2 & Hij2 & Hle2 & Hr2 & Hok & Hcnt & _).
  split.
  - assert (Hquiet : st2 <> skip_ok -> out2 = []);
      [|destruct st2; [apply Hquiet; discriminate .. | now apply Hok]].
    intros E. specialize (Hcnt E).
    rewrite filter_nil_iff in Hcnt; [now destruct out2|].
    intros e He. apply In_nth_error in He. destruct He as [k Hk].
    rewrite nth_error_firstn in Hk.
    destruct (Nat.ltb_spec k (rd_index reloc2 - rd_index reloc1));
      [|discriminate].
    rewrite nth_error_skipn in Hk.
    unfold lies_before. apply andb_false_iff. right. apply Z.ltb_ge.
    apply (Hafter (rd_index reloc1 + k)%nat); [lia | exact Hk].
  - destruct r2 as [e2|].
    + destruct Hr2 as (_ & Hn2 & Hinv & Hoff).
      split; [now apply nth_error_In in Hn2 | now split].
    + intros k e Hk Hnth Hoff.
      destruct (Nat.lt_ge_cases k (rd_index reloc1)) as [Hlt|Hge].
      * specialize (Hle k e ltac:(lia) Hnth). lia.
      * destruct (Nat.lt_ge_cases k (rd_index reloc2)) as [Hlt2|Hge2].
        -- destruct (Hp k e Hge ltac:(lia) Hnth) as [Hi|Hb]; [exact Hi | lia].
        -- destruct (Nat.eq_dec k (rd_index reloc2)) as [->|Hne].
           ++ specialize (Hr2 e Hnth). lia.
           ++ destruct (nth_error (rd_rel reloc) (rd_index reloc2))
                as [e1|] eqn:E1.
              ** specialize (Hr2 e1 eq_refl).
                 pose proof (strictly_sorted_nth_error _ Hstrict
                               (rd_index reloc2) k e1 e ltac:(lia) E1 Hnth).
                 lia.
              ** apply nth_error_None in E1.
                 assert ((k < length (rd_rel reloc))%nat)
                   by (apply nth_error_Some; congruence).
                 lia.
Qed.

(** Entries at 2, 5 and 9: skip to 5, then ask for 5. *)
Lemma relocation_skip_then_next_witness :
  let reloc := mk_reloc [mk_rel 2 0 0 1 false; mk_rel 5 0 0 1 false;
                         mk_rel 9 0 0 1 false] SHT_RELA 0 0 in
  let skipped := fst (relocation_skip reloc 5 None skip_ok) in
  let nx := relocation_next skipped 5 None skip_mismatched in
  strictly_sorted (rd_rel reloc)
  /\ snd nx = []
  /\ match fst (fst nx) with
     | Some e => In e (rd_rel reloc) /\ rel_invalid e = false
                 /\ rel_offset e = 5
     | None => forall k e, (rd_index reloc <= k)%nat ->
                           nth_error (rd_rel reloc) k = Some e ->
                           rel_offset e = 5 -> rel_invalid e = true
     end.
Proof.
  cbv zeta.
  assert (Hs : strictly_sorted
                 (rd_rel (mk_reloc [mk_rel 2 0 0 1 false; mk_rel 5 0 0 1 false;
                                    mk_rel 9 0 0 1 false] SHT_RELA 0 0)))
    by (repeat constructor; simpl; lia).
  split; [exact Hs|].
  destruct (relocation_skip_then_next _ 5 None None skip_ok skip_mismatched Hs)
    as (_ & _ & _ & _ & Hq & Hr).
  - unfold UINT64_MAX. lia.
  - split; [exact Hq | exact Hr].
Defined.

End RelocationSkipFacts.

(** ** What the sorts leave *)

Module SortFacts.
Import Diagnostics Relocation RelocationFacts Abbrev SortSpec.

Section QsortFacts.
Context {A : Type} (cmp : A -> A -> Z) (key : A -> Z).

Lemma qsort_insert_perm (x : A) (l : list A) :
  Permutation (x :: l) (qsort_insert cmp x l).
Proof.
  induction l as [|y rest IH]; simpl; [reflexivity|].
  destruct (cmp x y <=? 0); [reflexivity|].
  rewrite perm_swap. now constructor.
Qed.

Lemma qsort_perm (l : list A) : Permutation l (qsort cmp l).
Proof.
  induction l as [|x rest IH]; simpl; [constructor|].
  rewrite <- qsort_insert_perm. now constructor.
Qed.

Lemma qsort_insert_sorted (x : A) (l : list A) :
  agrees cmp key (x :: l) -> StronglySorted (by_key key) l ->
  StronglySorted (by_key key) (qsort_insert cmp x l).
Proof.
  intros Hag Hs. induction Hs as [|y rest Hs IH Hy]; simpl.
  - repeat constructor.
  - destruct (Z.leb_spec (cmp x y) 0) as [Hle|Hgt].
    + assert (Hxy : key x <= key y)
        by (apply Hag; simpl; auto).
      constructor; [now constructor|].
      constructor; [exact Hxy|].
      eapply Forall_impl; [|exact Hy]. unfold by_key. intros; lia.
    + assert (Hyx : key y <= key x).
      { destruct (Z.le_gt_cases (key x) (key y)) as [H|H]; [|lia].
        apply Hag in H; simpl; auto. lia. }
      constructor.
      * apply IH. intros a b Ha Hb. apply Hag; simpl in *; tauto.
      * apply (Permutation_Forall (qsort_insert_perm x rest)).
        constructor; [exact Hyx | exact Hy].
Qed.

Lemma qsort_sorted (l : list A) :
  agrees cmp key l -> StronglySorted (by_key key) (qsort cmp l).
Proof.
  induction l as [|x rest IH]; intros Hag; simpl; [constructor|].
  apply qsort_insert_sorted.
  - intros a b Ha Hb. apply Hag.
    + destruct Ha as [<-|Ha]; [now left|].
      right. now apply (Permutation_in _ (Permutation_sym (qsort_perm rest))).
    + destruct Hb as [<-|Hb]; [now left|].
      right. now apply (Permutation_in _ (Permutation_sym (qsort_perm rest))).
  - apply IH. intros a b Ha Hb. apply Hag; now right.
Qed.

End QsortFacts.

(** The difference of two numbers below 2^31, cut to 64 bits and then
    to [int], is their difference. *)
Lemma to_int32_difference (a b : Z) :
  0 <= a < 2 ^ 31 -> 0 <= b < 2 ^ 31 -> to_int32 (wrap64 (a - b)) = a - b.
Proof.
  intros Ha Hb. unfold to_int32, wrap32, wrap64, UINT32_MOD, UINT64_MOD.
  cbv zeta.
  destruct (Z.le_gt_cases b a) as [Hle|Hgt].
  - rewrite (Z.mod_small (a - b)) by lia.
    rewrite (Z.mod_small (a - b)) by lia.
    destruct (Z.ltb_spec (a - b) (2 ^ 31)); lia.
  - replace ((a - b) mod 2 ^ 64) with (a - b + 2 ^ 64).
    2:{ apply Z.mod_unique with (q := -1); lia. }
    replace ((a - b + 2 ^ 64) mod 2 ^ 32) with (a - b + 2 ^ 32).
    2:{ apply Z.mod_unique with (q := 2 ^ 32 - 1); lia. }
    destruct (Z.ltb_spec (a - b + 2 ^ 32) (2 ^ 31)); lia.
Qed.

(** X8.  The last step of [read_rel]: when every offset is below 2^31
    the entries come out sorted by offset, and they are the entries
    that were read. *)
Theorem read_rel_sort_small_offsets (rels : list relocation) :
  Forall (fun e => 0 <= rel_offset e < 2 ^ 31) rels ->
  sorted_by_offset (read_rel_sort rels)
  /\ Permutation rels (read_rel_sort rels).
Proof.
  intros Hsmall. split; [|apply qsort_perm].
  apply (qsort_sorted compare rel_offset). intros x y Hx Hy.
  rewrite Forall_forall in Hsmall. unfold compare.
  rewrite to_int32_difference by (apply Hsmall; assumption). lia.
Qed.

(** X9.  What [abbrev_table_load] hands back is sorted: a table all of
    whose codes are below 2^31 has them in ascending order. *)
Theorem abbrev_table_load_sorted `{MessageCategories} (ctx : ReadCtx.read_ctx)
  (chain : list abbrev_table) (out : list call) (t : abbrev_table) :
  abbrev_table_load ctx = Some (chain, out) ->
  In t chain ->
  Forall (fun a => 0 <= code a < 2 ^ 31) (abbr t) ->
  StronglySorted (fun a b => code a <= code b) (abbr t).
Proof.
  unfold abbrev_table_load.
  destruct (load_loop _ ctx _ [] false 0 []) as [[sc| |] o]; try discriminate.
  - intros E Hin Hsmall. injection E as <- <-.
    apply in_map_iff in Hin. destruct Hin as (s & <- & _).
    cbn [abbr] in *.
    apply (qsort_sorted cmp_abbrs code). intros x y Hx Hy.
    rewrite Forall_forall in Hsmall. unfold cmp_abbrs.
    rewrite to_int32_difference; [lia | |];
      apply Hsmall; eapply Permutation_in; try apply qsort_perm; assumption.
  - intros E Hin. injection E as <- <-. destruct Hin.
Qed.

(** Entries at 9, 2 and 5. *)
Lemma read_rel_sort_small_offsets_witness :
  let rels := [mk_rel 9 0 0 1 false; mk_rel 2 0 0 1 false;
               mk_rel 5 0 0 1 false] in
  Forall (fun e => 0 <= rel_offset e < 2 ^ 31) rels
  /\ sorted_by_offset (read_rel_sort rels)
  /\ Permutation rels (read_rel_sort rels).
Proof.
  cbv zeta.
  assert (Hs : Forall (fun e => 0 <= rel_offset e < 2 ^ 31)
                 [mk_rel 9 0 0 1 false; mk_rel 2 0 0 1 false;
                  mk_rel 5 0 0 1 false])
    by (repeat constructor; simpl; lia).
  split; [exact Hs | exact (read_rel_sort_small_offsets _ Hs)].
Defined.

(** The section with the abbreviations 2, 1 and 5, in this order. *)
Lemma abbrev_table_load_sorted_witness :
  let bytes := Examples.abbrev_bytes 2 ++ Examples.abbrev_bytes 1
               ++ Examples.abbrev_bytes 5 ++ [0] in
  exists t, 
    option_map (fun r => map (fun t => map code (abbr t)) (fst r))
      (abbrev_table_load (H := example_categories)
         (ReadCtx.read_ctx_init false bytes)) = Some [map code (abbr t)]
    /\ StronglySorted (fun a b => code a <= code b) (abbr t).
Proof.
  cbv zeta.
  destruct (abbrev_table_load (H := example_categories)
              (ReadCtx.read_ctx_init false
                 (Examples.abbrev_bytes 2 ++ Examples.abbrev_bytes 1
                  ++ Examples.abbrev_bytes 5 ++ [0])))
    as [[chain out]|] eqn:E; [|vm_compute in E; discriminate].
  destruct chain as [|t rest];
    [vm_compute in E; discriminate|].
  exists t.
  assert (Ht : abbrev_table_load (H := example_categories)
              (ReadCtx.read_ctx_init false
                 (Examples.abbrev_bytes 2 ++ Examples.abbrev_bytes 1
                  ++ Examples.abbrev_bytes 5 ++ [0])) = Some (t :: rest, out))
    by exact E.
  vm_compute in E. injection E as <- <- <-. split; [reflexivity|].
  apply (abbrev_table_load_sorted (H := example_categories) _ _ _ _ Ht).
  - now left.
  - repeat constructor; simpl; lia.
Defined.

End SortFacts.

(** ** References between DIEs *)

Module ReferenceFacts.
Import Diagnostics AddrRecord CU Info AddrRecordFacts InfoSpec.

Section References.
Context `{MessageCategories}.

Lemma has_addr_sorted (ar : addr_record) (addr : Z) :
  StronglySorted Z.lt ar -> (addr_record_has_addr ar addr = true <-> In addr ar).
Proof. intros Hs. apply has_addr_iff. now apply ascending_StronglySorted. Qed.

(** X10.  [check_die_references] issues one error for every reference
    whose target is not among the DIE offsets of the unit, in the order
    of the references and naming the referrer, and nothing else; it
    returns true iff every target is the offset of a DIE. *)
Theorem check_die_references_resolves (c : cu) (refs : ref_record) :
  StronglySorted Z.lt (die_addrs c) ->
  let res := check_die_references c refs in
  snd res
  = map (fun r => Error (Some (r_who r))
                        ": unresolved reference to DIE 0x%lx.")
        (filter (fun r => negb (addr_record_has_addr (die_addrs c) (r_addr r)))
                refs)
  /\ (fst res = true <-> forall r, In r refs -> In (r_addr r) (die_addrs c))
  /\ (fst res = true <-> snd res = []).
Proof.
  intros Hs. cbv zeta. induction refs as [|r rest IH]; simpl.
  - repeat split; auto. intros _ r [].
  - destruct (check_die_references c rest) as [retval out].
    destruct IH as (Eout & Hall & Hnil). simpl in *.
    destruct (addr_record_has_addr (die_addrs c) (r_addr r)) eqn:Eh; simpl.
    + apply has_addr_sorted in Eh; [|exact Hs].
      split; [exact Eout|]. split; [|exact Hnil].
      rewrite Hall. split.
      * intros Hr x [<-|Hx]; auto.
      * intros Hr x Hx. apply Hr. now right.
    + split; [now rewrite Eout|]. split; split; try discriminate.
      intros Hr. assert (Hin : In (r_addr r) (die_addrs c))
        by (apply Hr; now left).
      apply has_addr_sorted in Hin; [congruence | exact Hs].
Qed.

Lemma find_ref_cu_spec (chain : list cu) (addr : Z) :
  forall j,
    match find_ref_cu chain addr j with
    | Some k => (j <= k)%nat
                /\ exists c, nth_error chain (k - j) = Some c
                             /\ addr_record_has_addr (die_addrs c) addr = true
    | None => forall c, In c chain ->
                        addr_record_has_addr (die_addrs c) addr = false
    end.
Proof.
  induction chain as [|jt rest IH]; intros j; simpl.
  - intros c [].
  - destruct (addr_record_has_addr (die_addrs jt) addr) eqn:E.
    + split; [lia|]. exists jt. rewrite Nat.sub_diag. now split.
    + specialize (IH (S j)). destruct (find_ref_cu rest addr (S j)) as [k|].
      * destruct IH as (Hk & c & Hn & Hc). split; [lia|]. exists c.
        replace (k - j)%nat with (S (k - S j)) by lia. now split.
      * intros c [<-|Hc]; auto.
Qed.

Lemma check_global_refs_of_spec (chain : list cu) (i : nat)
  (refs : ref_record) :
  Forall (fun c => StronglySorted Z.lt (die_addrs c)) chain ->
  let res := check_global_refs_of chain i refs in
  (fst res = true <-> forall r, In r refs -> resolves chain r)
  /\ (fst res = true <-> existsb is_error (snd res) = false)
  /\ (length (snd res) <= length refs)%nat.
Proof.
  intros Hs. cbv zeta. rewrite Forall_forall in Hs.
  induction refs as [|r rest IH]; simpl.
  - repeat split; auto. intros _ r [].
  - destruct (check_global_refs_of chain i rest) as [retval out].
    destruct IH as (Hall & Herr & Hlen). simpl in *.
    pose proof (find_ref_cu_spec chain (r_addr r) 0%nat) as Hf.
    destruct (find_ref_cu chain (r_addr r) 0) as [j|].
    + destruct Hf as (_ & c & Hn & Hc).
      assert (Hres : resolves chain r).
      { exists c. apply nth_error_In in Hn. split; [exact Hn|].
        apply has_addr_sorted; auto. }
      assert (Hall' : retval = true
                      <-> (forall x, r = x \/ In x rest -> resolves chain x)).
      { rewrite Hall. split.
        - intros Hr x [<-|Hx]; auto.
        - intros Hr x Hx. apply Hr. now right. }
      destruct (j =? i)%nat; simpl; repeat split;
        try apply Hall'; try apply Herr; lia.
    + simpl. split; [|split; [|lia]]; split; try discriminate.
      intros Hr. destruct (Hr r (or_introl eq_refl)) as (c & Hc & Hin).
      apply has_addr_sorted in Hin; [|now apply Hs].
      rewrite (Hf c Hc) in Hin. discriminate.
Qed.

(** X11.  [check_global_die_references] returns true iff every
    reference of every unit of the chain has its target among the DIE
    offsets of some unit of the chain; it issues an error exactly when
    it returns false, and at most one diagnostic per reference. *)
Theorem check_global_die_references_resolves (cu_chain : list cu) :
  Forall (fun c => StronglySorted Z.lt (die_addrs c)) cu_chain ->
  let res := check_global_die_references cu_chain in
  (fst res = true
   <-> forall c r, In c cu_chain -> In r (die_refs c) -> resolves cu_chain r)
  /\ (fst res = true <-> existsb is_error (snd res) = false)
  /\ (length (snd res)
      <= length (flat_map die_refs cu_chain))%nat.
Proof.
  intros Hs. cbv zeta. unfold check_global_die_references.
  assert (G : forall its i,
             let res := check_global_refs_from cu_chain its i in
             (fst res = true
              <-> forall c r, In c its -> In r (die_refs c) ->
                              resolves cu_chain r)
             /\ (fst res = true <-> existsb is_error (snd res) = false)
             /\ (length (snd res) <= length (flat_map die_refs its))%nat).
  { induction its as [|it rest IH]; intros i; cbv zeta; simpl.
    - repeat split; auto. intros _ c r [].
    - pose proof (check_global_refs_of_spec cu_chain i (die_refs it) Hs) as H1.
      cbv zeta in H1.
      destruct (check_global_refs_of cu_chain i (die_refs it)) as [r1 o1].
      specialize (IH (S i)). cbv zeta in IH.
      destruct (check_global_refs_from cu_chain rest (S i)) as [r2 o2].
      simpl in *. destruct H1 as (A1 & B1 & C1), IH as (A2 & B2 & C2).
      rewrite existsb_app, !length_app, andb_true_iff, orb_false_iff.
      rewrite A1, A2 at 1. rewrite B1, B2.
      split; [|split; [tauto | lia]].
      split.
      + intros [Ha Hb] c r [<-|Hc] Hr; [now apply Ha | now apply (Hb c)].
      + intros Hall. split.
        * intros r Hr. apply (Hall it); auto.
        * intros c r Hc Hr. apply (Hall c); auto. }
  apply (G cu_chain 0%nat).
Qed.

End References.

(** A unit with DIEs at 0x0b and 0x14 and references to 0x14 and 0x20. *)
Lemma check_die_references_resolves_witness :
  let c := Examples.example_cu [] in
  let refs := [mk_ref 0x14 Examples.die_0b; mk_ref 0x20 Examples.die_14] in
  let res := check_die_references c refs in
  StronglySorted Z.lt (die_addrs c)
  /\ fst res = false
  /\ snd res = [Error (Some Examples.die_14)
                      ": unresolved reference to DIE 0x%lx."].
Proof.
  cbv zeta.
  assert (Hs : StronglySorted Z.lt (die_addrs (Examples.example_cu [])))
    by (repeat constructor; simpl; lia).
  split; [exact Hs|].
  destruct (check_die_references_resolves (Examples.example_cu [])
              [mk_ref 0x14 Examples.die_0b; mk_ref 0x20 Examples.die_14] Hs)
    as (Hout & _ & _).
  split; [reflexivity | exact Hout].
Defined.

(** Two units; the first refers to a DIE of the second. *)
Lemma check_global_die_references_resolves_witness :
  let c1 := mk_cu 0 0x0b 0x20 4 0 [0x0b] [mk_ref 0x2b Examples.die_0b]
                  [] [] [] (WHERE sec_info None) false false false in
  let chain := [c1; Examples.example_cu_8] in
  Forall (fun c => StronglySorted Z.lt (die_addrs c)) chain
  /\ (fst (check_global_die_references (H := example_categories) chain) = true
      <-> forall c r, In c chain -> In r (die_refs c) -> resolves chain r).
Proof.
  cbv zeta.
  assert (Hs : Forall (fun c => StronglySorted Z.lt (die_addrs c))
                 [mk_cu 0 0x0b 0x20 4 0 [0x0b] [mk_ref 0x2b Examples.die_0b]
                        [] [] [] (WHERE sec_info None) false false false;
                  Examples.example_cu_8])
    by (repeat constructor; simpl; lia).
  split; [exact Hs|].
  exact (proj1 (check_global_die_references_resolves
                  (H := example_categories) _ Hs)).
Defined.

End ReferenceFacts.

(** ** The loop over the units *)

Module UnitLoopFacts.
Import Diagnostics ReadCtx Checked AddrRecord Abbrev Relocation Dwarf Coverage
  CU LocExpr Info DiagnosticsFacts ReadCtxFacts InfoSpec.

Lemma zero_to_end_forallb (ctx : read_ctx) :
  0 <= c_ptr ctx -> zero_to_end ctx ->
  forallb (fun b => b =? 0)
          (firstn (Z.to_nat (c_end ctx - c_ptr ctx))
                  (skipn (Z.to_nat (c_ptr ctx)) (c_data ctx))) = true.
Proof.
  intros Hp Hz. apply forallb_forall. intros x Hx.
  apply In_nth_error in Hx. destruct Hx as [k Hk].
  rewrite nth_error_firstn in Hk.
  destruct (Nat.ltb_spec k (Z.to_nat (c_end ctx - c_ptr ctx))); [|discriminate].
  rewrite nth_error_skipn in Hk.
  specialize (Hz (c_ptr ctx + Z.of_nat k) ltac:(lia)).
  unfold byte_at in Hz.
  replace (Z.to_nat (c_ptr ctx + Z.of_nat k))
    with (Z.to_nat (c_ptr ctx) + k)%nat in Hz by lia.
  rewrite (nth_error_nth _ _ _ Hk) in Hz. subst x. reflexivity.
Qed.

Lemma le_value_zero (ctx : read_ctx) (n : nat) :
  forall p, (forall q, p <= q < p + Z.of_nat n -> byte_at ctx q = 0) ->
            le_value ctx p n = 0.
Proof.
  induction n as [|n IH]; intros p Hz; [reflexivity|].
  cbn [le_value]. rewrite (Hz p) by lia. rewrite IH; [reflexivity|].
  intros q Hq. apply Hz. lia.
Qed.

Lemma be_value_zero (ctx : read_ctx) (n : nat) :
  forall p, (forall q, p <= q < p + Z.of_nat n -> byte_at ctx q = 0) ->
            be_value ctx p n 0 = 0.
Proof.
  induction n as [|n IH]; intros p Hz; [reflexivity|].
  cbn [be_value]. rewrite (Hz p) by lia. simpl. apply IH.
  intros q Hq. apply Hz. lia.
Qed.

Lemma read_4ubyte_zero (ctx : read_ctx) :
  4 <= c_end ctx - c_ptr ctx -> zero_to_end ctx ->
  read_ctx_read_4ubyte ctx = Some (0, set_ptr ctx (c_ptr ctx + 4)).
Proof.
  intros Hn Hz.
  assert (E4 : read_ctx_need_data ctx 4 = true).
  { unfold read_ctx_need_data.
    destruct (Z.leb_spec 4 (c_end ctx - c_ptr ctx)); [reflexivity | lia]. }
  unfold read_ctx_read_4ubyte, read_fixed.
  change (Z.of_nat 4) with 4. rewrite E4.
  rewrite (le_value_zero ctx 4), (be_value_zero ctx 4)
    by (intros q Hq; apply Hz; lia).
  now destruct (c_big_endian ctx).
Qed.

Section Padding.
Context `{MessageCategories}.
Variable relocate_one :
  relocation_data -> relocation -> Z -> Z -> where_ -> section_id ->
  Z * option Z * list call.
Variable read_die_chain :
  read_ctx -> cu -> abbrev_table -> option (list Z) -> bool -> bool ->
  option coverage -> option relocation_data -> option cu_coverage -> die_chain.

(** X12.  Zero bytes where a unit would begin.  When all the bytes
    left in .debug_info are zero, the loop over the units stops there:
    it reports the padding (with fewer than four bytes left, all of
    them; with more than four, the bytes after the first four) and
    leaves the verdict so far as it is.  With exactly four bytes left
    it reads them as a length of zero and then stops at the assertion
    of [check_zero_padding], for no byte is left to look at.  In each
    case the unit begun for these bytes stays at the head of the
    chain. *)
Theorem info_loop_zero_padding (fuel : nat) (is_rel : bool)
  (strings : option (list Z)) (s : info_state) :
  let ctx := is_ctx s in
  let n := c_end ctx - c_ptr ctx in
  let wh := where_reset_1 (WHERE sec_info None) (read_ctx_get_offset ctx) in
  0 <= c_ptr ctx -> 1 <= n -> zero_to_end ctx ->
  info_loop relocate_one read_die_chain (S fuel) is_rel strings s
  = if n =? 4 then Some (Aborted "ctx->ptr != ctx->end")
    else
      Some (Returned
              (mk_info_state (set_ptr ctx (c_end ctx))
                 (new_cu wh :: is_cu_chain s) (is_success s)
                 (is_abbrev_chain s) (is_strings_coverage s) (is_sec s)
                 (is_cu_coverage s)
                 (is_out s
                  ++ [wr_message_padding_0 (mcs [cat_info; cat_header]) wh
                        (c_ptr ctx + (if n <? 4 then 0 else 4) - c_begin ctx)
                        (c_end ctx - c_begin ctx)]))).
Proof.
  cbv zeta. intros Hp Hn Hz.
  cbn [info_loop]. unfold read_ctx_eof.
  assert (E1 : read_ctx_need_data (is_ctx s) 1 = true).
  { unfold read_ctx_need_data. simpl.
    destruct (Z.leb_spec 1 (c_end (is_ctx s) - c_ptr (is_ctx s))); [reflexivity | lia]. }
  rewrite E1. cbn [negb].
  destruct (Z.ltb_spec (c_end (is_ctx s) - c_ptr (is_ctx s)) 4) as [Hlt|Hge].
  - (* fewer than four bytes *)
    assert (E4 : read_ctx_need_data (is_ctx s) 4 = false).
    { unfold read_ctx_need_data. simpl.
      destruct (Z.leb_spec 4 (c_end (is_ctx s) - c_ptr (is_ctx s))); [lia | reflexivity]. }
    rewrite E4. cbn [negb]. unfold check_zero_padding.
    destruct (Z.eqb_spec (c_ptr (is_ctx s)) (c_end (is_ctx s))); [lia|].
    rewrite zero_to_end_forallb by assumption.
    destruct (Z.eqb_spec (c_end (is_ctx s) - c_ptr (is_ctx s)) 4); [lia|].
    unfold stop. cbn [is_cu_chain is_abbrev_chain is_strings_coverage is_sec
                        is_cu_coverage is_out is_success].
    now rewrite Z.add_0_r.
  - assert (E4 : read_ctx_need_data (is_ctx s) 4 = true).
    { unfold read_ctx_need_data. simpl.
      destruct (Z.leb_spec 4 (c_end (is_ctx s) - c_ptr (is_ctx s))); [reflexivity | lia]. }
    rewrite E4. cbn [negb].
    rewrite read_4ubyte_zero by assumption.
    change (0 =? 0) with true. cbv iota. unfold check_zero_padding.
    cbn [c_ptr c_end set_ptr c_data c_begin].
    destruct (Z.eqb_spec (c_end (is_ctx s) - c_ptr (is_ctx s)) 4) as [E|E].
    + destruct (Z.eqb_spec (c_ptr (is_ctx s) + 4) (c_end (is_ctx s))); [|lia].
      reflexivity.
    + destruct (Z.eqb_spec (c_ptr (is_ctx s) + 4) (c_end (is_ctx s))); [lia|].
      assert (Hf := zero_to_end_forallb
                      (set_ptr (is_ctx s) (c_ptr (is_ctx s) + 4))).
      cbn [c_ptr c_end set_ptr c_data] in Hf. rewrite Hf.
      * unfold stop. reflexivity.
      * lia.
      * intros p Hq. unfold byte_at. cbn [c_ptr c_end set_ptr c_data] in *.
        apply Hz. lia.
Qed.

End Padding.

Lemma read_size_extra_advances `{MessageCategories} (ctx ctx' : read_ctx)
  (size32 size : Z) (wh : where_) (d64 : bool) (o : list call) :
  read_size_extra ctx size32 wh = (Some (size, d64, ctx'), o) ->
  advances ctx ctx'.
Proof.
  unfold read_size_extra.
  destruct (size32 =? DWARF3_LENGTH_64_BIT).
  - destruct (read_ctx_read_8ubyte ctx) as [[v c]|] eqn:E; [|discriminate].
    intros [= _ _ <- _]. now apply read_fixed_advances in E.
  - destruct (size32 >=? DWARF3_LENGTH_MIN_ESCAPE_CODE); [discriminate|].
    intros [= _ _ <- _]. apply advances_refl.
Qed.

Lemma read_skip_advances (ctx ctx' : read_ctx) (n : Z) :
  read_ctx_skip ctx n = Some ctx' ->
  c_end ctx' = c_end ctx /\ c_ptr ctx' = c_ptr ctx + n /\ 0 <= n.
Proof.
  unfold read_ctx_skip, read_ctx_need_data.
  destruct (Z.leb_spec 0 n); simpl; [|discriminate].
  destruct (n <=? c_end ctx - c_ptr ctx); [|discriminate].
  intros [= <-]. simpl. repeat split; lia.
Qed.

Lemma read_4ubyte_exact (ctx ctx' : read_ctx) (v : Z) :
  read_ctx_read_4ubyte ctx = Some (v, ctx') ->
  c_end ctx' = c_end ctx /\ c_ptr ctx' = c_ptr ctx + 4.
Proof.
  unfold read_ctx_read_4ubyte, read_fixed.
  destruct (read_ctx_need_data ctx (Z.of_nat 4)); [|discriminate].
  intros [= _ <-]. split; reflexivity.
Qed.

Section Termination.
Context `{MessageCategories}.
Variable relocate_one :
  relocation_data -> relocation -> Z -> Z -> where_ -> section_id ->
  Z * option Z * list call.
Variable read_die_chain :
  read_ctx -> cu -> abbrev_table -> option (list Z) -> bool -> bool ->
  option coverage -> option relocation_data -> option cu_coverage -> die_chain.

Lemma info_loop_returns (is_rel : bool) (strings : option (list Z)) :
  forall (fuel : nat) (s : info_state),
    Z.max 0 (c_end (is_ctx s) - c_ptr (is_ctx s)) < Z.of_nat fuel ->
    info_loop relocate_one read_die_chain fuel is_rel strings s <> None.
Proof.
  induction fuel as [|fuel IH]; intros s Hfuel; [lia|].
  cbn [info_loop].
  destruct (read_ctx_eof (is_ctx s)) eqn:Eeof; [discriminate|].
  assert (Hleft : 1 <= c_end (is_ctx s) - c_ptr (is_ctx s)).
  { unfold read_ctx_eof, read_ctx_need_data in Eeof. simpl in Eeof.
    apply negb_false_iff in Eeof. now apply Z.leb_le in Eeof. }
  unfold stop.
  repeat match goal with
         | |- Some _ <> None => discriminate
         | |- context [match ?x with _ => _ end] =>
             lazymatch x with
             | context [info_loop] => fail
             | _ => destruct x eqn:?
             end
         end.
  all: try discriminate.
  all: apply IH; cbn [is_ctx].
  all: repeat match goal with
         | E : read_ctx_read_4ubyte _ = Some _ |- _ =>
             apply read_4ubyte_exact in E; destruct E
         | E : read_size_extra _ _ _ = (Some _, _) |- _ =>
             apply read_size_extra_advances in E; destruct E
         | E : read_ctx_skip _ _ = Some _ |- _ =>
             apply read_skip_advances in E; destruct E as (? & ? & ?)
         end.
  all: lia.
Qed.

(** X13.  [check_info_structural] comes to an end on every section:
    each turn of the loop over the units takes at least the four
    bytes of a length off the section, whatever the walk over the DIEs
    of the unit does. *)
Theorem check_info_structural_returns (cfg : config)
  (big_endian is_rel : bool) (s : sec) (abbrev_chain : list abbrev_table)
  (strings : option (list Z)) (cu_cov : option cu_coverage) :
  exists res,
    check_info_structural relocate_one read_die_chain cfg big_endian is_rel s
      abbrev_chain strings cu_cov = Some res.
Proof.
  unfold check_info_structural.
  match goal with
  | |- context [info_loop _ _ ?f ?r ?st ?s0] =>
      pose proof (info_loop_returns r st f s0) as Hret;
      destruct (info_loop relocate_one read_die_chain f r st s0)
        as [[st'|msg]|]
  end.
  - eexists; reflexivity.
  - eexists; reflexivity.
  - exfalso. apply Hret; [|reflexivity].
    unfold read_ctx_init. cbn [is_ctx c_end c_ptr]. lia.
Qed.
End Termination.

(** A section of four zero bytes. *)
Lemma info_loop_zero_padding_witness :
  let s := mk_info_state (read_ctx_init false [0; 0; 0; 0]) [] true [] None
             (mk_sec sec_info [0; 0; 0; 0] (mk_reloc [] SHT_RELA 0 0))
             None [] in
  zero_to_end (is_ctx s)
  /\ info_loop (H := example_categories) Examples.example_relocate_one
       Examples.example_read_die_chain 1 false None s
     = Some (Aborted "ctx->ptr != ctx->end").
Proof.
  cbv zeta.
  assert (Hz : zero_to_end (read_ctx_init false [0; 0; 0; 0])).
  { intros p Hp. cbn [c_ptr c_end read_ctx_init length Z.of_nat] in Hp.
    assert (Hc : p = 0 \/ p = 1 \/ p = 2 \/ p = 3) by lia.
    destruct Hc as [->|[->|[->| ->]]]; reflexivity. }
  split; [exact Hz|].
  rewrite (info_loop_zero_padding (H := example_categories)); 
    [reflexivity | simpl; lia | simpl; lia | exact Hz].
Defined.

End UnitLoopFacts.

(** ** Loading the abbreviation tables *)

Module AbbrevLoadFacts.
Import Diagnostics ReadCtx Checked Dwarf Abbrev ReadCtxFacts SortSpec SortFacts
  InfoSpec AbbrevSpec.

Section Loading.
Context `{MessageCategories}.

Lemma read_attribs_closed (fuel : nat) :
  forall (s s' : attr_state) (out : list call),
    read_attribs fuel s = (Go s', out) ->
    code (as_cur s') = code (as_cur s)
    /\ tag (as_cur s') = tag (as_cur s)
    /\ exists body last,
         attribs (as_cur s') = attribs (as_cur s) ++ body ++ [last]
         /\ Forall sound_attrib body /\ null_attrib last.
Proof.
  induction fuel as [|fuel IH]; intros s s' out; [discriminate|].
  cbn [read_attribs]. cbv zeta.
  destruct (checked_read_uleb128 (as_ctx s) _) as [[[name ctx1]|] o1];
    [|discriminate].
  destruct (checked_read_uleb128 ctx1 _) as [[[form ctx2]|] o2];
    [|discriminate].
  destruct (negb ((name =? 0) && (form =? 0)) && (name >? DW_AT_hi_user))
    eqn:E1; [discriminate|].
  destruct (negb ((name =? 0) && (form =? 0)) && negb (attrib_form_valid form))
    eqn:E2; [discriminate|].
  match goal with
  | |- context [match ?x with pair _ _ => _ end] =>
      destruct x as [[[[sib lo] hi] rg] o3]
  end.
  destruct (negb ((name =? 0) && (form =? 0))) eqn:En.
  - match goal with
    | |- context [read_attribs fuel ?st] =>
        destruct (read_attribs fuel st) as [r o4] eqn:Er
    end.
    intros [= -> _]. apply IH in Er. cbn [as_cur] in Er.
    destruct Er as (Ec & Et & body & last & Ea & Hb & Hl).
    unfold add_attrib in Ec, Et, Ea. cbn [code tag attribs] in Ec, Et, Ea.
    split; [exact Ec|]. split; [exact Et|].
    match type of Ea with
    | _ = (_ ++ [?a]) ++ _ => exists (a :: body), last
    end.
    split; [rewrite Ea, <- app_assoc; reflexivity|]. split; [|exact Hl].
    constructor; [|exact Hb]. unfold sound_attrib. cbn [at_name at_form].
    simpl in E1, E2.
    apply negb_true_iff, andb_false_iff in En.
    split; [|split].
    + intros [-> ->]. destruct En; discriminate.
    + rewrite Z.gtb_ltb in E1. apply Z.ltb_ge in E1. exact E1.
    + now apply negb_false_iff in E2.
  - intros [= <- _]. cbn [as_cur]. unfold add_attrib. cbn [code tag attribs].
    split; [reflexivity|]. split; [reflexivity|].
    match goal with
    | |- exists _ _, _ ++ [?a] = _ /\ _ => exists [], a
    end.
    split; [reflexivity|]. split; [constructor|].
    apply negb_false_iff, andb_true_iff in En. destruct En as [En Ef].
    apply Z.eqb_eq in En, Ef. now split.
Qed.

Lemma read_tag_children_tag (ctx ctx' : read_ctx) (wh : where_)
  (cur cur' : abbrev) (out : list call) :
  read_tag_children ctx wh cur = (Go (ctx', cur'), out) ->
  code cur' = code cur /\ attribs cur' = attribs cur
  /\ tag cur' <= DW_TAG_hi_user.
Proof.
  unfold read_tag_children.
  destruct (checked_read_uleb128 ctx wh) as [[[t c1]|] o1]; [|discriminate].
  destruct (Z.gtb_spec t DW_TAG_hi_user); [discriminate|].
  destruct (read_ctx_read_ubyte c1) as [[ch c2]|]; [|discriminate].
  destruct (negb (ch =? DW_CHILDREN_no) && negb (ch =? DW_CHILDREN_yes));
    [discriminate|].
  intros [= _ <- _]. cbn [code tag attribs]. repeat split; auto; lia.
Qed.

Lemma read_abbr_code_nonzero (fuel : nat) :
  forall ctx wh so prev zso cr out,
    read_abbr_code fuel ctx wh so prev zso = (Go cr, out) ->
    cr_abbr_code cr <> 0 \/ read_ctx_eof (cr_ctx cr) = true.
Proof.
  induction fuel as [|fuel IH]; intros ctx wh so prev zso cr out;
    [discriminate|].
  cbn [read_abbr_code]. cbv zeta.
  destruct (checked_read_uleb128 ctx _) as [[[c ctx1]|] o1]; [|discriminate].
  destruct (Z.eqb_spec c 0) as [->|Hne]; cbn [negb].
  - destruct (read_ctx_eof ctx1) eqn:Ee; cbn [negb].
    + intros [= <- _]. right. exact Ee.
    + match goal with
      | |- context [read_abbr_code fuel ?a ?b ?c ?d ?e] =>
          destruct (read_abbr_code fuel a b c d e) as [r o] eqn:Er
      end.
      intros [= -> _]. now apply IH in Er.
  - intros [= <- _]. left. exact Hne.
Qed.

Lemma store_abbrev_sound (chain : list abbrev_table) (a : abbrev) :
  sound_chain chain -> sound_abbrev a -> sound_chain (store_abbrev chain a).
Proof.
  intros Hc Ha. destruct chain as [|t rest]; [constructor|].
  inversion Hc as [|? ? Ht Hrest]; subst. constructor; [|exact Hrest].
  cbn [abbr]. apply Forall_app. split; [exact Ht | now constructor].
Qed.

Lemma load_loop_sound (fuel : nat) :
  forall ctx wh chain so fao out chain' out',
    sound_chain chain ->
    load_loop fuel ctx wh chain so fao out = (Go chain', out') ->
    sound_chain chain'.
Proof.
  induction fuel as [|fuel IH]; intros ctx wh chain so fao out chain' out' Hc;
    [discriminate|].
  cbn [load_loop].
  destruct (read_ctx_eof ctx); [intros [= <- _]; exact Hc|].
  destruct (read_abbr_code _ ctx wh so UINT64_MAX UINT64_MAX)
    as [[cr| |] o1] eqn:Ecode; try discriminate.
  cbv zeta.
  destruct (read_ctx_eof (cr_ctx cr)) eqn:Eeof; [intros [= <- _]; exact Hc|].
  apply read_abbr_code_nonzero in Ecode.
  destruct Ecode as [Hnz|Ee]; [|congruence].
  match goal with
  | |- context [match ?x with pair _ _ => _ end] =>
      destruct x as [chain1 wh1] eqn:Ech
  end.
  assert (Hc1 : sound_chain chain1).
  { destruct (negb (cr_section_open cr)); injection Ech as <- <-; [|exact Hc].
    constructor; [constructor | exact Hc]. }
  destruct (read_tag_children _ wh1 _) as [[[ctx2 cur2]| |] o4] eqn:Etag;
    try discriminate.
  apply read_tag_children_tag in Etag. cbn [code attribs] in Etag.
  destruct Etag as (Ecd & Eat & Htag).
  destruct (read_attribs _ _) as [[s| |] o5] eqn:Eattr; try discriminate.
  apply read_attribs_closed in Eattr. cbn [as_cur] in Eattr.
  destruct Eattr as (Ec & Et & body & last & Ea & Hb & Hl).
  rewrite Eat in Ea. cbn [app] in Ea.
  apply IH.
  destruct (match chain1 with
            | [] => None
            | section :: _ => abbrev_table_find_abbrev section (cr_abbr_code cr)
            end); [exact Hc1|].
  apply store_abbrev_sound; [exact Hc1|].
  split; [congruence|]. split; [congruence|].
  exists body, last. auto.
Qed.

(** X14.  What [abbrev_table_load] hands back is fit for the walk over
    the DIEs: every abbreviation of every table has a code that is not
    0 and a tag of at most [DW_TAG_hi_user], and its attributes are
    attributes with a name of at most [DW_AT_hi_user] and a valid form,
    followed by the closing pair of zeros, which comes last and only
    there. *)
Theorem abbrev_table_load_sound (ctx : read_ctx)
  (chain : list abbrev_table) (out : list call) :
  abbrev_table_load ctx = Some (chain, out) ->
  forall t a, In t chain -> In a (abbr t) ->
    code a <> 0 /\ tag a <= DW_TAG_hi_user
    /\ exists body last,
         attribs a = body ++ [last] /\ Forall sound_attrib body
         /\ null_attrib last.
Proof.
  unfold abbrev_table_load.
  destruct (load_loop _ ctx _ [] false 0 []) as [[sc| |] o] eqn:El;
    try discriminate.
  - intros [= <- _] t a Ht Ha.
    apply load_loop_sound in El; [|constructor].
    apply in_map_iff in Ht. destruct Ht as (s & <- & Hs).
    cbn [abbr] in Ha.
    apply (Permutation_in _ (Permutation_sym (qsort_perm cmp_abbrs (abbr s))))
      in Ha.
    unfold sound_chain in El. rewrite Forall_forall in El.
    specialize (El s Hs). rewrite Forall_forall in El.
    exact (El a Ha).
  - intros [= <- _] t a [].
Qed.

End Loading.

(** The section with one abbreviation, of code 2. *)
Lemma abbrev_table_load_sound_witness :
  let ctx := read_ctx_init false (Examples.abbrev_bytes 2 ++ [0]) in
  exists chain out t a,
    abbrev_table_load (H := example_categories) ctx = Some (chain, out)
    /\ In t chain /\ In a (abbr t)
    /\ code a = 2 /\ tag a <= DW_TAG_hi_user
    /\ exists body last,
         attribs a = body ++ [last] /\ Forall sound_attrib body
         /\ null_attrib last.
Proof.
  cbv zeta.
  destruct (abbrev_table_load (H := example_categories)
              (read_ctx_init false (Examples.abbrev_bytes 2 ++ [0])))
    as [[chain out]|] eqn:E; [|vm_compute in E; discriminate].
  destruct chain as [|t rest]; [vm_compute in E; discriminate|].
  destruct (abbr t) as [|a l] eqn:Ea;
    [vm_compute in E; injection E as <- _ _; discriminate Ea|].
  exists (t :: rest), out, t, a.
  split; [reflexivity|]. split; [now left|].
  split; [rewrite Ea; now left|].
  destruct (abbrev_table_load_sound (H := example_categories) _ _ _ E t a)
    as (_ & Ht & Hattr); [now left | rewrite Ea; now left |].
  split; [|split; [exact Ht | exact Hattr]].
  vm_compute in E. injection E as <- _ _. injection Ea as <- _. reflexivity.
Defined.

Lemma took_trans (n m : Z) (a b c : read_ctx) :
  took n a b -> took m b c -> took (n + m) a c.
Proof.
  unfold took. intros (? & ? & ?) (? & ? & ?).
  repeat split; try congruence; lia.
Qed.

Lemma uleb128_loop_took (ctx : read_ctx) (avail : nat) :
  forall p shift acc v b ctx',
    uleb128_loop ctx p avail shift acc = Some (v, b, ctx') ->
    c_data ctx' = c_data ctx /\ c_end ctx' = c_end ctx
    /\ p + 1 <= c_ptr ctx' <= p + Z.of_nat avail.
Proof.
  induction avail as [|avail IH]; intros p shift acc v b ctx';
    cbn [uleb128_loop]; [discriminate|]. cbv zeta.
  destruct (Z.land (byte_at ctx p) 128 =? 0).
  - intros [= _ _ <-]. cbn [c_data c_end c_ptr set_ptr]. repeat split; lia.
  - intros Hl. apply IH in Hl. destruct Hl as (? & ? & ?).
    repeat split; auto; lia.
Qed.

Section Termination.
Context `{MessageCategories}.

Lemma checked_read_uleb128_took ctx wh v ctx' out :
  checked_read_uleb128 ctx wh = (Some (v, ctx'), out) -> took 1 ctx ctx'.
Proof.
  unfold checked_read_uleb128, read_ctx_read_uleb128.
  destruct (uleb128_loop _ _ _ _ _) as [[[v0 b] c]|] eqn:E; [|discriminate].
  intros [= _ <- _]. apply uleb128_loop_took in E.
  destruct E as (? & ? & ?). repeat split; auto; lia.
Qed.

Lemma not_eof_left (ctx : read_ctx) :
  read_ctx_eof ctx = false -> 1 <= c_end ctx - c_ptr ctx.
Proof.
  unfold read_ctx_eof, read_ctx_need_data. simpl.
  intros E. apply negb_false_iff in E. now apply Z.leb_le in E.
Qed.

Lemma read_abbr_code_returns (fuel : nat) :
  forall ctx wh so prev zso,
    left_ ctx < Z.of_nat fuel ->
    match fst (read_abbr_code fuel ctx wh so prev zso) with
    | OutOfFuel => False
    | FreeAndOut => True
    | Go cr => took 1 ctx (cr_ctx cr)
    end.
Proof.
  induction fuel as [|fuel IH]; intros ctx wh so prev zso Hf;
    [unfold left_ in Hf; lia|].
  cbn [read_abbr_code]. cbv zeta.
  destruct (checked_read_uleb128 ctx _) as [[[c ctx1]|] o1] eqn:E1;
    [|exact I].
  apply checked_read_uleb128_took in E1.
  destruct (negb (c =? 0)); [exact E1|].
  destruct (read_ctx_eof ctx1) eqn:Ee; cbn [negb]; [exact E1|].
  apply not_eof_left in Ee.
  match goal with
  | |- context [read_abbr_code fuel ?a ?b ?c ?d ?e] =>
      specialize (IH a b c d e);
      destruct (read_abbr_code fuel a b c d e) as [r o]
  end.
  cbn [fst] in *.
  assert (Hl : left_ ctx1 < Z.of_nat fuel).
  { unfold left_ in *. destruct E1 as (_ & He & Hp). lia. }
  specialize (IH Hl). destruct r; auto.
  destruct E1 as (? & ? & ?), IH as (? & ? & ?).
  repeat split; try congruence; lia.
Qed.

Lemma read_attribs_returns (fuel : nat) :
  forall s,
    left_ (as_ctx s) < Z.of_nat fuel ->
    match fst (read_attribs fuel s) with
    | OutOfFuel => False
    | FreeAndOut => True
    | Go s' => took 2 (as_ctx s) (as_ctx s')
    end.
Proof.
  induction fuel as [|fuel IH]; intros s Hf; [unfold left_ in Hf; lia|].
  cbn [read_attribs]. cbv zeta.
  destruct (checked_read_uleb128 (as_ctx s) _) as [[[name ctx1]|] o1] eqn:E1;
    [|exact I].
  destruct (checked_read_uleb128 ctx1 _) as [[[form ctx2]|] o2] eqn:E2;
    [|exact I].
  apply checked_read_uleb128_took in E1, E2.
  pose proof (took_trans _ _ _ _ _ E1 E2) as E12. change (1 + 1) with 2 in E12.
  destruct (negb ((name =? 0) && (form =? 0)) && (name >? DW_AT_hi_user));
    [exact I|].
  destruct (negb ((name =? 0) && (form =? 0)) && negb (attrib_form_valid form));
    [exact I|].
  match goal with
  | |- context [match ?x with pair _ _ => _ end] =>
      destruct x as [[[[sib lo] hi] rg] o3]
  end.
  destruct (negb ((name =? 0) && (form =? 0))); [|exact E12].
  match goal with
  | |- context [read_attribs fuel ?st] =>
      specialize (IH st); destruct (read_attribs fuel st) as [r o4]
  end.
  cbn [fst as_ctx] in *.
  assert (Hl : left_ ctx2 < Z.of_nat fuel).
  { unfold left_ in *. destruct E12 as (_ & He & Hp).
    assert (2 <= c_end (as_ctx s) - c_ptr (as_ctx s)); [|lia].
    lia. }
  specialize (IH Hl). destruct r; auto.
  destruct E12 as (? & ? & ?), IH as (? & ? & ?).
  repeat split; try congruence; lia.
Qed.

Lemma read_tag_children_took (ctx ctx' : read_ctx) (wh : where_)
  (cur cur' : abbrev) :
  fst (read_tag_children ctx wh cur) = Go (ctx', cur') -> took 2 ctx ctx'.
Proof.
  unfold read_tag_children.
  destruct (checked_read_uleb128 ctx wh) as [[[t c1]|] o1] eqn:E1;
    [|discriminate].
  apply checked_read_uleb128_took in E1.
  destruct (t >? DW_TAG_hi_user); [discriminate|].
  destruct (read_ctx_read_ubyte c1) as [[ch c2]|] eqn:E2; [|discriminate].
  destruct (negb (ch =? DW_CHILDREN_no) && negb (ch =? DW_CHILDREN_yes));
    [discriminate|].
  intros [= <- _].
  unfold read_ctx_read_ubyte, read_ctx_need_data in E2.
  destruct (Z.leb_spec 1 (c_end c1 - c_ptr c1)); simpl in E2; [|discriminate].
  injection E2 as _ <-. destruct E1 as (? & ? & ?).
  unfold took. cbn [c_data c_end c_ptr set_ptr]. repeat split; auto; lia.
Qed.

Lemma read_tag_children_returns (ctx : read_ctx) (wh : where_) (cur : abbrev) :
  fst (read_tag_children ctx wh cur) <> OutOfFuel.
Proof.
  unfold read_tag_children.
  destruct (checked_read_uleb128 ctx wh) as [[[t c1]|] o1]; [|discriminate].
  destruct (t >? DW_TAG_hi_user); [discriminate|].
  destruct (read_ctx_read_ubyte c1) as [[ch c2]|]; [|discriminate].
  destruct (negb (ch =? DW_CHILDREN_no) && negb (ch =? DW_CHILDREN_yes));
    discriminate.
Qed.

Lemma whole_took (n : Z) (ctx ctx' : read_ctx) :
  0 <= n -> whole ctx -> took n ctx ctx' -> whole ctx'.
Proof.
  unfold whole, took. intros Hn (? & ?) (Hd & ? & ?). rewrite Hd.
  split; [lia | congruence].
Qed.

Lemma whole_left (ctx : read_ctx) :
  whole ctx -> left_ ctx < Z.of_nat (S (length (c_data ctx))).
Proof. unfold whole, left_. intros (? & ?). lia. Qed.

Lemma load_loop_returns (fuel : nat) :
  forall ctx wh chain so fao out,
    whole ctx -> left_ ctx < Z.of_nat fuel ->
    fst (load_loop fuel ctx wh chain so fao out) <> OutOfFuel.
Proof.
  induction fuel as [|fuel IH]; intros ctx wh chain so fao out Hw Hf;
    [unfold left_ in Hf; lia|].
  cbn [load_loop].
  destruct (read_ctx_eof ctx) eqn:Ee0; [discriminate|].
  apply not_eof_left in Ee0.
  pose proof (read_abbr_code_returns (S (length (c_data ctx))) ctx wh so
                UINT64_MAX UINT64_MAX (whole_left _ Hw)) as Hcode.
  destruct (read_abbr_code _ ctx wh so UINT64_MAX UINT64_MAX)
    as [[cr| |] o1]; cbn [fst] in Hcode; [|discriminate|contradiction].
  cbv zeta.
  destruct (read_ctx_eof (cr_ctx cr)) eqn:Eeof; [discriminate|].
  match goal with
  | |- context [match ?x with pair _ _ => _ end] => destruct x as [chain1 wh1]
  end.
  match goal with
  | |- context [read_tag_children ?a ?b ?c] =>
      pose proof (read_tag_children_returns a b c) as Hr;
      pose proof (read_tag_children_took a) as Ht;
      specialize (Ht) ;
      destruct (read_tag_children a b c) as [[[ctx2 cur2]| |] o4] eqn:Etag
  end; cbn [fst] in Hr; [|discriminate|congruence].
  assert (Ht2 : took 2 (cr_ctx cr) ctx2).
  { eapply Ht. rewrite Etag. reflexivity. }
  pose proof (whole_took 1 _ _ ltac:(lia) Hw Hcode) as Hw1.
  pose proof (whole_took 2 _ _ ltac:(lia) Hw1 Ht2) as Hw2.
  match goal with
  | |- context [read_attribs ?f ?st] =>
      pose proof (read_attribs_returns f st (whole_left _ Hw2)) as Ha;
      destruct (read_attribs f st) as [[s| |] o5]
  end; cbn [fst as_ctx] in Ha; [|discriminate|contradiction].
  apply IH.
  - eapply whole_took; [|exact Hw2|exact Ha]. lia.
  - unfold left_ in *. destruct Hcode as (_ & ? & ?), Ht2 as (_ & ? & ?),
      Ha as (_ & ? & ?). lia.
Qed.

(** X15.  [abbrev_table_load] comes to an end on every section: the
    loop over the abbreviations, the loop over the codes that are zero
    and the loop over the attributes each take at least one byte off
    the section at every turn. *)
Theorem abbrev_table_load_returns (big_endian : bool) (data : list Z) :
  exists chain out,
    abbrev_table_load (read_ctx_init big_endian data) = Some (chain, out).
Proof.
  unfold abbrev_table_load.
  match goal with
  | |- context [load_loop ?f ?c ?w ?ch ?so ?fa ?o] =>
      pose proof (load_loop_returns f c w ch so fa o) as Hr;
      destruct (load_loop f c w ch so fa o) as [[sc| |] out]
  end.
  - eexists _, _. reflexivity.
  - eexists _, _. reflexivity.
  - exfalso. apply Hr; [| |reflexivity].
    + unfold whole, read_ctx_init. cbn [c_ptr c_end c_data]. lia.
    + unfold left_, read_ctx_init. cbn [c_ptr c_end c_data]. lia.
Qed.

End Termination.

End AbbrevLoadFacts.

(** ** The pass over the tables of public names *)

Module PubFacts.
Import Diagnostics ReadCtx Checked AddrRecord Relocation Dwarf CU Info Pub
  ReadCtxFacts InfoSpec UnitLoopFacts PubSpec.

Lemma set_has_twice (id : section_id) (c : cu) :
  set_has id (set_has id c) = set_has id c.
Proof. unfold set_has. destruct (section_id_eqb id sec_pubnames); reflexivity. Qed.

Lemma marked_refl (id : section_id) (chain : list cu) :
  Forall2 (marked id) chain chain.
Proof. induction chain; constructor; auto. now left. Qed.

Lemma marked_trans (id : section_id) (a b c : list cu) :
  Forall2 (marked id) a b -> Forall2 (marked id) b c -> Forall2 (marked id) a c.
Proof.
  intros Hab. revert c. induction Hab as [|x y l l' Hxy Hl IH]; intros c Hbc.
  - inversion Hbc. constructor.
  - inversion Hbc as [|? z ? l'' Hyz Hl']; subst. constructor; [|now apply IH].
    destruct Hxy as [->| ->], Hyz as [->| ->]; unfold marked; auto.
    right. apply set_has_twice.
Qed.

Lemma mark_cu_marked (id : section_id) (chain : list cu) (offset : Z) :
  Forall2 (marked id) chain (mark_cu id chain offset).
Proof.
  induction chain as [|it rest IH]; simpl; [constructor|].
  destruct (cu_offset it =? offset).
  - constructor; [now right | apply marked_refl].
  - constructor; [now left | exact IH].
Qed.

Lemma read_name_took (avail : nat) :
  forall ctx ctx', read_name avail ctx = Some ctx' ->
                   c_end ctx' = c_end ctx /\ c_ptr ctx + 1 <= c_ptr ctx'.
Proof.
  induction avail as [|avail IH]; intros ctx ctx'; simpl; [discriminate|].
  destruct (read_ctx_read_ubyte ctx) as [[c ctx1]|] eqn:E; [|discriminate].
  apply read_ubyte_advances in E. destruct E as [He Hp].
  destruct (c =? 0).
  - intros [= <-]. split; [exact He | lia].
  - intros Hn. apply IH in Hn. destruct Hn. split; [congruence | lia].
Qed.

Section PubPass.
Context `{MessageCategories}.
Variable relocate_one :
  relocation_data -> relocation -> Z -> Z -> where_ -> section_id ->
  Z * option Z * list call.

Lemma records_loop_returns (fuel : nat) :
  forall dwarf_64 c ctx_begin wh sub_ctx,
    left_ sub_ctx < Z.of_nat fuel ->
    exists re, records_loop fuel dwarf_64 c ctx_begin wh sub_ctx = Some re
               /\ (re_ctx re = None -> re_out re <> []).
Proof.
  induction fuel as [|fuel IH]; intros dwarf_64 c ctx_begin wh sub_ctx Hf;
    [unfold left_ in Hf; lia|].
  cbn [records_loop].
  destruct (read_ctx_eof sub_ctx) eqn:Ee;
    [eexists; split; [reflexivity | discriminate]|].
  cbv zeta.
  destruct (read_ctx_read_offset sub_ctx dwarf_64) as [[offset ctx1]|] eqn:E1;
    [|eexists; split; [reflexivity | discriminate]].
  apply read_offset_advances in E1. destruct E1 as [He1 Hp1].
  destruct (offset =? 0); [eexists; split; [reflexivity | discriminate]|].
  match goal with
  | |- context [if ?b then _ else _] => destruct b
  end; [eexists; split; [reflexivity | discriminate]|].
  destruct (read_name _ ctx1) as [ctx2|] eqn:E2;
    [|eexists; split; [reflexivity | discriminate]].
  apply read_name_took in E2. destruct E2 as [He2 Hp2].
  apply IH. unfold left_ in *.
  unfold read_ctx_eof, read_ctx_need_data in Ee. simpl in Ee.
  apply negb_false_iff, Z.leb_le in Ee. lia.
Qed.

Lemma supported_version_out (version : Z) (supported : list Z) (wh : where_) :
  fst (supported_version version supported wh) = false ->
  snd (supported_version version supported wh) <> [].
Proof.
  unfold supported_version. destruct (existsb _ _); simpl; discriminate.
Qed.

Lemma check_set_spec (is_rel : bool) (id : section_id) (dwarf_64 : bool)
  (size ctx_begin : Z) (wh : where_) (rel : relocation_data)
  (cu_chain : list cu) (sub_ctx : read_ctx) :
  exists sr,
    check_set relocate_one is_rel id dwarf_64 size ctx_begin wh rel cu_chain
              sub_ctx = Some (Returned sr)
    /\ (sr_ok sr = false -> sr_out sr <> [])
    /\ Forall2 (marked id) cu_chain (sr_chain sr).
Proof.
  unfold check_set.
  assert (Hne : forall (a : list call) (c : call), a ++ [c] <> [])
    by (intros a c E; now apply app_eq_nil in E).
  destruct (read_ctx_read_2ubyte sub_ctx) as [[version ctx1]|];
    [|eexists; split; [reflexivity|]; split;
      [discriminate | apply marked_refl]].
  pose proof (supported_version_out version [2] wh) as Hv.
  destruct (supported_version version [2] wh) as [ok o1]. cbn [fst snd] in Hv.
  destruct ok; cbn [negb];
    [|eexists; split; [reflexivity|]; split;
      [intros _; now apply Hv | apply marked_refl]].
  destruct (read_ctx_read_offset ctx1 dwarf_64) as [[cu_off ctx2]|];
    [|eexists; split; [reflexivity|]; split;
      [intros _; apply Hne | apply marked_refl]].
  destruct (relocation_next rel _ _ _) as [[r rel1] o2].
  match goal with
  | |- context [match ?x with pair _ _ => _ end] =>
      destruct x as [cu_off' o3]
  end.
  set (cu := match cu_chain with [] => None | _ => cu_find_cu cu_chain cu_off' end).
  match goal with
  | |- context [match ?x with pair _ _ => _ end] =>
      destruct x as [[wh1 chain1] o5] eqn:Emark
  end.
  assert (Hm : Forall2 (marked id) cu_chain chain1).
  { destruct cu as [c|].
    - destruct (get_has id c); injection Emark as <- <- <-;
        [apply marked_refl | apply mark_cu_marked].
    - injection Emark as <- <- <-. apply marked_refl. }
  destruct (read_ctx_read_offset ctx2 dwarf_64) as [[cu_len ctx3]|];
    [|eexists; split; [reflexivity|]; split; [intros _; apply Hne | exact Hm]].
  match goal with
  | |- context [if ?b then _ else _] => destruct b
  end; [eexists; split; [reflexivity|]; split; [intros _; apply Hne | exact Hm]|].
  destruct (records_loop_returns
              (S (Z.to_nat (c_end ctx3 - c_ptr ctx3))) dwarf_64 cu ctx_begin
              wh1 ctx3) as (re & Ere & Hre);
    [unfold left_; lia|].
  rewrite Ere.
  destruct (re_ctx re) as [ctx4|].
  - destruct (c_ptr ctx4 =? c_end ctx4) eqn:Eg; cbn [negb].
    + eexists; split; [reflexivity|]. split; [discriminate | exact Hm].
    + unfold check_zero_padding. rewrite Eg.
      destruct (forallb _ _).
      * eexists; split; [reflexivity|]. split; [discriminate | exact Hm].
      * eexists; split; [reflexivity|]. split; [|exact Hm].
        intros _. rewrite !app_assoc. apply Hne.
  - eexists; split; [reflexivity|]. split; [|exact Hm].
    intros _ E. apply app_eq_nil in E. destruct E as [_ E]. now apply Hre.
Qed.

Lemma pub_loop_spec (fuel : nat) (is_rel : bool) :
  forall ctx s cu_chain retval out,
    left_ ctx < Z.of_nat fuel ->
    (retval = false -> out <> []) ->
    exists res,
      pub_loop relocate_one fuel is_rel ctx s cu_chain retval out
      = Some (Returned res)
      /\ (pb_retval res = false -> pb_out res <> [])
      /\ Forall2 (marked (sec_id s)) cu_chain (pb_chain res)
      /\ (exists rd, pb_sec res = set_rel s rd)
      /\ (pb_retval res = true -> retval = true).
Proof.
  induction fuel as [|fuel IH]; intros ctx s cu_chain retval out Hf Hout;
    [unfold left_ in Hf; lia|].
  assert (Hne : forall (a b : list call), b <> [] -> a ++ b <> []).
  { intros a b Hb E. apply app_eq_nil in E. now destruct E. }
  assert (Hne1 : forall (a : list call) (c : call), a ++ [c] <> [])
    by (intros a c; apply Hne; discriminate).
  assert (Hsame : forall s0 : sec, exists rd, s0 = set_rel s0 rd)
    by (intros [i d r]; exists r; reflexivity).
  cbn [pub_loop].
  destruct (read_ctx_eof ctx) eqn:Ee.
  { destruct retval.
    - unfold relocation_skip_rest.
      destruct (relocation_next _ _ _ _) as [[x r1] o].
      eexists; split; [reflexivity|]. cbn [pb_retval pb_out pb_chain pb_sec].
      split; [discriminate|]. split; [apply marked_refl|].
      split; [eexists; reflexivity | reflexivity].
    - eexists; split; [reflexivity|]. cbn [pb_retval pb_out pb_chain pb_sec].
      split; [intros _; rewrite app_nil_r; now apply Hout|].
      split; [apply marked_refl|]. split; [apply Hsame | discriminate]. }
  cbv zeta.
  destruct (read_ctx_read_4ubyte ctx) as [[size32 ctx1]|] eqn:E1.
  2:{ eexists; split; [reflexivity|]. cbn [pb_retval pb_out pb_chain pb_sec].
      split; [intros _; apply Hne1|].
      split; [apply marked_refl|]. split; [apply Hsame | discriminate]. }
  apply read_4ubyte_exact in E1. destruct E1 as [He1 Hp1].
  destruct (read_size_extra ctx1 size32 _) as [[[[size d64] ctx2]|] o0] eqn:E2.
  2:{ eexists; split; [reflexivity|]. cbn [pb_retval pb_out pb_chain pb_sec].
      split; [|split; [apply marked_refl|]; split; [apply Hsame | discriminate]].
      intros _. apply Hne. intros ->.
      unfold read_size_extra in E2.
      destruct (size32 =? DWARF3_LENGTH_64_BIT).
      - destruct (read_ctx_read_8ubyte ctx1) as [[? ?]|]; discriminate.
      - destruct (size32 >=? DWARF3_LENGTH_MIN_ESCAPE_CODE); discriminate. }
  apply read_size_extra_advances in E2. destruct E2 as [He2 Hp2].
  destruct (read_ctx_init_sub ctx2 _ _) as [sub|].
  2:{ eexists; split; [reflexivity|]. cbn [pb_retval pb_out pb_chain pb_sec].
      split; [intros _; apply Hne, Hne1|].
      split; [apply marked_refl|]. split; [apply Hsame | discriminate]. }
  destruct (check_set_spec is_rel (sec_id s) d64 size (c_begin ctx2)
              (where_reset_1 (WHERE (sec_id s) None) (read_ctx_get_offset ctx))
              (sec_rel_data s) cu_chain (set_ptr sub (c_ptr ctx2)))
    as (sr & Er & Hok & Hm).
  rewrite Er.
  destruct (read_ctx_skip ctx2 size) as [ctx3|] eqn:E3.
  - apply read_skip_advances in E3. destruct E3 as (He3 & Hp3 & Hs3).
    destruct (IH ctx3 (set_rel s (sr_rel sr)) (sr_chain sr)
                 (retval && sr_ok sr) (out ++ o0 ++ sr_out sr))
      as (res & Er2 & Hr2).
    + unfold left_ in *.
      unfold read_ctx_eof, read_ctx_need_data in Ee. simpl in Ee.
      apply negb_false_iff, Z.leb_le in Ee. lia.
    + intros Hf2 E. apply app_eq_nil in E. destruct E as [Eo E].
      apply app_eq_nil in E. destruct E as [_ Es].
      apply andb_false_iff in Hf2. destruct Hf2 as [Hf2|Hf2].
      * now apply Hout.
      * now apply Hok.
    + exists res. split; [exact Er2|].
      cbn [sec_id set_rel] in Hr2. destruct Hr2 as (A & B & C & D).
      split; [exact A|]. split; [eapply marked_trans; eassumption|].
      split; [destruct C as [rd ->]; exists rd; reflexivity|].
      intros Ht. specialize (D Ht). now apply andb_true_iff in D.
  - eexists; split; [reflexivity|]. cbn [pb_retval pb_out pb_chain pb_sec].
    split; [intros _; apply Hne, Hne, Hne1|].
    split; [exact Hm|]. split; [eexists; reflexivity | discriminate].
Qed.


(** X17.  All [check_pub_structural] changes in the chain of units
    is the mark of the section: every unit is handed back as it was,
    or as it was but for [has_pubnames] (for .debug_pubnames) or
    [has_pubtypes] (otherwise) now being set. *)
Theorem check_pub_structural_marks (big_endian is_rel : bool) (s : sec)
  (cu_chain : list cu) :
  match check_pub_structural relocate_one big_endian is_rel s cu_chain with
  | Some (Returned res) =>
      Forall2 (fun c c' => c' = c \/ c' = set_has (sec_id s) c)
              cu_chain (pb_chain res)
  | _ => True
  end.
Proof.
  unfold check_pub_structural.
  destruct (pub_loop_spec (S (length (sec_data s))) is_rel
              (read_ctx_init big_endian (sec_data s)) s cu_chain true [])
    as (res & E & _ & Hm & _).
  - unfold left_, read_ctx_init. cbn [c_end c_ptr]. lia.
  - discriminate.
  - rewrite E. exact Hm.
Qed.

End PubPass.

End PubFacts.

(** ** The pass over the location lists and the range lists *)

Module ListPassFacts.
Import Diagnostics ReadCtx Checked AddrRecord Relocation Dwarf Coverage CU
  LocExpr LocRange ReadCtxFacts LocRangeFacts.

Section ListPass.
Context `{MessageCategories}.
Variable table : Z -> option (Z * Z).
Variable relocate_one :
  relocation_data -> relocation -> Z -> Z -> where_ -> section_id ->
  Z * option Z * list call.
Variable uninit : Z.

Lemma check_loc_or_range_ref_returns (parent_ctx : read_ctx) (c : cu)
  (s : sec) (cov : coverage) (cu_cov : option coverage) (addr : Z)
  (addr_64 : bool) (wh : where_) (cat : category) :
  exists res,
    check_loc_or_range_ref table relocate_one uninit parent_ctx c s cov cu_cov
                           addr addr_64 wh cat = Some res.
Proof.
  unfold check_loc_or_range_ref.
  repeat match goal with
         | |- context [if negb ?b then _ else _] =>
             destruct (negb b); [eexists; reflexivity|]
         end.
  destruct (read_ctx_skip _ addr) as [ctx|] eqn:Es; [|eexists; reflexivity].
  unfold read_ctx_skip, read_ctx_need_data, read_ctx_init in Es.
  cbn [c_end c_ptr] in Es.
  destruct (Z.leb_spec 0 addr); simpl in Es; [|discriminate].
  destruct (Z.leb_spec addr (Z.of_nat (length (c_data parent_ctx)) - 0));
    [|discriminate].
  injection Es as <-.
  match goal with
  | |- context [ref_loop _ _ _ ?f ?i ?ct ?a ?w ?st] =>
      destruct (ref_loop_ends table relocate_one uninit f i ct a w st st)
        as (res & E & _)
  end.
  - apply grows_refl.
  - cbn [rs_ctx c_end c_ptr set_ptr]. lia.
  - exists res. exact E.
Qed.
Lemma refs_loop_returns (refs : list ref_cu) :
  forall i ctx cat s,
    exists r, refs_loop table relocate_one uninit refs i ctx cat s = Some r.
Proof.
  induction refs as [|r rest IH]; intros i ctx cat s; cbn [refs_loop];
    [eexists; reflexivity|]. cbv zeta.
  destruct ((0 <? i)%nat && _); [apply IH|].
  match goal with
  | |- context [match ?x with pair _ _ => _ end] => destruct x as [rel o1]
  end.
  match goal with
  | |- context [check_loc_or_range_ref _ _ _ ?p ?c ?se ?cv ?cc ?a ?a64 ?w ?ct] =>
      destruct (check_loc_or_range_ref_returns p c se cv cc a a64 w ct)
        as [res ->]
  end.
  destruct (rr_outcome res); [apply IH | eexists; reflexivity].
Qed.

(** X18.  [check_loc_or_range_structural] comes to an end on every
    section and every chain of units: each entry of a list takes at
    least the two addresses off the section, and each reference is
    looked at once.  When it returns true the flag [need_ranges] of
    the CU coverage is cleared. *)
Theorem check_loc_or_range_structural_returns (big_endian : bool) (s : sec)
  (cu_chain : list cu) (cu_cov : option cu_coverage) :
  exists res,
    check_loc_or_range_structural table relocate_one uninit big_endian s
                                  cu_chain cu_cov = Some res
    /\ (pr_outcome res = Returned true ->
        forall cc, pr_cu_coverage res = Some cc -> need_ranges cc = false).
Proof.
  unfold check_loc_or_range_structural.
  destruct (negb _); [eexists; split; [reflexivity | discriminate]|].
  destruct cu_chain as [|first_cu rest];
    [eexists; split; [reflexivity | discriminate]|].
  cbv zeta.
  match goal with
  | |- context [refs_loop _ _ _ ?r ?i ?c ?ct ?st] =>
      destruct (refs_loop_returns r i c ct st) as [[[msg|] st'] ->]
  end; [eexists; split; [reflexivity | discriminate]|].
  destruct (ps_retval st') eqn:Er.
  - destruct (relocation_skip_rest (ps_sec st')) as [sec1 o1].
    eexists; split; [reflexivity|]. cbn [pr_outcome pr_cu_coverage].
    intros _ cc. destruct (ps_cu_coverage st'); [|discriminate].
    intros [= <-]. reflexivity.
  - eexists; split; [reflexivity|]. cbn [pr_outcome]. discriminate.
Qed.

(** X19.  The bounds of a reference into .debug_loc or .debug_ranges.
    A target past the end of the section is refused with one error
    and nothing else is done.  A target that is the end of the section
    itself is taken for an empty list: nothing is read or recorded, no
    relocation is consumed, and the verdict depends only on whether
    the coverage already holds that byte. *)
Theorem check_loc_or_range_ref_bounds (parent_ctx : read_ctx) (c : cu)
  (s : sec) (cov : coverage) (cu_cov : option coverage) (addr : Z)
  (addr_64 : bool) (wh : where_) (cat : category) :
  (sec_id s = sec_loc /\ cat = cat_loc
   \/ sec_id s = sec_ranges /\ cat = cat_ranges) ->
  let size := Z.of_nat (length (c_data parent_ctx)) in
  let res := check_loc_or_range_ref table relocate_one uninit parent_ctx c s
               cov cu_cov addr addr_64 wh cat in
  (size < addr ->
   res = Some (mk_ref_result (Returned false) (sec_rel_data s) cov cu_cov
                 [Error (Some wh)
                    ": invalid reference outside the section %#lx, size only %#tx."]))
  /\ (addr = size ->
      res = Some (mk_ref_result
                    (Returned (negb (coverage_is_covered cov addr 1)))
                    (sec_rel_data s) cov cu_cov
                    (if coverage_is_covered cov addr 1
                     then [Error (Some wh)
                             ": reference to %#lx points into another location or range list."]
                     else []))).
Proof.
  intros Hid. cbv zeta. unfold check_loc_or_range_ref.
  assert (Ea : negb (section_id_eqb (sec_id s) sec_loc
                     || section_id_eqb (sec_id s) sec_ranges) = false)
    by (destruct Hid as [[-> _]|[-> _]]; reflexivity).
  assert (Eb : negb (category_eqb cat cat_loc || category_eqb cat cat_ranges)
               = false)
    by (destruct Hid as [[_ ->]|[_ ->]]; reflexivity).
  assert (Ec : negb (Bool.eqb (section_id_eqb (sec_id s) sec_loc)
                              (category_eqb cat cat_loc)) = false)
    by (destruct Hid as [[-> ->]|[-> ->]]; reflexivity).
  rewrite Ea, Eb, Ec.
  unfold read_ctx_skip, read_ctx_need_data, read_ctx_init.
  cbn [c_end c_ptr]. rewrite Z.sub_0_r. split.
  - intros Hout.
    destruct (Z.leb_spec 0 addr), (Z.leb_spec addr (Z.of_nat (length (c_data parent_ctx))));
      cbn [andb]; try reflexivity; lia.
  - intros ->.
    destruct (Z.leb_spec 0 (Z.of_nat (length (c_data parent_ctx)))); [|lia].
    rewrite Z.leb_refl. cbn [andb].
    cbn [ref_loop]. unfold read_ctx_eof, read_ctx_need_data.
    cbn [rs_ctx c_end c_ptr set_ptr]. rewrite Z.sub_diag.
    cbn [Z.leb andb negb Z.compare]. unfold ref_return.
    cbn [rs_rel rs_coverage rs_cu_coverage rs_out rs_retval].
    now rewrite app_nil_r.
Qed.

End ListPass.


(** A reference to the end of a .debug_ranges section of eight bytes,
    and one beyond it. *)
Lemma check_loc_or_range_ref_bounds_witness :
  let s := Examples.example_ranges (repeat 0 8) in
  let ctx := read_ctx_init false (repeat 0 8) in
  let check addr :=
    check_loc_or_range_ref (H := example_categories)
      Examples.example_opcode_operands Examples.example_relocate_one 0
      ctx (Examples.example_cu []) s [] None addr false Examples.die_0b
      cat_ranges in
  check 8 = Some (mk_ref_result (Returned true) (sec_rel_data s) [] None [])
  /\ check 9
     = Some (mk_ref_result (Returned false) (sec_rel_data s) [] None
               [Error (Some Examples.die_0b)
                  ": invalid reference outside the section %#lx, size only %#tx."]).
Proof.
  cbv zeta.
  pose proof (check_loc_or_range_ref_bounds (H := example_categories)
                Examples.example_opcode_operands Examples.example_relocate_one
                0 (read_ctx_init false (repeat 0 8)) (Examples.example_cu [])
                (Examples.example_ranges (repeat 0 8)) [] None) as B.
  split.
  - destruct (B 8 false Examples.die_0b cat_ranges) as [_ H8];
      [right; split; reflexivity|]. exact (H8 eq_refl).
  - destruct (B 9 false Examples.die_0b cat_ranges) as [H9 _];
      [right; split; reflexivity|]. apply H9. simpl. lia.
Defined.

End ListPassFacts.
(** ** Reading a relocation section *)

Module ReadRelFacts.
Import Diagnostics ReadCtx Relocation ReadRel ReadRelSpec.

Section Reading.
Context `{MessageCategories}.
Variable ebl_reloc_simple_type : Z -> Elf_Type.
Variable gelf_getrela : Z -> option GElf_Rela.
Variable gelf_getrel : Z -> option GElf_Rel.
Variable GELF_R_TYPE : Z -> Z.
Variable GELF_R_SYM : Z -> Z.
Variable stray : Z -> Z -> Z.




(** X27.  The range test of [read_rel] on a record of a four- or
    eight-byte type (offsets that do not wrap): a datum that ends
    before the last byte of the section is accepted, with the addend
    of the record (RELA) or the bytes it relocates (REL) as addend; a
    datum that ends with the last byte of the section, or beyond, is
    refused with one error and marked invalid. *)
Theorem read_entry_range (big_endian : bool) (s : sec) (i : Z)
  (rela : GElf_Rela) (width : Z) :
  get_rel_or_rela gelf_getrela gelf_getrel i (rd_type (sec_rel_data s))
  = Some rela ->
  GELF_R_TYPE (r_info rela) <> 0 ->
  width_of (ebl_reloc_simple_type (GELF_R_TYPE (r_info rela))) = Some width ->
  0 <= r_offset rela ->
  r_offset rela + width < UINT64_MOD ->
  let res := read_entry ebl_reloc_simple_type gelf_getrela gelf_getrel
                        GELF_R_TYPE GELF_R_SYM stray big_endian s i in
  if r_offset rela + width <? Z.of_nat (length (sec_data s))
  then rel_invalid (fst res) = false
       /\ rel_offset (fst res) = r_offset rela
       /\ rel_addend (fst res)
          = match rd_type (sec_rel_data s) with
            | SHT_RELA => r_addend rela
            | SHT_REL =>
                let ctx := read_ctx_init big_endian (sec_data s) in
                if big_endian
                then be_value ctx (r_offset rela) (Z.to_nat width) 0
                else le_value ctx (r_offset rela) (Z.to_nat width)
            end
  else rel_invalid (fst res) = true
       /\ exists wh,
           snd res
           = [Error (Some wh)
                ": relocation doesn't fall into relocated section."].
Proof.
  intros Hrec Htype Hw Hoff Hwrap. cbv zeta. unfold read_entry. cbv zeta.
  rewrite Hrec. apply Z.eqb_neq in Htype. rewrite Htype. cbn [rel_offset].
  assert (Hwidth : width = 4 \/ width = 8).
  { destruct (ebl_reloc_simple_type _); try discriminate;
      injection Hw as <-; auto. }
  assert (Eo : outside_section s (r_offset rela) width
               = negb (r_offset rela + width
                       <? Z.of_nat (length (sec_data s)))).
  { unfold outside_section, wrap64. rewrite Z.mod_small by lia.
    rewrite Z.leb_antisym. reflexivity. }
  assert (Er : (r_offset rela + width <? Z.of_nat (length (sec_data s)))
               = true
               -> read_unaligned stray big_endian s (r_offset rela) width
                  = (let ctx := read_ctx_init big_endian (sec_data s) in
                     if big_endian
                     then be_value ctx (r_offset rela) (Z.to_nat width) 0
                     else le_value ctx (r_offset rela) (Z.to_nat width))).
  { intros Hlt. apply Z.ltb_lt in Hlt. unfold read_unaligned.
    destruct (Z.leb_spec 0 (r_offset rela)); [|lia].
    destruct (Z.leb_spec (r_offset rela + width)
                         (Z.of_nat (length (sec_data s)))); [|lia].
    reflexivity. }
  destruct (ebl_reloc_simple_type (GELF_R_TYPE (r_info rela)));
    try discriminate; injection Hw as <-; rewrite Eo;
    (destruct (_ <? _); cbn [negb];
     [destruct (rd_type (sec_rel_data s)); cbn [fst];
      (split; [reflexivity|]; split; [reflexivity|]);
      [now rewrite Er | reflexivity]
     |split; [reflexivity | eexists; reflexivity]]).
Qed.

End Reading.

(** The record for the last four bytes of a section of eight. *)
Lemma read_entry_range_witness :
  let res := read_entry (H := example_categories) (fun _ => ELF_T_WORD)
                        (fun _ => None) sample_getrel (fun info => info)
                        (fun _ => 0) (fun _ _ => 0) false sample_sec 0 in
  get_rel_or_rela (fun _ => None) sample_getrel 0
                  (rd_type (sec_rel_data sample_sec))
  = Some (mk_rela 4 1 0)
  /\ 1 <> 0
  /\ width_of ELF_T_WORD = Some 4
  /\ 0 <= 4
  /\ 4 + 4 < UINT64_MOD
  /\ rel_invalid (fst res) = true
  /\ exists wh,
      snd res
      = [Error (Some wh) ": relocation doesn't fall into relocated section."].
Proof.
  cbv zeta.
  split; [reflexivity|]. split; [discriminate|]. split; [reflexivity|].
  split; [lia|]. split; [reflexivity|].
  assert (H1 : 1 <> 0) by discriminate.
  assert (H2 : 0 <= 4) by lia.
  exact (read_entry_range (H := example_categories) (fun _ => ELF_T_WORD)
           (fun _ => None) sample_getrel (fun info => info) (fun _ => 0)
           (fun _ _ => 0) false sample_sec 0 (mk_rela 4 1 0) 4
           eq_refl H1 eq_refl H2 eq_refl).
Defined.

End ReadRelFacts.
(** ** The walk over the DIEs of a unit *)

Module DieChainFacts.
Import Diagnostics ReadCtx Checked AddrRecord Abbrev Relocation Dwarf Coverage
  CU LocExpr DieChain InfoSpec DieChainSpec.

(** *** The cursor *)

Lemma forward_refl (ctx : read_ctx) : forward ctx ctx.
Proof. repeat split; auto; lia. Qed.

Lemma forward_trans (a b c : read_ctx) :
  forward a b -> forward b c -> forward a c.
Proof.
  unfold forward. intros (D1 & B1 & E1 & P1 & I1) (D2 & B2 & E2 & P2 & I2).
  repeat split; try congruence; lia.
Qed.

Lemma moves_forward (n : Z) (ctx ctx' : read_ctx) :
  0 <= n -> moves n ctx ctx' -> forward ctx ctx'.
Proof.
  unfold moves, forward. intros Hn (D & B & E & P). repeat split; auto; lia.
Qed.

Lemma read_ubyte_moves (ctx ctx' : read_ctx) (v : Z) :
  read_ctx_read_ubyte ctx = Some (v, ctx') ->
  moves 1 ctx ctx' /\ v = byte_at ctx (c_ptr ctx).
Proof.
  unfold read_ctx_read_ubyte, read_ctx_need_data.
  destruct (Z.leb_spec 0 1); [|lia].
  destruct (Z.leb_spec 1 (c_end ctx - c_ptr ctx)); simpl; [|discriminate].
  intros [= <- <-]. unfold moves. simpl. repeat split; auto; lia.
Qed.

Lemma read_fixed_moves (ctx ctx' : read_ctx) (n : nat) (v : Z) :
  read_fixed ctx n = Some (v, ctx') ->
  moves (Z.of_nat n) ctx ctx'
  /\ v = (if c_big_endian ctx then be_value ctx (c_ptr ctx) n 0
          else le_value ctx (c_ptr ctx) n).
Proof.
  unfold read_fixed, read_ctx_need_data.
  destruct (Z.leb_spec 0 (Z.of_nat n)); [|lia].
  destruct (Z.leb_spec (Z.of_nat n) (c_end ctx - c_ptr ctx)); simpl;
    [|discriminate].
  intros [= <- <-]. unfold moves. simpl. repeat split; auto; lia.
Qed.

Lemma moves_weaken (n m : Z) (ctx ctx' : read_ctx) :
  m <= n -> moves n ctx ctx' -> moves m ctx ctx'.
Proof. unfold moves. intros Hm (D & B & E & P). repeat split; auto; lia. Qed.

Lemma read_offset_moves (ctx ctx' : read_ctx) (is_64 : bool) (v : Z) :
  read_ctx_read_offset ctx is_64 = Some (v, ctx') -> moves 1 ctx ctx'.
Proof.
  unfold read_ctx_read_offset, read_ctx_read_8ubyte, read_ctx_read_4ubyte.
  destruct is_64; intros E; apply read_fixed_moves in E; destruct E as [E _];
    revert E; apply moves_weaken; lia.
Qed.

Lemma uleb128_loop_moves (ctx : read_ctx) (avail : nat) :
  forall p shift acc v b ctx',
    uleb128_loop ctx p avail shift acc = Some (v, b, ctx') ->
    c_data ctx' = c_data ctx /\ c_begin ctx' = c_begin ctx
    /\ c_end ctx' = c_end ctx
    /\ p + 1 <= c_ptr ctx' <= p + Z.of_nat avail
    /\ 0 <= v.
Proof.
  induction avail as [|avail IH]; intros p shift acc v b ctx';
    cbn [uleb128_loop]; [discriminate|]. cbv zeta.
  destruct (Z.land (byte_at ctx p) 128 =? 0).
  - intros [= <- _ <-]. cbn [c_data c_begin c_end c_ptr set_ptr].
    repeat split; try lia.
    apply Z.mod_pos_bound. reflexivity.
  - intros Hl. apply IH in Hl. destruct Hl as (? & ? & ? & ? & ?).
    repeat split; auto; lia.
Qed.

Lemma sleb128_loop_moves (ctx : read_ctx) (avail : nat) :
  forall p shift acc prev v b ctx',
    sleb128_loop ctx p avail shift acc prev = Some (v, b, ctx') ->
    c_data ctx' = c_data ctx /\ c_begin ctx' = c_begin ctx
    /\ c_end ctx' = c_end ctx
    /\ p + 1 <= c_ptr ctx' <= p + Z.of_nat avail.
Proof.
  induction avail as [|avail IH]; intros p shift acc prev v b ctx';
    cbn [sleb128_loop]; [discriminate|]. cbv zeta.
  destruct (Z.land (byte_at ctx p) 128 =? 0).
  - intros [= _ _ <-]. cbn [c_data c_begin c_end c_ptr set_ptr].
    repeat split; lia.
  - intros Hl. apply IH in Hl. destruct Hl as (? & ? & ? & ?).
    repeat split; auto; lia.
Qed.

Lemma str_end_bounds (ctx : read_ctx) (avail : nat) :
  forall p q, str_end ctx p avail = Some q -> p + 1 <= q <= p + Z.of_nat avail.
Proof.
  induction avail as [|avail IH]; intros p q; cbn [str_end]; [discriminate|].
  destruct (byte_at ctx p =? 0).
  - intros [= <-]. lia.
  - intros Hq. apply IH in Hq. lia.
Qed.

Lemma read_str_moves (ctx ctx' : read_ctx) :
  read_ctx_read_str ctx = Some ctx' -> moves 1 ctx ctx'.
Proof.
  unfold read_ctx_read_str.
  destruct (str_end ctx (c_ptr ctx) (Z.to_nat (c_end ctx - c_ptr ctx)))
    as [q|] eqn:E; [|discriminate].
  intros [= <-]. apply str_end_bounds in E. unfold moves. simpl.
  repeat split; auto; lia.
Qed.

Lemma read_skip_moves (ctx ctx' : read_ctx) (n : Z) :
  read_ctx_skip ctx n = Some ctx' -> moves 0 ctx ctx'.
Proof.
  unfold read_ctx_skip, read_ctx_need_data.
  destruct (Z.leb_spec 0 n), (Z.leb_spec n (c_end ctx - c_ptr ctx)); simpl;
    try discriminate.
  intros [= <-]. unfold moves. simpl. repeat split; auto; lia.
Qed.

(** *** The values read *)

Lemma byte_at_bounds (ctx : read_ctx) (p : Z) :
  bytes (c_data ctx) -> 0 <= byte_at ctx p < 256.
Proof.
  unfold bytes, byte_at. intros Hb.
  destruct (Nat.lt_ge_cases (Z.to_nat p) (length (c_data ctx))) as [Hl|Hl].
  - rewrite Forall_forall in Hb. apply Hb. now apply nth_In.
  - rewrite nth_overflow by exact Hl. lia.
Qed.

Lemma le_value_nonneg (ctx : read_ctx) (n : nat) :
  bytes (c_data ctx) -> forall p, 0 <= le_value ctx p n.
Proof.
  intros Hb. induction n as [|n IH]; intros p; cbn [le_value]; [lia|].
  pose proof (byte_at_bounds ctx p Hb). specialize (IH (p + 1)). lia.
Qed.

Lemma be_value_nonneg (ctx : read_ctx) (n : nat) :
  bytes (c_data ctx) -> forall p acc, 0 <= acc -> 0 <= be_value ctx p n acc.
Proof.
  intros Hb. induction n as [|n IH]; intros p acc Hacc; cbn [be_value];
    [exact Hacc|].
  apply IH. pose proof (byte_at_bounds ctx p Hb). lia.
Qed.

Lemma read_fixed_nonneg (ctx ctx' : read_ctx) (n : nat) (v : Z) :
  read_fixed ctx n = Some (v, ctx') -> bytes (c_data ctx) -> 0 <= v.
Proof.
  intros E Hb. apply read_fixed_moves in E. destruct E as [_ ->].
  destruct (c_big_endian ctx).
  - apply be_value_nonneg; [exact Hb | lia].
  - now apply le_value_nonneg.
Qed.

(** *** What a stretch of the walk keeps *)

Lemma same_unit_refl (c : cu) : same_unit c c.
Proof. repeat split. Qed.

Lemma same_unit_trans (a b c : cu) :
  same_unit a b -> same_unit b c -> same_unit a c.
Proof.
  unfold same_unit. intros (? & ? & ? & ? & ? & ? & ? & ?)
                           (? & ? & ? & ? & ? & ? & ? & ?).
  repeat split; congruence.
Qed.

Lemma die_addrs_grow_refl (c : cu) : die_addrs_grow c c.
Proof. split; [apply incl_refl | auto]. Qed.

Lemma die_addrs_grow_trans (a b c : cu) :
  die_addrs_grow a b -> die_addrs_grow b c -> die_addrs_grow a c.
Proof.
  intros [I1 S1] [I2 S2]. split; [eapply incl_tran; eassumption | auto].
Qed.

Lemma die_addrs_grow_eq (c c' : cu) :
  die_addrs c' = die_addrs c -> die_addrs_grow c c'.
Proof. unfold die_addrs_grow. intros ->. split; [apply incl_refl | auto]. Qed.

Lemma same_abbrevs_refl (t : abbrev_table) : same_abbrevs t t.
Proof. split; reflexivity. Qed.

Lemma same_abbrevs_trans (a b c : abbrev_table) :
  same_abbrevs a b -> same_abbrevs b c -> same_abbrevs a c.
Proof. unfold same_abbrevs. intros [? ?] [? ?]. split; congruence. Qed.

Lemma set_used_twice (a : abbrev) : set_used (set_used a) = set_used a.
Proof. reflexivity. Qed.

Lemma mark_used_same (t : abbrev_table) (i : nat) :
  same_abbrevs t (mark_used t i).
Proof.
  split; [reflexivity|]. unfold mark_used. cbn [abbr].
  revert i. induction (abbr t) as [|a l IH]; intros i; [reflexivity|].
  destruct i as [|i]; cbn [mark_used_at map].
  - reflexivity.
  - now rewrite IH.
Qed.

Lemma terminated_set_used (a : abbrev) : terminated (set_used a) <-> terminated a.
Proof. reflexivity. Qed.

Lemma same_abbrevs_terminated (t t' : abbrev_table) :
  same_abbrevs t t' ->
  Forall terminated (abbr t) -> Forall terminated (abbr t').
Proof.
  intros [_ E] Ht.
  assert (G : forall l, Forall terminated (map set_used l)
                        <-> Forall terminated l).
  { induction l as [|a l IH]; cbn [map]; [tauto|].
    split; intros Hf; inversion Hf; subst; constructor; auto;
      try apply IH; auto. }
  apply G. rewrite E. now apply G.
Qed.

Lemma in_unit_same (ctx ctx' : read_ctx) (c c' : cu) (r : ref) :
  forward ctx ctx' -> same_unit c c' -> in_unit ctx' c' r -> in_unit ctx c r.
Proof.
  intros (D & B & E & _) (O & _) (a & Ha & Hle & Hr).
  exists a. rewrite <- D, <- B, <- E, <- O. auto.
Qed.

Lemma local_refs_grow_refl ctx c r : local_refs_grow ctx c r r.
Proof.
  destruct r as [rr|]; [|exact I]. exists []. split; [now rewrite app_nil_r|].
  constructor.
Qed.

Ltac acc_tac :=
  repeat first
    [ assumption
    | apply Forall_nil
    | apply Forall_app; split
    | apply Forall_cons; [left; reflexivity|]
    | match goal with
      | |- Forall _ (if ?b then _ else _) => destruct b
      end ].

Ltac fwd_tac :=
  simpl;
  first [ assumption
        | apply forward_refl
        | eapply moves_forward; [|eassumption]; lia ].

Ltac unit_tac :=
  first [ apply same_unit_refl | repeat split ].

Section Walk.
Context `{MessageCategories}.
Variable table : Z -> option (Z * Z).
Variable relocate_one :
  relocation_data -> relocation -> Z -> Z -> where_ -> section_id ->
  Z * option Z * list call.
Variable uninit : Z.

Lemma ext_refl (s : walk_state) : ext relocate_one s s.
Proof.
  repeat split; try apply incl_refl; auto; try lia.
  - apply local_refs_grow_refl.
  - exists []. split; [now rewrite app_nil_r | constructor].
Qed.

Lemma ext_trans (a b c : walk_state) :
  ext relocate_one a b -> ext relocate_one b c -> ext relocate_one a c.
Proof.
  intros (F1 & U1 & D1 & A1 & L1 & o1 & O1 & K1)
         (F2 & U2 & D2 & A2 & L2 & o2 & O2 & K2).
  split; [eapply forward_trans; eassumption|].
  split; [eapply same_unit_trans; eassumption|].
  split; [eapply die_addrs_grow_trans; eassumption|].
  split; [eapply same_abbrevs_trans; eassumption|].
  split.
  - unfold local_refs_grow in *.
    destruct (ws_local_die_refs a) as [ra|], (ws_local_die_refs b) as [rb|],
      (ws_local_die_refs c) as [rc|]; try contradiction; auto.
    destruct L1 as (m1 & -> & M1), L2 as (m2 & -> & M2).
    exists (m1 ++ m2). split; [now rewrite app_assoc|].
    apply Forall_app. split; [exact M1|].
    revert M2. apply Forall_impl. intros r. now apply in_unit_same.
  - exists (o1 ++ o2). split; [rewrite O2, O1, app_assoc; reflexivity|].
    apply Forall_app. now split.
Qed.

Lemma ext_emit (s : walk_state) (o : list call) :
  Forall (accounted relocate_one) o -> ext relocate_one s (emit s o).
Proof.
  intros Ho. destruct (ext_refl s) as (F & U & D & A & L & _).
  repeat (split; [assumption|]). exists o. now split.
Qed.

Lemma ext_set_ctx (s : walk_state) (ctx : read_ctx) :
  forward (ws_ctx s) ctx -> ext relocate_one s (set_ctx s ctx).
Proof.
  intros Hf. destruct (ext_refl s) as (F & U & D & A & L & O).
  split; [exact Hf|]. repeat (split; [assumption|]). exact O.
Qed.

Lemma ext_set_reloc (s : walk_state) (r : option relocation_data) :
  ext relocate_one s (set_reloc s r).
Proof. exact (ext_refl s). Qed.

Lemma ext_set_strings_coverage (s : walk_state) (c : option coverage) :
  ext relocate_one s (set_strings_coverage s c).
Proof. exact (ext_refl s). Qed.

Lemma ext_set_cu_coverage (s : walk_state) (c : cu_coverage) :
  ext relocate_one s (set_cu_coverage s c).
Proof. exact (ext_refl s). Qed.

Lemma ext_set_abbrevs (s : walk_state) (t : abbrev_table) :
  same_abbrevs (ws_abbrevs s) t -> ext relocate_one s (set_abbrevs s t).
Proof.
  intros Ha. destruct (ext_refl s) as (F & U & D & A & L & O).
  repeat (split; [assumption|]). exact O.
Qed.

Lemma ext_set_cu (s : walk_state) (c : cu) :
  same_unit (ws_cu s) c -> die_addrs_grow (ws_cu s) c ->
  ext relocate_one s (set_cu s c).
Proof.
  intros Hu Hd. destruct (ext_refl s) as (F & U & D & A & L & O).
  repeat (split; [assumption|]). exact O.
Qed.

Lemma ext_set_local (s : walk_state) (r : option ref_record) :
  local_refs_grow (ws_ctx s) (ws_cu s) (ws_local_die_refs s) r ->
  ext relocate_one s (set_local_die_refs s r).
Proof.
  intros Hl. destruct (ext_refl s) as (F & U & D & A & L & O).
  repeat (split; [assumption|]). exact O.
Qed.

Lemma errs_emit (s : walk_state) (o : list call) :
  existsb is_error o = true -> errs s (emit s o).
Proof. intros Ho. exists o. now split. Qed.

Lemma errs_ext_l (a b c : walk_state) :
  ext relocate_one a b -> errs b c -> errs a c.
Proof.
  intros (_ & _ & _ & _ & _ & o1 & O1 & _) (o2 & O2 & E2).
  exists (o1 ++ o2). split; [rewrite O2, O1, app_assoc; reflexivity|].
  rewrite existsb_app, E2. apply orb_true_r.
Qed.

Lemma errs_ext_r (a b c : walk_state) :
  errs a b -> ext relocate_one b c -> errs a c.
Proof.
  intros (o1 & O1 & E1) (_ & _ & _ & _ & _ & o2 & O2 & _).
  exists (o1 ++ o2). split; [rewrite O2, O1, app_assoc; reflexivity|].
  rewrite existsb_app, E1. reflexivity.
Qed.

(** *** The diagnostics of the collaborators *)

Lemma checked_read_uleb128_spec (ctx : read_ctx) (wh : where_) :
  match checked_read_uleb128 ctx wh with
  | (Some (v, ctx'), o) =>
      moves 1 ctx ctx' /\ 0 <= v /\ Forall (accounted relocate_one) o
  | (None, o) => o = [Error (Some wh) ": can't read %s."]
  end.
Proof.
  unfold checked_read_uleb128, read_ctx_read_uleb128.
  destruct (uleb128_loop _ _ _ _ _) as [[[v b] ctx']|] eqn:E; [|reflexivity].
  apply uleb128_loop_moves in E. destruct E as (D & B & E & P & V).
  split; [unfold moves; repeat split; auto; lia|]. split; [exact V|].
  unfold wr_format_leb128_message. acc_tac.
Qed.

Lemma checked_read_sleb128_spec (ctx : read_ctx) (wh : where_) :
  match checked_read_sleb128 ctx wh with
  | (Some (v, ctx'), o) =>
      moves 1 ctx ctx' /\ Forall (accounted relocate_one) o
  | (None, o) => o = [Error (Some wh) ": can't read %s."]
  end.
Proof.
  unfold checked_read_sleb128, read_ctx_read_sleb128.
  destruct (sleb128_loop _ _ _ _ _ _) as [[[v b] ctx']|] eqn:E; [|reflexivity].
  apply sleb128_loop_moves in E. destruct E as (D & B & E & P).
  split; [unfold moves; repeat split; auto; lia|].
  unfold wr_format_leb128_message. acc_tac.
Qed.

Lemma relocation_next_loop_out (reloc : relocation_data)
  (rest : list relocation) :
  forall index offset wh st out,
    Forall (accounted relocate_one) out ->
    Forall (accounted relocate_one)
           (snd (relocation_next_loop reloc rest index offset wh st out)).
Proof.
  induction rest as [|rel rest IH]; intros index offset wh st out Hout;
    cbn [relocation_next_loop]; [exact Hout|]. cbv zeta.
  destruct (rel_offset rel >? offset); [exact Hout|].
  destruct (rel_invalid rel); [now apply IH|].
  destruct (rel_offset rel <? offset); [|exact Hout].
  apply IH. destruct st; acc_tac.
Qed.

Lemma relocation_next_out (reloc : relocation_data) (offset : Z)
  (wh : option where_) (st : skip_type) :
  Forall (accounted relocate_one) (snd (relocation_next reloc offset wh st)).
Proof.
  unfold relocation_next. destruct (rd_rel reloc); [constructor|].
  pose proof (relocation_next_loop_out reloc
                (skipn (rd_index reloc) (r :: l)) (rd_index reloc) offset wh
                st [] (Forall_nil _)) as Hl.
  destruct (relocation_next_loop _ _ _ _ _ _ _) as [[x i] out]. exact Hl.
Qed.

Lemma relocation_next_opt_out (reloc : option relocation_data) (offset : Z)
  (wh : option where_) (st : skip_type) :
  Forall (accounted relocate_one)
         (snd (relocation_next_opt reloc offset wh st)).
Proof.
  unfold relocation_next_opt. destruct reloc as [rd|]; [|constructor].
  pose proof (relocation_next_out rd offset wh st) as Hn.
  destruct (relocation_next rd offset wh st) as [[x r'] out]. exact Hn.
Qed.

Lemma relocation_skip_out (reloc : relocation_data) (offset : Z)
  (wh : option where_) (st : skip_type) :
  Forall (accounted relocate_one) (snd (relocation_skip reloc offset wh st)).
Proof.
  unfold relocation_skip.
  pose proof (relocation_next_out reloc (wrap64 (offset - 1)) wh st) as Hn.
  destruct (relocation_next reloc _ wh st) as [[x r'] out]. exact Hn.
Qed.

Lemma relocate_one_out rd r width value wh target :
  Forall (accounted relocate_one)
         (snd (relocate_one rd r width value wh target)).
Proof.
  apply Forall_forall. intros c Hc. right.
  exists rd, r, width, value, wh, target. exact Hc.
Qed.

Lemma reloc_target_out (form : Z) (it : abbrev_attrib) :
  Forall (accounted relocate_one) (snd (reloc_target form it)).
Proof.
  unfold reloc_target.
  repeat match goal with
         | |- context [if ?c then _ else _] => destruct c
         end; cbn [snd]; acc_tac.
Qed.

Lemma reloc_target_loc_out (opcode : Z) :
  Forall (accounted relocate_one) (snd (reloc_target_loc opcode)).
Proof.
  unfold reloc_target_loc.
  repeat match goal with
         | |- context [if ?c then _ else _] => destruct c
         end; cbn [snd]; acc_tac.
Qed.

Lemma read_ctx_read_form_out ctx addr_64 form wh :
  Forall (accounted relocate_one)
         (snd (read_ctx_read_form ctx addr_64 form wh)).
Proof.
  unfold read_ctx_read_form.
  pose proof (checked_read_uleb128_spec ctx wh) as Hu.
  pose proof (checked_read_sleb128_spec ctx wh) as Hs.
  repeat match goal with
         | |- context [if ?c then _ else _] => destruct c
         end; cbn [snd]; try constructor.
  - destruct (checked_read_uleb128 ctx wh) as [[[v c]|] o]; cbn [snd].
    + apply Hu.
    + subst o. acc_tac.
  - destruct (checked_read_sleb128 ctx wh) as [[[v c]|] o]; cbn [snd].
    + apply Hs.
    + subst o. acc_tac.
Qed.

Lemma READ_FORM_out op opcode init_off addr_64 wh ctx reloc :
  Forall (accounted relocate_one)
         (snd (READ_FORM relocate_one uninit op opcode init_off addr_64 wh
                         ctx reloc)).
Proof.
  unfold READ_FORM. destruct (op =? 0); [constructor|].
  pose proof (read_ctx_read_form_out ctx addr_64 op wh) as Hf.
  destruct (read_ctx_read_form ctx addr_64 op wh) as [[[v ctx']|] out];
    cbn [snd] in *; [|acc_tac].
  pose proof (relocation_next_opt_out reloc
                (wrap64 (read_ctx_get_offset ctx + init_off)) (Some wh)
                skip_mismatched) as Hn.
  destruct (relocation_next_opt reloc _ _ _) as [[rel reloc'] out2].
  cbn [snd] in Hn.
  destruct rel as [r|], reloc' as [rd|]; cbn [snd]; try solve [acc_tac].
  pose proof (reloc_target_loc_out opcode) as Ht.
  destruct (reloc_target_loc opcode) as [[target|msg] out3]; cbn [snd] in *;
    [|acc_tac].
  pose proof (relocate_one_out rd r (if addr_64 then 8 else 4) v wh target)
    as Hr.
  destruct (relocate_one rd r _ v wh target) as [[v' sym] out4].
  cbn [snd] in *. acc_tac.
Qed.

Lemma check_opcode_out opcode opcode_off value1 addr_64 wh ctx oprefs :
  Forall (accounted relocate_one)
         (snd (check_opcode opcode opcode_off value1 addr_64 wh ctx oprefs)).
Proof.
  unfold check_opcode.
  repeat match goal with
         | |- context [if ?c then _ else _] => destruct c
         end; cbn [snd]; acc_tac.
Qed.

Lemma check_oprefs_out (oprefs : ref_record) (opaddrs : addr_record) :
  Forall (accounted relocate_one) (check_oprefs oprefs opaddrs).
Proof.
  induction oprefs as [|r rest IH]; cbn [check_oprefs]; acc_tac.
Qed.

Lemma locexpr_loop_out (fuel : nat) :
  forall init_off addr_64 wh ctx reloc oprefs opaddrs out res,
    locexpr_loop table relocate_one uninit fuel init_off addr_64 wh ctx
                 reloc oprefs opaddrs out = Some res ->
    Forall (accounted relocate_one) out ->
    Forall (accounted relocate_one) (le_out res).
Proof.
  induction fuel as [|fuel IH];
    intros init_off addr_64 wh ctx reloc oprefs opaddrs out res;
    [discriminate|].
  cbn [locexpr_loop]. cbv zeta. intros Hres Hout.
  pose proof check_oprefs_out as Hrefs.
  destruct (read_ctx_eof ctx).
  { injection Hres as <-. cbn [le_out]. acc_tac. apply Hrefs. }
  destruct (read_ctx_read_ubyte ctx) as [[opcode ctx1]|].
  2:{ injection Hres as <-. cbn [le_out]. acc_tac. apply Hrefs. }
  destruct (table opcode) as [[op1 op2]|].
  2:{ injection Hres as <-. cbn [le_out]. acc_tac. apply Hrefs. }
  match type of Hres with
  | context [READ_FORM _ _ op1 ?a ?b ?c ?d ?e ?f] =>
      pose proof (READ_FORM_out op1 a b c d e f) as H1;
      destruct (READ_FORM relocate_one uninit op1 a b c d e f)
        as [[v1 ctx2 reloc2| |msg] o1]
  end; cbn [snd] in H1.
  - match type of Hres with
    | context [READ_FORM _ _ op2 ?a ?b ?c ?d ?e ?f] =>
        pose proof (READ_FORM_out op2 a b c d e f) as H2;
        destruct (READ_FORM relocate_one uninit op2 a b c d e f)
          as [[v2 ctx3 reloc3| |msg] o2]
    end; cbn [snd] in H2.
    + match type of Hres with
      | context [check_opcode ?a ?b ?c ?d ?e ?f ?g] =>
          pose proof (check_opcode_out a b c d e f g) as H3;
          destruct (check_opcode a b c d e f g) as [oprefs' o3]
      end. cbn [snd] in H3.
      apply IH in Hres; [exact Hres|]. acc_tac.
    + injection Hres as <-. cbn [le_out]. acc_tac. apply Hrefs.
    + injection Hres as <-. cbn [le_out]. acc_tac.
  - injection Hres as <-. cbn [le_out]. acc_tac. apply Hrefs.
  - injection Hres as <-. cbn [le_out]. acc_tac.
Qed.

(** [check_location_expression] comes to an end; false comes with
    an error, and the one assertion that can stop it is the one of
    [reloc_target_loc]. *)
Lemma check_location_expression_spec (parent_ctx : read_ctx)
  (init_off : Z) (reloc : option relocation_data) (length : Z)
  (wh : where_) (addr_64 : bool) :
  exists res,
    check_location_expression table relocate_one uninit parent_ctx init_off
                              reloc length wh addr_64 = Some res
    /\ Forall (accounted relocate_one) (le_out res)
    /\ (le_outcome res = Returned true
        \/ le_outcome res = Aborted call_ref_text
        \/ (le_outcome res = Returned false
            /\ existsb is_error (le_out res) = true)).
Proof.
  unfold check_location_expression.
  destruct (read_ctx_init_sub parent_ctx (c_ptr parent_ctx)
              (c_ptr parent_ctx + length)) as [ctx|] eqn:Esub.
  - apply ReadCtxFacts.init_sub_some in Esub.
    destruct Esub as (_ & _ & _ & _ & Hp & He).
    destruct (LocExprFacts.locexpr_loop_returns table relocate_one uninit
                (S (Z.to_nat length)) init_off addr_64 wh ctx reloc [] [] [])
      as (res & Hres & Hor & _).
    { rewrite Hp, He. replace (c_ptr parent_ctx + length - c_ptr parent_ctx)
        with length by lia. lia. }
    exists res. split; [exact Hres|]. split.
    + eapply locexpr_loop_out; [exact Hres | constructor].
    + destruct Hor as [Hr|Hr]; auto.
  - eexists. split; [reflexivity|]. cbn [le_out le_outcome]. split.
    + acc_tac.
    + right. right. split; reflexivity.
Qed.

Lemma check_range_relocations_out cat wh b e :
  Forall (accounted relocate_one)
         (LocRange.check_range_relocations cat wh b e).
Proof.
  unfold LocRange.check_range_relocations.
  destruct b, e; acc_tac.
Qed.

(** *** The body of the loop over the attributes *)

Ltac ext_tac :=
  lazymatch goal with
  | |- ext _ ?s ?s => apply ext_refl
  | |- ext _ ?s (emit ?x ?o) =>
      apply ext_trans with (b := x); [ext_tac | apply ext_emit; acc_tac]
  | |- ext _ ?s (set_ctx ?x ?c) =>
      apply ext_trans with (b := x); [ext_tac | apply ext_set_ctx; fwd_tac]
  | |- ext _ ?s (set_reloc ?x ?r) =>
      apply ext_trans with (b := x); [ext_tac | apply ext_set_reloc]
  | |- ext _ ?s (set_strings_coverage ?x ?r) =>
      apply ext_trans with (b := x);
      [ext_tac | apply ext_set_strings_coverage]
  | |- ext _ ?s (set_cu_coverage ?x ?r) =>
      apply ext_trans with (b := x); [ext_tac | apply ext_set_cu_coverage]
  | |- ext _ ?s (set_cu ?x ?c) =>
      apply ext_trans with (b := x);
      [ext_tac
      | apply ext_set_cu;
        [unit_tac | apply die_addrs_grow_eq; reflexivity]]
  | |- ext _ ?s (if ?b then _ else _) => destruct b; ext_tac
  | _ => try assumption
  end.

Ltac minus1_tac :=
  lazymatch goal with
  | |- ext _ ?s (emit ?x ?o) /\ errs ?s (emit ?x ?o) =>
      split;
      [ext_tac
      | apply errs_ext_l with (b := x);
        [ext_tac | apply errs_emit; reflexivity]]
  end.

Lemma record_ref_spec (wh : where_) (addr : Z) (local : bool)
  (s : walk_state) :
  (local = true -> bytes (c_data (ws_ctx s)) -> 0 <= addr) ->
  match record_ref wh addr local s with
  | Ret s' => ext relocate_one s s'
  | Assert msg => ~ c_begin (ws_ctx s) < c_end (ws_ctx s)
  | _ => False
  end.
Proof.
  intros Hv. unfold record_ref. destruct local.
  - rewrite !Z.gtb_ltb.
    destruct (Z.ltb_spec (c_begin (ws_ctx s)) (c_end (ws_ctx s))); cbn [negb];
      [|lia].
    destruct (Z.ltb_spec (c_end (ws_ctx s) - c_begin (ws_ctx s)) addr).
    + ext_tac.
    + destruct (ws_local_die_refs s) as [record|] eqn:El; [|apply ext_refl].
      apply ext_set_local. rewrite El. unfold ref_record_add.
      eexists. split; [reflexivity|]. constructor; [|constructor].
      exists addr. cbn [r_addr]. repeat split; auto.
  - ext_tac.
Qed.

Lemma do_check_ptr_spec (wh : where_) (what : check_what_t) (value : Z)
  (s : walk_state) :
  what <> check_nothing ->
  match do_check_ptr wh what value s with
  | Ret s' => ext relocate_one s s'
  | Undefined _ => address_size (ws_cu s) = 0
  | _ => False
  end.
Proof.
  intros Hw. unfold do_check_ptr. destruct what; [contradiction| | |].
  - ext_tac.
  - ext_tac.
  - destruct (Z.eqb_spec (address_size (ws_cu s)) 0); [assumption|].
    cbv zeta. ext_tac.
Qed.

Lemma sibling_or_ref_spec (strings : option (list Z)) (X : Prop)
  (wh : where_) (name : Z) (is_ref : bool) (value : Z) (s : walk_state)
  (l : die_locals) :
  (is_ref = true -> bytes (c_data (ws_ctx s)) -> 0 <= value) ->
  attr_spec relocate_one strings X s
            (sibling_or_ref wh name is_ref value s l).
Proof.
  intros Hv. unfold sibling_or_ref.
  destruct (name =? DW_AT_sibling); [apply ext_refl|].
  destruct is_ref; [|apply ext_refl].
  pose proof (record_ref_spec wh value true s (fun _ => Hv eq_refl)) as Hr.
  destruct (record_ref wh value true s); cbn [attr_spec]; auto.
Qed.

Lemma attr_spec_ext (strings : option (list Z)) (X : Prop)
  (s s1 : walk_state) (res : walk attr_end) :
  ext relocate_one s s1 ->
  attr_spec relocate_one strings X s1 res ->
  attr_spec relocate_one strings X s res.
Proof.
  intros He. pose proof He as (F & U & _).
  destruct F as (_ & B & E & _). destruct U as (_ & _ & _ & A & _).
  destruct res as [[s' l'|s']|msg|what|]; cbn [attr_spec].
  - now apply ext_trans.
  - intros [He' Hr]. split; [now apply ext_trans with (b := s1)|].
    now apply errs_ext_l with (b := s1).
  - now rewrite B, E.
  - now rewrite A.
  - auto.
Qed.

Lemma read_indirect_form_spec (wh : where_) (it : abbrev_attrib)
  (s : walk_state) :
  match read_indirect_form wh it s with
  | (Some form, s') => ext relocate_one s s'
  | (None, s') => ext relocate_one s s' /\ errs s s'
  end.
Proof.
  unfold read_indirect_form.
  destruct (form_of it =? DW_FORM_indirect); [|apply ext_refl].
  pose proof (checked_read_uleb128_spec (ws_ctx s) wh) as Hu.
  destruct (checked_read_uleb128 (ws_ctx s) wh) as [[[value ctx]|] o].
  - destruct Hu as (Hm & _ & Ho). cbv zeta.
    destruct (negb (attrib_form_valid value)).
    + minus1_tac.
    + repeat match goal with
             | |- context [if ?c then _ else _] => destruct c
             end; ext_tac.
  - subst o. minus1_tac.
Qed.

Lemma select_check_ptr_out (wh : where_) (dwarf_64 indirect : bool)
  (name form : Z) :
  Forall (accounted relocate_one)
         (snd (select_check_ptr wh dwarf_64 indirect name form)).
Proof.
  unfold select_check_ptr.
  repeat match goal with
         | |- context [if ?c then _ else _] => destruct c
         end; cbn [snd]; acc_tac.
Qed.

Lemma reloc_target_returns (form : Z) (it : abbrev_attrib) :
  form = DW_FORM_addr \/ form = DW_FORM_ref_addr
  \/ form = DW_FORM_data4 \/ form = DW_FORM_data8 ->
  exists target, fst (reloc_target form it) = Returned target.
Proof.
  intros [-> | [-> | [-> | ->]]];
    unfold reloc_target, DW_FORM_strp, DW_FORM_addr, DW_FORM_ref_addr,
      DW_FORM_data1, DW_FORM_data2, DW_FORM_data4, DW_FORM_data8;
    cbn [Z.eqb Pos.eqb orb];
    repeat match goal with
           | |- context [if ?c then _ else _] => destruct c
           end; eexists; reflexivity.
Qed.

Lemma attr_strp_spec (is_rel dwarf_64 : bool) (strings : option (list Z))
  (X : Prop) (wh : where_) (ctx_offset : Z) (s : walk_state)
  (l : die_locals) :
  attr_spec relocate_one strings X s
            (attr_strp relocate_one is_rel dwarf_64 strings wh ctx_offset s l).
Proof.
  unfold attr_strp, cant_read.
  destruct (read_ctx_read_offset (ws_ctx s) dwarf_64) as [[addr ctx]|] eqn:Er;
    [|cbn [attr_spec]; minus1_tac].
  apply read_offset_moves in Er. cbv zeta.
  match goal with
  | |- context [relocation_next_opt ?a ?b ?c ?d] =>
      pose proof (relocation_next_opt_out a b c d) as Hn;
      destruct (relocation_next_opt a b c d) as [[rel reloc] o]
  end. cbn [snd] in Hn.
  assert (Ho : exists addr' o',
             match rel, reloc with
             | Some r, Some rd =>
                 let '(v, _, o) :=
                   relocate_one rd r (if dwarf_64 then 8 else 4) addr wh
                                sec_str in (v, o)
             | _, _ =>
                 (addr,
                  if is_rel
                  then [Message (mcs [cat_impact_2; cat_die_other; cat_reloc;
                                      cat_strings])
                                (Some wh) ": %s seems to lack a relocation."]
                  else [])
             end = (addr', o') /\ Forall (accounted relocate_one) o').
  { destruct rel as [r|], reloc as [rd|];
      try (eexists; eexists; split; [reflexivity | acc_tac]).
    pose proof (relocate_one_out rd r (if dwarf_64 then 8 else 4) addr wh
                                 sec_str) as Hr.
    destruct (relocate_one rd r _ addr wh sec_str) as [[v sym] o2].
    eexists; eexists; split; [reflexivity | exact Hr]. }
  destruct Ho as (addr' & o' & -> & Ho').
  destruct strings as [data|]; [|cbn [attr_spec]; ext_tac].
  destruct (addr' >=? Z.of_nat (length data)) eqn:Ea;
    [cbn [attr_spec]; ext_tac|].
  cbn [ws_strings_coverage emit set_reloc set_ctx].
  destruct (ws_strings_coverage s) as [sc|]; [|cbn [attr_spec]; ext_tac].
  destruct (strlen (skipn (Z.to_nat addr') data)) as [n|] eqn:El;
    [cbn [attr_spec]; ext_tac|].
  cbn [attr_spec]. right. left. cbn [strings_terminated].
  intros [front ->].
  assert (G : forall l, strlen l = None -> ~ In 0 l).
  { induction l0 as [|b l0 IH]; cbn [strlen]; [intros _ []|].
    destruct (Z.eqb_spec b 0); [discriminate|].
    destruct (strlen l0); [discriminate|].
    intros _ [Hb|Hb]; [congruence | now apply IH]. }
  apply G in El. apply El.
  rewrite Z.geb_leb in Ea. apply Z.leb_gt in Ea.
  rewrite length_app in Ea. cbn [length] in Ea.
  rewrite skipn_app. apply in_or_app. right.
  destruct (Z.leb_spec 0 addr').
  - replace (Z.to_nat addr' - length front)%nat with 0%nat by lia.
    now left.
  - replace (Z.to_nat addr') with 0%nat by lia. now left.
Qed.

Lemma attr_addr_spec (is_rel addr_64 : bool) (strings : option (list Z))
  (X : Prop) (abbrev : abbrev) (it : abbrev_attrib) (form : Z) (wh : where_)
  (ctx_offset : Z) (s : walk_state) (l : die_locals) :
  form = DW_FORM_addr \/ form = DW_FORM_ref_addr ->
  attr_spec relocate_one strings X s
            (attr_addr relocate_one is_rel addr_64 abbrev it form wh
                       ctx_offset s l).
Proof.
  intros Hform. unfold attr_addr, cant_read.
  destruct (read_ctx_read_offset (ws_ctx s) addr_64) as [[addr ctx]|] eqn:Er;
    [|cbn [attr_spec]; minus1_tac].
  apply read_offset_moves in Er. cbv zeta.
  match goal with
  | |- context [relocation_next_opt ?a ?b ?c ?d] =>
      pose proof (relocation_next_opt_out a b c d) as Hn;
      destruct (relocation_next_opt a b c d) as [[rel reloc] o]
  end. cbn [snd] in Hn.
  set (s1 := emit (set_reloc (set_ctx s ctx) reloc) o).
  assert (E1 : ext relocate_one s s1) by (subst s1; ext_tac).
  match goal with
  | |- attr_spec _ _ _ _ (match ?r with _ => _ end) =>
      assert (Hr : exists addr' rel' sym s2,
                 r = Ret (addr', rel', sym, s2) /\ ext relocate_one s s2)
  end.
  { destruct rel as [r|], reloc as [rd|];
      try (eexists; eexists; eexists; eexists; split; [reflexivity|];
           ext_tac).
    destruct (reloc_target_returns form it) as [target Ht]; [tauto|].
    pose proof (reloc_target_out form it) as Ho.
    destruct (reloc_target form it) as [t o1]. cbn [fst snd] in Ht, Ho.
    subst t.
    pose proof (relocate_one_out rd r (if addr_64 then 8 else 4) addr wh
                                 target) as Hro.
    destruct (relocate_one rd r _ addr wh target) as [[v sym] o2].
    cbn [snd] in Hro.
    eexists; eexists; eexists; eexists; split; [reflexivity|]. ext_tac. }
  destruct Hr as (addr' & rel' & sym & s2 & -> & E2).
  match goal with
  | |- attr_spec _ _ _ _ (match ?r with _ => _ end) =>
      assert (Hc : exists s3, r = Ret s3 /\ ext relocate_one s s3)
  end.
  { destruct (form =? DW_FORM_ref_addr).
    - pose proof (record_ref_spec wh addr' false s2
                    (fun E => False_ind _ (Bool.diff_false_true E))) as Hrec.
      unfold record_ref in *. eexists. split; [reflexivity|].
      now apply ext_trans with (b := s2).
    - exists s2. now split. }
  destruct Hc as (s3 & -> & E3).
  destruct ((tag abbrev =? DW_TAG_compile_unit)
            || (tag abbrev =? DW_TAG_partial_unit)); cbn [attr_spec];
    [|exact E3].
  repeat match goal with
         | |- context [if ?c then _ else _] => destruct c
         end; ext_tac.
Qed.

Lemma attr_udata_spec (strings : option (list Z)) (X : Prop)
  (name form : Z) (wh : where_) (s : walk_state) (l : die_locals) :
  attr_spec relocate_one strings X s (attr_udata name form wh s l).
Proof.
  unfold attr_udata.
  pose proof (checked_read_uleb128_spec (ws_ctx s) wh) as Hu.
  destruct (checked_read_uleb128 (ws_ctx s) wh) as [[[value ctx]|] o].
  - destruct Hu as (Hm & Hv & Ho).
    apply attr_spec_ext with (s1 := emit (set_ctx s ctx) o); [ext_tac|].
    apply sibling_or_ref_spec. auto.
  - subst o. cbn [attr_spec]. minus1_tac.
Qed.

Lemma attr_data1_spec (strings : option (list Z)) (X : Prop)
  (name form : Z) (wh : where_) (s : walk_state) (l : die_locals) :
  attr_spec relocate_one strings X s (attr_data1 name form wh s l).
Proof.
  unfold attr_data1, cant_read.
  destruct (read_ctx_read_ubyte (ws_ctx s)) as [[value ctx]|] eqn:Er;
    [|cbn [attr_spec]; minus1_tac].
  apply read_ubyte_moves in Er. destruct Er as [Hm ->].
  apply attr_spec_ext with (s1 := set_ctx s ctx); [ext_tac|].
  apply sibling_or_ref_spec. intros _ Hb. cbn [ws_ctx set_ctx] in Hb.
  destruct Hm as (D & _). rewrite D in Hb.
  apply (byte_at_bounds (ws_ctx s) _ Hb).
Qed.

Lemma attr_data2_spec (strings : option (list Z)) (X : Prop)
  (name form : Z) (wh : where_) (s : walk_state) (l : die_locals) :
  attr_spec relocate_one strings X s (attr_data2 name form wh s l).
Proof.
  unfold attr_data2, cant_read, read_ctx_read_2ubyte.
  destruct (read_fixed (ws_ctx s) 2) as [[value ctx]|] eqn:Er;
    [|cbn [attr_spec]; minus1_tac].
  pose proof (read_fixed_nonneg _ _ _ _ Er) as Hv.
  apply read_fixed_moves in Er. destruct Er as [Hm _].
  apply attr_spec_ext with (s1 := set_ctx s ctx); [ext_tac|].
  apply sibling_or_ref_spec. intros _ Hb. cbn [ws_ctx set_ctx] in Hb.
  destruct Hm as (D & _). rewrite D in Hb. auto.
Qed.

Lemma attr_sdata_spec (strings : option (list Z)) (X : Prop)
  (wh : where_) (s : walk_state) (l : die_locals) :
  attr_spec relocate_one strings X s (attr_sdata wh s l).
Proof.
  unfold attr_sdata.
  pose proof (checked_read_sleb128_spec (ws_ctx s) wh) as Hu.
  destruct (checked_read_sleb128 (ws_ctx s) wh) as [[[value ctx]|] o].
  - destruct Hu as (Hm & Ho). cbn [attr_spec]. ext_tac.
  - subst o. cbn [attr_spec]. minus1_tac.
Qed.

Lemma attr_data48_spec (is_rel : bool) (strings : option (list Z))
  (X : Prop) (width data ref : Z) (it : abbrev_attrib) (form : Z)
  (check_ptr : check_what_t) (wh : where_) (ctx_offset : Z)
  (s : walk_state) (l : die_locals) :
  data = DW_FORM_data4 \/ data = DW_FORM_data8 ->
  data <> ref ->
  attr_spec relocate_one strings X s
            (attr_data48 relocate_one is_rel width data ref it form check_ptr
                         wh ctx_offset s l).
Proof.
  intros Hdata Hne. unfold attr_data48, cant_read.
  assert (Hread : forall r,
             r = read_ctx_read_4ubyte (ws_ctx s)
             \/ r = read_ctx_read_8ubyte (ws_ctx s) ->
             match r with
             | Some (value, ctx) =>
                 moves 1 (ws_ctx s) ctx
                 /\ (bytes (c_data (ws_ctx s)) -> 0 <= value)
             | None => True
             end).
  { intros r [-> | ->]; unfold read_ctx_read_4ubyte, read_ctx_read_8ubyte;
      match goal with
      | |- match read_fixed ?c ?n with _ => _ end =>
          destruct (read_fixed c n) as [[value ctx]|] eqn:Er; [|exact I];
          pose proof (read_fixed_nonneg _ _ _ _ Er) as Hv;
          apply read_fixed_moves in Er; destruct Er as [Hm _];
          split; [revert Hm; apply moves_weaken; lia | exact Hv]
      end. }
  match goal with
  | |- attr_spec _ _ _ _ (match ?r with _ => _ end) =>
      specialize (Hread r ltac:(destruct (width =? 4); auto));
      destruct r as [[value ctx]|];
      [|cbn [attr_spec]; minus1_tac]
  end.
  destruct Hread as [Hm Hv]. cbv zeta.
  match goal with
  | |- attr_spec _ _ _ _ (match ?r with _ => _ end) =>
      assert (Hr : exists value' s2,
                 r = Ret (value', s2) /\ ext relocate_one s s2
                 /\ ((form =? ref) = true ->
                     bytes (c_data (ws_ctx s)) -> 0 <= value'))
  end.
  { destruct (Z.eqb_spec form data) as [Ef|Ef].
    - match goal with
      | |- context [relocation_next_opt ?a ?b ?c ?d] =>
          pose proof (relocation_next_opt_out a b c d) as Hn;
          destruct (relocation_next_opt a b c d) as [[rel reloc] o]
      end. cbn [snd] in Hn.
      assert (Hnr : (form =? ref) = false) by (apply Z.eqb_neq; congruence).
      rewrite Hnr.
      destruct rel as [r|], reloc as [rd|];
        try (eexists; eexists; split; [reflexivity|]; split;
             [ext_tac | discriminate]).
      destruct (reloc_target_returns form it) as [target Ht];
        [rewrite Ef; tauto|].
      pose proof (reloc_target_out form it) as Ho.
      destruct (reloc_target form it) as [t o1]. cbn [fst snd] in Ht, Ho.
      subst t.
      pose proof (relocate_one_out rd r width value wh target) as Hro.
      destruct (relocate_one rd r width value wh target) as [[v sym] o2].
      cbn [snd] in Hro.
      eexists; eexists; split; [reflexivity|]. split;
        [ext_tac | discriminate].
    - exists value, (set_ctx s ctx). split; [reflexivity|]. split;
        [ext_tac | auto]. }
  destruct Hr as (value' & s2 & -> & E2 & Hv').
  destruct (at_name it =? DW_AT_sibling); [exact E2|].
  assert (Hd : c_data (ws_ctx s2) = c_data (ws_ctx s))
    by (destruct E2 as ((D & _) & _); exact D).
  destruct check_ptr; cbn [negb].
  - apply attr_spec_ext with (s1 := s2); [exact E2|].
    apply sibling_or_ref_spec. rewrite Hd. exact Hv'.
  - pose proof (do_check_ptr_spec wh check_locptr value' s2
                  ltac:(discriminate)) as Hc.
    destruct (do_check_ptr wh check_locptr value' s2); cbn [attr_spec];
      try contradiction.
    + now apply ext_trans with (b := s2).
    + left. destruct E2 as (_ & (_ & _ & _ & A & _) & _). congruence.
  - pose proof (do_check_ptr_spec wh check_lineptr value' s2
                  ltac:(discriminate)) as Hc.
    destruct (do_check_ptr wh check_lineptr value' s2); cbn [attr_spec];
      try contradiction.
    + now apply ext_trans with (b := s2).
    + left. destruct E2 as (_ & (_ & _ & _ & A & _) & _). congruence.
  - pose proof (do_check_ptr_spec wh check_rangeptr value' s2
                  ltac:(discriminate)) as Hc.
    destruct (do_check_ptr wh check_rangeptr value' s2); cbn [attr_spec];
      try contradiction.
    + now apply ext_trans with (b := s2).
    + left. destruct E2 as (_ & (_ & _ & _ & A & _) & _). congruence.
Qed.

Lemma read_var_moves (ctx ctx' : read_ctx) (width v : Z) :
  read_ctx_read_var ctx width = Some (v, ctx') -> moves 1 ctx ctx'.
Proof.
  unfold read_ctx_read_var, read_ctx_read_2ubyte, read_ctx_read_4ubyte,
    read_ctx_read_8ubyte.
  repeat match goal with
         | |- context [if ?c then _ else _] => destruct c
         end; try discriminate.
  - intros E. now apply read_ubyte_moves in E.
  - intros E. apply read_fixed_moves in E. destruct E as [E _].
    revert E. apply moves_weaken. lia.
  - intros E. apply read_fixed_moves in E. destruct E as [E _].
    revert E. apply moves_weaken. lia.
  - intros E. apply read_fixed_moves in E. destruct E as [E _].
    revert E. apply moves_weaken. lia.
Qed.

Lemma attr_block_spec (addr_64 : bool) (strings : option (list Z))
  (X : Prop) (width name : Z) (wh : where_) (s : walk_state)
  (l : die_locals) :
  attr_spec relocate_one strings X s
            (attr_block table relocate_one uninit addr_64 width name wh s l).
Proof.
  unfold attr_block, cant_read.
  match goal with
  | |- attr_spec _ _ _ _ (match ?r with _ => _ end) =>
      assert (Hl : match r with
                   | (Some _, s1) => ext relocate_one s s1
                   | (None, s1) => ext relocate_one s s1 /\ errs s s1
                   end)
  end.
  { destruct (width =? 0).
    - pose proof (checked_read_uleb128_spec (ws_ctx s) wh) as Hu.
      destruct (checked_read_uleb128 (ws_ctx s) wh) as [[[len ctx]|] o].
      + destruct Hu as (Hm & _ & Ho). ext_tac.
      + subst o. minus1_tac.
    - destruct (read_ctx_read_var (ws_ctx s) width) as [[len ctx]|] eqn:Er.
      + apply read_var_moves in Er. ext_tac.
      + minus1_tac. }
  match goal with
  | |- attr_spec _ _ _ _ (match ?r with _ => _ end) =>
      destruct r as [[len|] s1]
  end; [|exact Hl].
  apply attr_spec_ext with (s1 := s1); [exact Hl|]. clear Hl.
  destruct (is_location_attrib name).
  - destruct (check_location_expression_spec (ws_ctx s1)
                (wrap64 (cu_offset (ws_cu s1) + read_ctx_get_offset (ws_ctx s1)))
                (ws_reloc s1) len wh addr_64)
      as (res & -> & Ho & Hout).
    destruct Hout as [Hr | [Hr | [Hr He]]]; rewrite Hr.
    + destruct (read_ctx_skip _ len) as [ctx|] eqn:Es.
      * apply read_skip_moves in Es. cbn [attr_spec]. ext_tac.
      * cbn [attr_spec]. minus1_tac.
    + cbn [attr_spec]. now left.
    + cbn [attr_spec]. split; [ext_tac|].
      apply errs_ext_l with (b := set_reloc s1 (le_reloc res));
        [ext_tac | now apply errs_emit].
  - destruct (ws_reloc s1) as [rd|].
    + match goal with
      | |- context [relocation_skip ?a ?b ?c ?d] =>
          pose proof (relocation_skip_out a b c d) as Hn;
          destruct (relocation_skip a b c d) as [rd' o]
      end. cbn [snd] in Hn.
      destruct (read_ctx_skip _ len) as [ctx|] eqn:Es.
      * apply read_skip_moves in Es. cbn [attr_spec]. ext_tac.
      * cbn [attr_spec]. minus1_tac.
    + destruct (read_ctx_skip _ len) as [ctx|] eqn:Es.
      * apply read_skip_moves in Es. cbn [attr_spec]. ext_tac.
      * cbn [attr_spec]. minus1_tac.
Qed.

Lemma attr_spec_weaken (strings : option (list Z)) (X X' : Prop)
  (s : walk_state) (res : walk attr_end) :
  (X' -> X) ->
  attr_spec relocate_one strings X' s res ->
  attr_spec relocate_one strings X s res.
Proof.
  intros HX. destruct res as [[s' l'|s']|msg|what|]; cbn [attr_spec]; tauto.
Qed.

Lemma read_attrib_spec (is_rel dwarf_64 addr_64 : bool)
  (strings : option (list Z)) (X : Prop) (abbrev : abbrev)
  (die_where : where_) (it : abbrev_attrib) (s : walk_state)
  (l : die_locals) :
  attr_spec relocate_one strings X s
            (read_attrib table relocate_one uninit is_rel dwarf_64 addr_64
                         strings abbrev die_where it s l).
Proof.
  unfold read_attrib. cbv zeta.
  match goal with
  | |- context [read_indirect_form ?a ?b ?c] =>
      pose proof (read_indirect_form_spec a b c) as Hi;
      destruct (read_indirect_form a b c) as [[form|] s1]
  end; [|exact Hi].
  match goal with
  | |- context [select_check_ptr ?a ?b ?c ?d ?e] =>
      pose proof (select_check_ptr_out a b c d e) as Hs;
      destruct (select_check_ptr a b c d e) as [check_ptr o]
  end. cbn [snd] in Hs.
  apply attr_spec_ext with (s1 := emit s1 o); [ext_tac|].
  repeat match goal with
         | |- attr_spec _ _ _ _ (if ?c then _ else _) => destruct c eqn:?
         end.
  - apply attr_strp_spec.
  - unfold cant_read.
    destruct (read_ctx_read_str _) as [ctx|] eqn:Er; cbn [attr_spec].
    + apply read_str_moves in Er. ext_tac.
    + minus1_tac.
  - apply attr_addr_spec.
    match goal with
    | E : (_ || _) = true |- _ =>
        apply orb_true_iff in E; rewrite !Z.eqb_eq in E; exact E
    end.
  - apply attr_udata_spec.
  - apply attr_data1_spec.
  - apply attr_data2_spec.
  - apply attr_data48_spec; [now left | discriminate].
  - apply attr_data48_spec; [now right | discriminate].
  - apply attr_sdata_spec.
  - apply attr_block_spec.
  - apply attr_block_spec.
  - apply attr_block_spec.
  - apply attr_block_spec.
  - cbn [attr_spec]. minus1_tac.
  - cbn [attr_spec]. ext_tac.
Qed.

Lemma attribs_loop_spec (is_rel dwarf_64 addr_64 : bool)
  (strings : option (list Z)) (abbrev : abbrev) (die_where : where_)
  (its : list abbrev_attrib) :
  forall s l,
    attr_spec relocate_one strings
              (~ exists it, In it its /\ at_name it = 0) s
              (attribs_loop table relocate_one uninit is_rel dwarf_64 addr_64
                            strings abbrev die_where its s l).
Proof.
  induction its as [|it rest IH]; intros s l; cbn [attribs_loop].
  - cbn [attr_spec]. right. right. intros (it & [] & _).
  - destruct (Z.eqb_spec (at_name it) 0) as [E0|E0]; [apply ext_refl|].
    pose proof (read_attrib_spec is_rel dwarf_64 addr_64 strings
                  (~ exists it0, In it0 (it :: rest) /\ at_name it0 = 0)
                  abbrev die_where it s l) as Ha.
    destruct (read_attrib _ _ _ _ _ _ _ _ _ _ _ _) as [[s1 l1|s1]|msg|what|];
      try exact Ha.
    cbn [attr_spec] in Ha.
    apply attr_spec_ext with (s1 := s1); [exact Ha|].
    eapply attr_spec_weaken; [|apply IH].
    intros Hn (it0 & [<- | Hin] & Hz); [contradiction|].
    apply Hn. now exists it0.
Qed.

(** *** The loop over the DIEs *)

Lemma find_abbrev_loop_bound (abbr : list abbrev) (abbrev_code : Z)
  (a b : nat) (i : nat) :
  find_abbrev_loop abbr abbrev_code a b = Some i -> (a <= i < b)%nat.
Proof.
  apply (find_abbrev_loop_elim
           (fun abbr abbrev_code a b r =>
              r = Some i -> (a <= i < b)%nat)); clear abbr abbrev_code a b.
  - discriminate.
  - intros abbr code a b Hlt _ _ [= <-].
    apply AddrRecordFacts.half_between. exact Hlt.
  - intros abbr code a b Hlt IH _ _ Hr.
    pose proof (AddrRecordFacts.half_between a b Hlt). specialize (IH Hr). lia.
  - intros abbr code a b Hlt IH _ _ Hr.
    pose proof (AddrRecordFacts.half_between a b Hlt). specialize (IH Hr). lia.
Qed.

Lemma check_pc_relocations_out (wh : where_) (l : die_locals) :
  Forall (accounted relocate_one) (check_pc_relocations wh l).
Proof.
  unfold check_pc_relocations.
  pose proof (check_range_relocations_out cat_die_other wh
                (dl_low_pc_symbol l) (dl_high_pc_symbol l)).
  acc_tac.
Qed.

Lemma chain_spec_ext (strings : option (list Z)) (s s1 : walk_state)
  (res : walk (Z * walk_state)) :
  ext relocate_one s s1 ->
  chain_spec relocate_one strings s1 res ->
  chain_spec relocate_one strings s res.
Proof.
  intros He. pose proof He as (F & U & _ & A & _).
  destruct F as (_ & B & E & P & _). destruct U as (_ & _ & _ & S & _).
  destruct res as [[st s']|msg|what|]; cbn [chain_spec].
  - intros (Hst & He' & Herr). split; [exact Hst|].
    split; [now apply ext_trans with (b := s1)|].
    intros Hm. apply errs_ext_l with (b := s1); auto.
  - intros [Hm|Hm]; [now left|]. right. rewrite B in Hm. lia.
  - rewrite S. intros [Hu | [Hu | Hu]]; auto.
    right. right. intros Ht. apply Hu.
    now apply (same_abbrevs_terminated (ws_abbrevs s)).
  - auto.
Qed.

Lemma record_die_grows (c : cu) (addr : Z) :
  die_addrs_grow c (set_die_addrs c (addr_record_add (die_addrs c) addr)).
Proof.
  unfold die_addrs_grow. cbn [die_addrs set_die_addrs]. split.
  - unfold addr_record_add.
    destruct ((_ <=? _)%nat || _); [|apply incl_refl].
    intros y Hy. apply AddrRecordFacts.in_insert. now right.
  - intros Hs. apply AddrRecordFacts.ascending_StronglySorted.
    apply AddrRecordFacts.add_spec.
    now apply AddrRecordFacts.ascending_StronglySorted.
Qed.

Lemma die_loop_spec (fuel : nat) :
  forall is_rel dwarf_64 addr_64 strings s got_die sibling_addr wh,
    (Z.to_nat (c_end (ws_ctx s) - c_ptr (ws_ctx s)) < fuel)%nat ->
    chain_spec relocate_one strings s
               (die_loop table relocate_one uninit fuel is_rel dwarf_64
                         addr_64 strings s got_die sibling_addr None wh).
Proof.
  induction fuel as [|fuel IH];
    intros is_rel dwarf_64 addr_64 strings s got_die sibling_addr wh Hfuel;
    [lia|].
  cbn [die_loop].
  assert (Hend : forall s' gd sa w,
             ext relocate_one s s' ->
             chain_spec relocate_one strings s (chain_end s' gd sa w)).
  { intros s' gd sa w He. unfold chain_end. cbn [chain_spec].
    split; [destruct gd; auto|]. split; [ext_tac|].
    destruct gd; discriminate. }
  destruct (read_ctx_eof (ws_ctx s)) eqn:Eeof; [apply Hend, ext_refl|].
  assert (Hleft : c_ptr (ws_ctx s) < c_end (ws_ctx s)).
  { unfold read_ctx_eof, read_ctx_need_data in Eeof.
    apply negb_false_iff, andb_true_iff in Eeof.
    destruct Eeof as [_ Eeof]. apply Z.leb_le in Eeof. lia. }
  cbv zeta.
  match goal with
  | |- context [checked_read_uleb128 ?a ?b] =>
      pose proof (checked_read_uleb128_spec a b) as Hu;
      destruct (checked_read_uleb128 a b) as [[[abbr_code ctx]|] o]
  end.
  2:{ subst o. cbn [chain_spec]. split; [now left|]. split; [ext_tac|].
      intros _. now apply errs_emit. }
  destruct Hu as (Hm & _ & Ho).
  match goal with
  | |- context [match ?p with pair _ _ => _ end] =>
      assert (Hp : exists sa o', p = (sa, o')
                                 /\ Forall (accounted relocate_one) o')
  end.
  { destruct (negb (sibling_addr =? 0));
      (eexists; eexists; split; [reflexivity | acc_tac]). }
  destruct Hp as (sa & o' & -> & Ho').
  set (s1 := emit (emit (set_ctx s ctx) o) o').
  assert (E1 : ext relocate_one s s1) by (subst s1; ext_tac).
  destruct (abbr_code =? 0); [now apply Hend|].
  destruct (read_ctx_eof (ws_ctx s1)); [apply Hend; ext_tac|].
  destruct (find_abbrev_loop _ abbr_code 0 _) as [i|] eqn:Ef.
  2:{ cbn [chain_spec]. split; [now left|]. split; [ext_tac|].
      intros _. apply errs_ext_l with (b := s1); [exact E1|].
      now apply errs_emit. }
  apply find_abbrev_loop_bound in Ef.
  match goal with
  | |- context [attribs_loop _ _ _ _ _ _ _ ?ab ?w ?its ?st ?l] =>
      pose proof (attribs_loop_spec is_rel dwarf_64 addr_64 strings ab w
                                    its st l) as Ha;
      destruct (attribs_loop table relocate_one uninit is_rel dwarf_64
                             addr_64 strings ab w its st l)
        as [[s3 l3|s3]|msg|what|];
      set (abbrev := ab) in *; set (s2 := st) in *
  end.
  all: assert (E2 : ext relocate_one s s2)
    by (apply ext_trans with (b := s1); [exact E1|]; subst s2;
        apply ext_trans with (b := set_abbrevs s1 (mark_used (ws_abbrevs s1) i));
        [apply ext_set_abbrevs, mark_used_same
        | apply ext_set_cu; [repeat split | apply record_die_grows]]).
  all: pose proof E2 as ((_ & B2 & En2 & P2 & _) & (_ & _ & _ & S2 & _) & _).
  - (* the attributes were read *)
    cbn [attr_spec] in Ha.
    match goal with
    | |- context [emit s3 ?o3] =>
        set (s4 := emit s3 o3);
        assert (E4 : ext relocate_one s s4)
          by (apply ext_trans with (b := s2); [exact E2|];
              apply ext_trans with (b := s3); [exact Ha|];
              subst s4; apply ext_emit, check_pc_relocations_out)
    end.
    assert (Hfuel4 : forall s5, ext relocate_one s4 s5 ->
                                (Z.to_nat (c_end (ws_ctx s5)
                                           - c_ptr (ws_ctx s5)) < fuel)%nat).
    { intros s5 E5.
      assert (E15 : ext relocate_one s1 s5).
      { apply ext_trans with (b := s4); [|exact E5].
        apply ext_trans with (b := s3); [|subst s4; apply ext_emit,
                                           check_pc_relocations_out].
        apply ext_trans with (b := s2); [|exact Ha].
        subst s2.
        apply ext_trans
          with (b := set_abbrevs s1 (mark_used (ws_abbrevs s1) i));
          [apply ext_set_abbrevs, mark_used_same
          | apply ext_set_cu; [repeat split | apply record_die_grows]]. }
      destruct E15 as ((_ & _ & E15 & P15 & _) & _).
      subst s1. cbn [ws_ctx emit set_ctx] in E15, P15.
      destruct Hm as (_ & _ & Em & Pm). rewrite E15, Em. lia. }
    destruct (has_children abbrev).
    + pose proof (IH is_rel dwarf_64 addr_64 strings s4 false 0
                     (WHERE sec_info None) (Hfuel4 s4 (ext_refl s4)))
        as Hchild.
      apply chain_spec_ext with (s1 := s4); [exact E4|].
      destruct (die_loop table relocate_one uninit fuel is_rel dwarf_64
                         addr_64 strings s4 false 0 None
                         (WHERE sec_info None))
        as [[st s5]|msg|what|]; try exact Hchild.
      cbn [chain_spec] in Hchild. destruct Hchild as (Hst & E5 & Herr).
      destruct (Z.eqb_spec st (-1)) as [->|Hne].
      * cbn [chain_spec]. split; [now left|]. split; [exact E5 | auto].
      * match goal with
        | |- context [emit s5 ?o5] =>
            apply chain_spec_ext with (s1 := emit s5 o5); [ext_tac|];
            apply IH; apply Hfuel4; ext_tac
        end.
    + apply chain_spec_ext with (s1 := s4); [exact E4|].
      apply IH. apply Hfuel4, ext_refl.
  - (* return -1 *)
    cbn [attr_spec] in Ha. destruct Ha as [Ha Herr]. cbn [chain_spec].
    split; [now left|]. split; [now apply ext_trans with (b := s2)|].
    intros _. now apply errs_ext_l with (b := s2).
  - cbn [attr_spec] in Ha. cbn [chain_spec].
    destruct Ha as [Ha|Ha]; [now left|]. right. intros Hb. apply Ha.
    rewrite B2, En2. lia.
  - cbn [attr_spec] in Ha. cbn [chain_spec]. rewrite S2 in Ha.
    destruct Ha as [Ha | [Ha | Ha]]; auto.
    right. right. intros Ht. apply Ha. rewrite Forall_forall in Ht.
    apply Ht. subst abbrev. apply nth_In.
    subst s1. cbn [ws_abbrevs emit set_ctx] in *. lia.
  - exact Ha.
Qed.

Lemma read_die_chain_spec (is_rel : bool) (ctx : read_ctx) (c : cu)
  (abbrevs : abbrev_table) (strings : option (list Z))
  (dwarf_64 addr_64 : bool) (local_die_refs : option ref_record)
  (strings_coverage : option coverage) (reloc : option relocation_data)
  (cu_cov : cu_coverage) :
  chain_spec relocate_one strings
             (mk_walk ctx c abbrevs local_die_refs strings_coverage reloc
                      cu_cov [])
             (read_die_chain table relocate_one uninit is_rel ctx c abbrevs
                             strings dwarf_64 addr_64 local_die_refs
                             strings_coverage reloc cu_cov).
Proof.
  unfold read_die_chain. apply die_loop_spec. cbn [ws_ctx]. lia.
Qed.

Lemma accounted_quiet (o : list call) :
  quiet_relocate_one relocate_one ->
  Forall (accounted relocate_one) o ->
  forallb (fun c => negb (is_no_sibling c)) o = true.
Proof.
  intros Hq Ho. apply forallb_forall. intros c Hc.
  rewrite Forall_forall in Ho. destruct (Ho c Hc) as [Hn|Hr].
  - now rewrite Hn.
  - destruct Hr as (rd & r & width & value & wh & target & Hin).
    specialize (Hq rd r width value wh target).
    rewrite forallb_forall in Hq. now apply Hq.
Qed.


(** X22.  [read_die_chain] never issues the message that a DIE had
    children but no DW_AT_sibling attribute: the local [prev_abbrev]
    that guards the message is never assigned.  ([relocate_one] is
    taken not to issue a message with this text.) *)
Theorem read_die_chain_no_sibling_message (is_rel : bool) (ctx : read_ctx)
  (c : cu) (abbrevs : abbrev_table) (strings : option (list Z))
  (dwarf_64 addr_64 : bool) (local_die_refs : option ref_record)
  (strings_coverage : option coverage) (reloc : option relocation_data)
  (cu_cov : cu_coverage) :
  quiet_relocate_one relocate_one ->
  match read_die_chain table relocate_one uninit is_rel ctx c abbrevs strings
                       dwarf_64 addr_64 local_die_refs strings_coverage reloc
                       cu_cov with
  | Ret (_, s') =>
      forallb (fun d => negb (is_no_sibling d)) (ws_out s') = true
  | _ => True
  end.
Proof.
  intros Hq.
  pose proof (read_die_chain_spec is_rel ctx c abbrevs strings dwarf_64
                addr_64 local_die_refs strings_coverage reloc cu_cov) as Hc.
  destruct (read_die_chain _ _ _ _ _ _ _ _ _ _ _ _ _ _)
    as [[st s']|msg|what|]; auto.
  destruct Hc as (_ & (_ & _ & _ & _ & _ & o & Ho & Hacc) & _).
  cbn [ws_out app] in Ho. rewrite Ho. now apply accounted_quiet.
Qed.

(** X23.  What [read_die_chain] keeps: the header of the unit (its
    offset, length, address size and coordinate), every DIE offset
    recorded before, the strictly ascending order of the DIE offsets,
    the abbreviations up to their marks [used], and a cursor that only
    moves forward over the same bytes and stays inside them. *)
Theorem read_die_chain_keeps (is_rel : bool) (ctx : read_ctx) (c : cu)
  (abbrevs : abbrev_table) (strings : option (list Z))
  (dwarf_64 addr_64 : bool) (local_die_refs : option ref_record)
  (strings_coverage : option coverage) (reloc : option relocation_data)
  (cu_cov : cu_coverage) :
  match read_die_chain table relocate_one uninit is_rel ctx c abbrevs strings
                       dwarf_64 addr_64 local_die_refs strings_coverage reloc
                       cu_cov with
  | Ret (_, s') =>
      same_unit c (ws_cu s')
      /\ die_addrs_grow c (ws_cu s')
      /\ same_abbrevs abbrevs (ws_abbrevs s')
      /\ forward ctx (ws_ctx s')
  | _ => True
  end.
Proof.
  pose proof (read_die_chain_spec is_rel ctx c abbrevs strings dwarf_64
                addr_64 local_die_refs strings_coverage reloc cu_cov) as Hc.
  destruct (read_die_chain _ _ _ _ _ _ _ _ _ _ _ _ _ _)
    as [[st s']|msg|what|]; auto.
  destruct Hc as (_ & (F & U & D & A & _) & _). auto.
Qed.


(** X25.  [read_die_chain] does not fail in silence: when it returns
    -1 it has issued an error. *)
Theorem read_die_chain_failure_reported (is_rel : bool) (ctx : read_ctx)
  (c : cu) (abbrevs : abbrev_table) (strings : option (list Z))
  (dwarf_64 addr_64 : bool) (local_die_refs : option ref_record)
  (strings_coverage : option coverage) (reloc : option relocation_data)
  (cu_cov : cu_coverage) :
  match read_die_chain table relocate_one uninit is_rel ctx c abbrevs strings
                       dwarf_64 addr_64 local_die_refs strings_coverage reloc
                       cu_cov with
  | Ret (st, s') =>
      if st =? -1 then existsb is_error (ws_out s') = true else True
  | _ => True
  end.
Proof.
  pose proof (read_die_chain_spec is_rel ctx c abbrevs strings dwarf_64
                addr_64 local_die_refs strings_coverage reloc cu_cov) as Hc.
  destruct (read_die_chain _ _ _ _ _ _ _ _ _ _ _ _ _ _)
    as [[st s']|msg|what|]; auto.
  destruct Hc as (_ & _ & Herr).
  destruct (Z.eqb_spec st (-1)) as [E|E]; [|exact I].
  destruct (Herr E) as (o & Ho & He). cbn [ws_out app] in Ho. now rewrite Ho.
Qed.

End Walk.


(** The same unit: its first DIE has children and no sibling
    attribute, and another DIE follows it. *)
Lemma read_die_chain_no_sibling_message_witness :
  quiet_relocate_one Examples.example_relocate_one
  /\ match read_die_chain (H := example_categories)
             Examples.example_opcode_operands Examples.example_relocate_one
             0 false DieSamples.sample_ctx DieSamples.sample_cu
             DieSamples.sample_abbrevs None false false (Some []) None None
             (mk_cu_coverage [] false) with
     | Ret (_, s') =>
         forallb (fun d => negb (is_no_sibling d)) (ws_out s') = true
     | _ => True
     end.
Proof.
  assert (Hq : quiet_relocate_one Examples.example_relocate_one)
    by (intros rd r width value wh target; reflexivity).
  split; [exact Hq|].
  apply (read_die_chain_no_sibling_message (H := example_categories)).
  exact Hq.
Defined.


End DieChainFacts.
(** ** The pass over .debug_aranges *)

Module ArangesFacts.
Import Diagnostics ReadCtx Checked AddrRecord Relocation Dwarf Coverage CU
  Info Pub DieChain DieChainSpec DieChainFacts Aranges ArangesSpec.














Section Tables.
Context `{MessageCategories}.
Variable relocate_one :
  relocation_data -> relocation -> Z -> Z -> where_ -> section_id ->
  Z * option Z * list call.
Variable compare_coverage : coverage -> coverage -> list call.












(** X29.  A table of version 2 that refers to a unit of the chain,
    with an address size byte [a] for which [2 * a] is 0 in eight
    bits (0 or 128) and the segment size 0: [check_aranges_structural]
    computes [off % tuple_size] with the tuple size 0. *)
Theorem check_table_zero_tuple_size (f : flags) (is_rel dwarf_64 : bool)
  (size ctx_begin : Z) (s : table_state) (c1 c2 c3 c4 : read_ctx)
  (o a : Z) (c : cu) :
  read_ctx_read_2ubyte (ts_ctx s) = Some (2, c1) ->
  read_ctx_read_offset c1 dwarf_64 = Some (o, c2) ->
  rd_rel (ts_rel s) = [] ->
  cu_find_cu (ts_chain s) o = Some c ->
  read_ctx_read_ubyte c2 = Some (a, c3) ->
  (2 * a) mod 256 = 0 ->
  read_ctx_read_ubyte c3 = Some (0, c4) ->
  check_table relocate_one f is_rel dwarf_64 size ctx_begin s
  = Undefined "off % tuple_size".
Proof.
  intros E1 E2 Erel Ecu E3 Ha E4. unfold check_table.
  rewrite E1. cbn [supported_version existsb Z.eqb Pos.eqb orb negb].
  cbn [with_ctx emit ts_ctx ts_rel]. rewrite E2.
  unfold relocation_next. cbn [with_ctx ts_rel]. rewrite Erel.
  unfold refer_unit.
  cbn [with_ctx with_rel emit ts_chain ts_ctx ts_where ts_rel ts_out
       ts_retval ts_coverage].
  rewrite Ecu.
  destruct (ts_chain s) as [|it rest] eqn:Ech; [discriminate|].
  destruct (has_arange c);
    cbn [with_ctx with_rel with_where with_chain emit fail ts_chain ts_ctx
         ts_where ts_rel ts_out ts_retval ts_coverage];
    rewrite E3;
    destruct (negb (a =? address_size c));
    cbn [with_ctx with_rel with_where with_chain emit fail ts_chain ts_ctx
         ts_where ts_rel ts_out ts_retval ts_coverage];
    rewrite E4; cbn [Z.eqb negb]; unfold check_tuples; rewrite Ha;
    reflexivity.
Qed.

End Tables.


(** The table [zero_address_size_table], which refers to the unit
    at offset 0. *)
Lemma check_table_zero_tuple_size_witness :
  let ctx := read_ctx_init false zero_address_size_table in
  let s :=
    mk_table_state (set_ptr ctx 4) true (WHERE sec_aranges None)
                   (mk_reloc [] SHT_REL 0 0) [unit_at_0] None [] in
  read_ctx_read_2ubyte (ts_ctx s) = Some (2, set_ptr ctx 6)
  /\ read_ctx_read_offset (set_ptr ctx 6) false = Some (0, set_ptr ctx 10)
  /\ rd_rel (ts_rel s) = []
  /\ cu_find_cu (ts_chain s) 0 = Some unit_at_0
  /\ read_ctx_read_ubyte (set_ptr ctx 10) = Some (0, set_ptr ctx 11)
  /\ (2 * 0) mod 256 = 0
  /\ read_ctx_read_ubyte (set_ptr ctx 11) = Some (0, set_ptr ctx 12)
  /\ check_table (H := example_categories) Examples.example_relocate_one
                 no_flags false false 8 0 s
     = Undefined "off % tuple_size".
Proof.
  cbv zeta.
  repeat (split; [reflexivity|]).
  apply (check_table_zero_tuple_size (H := example_categories)
           Examples.example_relocate_one no_flags false false 8 0 _
           (set_ptr (read_ctx_init false zero_address_size_table) 6)
           (set_ptr (read_ctx_init false zero_address_size_table) 10)
           (set_ptr (read_ctx_init false zero_address_size_table) 11)
           (set_ptr (read_ctx_init false zero_address_size_table) 12)
           0 0 unit_at_0); reflexivity.
Defined.

(** The same table as the whole of .debug_aranges: the pass divides
    by zero. *)
Example zero_address_size_divides :
  check_aranges_structural (H := example_categories)
    Examples.example_relocate_one (fun _ _ => []) no_flags false false
    (aranges_sec zero_address_size_table) [unit_at_0] None
  = Undefined "off % tuple_size".
Proof. vm_compute. reflexivity. Qed.

(** The table [closed_table] passes without a diagnostic. *)
Example closed_table_passes :
  check_aranges_structural (H := example_categories)
    Examples.example_relocate_one (fun _ _ => []) no_flags false false
    (aranges_sec closed_table) [] None
  = Ret (mk_aranges_result true (aranges_sec closed_table) [] []).
Proof. vm_compute. reflexivity. Qed.

End ArangesFacts.

(** ** Alignment padding *)

Module AlignmentFacts.
Import Alignment.

(** X20.  What [necessary_alignment] lets pass as padding: a stretch
    that is not empty qualifies only if the alignment is at least 2,
    the stretch is shorter than the alignment and it ends on a
    multiple of it; no address of such a stretch is itself a multiple
    of the alignment, so the stretch is no longer than what it takes
    to reach the next boundary. *)
Theorem necessary_alignment_minimal (start length align : Z) :
  0 <= start -> 0 < length -> start + length < 2 ^ 64 ->
  necessary_alignment start length align = true ->
  2 <= align /\ length < align /\ (start + length) mod align = 0
  /\ forall a, start <= a < start + length -> a mod align <> 0.
Proof.
  intros Hs Hl Hfit Hn. unfold necessary_alignment, address_aligned in Hn.
  apply andb_true_iff in Hn. destruct Hn as [Ha Hlt].
  apply Z.ltb_lt in Hlt.
  assert (Hw : wrap64 (start + length) = start + length).
  { unfold wrap64, UINT64_MOD. apply Z.mod_small. lia. }
  rewrite Hw in Ha. apply orb_true_iff in Ha.
  destruct Ha as [Ha|Ha]; [apply Z.ltb_lt in Ha; lia|].
  apply Z.eqb_eq in Ha.
  assert (H2 : 2 <= align) by lia.
  repeat split; auto.
  intros a Hr Hz.
  apply Z.mod_divide in Ha; [|lia]. apply Z.mod_divide in Hz; [|lia].
  destruct Ha as [k Hk], Hz as [j Hj].
  assert (Hjk : j < k) by nia.
  assert (Hstep : (j + 1) * align <= k * align) by nia.
  lia.
Qed.

Lemma necessary_alignment_minimal_witness :
  necessary_alignment 13 3 8 = true
  /\ forall a, 13 <= a < 13 + 3 -> a mod 8 <> 0.
Proof.
  split; [reflexivity|].
  apply (necessary_alignment_minimal 13 3 8); (lia || reflexivity).
Defined.

End AlignmentFacts.
